(** * joob: Operation, Job and Queue as explicit state machines

    A shallow embedding of [Operation.ts], [Job.ts] and [Queue.ts].

    The TypeScript code is event driven: timers ([setTimeout]) and promise
    settlements call back into the objects, and the callbacks mutate the
    objects in place. The embedding makes that explicit:

    - every [Operation] object of a Job lives in a store ([Job.heap]); the
      backlog, the in-flight map, the completed list and the id index hold
      references (positions in the store), so aliasing is preserved;
    - the [EventEmitter] of an operation is the number of [once] listeners
      the Job has registered per event; all listeners the Job registers for
      one event of one operation run the same code, so a count is enough;
    - pending [setTimeout] callbacks are a list of [Timer]s; an attempt of
      the transform is in flight exactly while the operation is [STARTED];
    - the environment picks which timer fires next and how an attempt
      settles ([Event]); [Job.step] is the callback that then runs;
    - a plain object used as a map is the finite map of its properties.
      Under the key [__proto__] JavaScript reads and writes the
      prototype of the object instead of a property: the id index and
      the in-flight map of a Job follow it in that ([Job.assign],
      [Job.setCurrent], [Job.current]); the job index of the Queue is
      read as a map, which is what the code does for the names of
      [Queue.ownLookup].

    Two fields are ghost state, added to state the properties: the signal
    log ([Job.log]) and the number of times the transform was invoked
    ([Operation.executions]). Wall-clock fields ([startTime] and the two
    estimates derived from it) are left out. *)

From stdpp Require Import gmap strings list fin_maps.
From Stdlib Require Import ZArith Lia.

Local Open Scope Z_scope.

(** A JavaScript value of type [any] that the library only stores and
    forwards (operation data, results, failure reasons). *)
Definition Value := string.

(** [STATUSES] of index.ts. *)
Inductive Status := PENDING | STARTED | COMPLETED | FAILED.

#[global] Instance Status_eq_dec : EqDecision Status.
Proof. solve_decision. Defined.

(** A value that may be [undefined]: [None]. *)
Definition defined (v : string) : option Value := Some v.
Coercion defined : string >-> option.

(** How one invocation of the transform settles its promise: it is
    resolved with a value or rejected with a reason, either of which may
    be [undefined]. *)
Inductive Outcome := Resolve (v : option Value) | Reject (e : option Value).

(** [Events] of Operation.ts. *)
Inductive OperationEvent :=
  OPERATION_STARTED | OPERATION_COMPLETED | OPERATION_FAILED.

#[global] Instance OperationEvent_eq_dec : EqDecision OperationEvent.
Proof. solve_decision. Defined.

(** [Events] of Job.ts. *)
Inductive JobEvent := JOB_STARTED | JOB_COMPLETED.

#[global] Instance JobEvent_eq_dec : EqDecision JobEvent.
Proof. solve_decision. Defined.

(** ** Operation *)
Module Operation.

(** [events: EventEmitter], as far as the library uses it: how many
    [once] listeners are registered for each event. *)
Record Emitter := {
  onceStarted : nat;
  onceCompleted : nat;
  onceFailed : nat
}.

Definition listenerCount (ev : OperationEvent) (e : Emitter) : nat :=
  match ev with
  | OPERATION_STARTED => onceStarted e
  | OPERATION_COMPLETED => onceCompleted e
  | OPERATION_FAILED => onceFailed e
  end.

(** [events.once(ev, listener)] *)
Definition once (ev : OperationEvent) (e : Emitter) : Emitter :=
  match ev with
  | OPERATION_STARTED =>
      {| onceStarted := S (onceStarted e);
         onceCompleted := onceCompleted e; onceFailed := onceFailed e |}
  | OPERATION_COMPLETED =>
      {| onceStarted := onceStarted e;
         onceCompleted := S (onceCompleted e); onceFailed := onceFailed e |}
  | OPERATION_FAILED =>
      {| onceStarted := onceStarted e;
         onceCompleted := onceCompleted e; onceFailed := S (onceFailed e) |}
  end.

(** A [once] listener removes itself when it is called. *)
Definition removeOnce (ev : OperationEvent) (e : Emitter) : Emitter :=
  match ev with
  | OPERATION_STARTED =>
      {| onceStarted := Nat.pred (onceStarted e);
         onceCompleted := onceCompleted e; onceFailed := onceFailed e |}
  | OPERATION_COMPLETED =>
      {| onceStarted := onceStarted e;
         onceCompleted := Nat.pred (onceCompleted e);
         onceFailed := onceFailed e |}
  | OPERATION_FAILED =>
      {| onceStarted := onceStarted e;
         onceCompleted := onceCompleted e;
         onceFailed := Nat.pred (onceFailed e) |}
  end.

Record t := {
  id : string;              (* the id, as the property key it is used as *)
  data : Value;
  status : Status;
  events : Emitter;
  result : option Value;    (* [None] is the constructor's [undefined] *)
  timesFailed : Z;
  executions : nat          (* ghost: calls of [this.execute()] *)
}.

(** [constructor(id, resolver, data)] *)
Definition new (id : string) (data : Value) : t :=
  {| id := id; data := data; status := PENDING;
     events := {| onceStarted := 0; onceCompleted := 0; onceFailed := 0 |};
     result := None; timesFailed := 0; executions := 0 |}.

Definition set_events (e : Emitter) (op : t) : t :=
  {| id := id op; data := data op; status := status op; events := e;
     result := result op; timesFailed := timesFailed op;
     executions := executions op |}.

(** [start()]: the state change and the signals it emits, in order.
    Invoking the transform is the ghost increment; the promise it
    returns is pending until the environment settles it. *)
Definition start (op : t) : t * list OperationEvent :=
  if decide (status op = STARTED) then (op, [])
  else ({| id := id op; data := data op; status := STARTED;
           events := events op; result := result op;
           timesFailed := timesFailed op;
           executions := S (executions op) |},
        [OPERATION_STARTED]).

(** The [.then] and [.catch] callbacks of [start()]. *)
Definition settle (o : Outcome) (op : t) : t * list OperationEvent :=
  match o with
  | Resolve v =>
      ({| id := id op; data := data op; status := COMPLETED;
          events := events op; result := v;
          timesFailed := timesFailed op; executions := executions op |},
       [OPERATION_COMPLETED])
  | Reject e =>
      ({| id := id op; data := data op; status := FAILED;
          events := events op; result := e;
          timesFailed := timesFailed op + 1;
          executions := executions op |},
       [OPERATION_FAILED; OPERATION_FAILED])
  end.

Record Export := {
  export_id : string;
  export_data : Value;
  export_status : Status;
  export_result : option Value
}.

(** [export()] *)
Definition export (op : t) : Export :=
  {| export_id := id op; export_data := data op;
     export_status := status op; export_result := result op |}.

Definition terminal (s : Status) : bool :=
  match s with COMPLETED | FAILED => true | _ => false end.

(** What can happen to an operation after its construction: [start()]
    is called, or the attempt in flight settles. *)
Inductive Call := Start | Settled (o : Outcome).

Definition call (op : t) (c : Call) : t :=
  match c with
  | Start => (start op).1
  | Settled o =>
      if decide (status op = STARTED) then (settle o op).1 else op
  end.

(** The operation [new id data] after a history of calls. *)
Definition lifetime (id : string) (data : Value) (calls : list Call) : t :=
  foldl call (new id data) calls.

(** The invariant of the data model, as the specification words it. *)
Definition result_iff_terminal (op : t) : Prop :=
  is_Some (result op) ↔ terminal (status op) = true.

(** What a settlement hands over: the value or the reason. *)
Definition payload (o : Outcome) : option Value :=
  match o with Resolve v => v | Reject e => e end.

(** A history of calls told by attempts rather than by the fields of the
    object: [start()] begins an attempt unless one is in flight, and a
    settlement ends the attempt in flight. *)
Record Attempts := {
  begun : nat;            (* attempts begun *)
  inFlight : bool;        (* the last of them has not settled *)
  ended : list Outcome    (* how the others settled, the latest first *)
}.

Definition attempt (a : Attempts) (c : Call) : Attempts :=
  match c with
  | Start =>
      if inFlight a then a
      else {| begun := S (begun a); inFlight := true; ended := ended a |}
  | Settled o =>
      if inFlight a
      then {| begun := begun a; inFlight := false; ended := o :: ended a |}
      else a
  end.

Definition attempts (calls : list Call) : Attempts :=
  foldl attempt {| begun := 0; inFlight := false; ended := [] |} calls.

(** The status and the result that the attempts account for. *)
Definition statusOf (a : Attempts) : Status :=
  if inFlight a then STARTED
  else match ended a with
       | [] => PENDING
       | Resolve _ :: _ => COMPLETED
       | Reject _ :: _ => FAILED
       end.

Definition resultOf (a : Attempts) : option Value :=
  match ended a with
  | [] => None
  | o :: _ => payload o
  end.

End Operation.

(** ** Job *)
Module Job.

(** A callback handed to [setTimeout], with its delay in ms. *)
Inductive Timer :=
| TDispatch (delay : Z)             (* () => this.startNextOperation(true) *)
| TStart (ref : nat) (delay : Z).   (* () => newOperation.start() *)

(** Ghost log of what the objects emit and schedule. *)
Inductive Signal :=
| OpEmit (ref : nat) (ev : OperationEvent)    (* operation.events.emit(ev, id) *)
| JobEmit (ev : JobEvent)                     (* job.events.emit(ev, name) *)
| JobOpEmit (ev : OperationEvent) (id : string) (* job.events.emit(ev, id, name) *)
| SetTimeout (t : Timer).

#[global] Instance Timer_eq_dec : EqDecision Timer.
Proof. solve_decision. Defined.

#[global] Instance Signal_eq_dec : EqDecision Signal.
Proof. solve_decision. Defined.

Record t := {
  name : string;
  maxConcurrentOperations : Z;
  maxFailuresPerOperation : Z;
  cooldown : Z;
  throttle : Z;
  status : Status;
  heap : list Operation.t;              (* the Operation objects *)
  operationIndex : gmap string nat;     (* the properties of the id index *)
  currentOperations : gmap string nat;  (* those of the in-flight map *)
  currentPrototype : option nat;        (* and its prototype, where an
                                           operation was made that *)
  numCurrentOperations : Z;
  queuedOperations : list nat;
  completedOperations : list (option nat);  (* [None]: no operation *)
  timers : list Timer;
  log : list Signal
}.

(** [JobParams], the fields the constructor reads. *)
Record Params := {
  dataToId : Value → nat → string;
  p_maxConcurrentOperations : Z;
  p_maxFailuresPerOperation : Z;
  p_cooldown : Z;
  p_throttle : Z
}.

Definition with_heap (h : list Operation.t) (j : t) : t :=
  {| name := name j; maxConcurrentOperations := maxConcurrentOperations j;
     maxFailuresPerOperation := maxFailuresPerOperation j;
     cooldown := cooldown j; throttle := throttle j; status := status j;
     heap := h; operationIndex := operationIndex j;
     currentOperations := currentOperations j;
     currentPrototype := currentPrototype j;
     numCurrentOperations := numCurrentOperations j;
     queuedOperations := queuedOperations j;
     completedOperations := completedOperations j;
     timers := timers j; log := log j |}.

Definition with_status (s : Status) (j : t) : t :=
  {| name := name j; maxConcurrentOperations := maxConcurrentOperations j;
     maxFailuresPerOperation := maxFailuresPerOperation j;
     cooldown := cooldown j; throttle := throttle j; status := s;
     heap := heap j; operationIndex := operationIndex j;
     currentOperations := currentOperations j;
     currentPrototype := currentPrototype j;
     numCurrentOperations := numCurrentOperations j;
     queuedOperations := queuedOperations j;
     completedOperations := completedOperations j;
     timers := timers j; log := log j |}.

Definition with_current (c : gmap string nat) (n : Z) (j : t) : t :=
  {| name := name j; maxConcurrentOperations := maxConcurrentOperations j;
     maxFailuresPerOperation := maxFailuresPerOperation j;
     cooldown := cooldown j; throttle := throttle j; status := status j;
     heap := heap j; operationIndex := operationIndex j;
     currentOperations := c; currentPrototype := currentPrototype j;
     numCurrentOperations := n;
     queuedOperations := queuedOperations j;
     completedOperations := completedOperations j;
     timers := timers j; log := log j |}.

Definition with_prototype (r : option nat) (j : t) : t :=
  {| name := name j; maxConcurrentOperations := maxConcurrentOperations j;
     maxFailuresPerOperation := maxFailuresPerOperation j;
     cooldown := cooldown j; throttle := throttle j; status := status j;
     heap := heap j; operationIndex := operationIndex j;
     currentOperations := currentOperations j; currentPrototype := r;
     numCurrentOperations := numCurrentOperations j;
     queuedOperations := queuedOperations j;
     completedOperations := completedOperations j;
     timers := timers j; log := log j |}.

Definition with_queued (q : list nat) (j : t) : t :=
  {| name := name j; maxConcurrentOperations := maxConcurrentOperations j;
     maxFailuresPerOperation := maxFailuresPerOperation j;
     cooldown := cooldown j; throttle := throttle j; status := status j;
     heap := heap j; operationIndex := operationIndex j;
     currentOperations := currentOperations j;
     currentPrototype := currentPrototype j;
     numCurrentOperations := numCurrentOperations j;
     queuedOperations := q;
     completedOperations := completedOperations j;
     timers := timers j; log := log j |}.

Definition with_completed (c : list (option nat)) (j : t) : t :=
  {| name := name j; maxConcurrentOperations := maxConcurrentOperations j;
     maxFailuresPerOperation := maxFailuresPerOperation j;
     cooldown := cooldown j; throttle := throttle j; status := status j;
     heap := heap j; operationIndex := operationIndex j;
     currentOperations := currentOperations j;
     currentPrototype := currentPrototype j;
     numCurrentOperations := numCurrentOperations j;
     queuedOperations := queuedOperations j;
     completedOperations := c;
     timers := timers j; log := log j |}.

Definition with_timers (ts : list Timer) (j : t) : t :=
  {| name := name j; maxConcurrentOperations := maxConcurrentOperations j;
     maxFailuresPerOperation := maxFailuresPerOperation j;
     cooldown := cooldown j; throttle := throttle j; status := status j;
     heap := heap j; operationIndex := operationIndex j;
     currentOperations := currentOperations j;
     currentPrototype := currentPrototype j;
     numCurrentOperations := numCurrentOperations j;
     queuedOperations := queuedOperations j;
     completedOperations := completedOperations j;
     timers := ts; log := log j |}.

Definition with_log (l : list Signal) (j : t) : t :=
  {| name := name j; maxConcurrentOperations := maxConcurrentOperations j;
     maxFailuresPerOperation := maxFailuresPerOperation j;
     cooldown := cooldown j; throttle := throttle j; status := status j;
     heap := heap j; operationIndex := operationIndex j;
     currentOperations := currentOperations j;
     currentPrototype := currentPrototype j;
     numCurrentOperations := numCurrentOperations j;
     queuedOperations := queuedOperations j;
     completedOperations := completedOperations j;
     timers := timers j; log := l |}.

Definition record (s : Signal) (j : t) : t := with_log (log j ++ [s]) j.

(** [setTimeout(callback, delay)] *)
Definition setTimeout (tm : Timer) (j : t) : t :=
  record (SetTimeout tm) (with_timers (timers j ++ [tm]) j).

(** [index[id] = operation] on the plain object [index], of which [m]
    holds the properties: the key [__proto__] names the prototype of
    the object, so the assignment gives it that prototype and no
    property. *)
Definition assign (id : string) (ref : nat) (m : gmap string nat)
    : gmap string nat :=
  if decide (id = "__proto__") then m else <[id := ref]> m.

(** [this.operationIndex[id] = operation], for every element in order:
    a later element with the same id overwrites an earlier one. The
    index is read by [Object.values] only, which lists the properties
    and nothing of the prototype. *)
Fixpoint index_from (k : nat) (ops : list Operation.t)
    (m : gmap string nat) : gmap string nat :=
  match ops with
  | [] => m
  | op :: rest => index_from (S k) rest (assign (Operation.id op) k m)
  end.

(** [constructor(name, resolver, data, params)] *)
Definition new (name : string) (data : list Value) (p : Params) : t :=
  let ops := imap (λ index d, Operation.new (dataToId p d index) d) data in
  {| name := name;
     maxConcurrentOperations := p_maxConcurrentOperations p;
     maxFailuresPerOperation := p_maxFailuresPerOperation p;
     cooldown := p_cooldown p; throttle := p_throttle p;
     status := PENDING;
     heap := ops;
     operationIndex := index_from 0 ops ∅;
     currentOperations := ∅;
     currentPrototype := None;
     numCurrentOperations := 0;
     queuedOperations := seq 0 (length data);
     completedOperations := [];
     timers := []; log := [] |}.

(** [emit(status)] and [emitOperation(status, operationId)] *)
Definition emit (ev : JobEvent) (j : t) : t := record (JobEmit ev) j.
Definition emitOperation (ev : OperationEvent) (id : string) (j : t) : t :=
  record (JobOpEmit ev id) j.

Definition isFull (j : t) : bool :=
  numCurrentOperations j >=? maxConcurrentOperations j.

Definition hasPending (j : t) : bool :=
  (0 <? length (queuedOperations j))%nat.

Definition isComplete (j : t) : bool :=
  bool_decide (numCurrentOperations j = 0) && negb (hasPending j).

(** [this.currentOperations[id]]: the property [id] of the in-flight
    map or, for [__proto__], its prototype. [None] stands for what is no
    operation: [undefined], or what the prototype holds under [id]. *)
Definition current (j : t) (id : string) : option nat :=
  if decide (id = "__proto__") then currentPrototype j
  else currentOperations j !! id.

(** [this.currentOperations[id] = operation]: a property is set, or
    for [__proto__] the prototype. *)
Definition setCurrent (id : string) (ref : nat) (j : t) : t :=
  with_prototype
    (if decide (id = "__proto__") then Some ref else currentPrototype j)
    (with_current (assign id ref (currentOperations j))
                  (numCurrentOperations j) j).

(** The block of [startNextOperation] that takes on [newOperation] (already
    shifted off the backlog): it enters the in-flight map, the counter is
    incremented, three [once] listeners are registered on it and its
    [start()] is scheduled after [timesFailed * throttle] ms. *)
Definition dispatch (ref : nat) (op : Operation.t) (j : t) : t :=
  let j := setCurrent (Operation.id op) ref j in
  let j := with_current (currentOperations j) (numCurrentOperations j + 1) j in
  let ev := Operation.once OPERATION_FAILED
              (Operation.once OPERATION_COMPLETED
                 (Operation.once OPERATION_STARTED (Operation.events op))) in
  let j := with_heap (<[ref := Operation.set_events ev op]> (heap j)) j in
  setTimeout (TStart ref (Operation.timesFailed op * throttle j)) j.

(** [startNextOperation(cooled)]. The recursive call at the end of the
    source is on a backlog one element shorter; [fuel] bounds the
    recursion depth and [startNextOperation] gives it the backlog's
    length, which is never used up ([startNextOperation_unfold]). *)
Fixpoint startNextOperation_rec (fuel : nat) (cooled : bool) (j : t) : t :=
  if bool_decide (cooldown j ≠ 0) && negb cooled then
    setTimeout (TDispatch (cooldown j)) j
  else if isFull j then j
  else if isComplete j then
    if decide (status j = COMPLETED) then j
    else emit JOB_COMPLETED (with_status COMPLETED j)
  else
    match queuedOperations j with
    | [] => j
    | ref :: rest =>
        match heap j !! ref with
        | None => j
        | Some op =>
            let j := dispatch ref op (with_queued rest j) in
            match fuel with
            | O => j
            | S fuel => startNextOperation_rec fuel false j
            end
        end
    end.

Definition startNextOperation (cooled : bool) (j : t) : t :=
  startNextOperation_rec (length (queuedOperations j)) cooled j.

(** [handleOperationComplete(id, final)]; [delete] removes a property
    and leaves the prototype alone. *)
Definition handleOperationComplete (id : string) (final : bool) (j : t) : t :=
  let operation := current j id in
  let j := if final
           then with_completed (completedOperations j ++ [operation]) j
           else j in
  let j := with_current (delete id (currentOperations j))
                        (numCurrentOperations j - 1) j in
  startNextOperation false j.

(** The three listeners [startNextOperation] registers on [newOperation]
    (the operation at [ref]); [id] is the argument the emitter passes. *)
Definition listener (ev : OperationEvent) (ref : nat) (id : string)
    (j : t) : t :=
  match ev with
  | OPERATION_STARTED => emitOperation OPERATION_STARTED id j
  | OPERATION_COMPLETED =>
      handleOperationComplete id true
        (emitOperation OPERATION_COMPLETED id j)
  | OPERATION_FAILED =>
      let j := emitOperation OPERATION_FAILED id j in
      match heap j !! ref with
      | None => j
      | Some newOperation =>
          if bool_decide (Operation.timesFailed newOperation
                          < maxFailuresPerOperation j)
          then handleOperationComplete id false
                 (with_queued (queuedOperations j ++ [ref]) j)
          else handleOperationComplete id true j
      end
  end.

(** One registered [once] listener of the operation at [ref] is called:
    it is removed from the emitter, then it runs. *)
Definition callOnce (ev : OperationEvent) (ref : nat) (id : string)
    (j : t) : t :=
  match heap j !! ref with
  | None => j
  | Some op =>
      let e := Operation.removeOnce ev (Operation.events op) in
      listener ev ref id
        (with_heap (<[ref := Operation.set_events e op]> (heap j)) j)
  end.

Fixpoint callListeners (n : nat) (ev : OperationEvent) (ref : nat)
    (id : string) (j : t) : t :=
  match n with
  | O => j
  | S n => callListeners n ev ref id (callOnce ev ref id j)
  end.

(** [Operation.emit(ev)], i.e. [this.events.emit(ev, this.id)]: the
    listeners registered when [emit] is called are called in turn; one
    added meanwhile waits for the next [emit]. *)
Definition operationEmit (ref : nat) (ev : OperationEvent) (j : t) : t :=
  match heap j !! ref with
  | None => j
  | Some op =>
      callListeners (Operation.listenerCount ev (Operation.events op))
        ev ref (Operation.id op) (record (OpEmit ref ev) j)
  end.

Definition operationEmitAll (ref : nat) (evs : list OperationEvent)
    (j : t) : t :=
  foldl (λ j ev, operationEmit ref ev j) j evs.

(** [operation.start()] on the operation at [ref]. *)
Definition operationStart (ref : nat) (j : t) : t :=
  match heap j !! ref with
  | None => j
  | Some op =>
      let '(op', evs) := Operation.start op in
      operationEmitAll ref evs (with_heap (<[ref := op']> (heap j)) j)
  end.

(** The promise of the attempt in flight at [ref] settles. *)
Definition operationSettle (ref : nat) (o : Outcome) (j : t) : t :=
  match heap j !! ref with
  | None => j
  | Some op =>
      let '(op', evs) := Operation.settle o op in
      operationEmitAll ref evs (with_heap (<[ref := op']> (heap j)) j)
  end.

(** [start()]. The promise it returns only adds a listener for
    JOB_COMPLETED to the job's own emitter. *)
Definition start (j : t) : t :=
  if decide (status j = STARTED) then j
  else startNextOperation false (emit JOB_STARTED (with_status STARTED j)).

Record Export := {
  export_name : string;
  operationsCompleted : nat;
  operations : list Operation.Export
}.

(** [export()]; [Object.values(this.operationIndex)] in the order the
    map enumerates its keys. *)
Definition export (j : t) : Export :=
  {| export_name := name j;
     operationsCompleted := length (completedOperations j);
     operations :=
       omap (λ kv, Operation.export <$> heap j !! kv.2)
            (map_to_list (operationIndex j)) |}.

(** *** The environment *)

Inductive Event :=
| Fire (k : nat)                      (* the k-th pending timer fires *)
| Settle (ref : nat) (o : Outcome).   (* the attempt of [ref] settles *)

Definition runTimer (tm : Timer) (j : t) : t :=
  match tm with
  | TDispatch _ => startNextOperation true j
  | TStart ref _ => operationStart ref j
  end.

Definition step (e : Event) (j : t) : option t :=
  match e with
  | Fire k =>
      match timers j !! k with
      | None => None
      | Some tm => Some (runTimer tm (with_timers (delete k (timers j)) j))
      end
  | Settle ref o =>
      match heap j !! ref with
      | None => None
      | Some op =>
          if decide (Operation.status op = STARTED)
          then Some (operationSettle ref o j)
          else None
      end
  end.

Fixpoint run (sched : list Event) (j : t) : option t :=
  match sched with
  | [] => Some j
  | e :: sched =>
      match step e j with
      | None => None
      | Some j => run sched j
      end
  end.

(** Nothing is pending: no timer, no attempt in flight. *)
Definition quiescent (j : t) : bool :=
  bool_decide (timers j = []) &&
  forallb (λ op, negb (bool_decide (Operation.status op = STARTED))) (heap j).

Definition count_signal (s : Signal) (j : t) : nat :=
  length (filter (λ x, x = s) (log j)).

End Job.

(** ** Queue: the read accessors *)
Module Queue.

Inductive Error :=
| NoExportDirectory       (* new Error("No export directory passed into queue.") *)
| JobNotFound             (* new Error("Job not found.") *)
| FsError (path : string) (* the [err] of an fs callback *)
| JsonSyntaxError         (* thrown by JSON.parse *)
| NoReason.               (* reject() *)

(** A promise: pending until the first [resolve] or [reject]; later
    calls of either have no effect. *)
Inductive Promise (A : Type) :=
| Pending
| Resolved (a : A)
| Rejected (e : Error).
Arguments Pending {A}.
Arguments Resolved {A} a.
Arguments Rejected {A} e.

Definition resolve {A} (a : A) (p : Promise A) : Promise A :=
  match p with Pending => Resolved a | _ => p end.

Definition reject {A} (e : Error) (p : Promise A) : Promise A :=
  match p with Pending => Rejected e | _ => p end.

(** The fields the read accessors use. [jobIndex] holds the jobs that
    were assigned to [this.jobIndex], by name. *)
Record t := {
  jobIndex : gmap string Job.t;
  persistCompletedJobsToDir : option string   (* [None]: undefined *)
}.

(** The names that every plain object answers to without holding them:
    the properties of [Object.prototype]. *)
Definition inherited : list string :=
  ["constructor"; "hasOwnProperty"; "isPrototypeOf"; "propertyIsEnumerable";
   "toLocaleString"; "toString"; "valueOf"; "__proto__";
   "__defineGetter__"; "__defineSetter__";
   "__lookupGetter__"; "__lookupSetter__"].

(** [this.jobIndex[name]] is the job that was assigned under [name], or
    [undefined] when there is none: [name] is not one of the inherited
    names, under which JavaScript finds a property of the prototype, and
    no job named [__proto__] was assigned, which would have become the
    prototype of the index. The accessors below read the index as a map;
    for a lookup that is not [ownLookup] they do not tell what the code
    does. *)
Definition ownLookup (q : t) (name : string) : Prop :=
  (name ∉ inherited) ∧ jobIndex q !! "__proto__" = None.

(** Truthiness of [this.persistCompletedJobsToDir]. *)
Definition hasDir (q : t) : bool :=
  match persistCompletedJobsToDir q with
  | None => false
  | Some d => negb (String.eqb d "")
  end.

(** [`${this.persistCompletedJobsToDir}/${name}.json`] *)
Definition persistedPath (q : t) (name : string) : string :=
  (match persistCompletedJobsToDir q with
   | None => "undefined"
   | Some d => d
   end ++ "/" ++ name ++ ".json")%string.

(** What an [async] executor handed to [new Promise] leaves behind: the
    state of the promise under construction and, when the executor
    threw (a rejected [await] or a [throw]), the error. The executor's
    own promise is dropped by [new Promise], so that error reaches
    nobody and the promise under construction is not touched by it. *)
Record AsyncExecutor (A : Type) := {
  constructed : Promise A;
  thrown : option Error
}.
Arguments constructed {A} _.
Arguments thrown {A} _.

Section Files.
(** The file system: the readable files and their contents. *)
Variable files : gmap string string.
(** [JSON.parse]; [None] when it throws. *)
Variable JSON_parse : string → option Value.

(** [hasJob(name, includePersisted)]: the executor runs to its end
    (no [return] after a [resolve] or [reject]), then the callback
    of [fs.access] runs. *)
Definition hasJob (q : t) (name : string) (includePersisted : bool)
    : Promise bool :=
  let p := Pending in
  let p := match jobIndex q !! name with
           | Some _ => resolve true p
           | None => p
           end in
  if includePersisted then
    let p := if negb (hasDir q) then reject NoExportDirectory p else p in
    resolve (bool_decide (is_Some (files !! persistedPath q name))) p
  else resolve false p.

(** The [fs.readFile] callback of [getJobExport]. *)
Definition readFileCallback (path : string) (p : Promise Value)
    : Promise Value :=
  match files !! path with
  | None =>
      let p := reject (FsError path) p in
      (* String(undefined) *)
      match JSON_parse "undefined" with
      | Some v => resolve v p
      | None => reject JsonSyntaxError p
      end
  | Some contents =>
      match JSON_parse contents with
      | Some v => resolve v p
      | None => reject JsonSyntaxError p
      end
  end.

(** [getJobExport(name, includePersisted)] *)
Definition getJobExport (q : t) (name : string) (includePersisted : bool)
    : AsyncExecutor Value :=
  match hasJob q name includePersisted with
  | Pending => {| constructed := Pending; thrown := None |}
  | Rejected e => {| constructed := Pending; thrown := Some e |}
  | Resolved found =>
      let p := if negb found then reject JobNotFound Pending
               else Pending in
      match jobIndex q !! name with
      | Some job =>
          (* return this.jobIndex[name].export(): the value is dropped *)
          {| constructed := p; thrown := None |}
      | None =>
          if includePersisted then
            if negb (hasDir q)
            then {| constructed := p; thrown := Some NoExportDirectory |}
            else {| constructed := readFileCallback (persistedPath q name) p;
                    thrown := None |}
          else {| constructed := reject NoReason p; thrown := None |}
      end
  end.

(** [fs.readdir]: the entries of a directory, [None] when it fails. *)
Variable readdir : string → option (list string).





(** [JSON.stringify(job.export(), null, 2)] *)
Variable JSON_stringify : Job.Export → string.

(** [exportJobIfNeeded(job)]: the file system once [fs.writeFile] has
    written the file. *)
Definition exportJobIfNeeded (q : t) (job : Job.t) : gmap string string :=
  if hasDir q
  then <[persistedPath q (Job.name job) := JSON_stringify (Job.export job)]>
         files
  else files.
End Files.

End Queue.

(** ** Concrete jobs and schedules used below *)
Module Scenario.
Import Job.

Definition params (maxConcurrent maxFailures cooldown : Z) : Params :=
  {| dataToId := λ d _, d;
     p_maxConcurrentOperations := maxConcurrent;
     p_maxFailuresPerOperation := maxFailures;
     p_cooldown := cooldown;
     p_throttle := 500 |}.

(** One operation that fails on each attempt, no retry. *)
Definition failing : t := new "failing" ["a"] (params 1 1 0).
Definition failing_sched : list Event := [Fire 0; Settle 0 (Reject "err")].

(** The same job after that run. *)
Definition failed : t :=
  Eval vm_compute in default failing (run failing_sched (start failing)).

(** One operation that fails on each attempt, one retry: the first
    attempt fails, the two timers set while that failure is handled
    fire, and the second attempt is in flight. *)
Definition failing2 : t := new "failing2" ["a"] (params 1 2 0).
Definition failing2_sched : list Event :=
  [Fire 0; Settle 0 (Reject "err"); Fire 0; Fire 0].

(** The same job when the second attempt fails before the second of the
    two timers fires: the first timer starts the second attempt, its
    failure uses up the budget, then the other timer fires and the
    attempt it starts fails as well. *)
Definition failing2_late_sched : list Event :=
  [Fire 0; Settle 0 (Reject "err");
   Fire 0; Settle 0 (Reject "err");
   Fire 0; Settle 0 (Reject "err")].

(** Three operations, one at a time, one retry each: every first
    attempt fails, then the second attempt of [a] succeeds and the two
    timers that are pending after that fire. *)
Definition flaky3 : t := new "flaky3" ["a"; "b"; "c"] (params 1 2 0).
Definition flaky3_sched : list Event :=
  [Fire 0; Settle 0 (Reject "err");
   Fire 0; Settle 1 (Reject "err");
   Fire 0; Settle 2 (Reject "err");
   Fire 0; Settle 0 (Resolve "ok");
   Fire 0; Fire 0].

(** Two operations, one at a time, one retry each: every first attempt
    fails, then the second attempt of [a] succeeds. *)
Definition flaky2 : t := new "flaky2" ["a"; "b"] (params 1 2 0).
Definition flaky2_sched : list Event :=
  [Fire 0; Settle 0 (Reject "err");
   Fire 0; Settle 1 (Reject "err");
   Fire 0; Settle 0 (Resolve "ok")].


(** One operation, a cooldown of 10 ms, one retry: the first attempt
    fails, the second succeeds; every timer is fired. *)
Definition cooled : t := new "cooled" ["a"] (params 1 2 10).
Definition cooled_sched : list Event :=
  [Fire 0; Fire 0; Fire 0; Settle 0 (Reject "err");
   Fire 0; Fire 1; Fire 0; Settle 0 (Resolve "ok");
   Fire 0; Fire 0].

(** One operation that succeeds at once, a cooldown of 10 ms. *)
Definition cooled1 : t := new "cooled1" ["a"] (params 1 1 10).
Definition cooled1_sched : list Event :=
  [Fire 0; Fire 0; Fire 0; Settle 0 (Resolve "ok"); Fire 0].

(** A completed job: [cooled1] after its run. *)
Definition done : t :=
  Eval vm_compute in default cooled1 (run cooled1_sched (start cooled1)).

(** A queue without a persistence directory that holds no job. *)
Definition noDir : Queue.t :=
  {| Queue.jobIndex := ∅; Queue.persistCompletedJobsToDir := None |}.

(** An operation restarted after a failed attempt. *)
Definition retrying : Operation.t :=
  Operation.lifetime "a" "a"
    [Operation.Start; Operation.Settled (Reject "err"); Operation.Start].

End Scenario.

(** ** What holds of every run *)

(** Number of JOB_COMPLETED signals the job has emitted. *)
Definition completions (j : Job.t) : nat :=
  Job.count_signal (Job.JobEmit JOB_COMPLETED) j.

(** The backlog and the scheduled [start()] callbacks refer to
    operations of the store. *)
Definition valid (j : Job.t) : Prop :=
  (∀ r, r ∈ Job.queuedOperations j → (r < length (Job.heap j))%nat) ∧
  (∀ r d, Job.TStart r d ∈ Job.timers j → (r < length (Job.heap j))%nat).

(** The counter is within the limit, JOB_COMPLETED was emitted once if
    the job is COMPLETED and not at all if it is not, and the references
    are valid. *)
Definition safe (j : Job.t) : Prop :=
  Job.numCurrentOperations j ≤ Job.maxConcurrentOperations j ∧
  completions j = (if decide (Job.status j = COMPLETED) then 1%nat else 0%nat) ∧
  valid j.

(** The input an operation was made from. *)
Definition input (op : Operation.t) : string * Value :=
  (Operation.id op, Operation.data op).

(** What no callback writes: the limit, the id index and the inputs. *)
Definition stable (j j' : Job.t) : Prop :=
  Job.maxConcurrentOperations j' = Job.maxConcurrentOperations j ∧
  Job.operationIndex j' = Job.operationIndex j ∧
  input <$> Job.heap j' = input <$> Job.heap j.

(** A callback led from [j] to [j']. *)
Definition within (j j' : Job.t) : Prop :=
  stable j j' ∧ (safe j → safe j').

(** ** The retry budget: what is kept invariant for one operation

    The operation in question is the one at position [i] of the store. *)

Definition isStart (i : nat) (tm : Job.Timer) : bool :=
  match tm with
  | Job.TStart r _ => Nat.eqb r i
  | Job.TDispatch _ => false
  end.

(** Pending [start()] callbacks of the operation at [i]. *)
Definition starts (i : nat) (j : Job.t) : nat :=
  length (List.filter (isStart i) (Job.timers j)).

(** How often the operation at [i] stands in the backlog. *)
Definition occurrences (i : nat) (j : Job.t) : nat :=
  count_occ Nat.eq_dec (Job.queuedOperations j) i.

Definition attempting (op : Operation.t) : nat :=
  if decide (Operation.status op = STARTED) then 1%nat else 0%nat.

(** The operation at [i] was moved to the completed list. *)
Definition finalized (i : nat) (j : Job.t) : Prop :=
  Some i ∈ Job.completedOperations j.

(** The fields of an operation that only the operation itself writes. *)
Definition core (op : Operation.t)
    : string * Value * Status * option Value * Z * nat :=
  (Operation.id op, Operation.data op, Operation.status op,
   Operation.result op, Operation.timesFailed op, Operation.executions op).

(** What no callback changes: the parameters of the job and the ids of
    its operations. *)
Definition fixed (j j' : Job.t) : Prop :=
  Job.maxConcurrentOperations j' = Job.maxConcurrentOperations j ∧
  Job.maxFailuresPerOperation j' = Job.maxFailuresPerOperation j ∧
  Job.cooldown j' = Job.cooldown j ∧
  Operation.id <$> Job.heap j' = Operation.id <$> Job.heap j.

(** What also leaves the own fields of the operation at [i] alone. *)
Definition steady (i : nat) (j j' : Job.t) : Prop :=
  fixed j j' ∧ core <$> Job.heap j' !! i = core <$> Job.heap j !! i.

(** Two states of an operation that differ at most in the listeners for
    OPERATION_STARTED and OPERATION_COMPLETED. *)
Definition same_failed (op op' : Operation.t) : Prop :=
  core op' = core op ∧
  Operation.onceFailed (Operation.events op')
  = Operation.onceFailed (Operation.events op).

(** Two states of a job that differ at most in what the invariants do
    not read. *)
Definition same_view (j j' : Job.t) : Prop :=
  Forall2 same_failed (Job.heap j) (Job.heap j') ∧
  Job.queuedOperations j' = Job.queuedOperations j ∧
  Job.current j' = Job.current j ∧
  Job.numCurrentOperations j' = Job.numCurrentOperations j ∧
  Job.completedOperations j' = Job.completedOperations j ∧
  Job.maxConcurrentOperations j' = Job.maxConcurrentOperations j ∧
  Job.maxFailuresPerOperation j' = Job.maxFailuresPerOperation j ∧
  Job.cooldown j' = Job.cooldown j ∧
  ∀ i, starts i j' = starts i j.

Record consistent (j : Job.t) : Prop := {
  c_num : Job.numCurrentOperations j ≤ Job.maxConcurrentOperations j;
  c_current : ∀ k r, Job.current j k = Some r →
      ∃ op, Job.heap j !! r = Some op ∧ Operation.id op = k;
  c_ids : ∀ r r' op op',
      Job.heap j !! r = Some op → Job.heap j !! r' = Some op' →
      Operation.id op = Operation.id op' → r = r';
  c_queued : ∀ r, r ∈ Job.queuedOperations j → is_Some (Job.heap j !! r)
}.

(** The operation has failed fewer times than the budget allows, and was
    attempted once per failure, plus the attempt in flight. *)
Definition live (i : nat) (j : Job.t) (op : Operation.t) : Prop :=
  Job.heap j !! i = Some op ∧
  0 ≤ Operation.timesFailed op < Job.maxFailuresPerOperation j ∧
  Z.of_nat (Operation.executions op)
    = Operation.timesFailed op + Z.of_nat (attempting op).

(** It stands in the backlog: no listener for a failure is registered on
    it, no [start()] of it is scheduled, none is in flight. *)
Definition waiting (i : nat) (j : Job.t) (op : Operation.t) : Prop :=
  occurrences i j = 1%nat ∧
  Operation.onceFailed (Operation.events op) = 0%nat ∧
  starts i j = 0%nat ∧
  Operation.status op ≠ STARTED.

(** It was taken off the backlog: one listener for a failure is
    registered on it. Either one [start()] of it is scheduled or in
    flight, or there is no cooldown and the backlog is empty. *)
Definition dispatched (i : nat) (j : Job.t) (op : Operation.t) : Prop :=
  occurrences i j = 0%nat ∧
  Operation.onceFailed (Operation.events op) = 1%nat ∧
  Job.current j (Operation.id op) = Some i ∧
  ((starts i j + attempting op ≤ 1)%nat ∨
   Job.cooldown j = 0 ∧ Job.queuedOperations j = [] ∧
   0 < Operation.timesFailed op).

(** It was finalized when the budget was used up: it is not in the
    backlog and no listener for a failure is registered on it. Either no
    [start()] of it is scheduled either, and it stays as it was
    finalized, or the budget allowed a retry. *)
Definition retired (i : nat) (j : Job.t) (op : Operation.t) : Prop :=
  Job.heap j !! i = Some op ∧
  finalized i j ∧
  occurrences i j = 0%nat ∧
  Operation.onceFailed (Operation.events op) = 0%nat ∧
  (starts i j = 0%nat ∧
   Operation.status op = FAILED ∧
   Z.of_nat (Operation.executions op) = Job.maxFailuresPerOperation j
   ∨ 1 < Job.maxFailuresPerOperation j).

Definition budget_inv (i : nat) (j : Job.t) : Prop :=
  (∃ op, retired i j op) ∨
  ∃ op, live i j op ∧ (waiting i j op ∨ dispatched i j op).

(** Off the backlog and about to be dispatched. *)
Definition ready (i : nat) (j : Job.t) (op : Operation.t) : Prop :=
  occurrences i j = 0%nat ∧
  Operation.onceFailed (Operation.events op) = 0%nat ∧
  ((starts i j = 0%nat ∧ Operation.status op ≠ STARTED) ∨
   Job.cooldown j = 0 ∧ Job.queuedOperations j = [] ∧
   0 < Operation.timesFailed op).

(** [j'] comes from [j] by callbacks of the Job that did not finalize the
    operation at [i] unless it was. *)
Definition keeps (i : nat) (j j' : Job.t) : Prop :=
  steady i j j' ∧ consistent j' ∧ budget_inv i j' ∧
  (finalized i j' → finalized i j).

(** No attempt of the operation at [i] succeeds in the schedule. *)
Definition rejects_only (i : nat) (sched : list Job.Event) : bool :=
  forallb (λ e, match e with
                | Job.Settle r (Resolve _) => negb (Nat.eqb r i)
                | _ => true
                end) sched.

(** The bookkeeping of [handleOperationComplete], before it calls the
    dispatcher. *)
Definition books (id : string) (final : bool) (j : Job.t) : Job.t :=
  let operation := Job.current j id in
  let j := if final
           then Job.with_completed (Job.completedOperations j ++ [operation]) j
           else j in
  Job.with_current (delete id (Job.currentOperations j))
                   (Job.numCurrentOperations j - 1) j.

(** The state in which the listener for OPERATION_FAILED of the
    operation [op] at [i] decides between a retry and the end: the
    operation has emitted the signal, the listener is removed and has
    forwarded the signal. *)
Definition heard (i : nat) (op : Operation.t) (j : Job.t) : Job.t :=
  let op' := Operation.set_events
               (Operation.removeOnce OPERATION_FAILED (Operation.events op))
               op in
  Job.emitOperation OPERATION_FAILED (Operation.id op)
    (Job.with_heap (<[i := op']> (Job.heap j))
       (Job.record (Job.OpEmit i OPERATION_FAILED) j)).

(** One step of the run: the invariant is kept, and if the operation at
    [i] is finalized after the step, either it was before or it is FAILED
    now and was attempted as often as the budget says. *)
Definition advances (i : nat) (j j' : Job.t) : Prop :=
  fixed j j' ∧ consistent j' ∧ budget_inv i j' ∧
  (finalized i j' → finalized i j ∨
     ∃ op, Job.heap j' !! i = Some op ∧ Operation.status op = FAILED ∧
           Z.of_nat (Operation.executions op)
           = Job.maxFailuresPerOperation j).

(** ** The claims of the specification, as predicates on runs *)

(** Number of times the dispatcher was deferred by the cooldown. *)
Definition isCooldown (s : Job.Signal) : bool :=
  match s with Job.SetTimeout (Job.TDispatch _) => true | _ => false end.

Definition cooldown_delays (j : Job.t) : nat :=
  length (List.filter isCooldown (Job.log j)).

(** "The cooldown delay is applied to the dispatcher exactly once per
    Job", for the run of [j0] under [sched]. *)
Definition cooldown_applied_once (j0 : Job.t) (sched : list Job.Event) : Prop :=
  ∀ j, Job.run sched (Job.start j0) = Some j → cooldown_delays j = 1%nat.

(** ** A job without room *)

Definition isDispatch (tm : Job.Timer) : bool :=
  match tm with Job.TDispatch _ => true | Job.TStart _ _ => false end.

(** The job [j0] was started and none of its operations was taken on:
    only cooldown timers were set. *)
Definition parked (j0 j : Job.t) : Prop :=
  Job.status j = STARTED ∧
  Job.heap j = Job.heap j0 ∧
  Job.queuedOperations j = Job.queuedOperations j0 ∧
  Job.currentOperations j = ∅ ∧
  Job.numCurrentOperations j = 0 ∧
  Job.completedOperations j = [] ∧
  Job.maxConcurrentOperations j ≤ 0 ∧
  completions j = 0%nat ∧
  Forall (λ tm, isDispatch tm = true) (Job.timers j).

(** ** Jobs in which no operation is retried *)

(** What the job holds about the operation [op] at position [r]: its
    status, its listeners, its failures, whether it stands in the
    backlog, what is in flight under its id, its pending [start()]
    callbacks, whether it is in the completed list. What is in flight
    is the map [m]. *)
Definition view (m : gmap string nat) (r : nat) (op : Operation.t)
    (j : Job.t)
    : Status * Operation.Emitter * Z * bool * option nat * nat * bool :=
  (Operation.status op, Operation.events op, Operation.timesFailed op,
   bool_decide (r ∈ Job.queuedOperations j),
   m !! Operation.id op,
   starts r j,
   bool_decide (Some r ∈ Job.completedOperations j)).

(** The stages of an operation that is attempted once. *)
Inductive Stage := Queued | Scheduled | Running | Succeeded | Failed.

Definition listeners (s c f : nat) : Operation.Emitter :=
  {| Operation.onceStarted := s; Operation.onceCompleted := c;
     Operation.onceFailed := f |}.

Definition shape (r : nat) (st : Stage)
    : Status * Operation.Emitter * Z * bool * option nat * nat * bool :=
  match st with
  | Queued => (PENDING, listeners 0 0 0, 0, true, None, 0%nat, false)
  | Scheduled => (PENDING, listeners 1 1 1, 0, false, Some r, 1%nat, false)
  | Running => (STARTED, listeners 0 1 1, 0, false, Some r, 0%nat, false)
  | Succeeded => (COMPLETED, listeners 0 0 1, 0, false, None, 0%nat, true)
  | Failed => (FAILED, listeners 0 1 0, 1, false, None, 0%nat, true)
  end.

(** The books of the job agree with its operations, each of which is in
    one of the stages. The operations in flight are those of [m], by
    id: the in-flight map of the job holds them as its properties, but
    for the one with the id [__proto__], which is its prototype. *)
Record orderly (m : gmap string nat) (j : Job.t) : Prop := {
  o_ids : NoDup (Operation.id <$> Job.heap j);
  o_num : Job.numCurrentOperations j = Z.of_nat (size m);
  o_max : Job.numCurrentOperations j ≤ Job.maxConcurrentOperations j;
  o_current : ∀ id r, m !! id = Some r →
      ∃ op, Job.heap j !! r = Some op ∧ Operation.id op = id;
  o_queued : NoDup (Job.queuedOperations j);
  o_backlog : ∀ r, r ∈ Job.queuedOperations j → is_Some (Job.heap j !! r);
  o_completed : NoDup (Job.completedOperations j);
  o_final : ∀ x, x ∈ Job.completedOperations j →
      ∃ r, x = Some r ∧ is_Some (Job.heap j !! r);
  o_timers : ∀ r d, Job.TStart r d ∈ Job.timers j →
      is_Some (Job.heap j !! r);
  o_stage : ∀ r op, Job.heap j !! r = Some op →
      ∃ st, view m r op j = shape r st;
  o_done : Job.status j = COMPLETED →
      Job.queuedOperations j = [] ∧ Job.numCurrentOperations j = 0;
  o_own : Job.currentOperations j = delete "__proto__" m;
  o_proto : ∀ r, m !! "__proto__" = Some r →
      Job.currentPrototype j = Some r
}.

(** While the job is not COMPLETED an operation is in flight or the
    dispatcher is due. *)
Definition lively (j : Job.t) : Prop :=
  Job.status j ≠ COMPLETED →
  0 < Job.numCurrentOperations j ∨ ∃ d, Job.TDispatch d ∈ Job.timers j.

(** No failed attempt leads to a retry: the budget is 1 at most, or no
    attempt fails in the schedule. *)
Definition no_retry (maxFailures : Z) (sched : list Job.Event) : bool :=
  bool_decide (maxFailures ≤ 1) ||
  forallb (λ e, match e with
                | Job.Settle _ (Reject _) => false
                | _ => true
                end) sched.

(** The operations whose [start()] the job has scheduled, in the order
    in which it did. *)
Definition dispatches (j : Job.t) : list nat :=
  omap (λ s, match s with
             | Job.SetTimeout (Job.TStart r _) => Some r
             | _ => None
             end) (Job.log j).

(** [j'] is [j] with the operation at [r] replaced by [op'] and with the
    given timers, in-flight map, counter and completed list; the
    backlog, the status and the parameters are those of [j], and no
    [start()] was scheduled. *)
Definition moved (j j' : Job.t) (r : nat) (op' : Operation.t)
    (ts : list Job.Timer) (c : gmap string nat) (n : Z)
    (co : list (option nat)) : Prop :=
  Job.heap j' = <[r := op']> (Job.heap j) ∧
  Job.timers j' = ts ∧
  Job.queuedOperations j' = Job.queuedOperations j ∧
  Job.currentOperations j' = c ∧
  Job.currentPrototype j' = Job.currentPrototype j ∧
  Job.numCurrentOperations j' = n ∧
  Job.completedOperations j' = co ∧
  Job.maxConcurrentOperations j' = Job.maxConcurrentOperations j ∧
  Job.maxFailuresPerOperation j' = Job.maxFailuresPerOperation j ∧
  Job.status j' = Job.status j ∧
  dispatches j' = dispatches j.

(** What a step may do if no operation is to be retried. *)
Definition calm (e : Job.Event) (j : Job.t) : Prop :=
  match e with
  | Job.Settle _ (Reject _) => Job.maxFailuresPerOperation j ≤ 1
  | _ => True
  end.

(** ** The signals of a run *)

(** A signal that a started job may emit: not JOB_STARTED, and not a
    deferral of the dispatcher when there is no cooldown. *)
Definition later_signal (cooldown : Z) (s : Job.Signal) : Prop :=
  s ≠ Job.JobEmit JOB_STARTED ∧ (cooldown = 0 → isCooldown s = false).

(** The log of [j'] is the log of [j] followed by such signals, the
    status of [j'] is that of [j] or COMPLETED, the name is kept. *)
Definition extends (j j' : Job.t) : Prop :=
  Job.cooldown j' = Job.cooldown j ∧
  Job.name j' = Job.name j ∧
  (Job.status j' = Job.status j ∨ Job.status j' = COMPLETED) ∧
  ∃ l, Job.log j' = Job.log j ++ l ∧
       Forall (later_signal (Job.cooldown j)) l.

(** ** Queue: running the jobs

    [queueJob], [startNextJob], [handleJobComplete] and
    [forwardJobEvents]. The queue hangs listeners on the emitter of each
    job. Such a listener runs while the job is in the middle of one of
    its callbacks; it reads and writes the fields of the queue and
    starts the next job, another object, and does not touch the job that
    emits, and what is left of the job's callback touches that job only.
    So the listeners are run here when the callback of the job has
    returned, for the signals the callback has added to the job's log,
    in their order.

    The jobs are the objects the queue was given: [queueJob] is modelled
    for a job that was just constructed and that nothing but the queue
    starts. *)
Module QueueJobs.

(** The listeners for JOB_COMPLETED the queue adds to a job. *)
Inductive Listener :=
| OnCompleted   (* startNextJob: name => this.handleJobComplete() *)
| Forwarder     (* forwardJobEvents: (...args) => this.events.emit(event, ...args) *)
| OnceQueued.   (* queueJob, with job.onComplete: resolve and export *)

#[global] Instance Listener_eq_dec : EqDecision Listener.
Proof. solve_decision. Defined.

(** A job object and what the queue has hung on it. *)
Record Entry := {
  job : Job.t;
  (* calls of forwardJobEvents: one listener for each event *)
  forwarders : nat;
  (* the listeners for JOB_COMPLETED, in the order they were added *)
  completedListeners : list Listener;
  (* the promise [queueJob] returned *)
  promise : Queue.Promise string
}.

Record t := {
  store : list Entry;
  queuedJobs : list nat;
  completedJobs : list (option nat);   (* [None]: undefined was pushed *)
  currentJob : option nat;
  jobIndex : gmap string nat;          (* the jobs assigned, by name *)
  persistCompletedJobsToDir : option string;
  (* ghost: this.events.emit(event, ...args), with the name of the job *)
  emitted : list (string * Job.Signal);
  (* ghost: the paths handed to fs.writeFile *)
  written : list string
}.

(** [constructor({persistCompletedJobsToDir})] *)
Definition new (dir : option string) : t :=
  {| store := []; queuedJobs := []; completedJobs := []; currentJob := None;
     jobIndex := ∅; persistCompletedJobsToDir := dir;
     emitted := []; written := [] |}.

Definition with_store (s : list Entry) (q : t) : t :=
  {| store := s; queuedJobs := queuedJobs q;
     completedJobs := completedJobs q; currentJob := currentJob q;
     jobIndex := jobIndex q;
     persistCompletedJobsToDir := persistCompletedJobsToDir q;
     emitted := emitted q; written := written q |}.

Definition with_queued (l : list nat) (q : t) : t :=
  {| store := store q; queuedJobs := l;
     completedJobs := completedJobs q; currentJob := currentJob q;
     jobIndex := jobIndex q;
     persistCompletedJobsToDir := persistCompletedJobsToDir q;
     emitted := emitted q; written := written q |}.

Definition with_completed (l : list (option nat)) (q : t) : t :=
  {| store := store q; queuedJobs := queuedJobs q;
     completedJobs := l; currentJob := currentJob q;
     jobIndex := jobIndex q;
     persistCompletedJobsToDir := persistCompletedJobsToDir q;
     emitted := emitted q; written := written q |}.

Definition with_current (c : option nat) (q : t) : t :=
  {| store := store q; queuedJobs := queuedJobs q;
     completedJobs := completedJobs q; currentJob := c;
     jobIndex := jobIndex q;
     persistCompletedJobsToDir := persistCompletedJobsToDir q;
     emitted := emitted q; written := written q |}.

Definition with_index (m : gmap string nat) (q : t) : t :=
  {| store := store q; queuedJobs := queuedJobs q;
     completedJobs := completedJobs q; currentJob := currentJob q;
     jobIndex := m;
     persistCompletedJobsToDir := persistCompletedJobsToDir q;
     emitted := emitted q; written := written q |}.

Definition with_emitted (l : list (string * Job.Signal)) (q : t) : t :=
  {| store := store q; queuedJobs := queuedJobs q;
     completedJobs := completedJobs q; currentJob := currentJob q;
     jobIndex := jobIndex q;
     persistCompletedJobsToDir := persistCompletedJobsToDir q;
     emitted := l; written := written q |}.

Definition with_written (l : list string) (q : t) : t :=
  {| store := store q; queuedJobs := queuedJobs q;
     completedJobs := completedJobs q; currentJob := currentJob q;
     jobIndex := jobIndex q;
     persistCompletedJobsToDir := persistCompletedJobsToDir q;
     emitted := emitted q; written := l |}.

Definition with_job (j : Job.t) (e : Entry) : Entry :=
  {| job := j; forwarders := forwarders e;
     completedListeners := completedListeners e; promise := promise e |}.

Definition with_listeners (n : nat) (l : list Listener) (e : Entry)
    : Entry :=
  {| job := job e; forwarders := n; completedListeners := l;
     promise := promise e |}.

Definition with_promise (p : Queue.Promise string) (e : Entry) : Entry :=
  {| job := job e; forwarders := forwarders e;
     completedListeners := completedListeners e; promise := p |}.

(** The entry of the job at [ref] is changed. *)
Definition update (ref : nat) (f : Entry → Entry) (q : t) : t :=
  with_store (alter f ref (store q)) q.

(** The queue as the read accessors see it. *)
Definition accessors (q : t) : Queue.t :=
  {| Queue.jobIndex := omap (λ ref, job <$> store q !! ref) (jobIndex q);
     Queue.persistCompletedJobsToDir := persistCompletedJobsToDir q |}.

(** [isRunning()] and [isPending()] *)
Definition isRunning (q : t) : bool := bool_decide (is_Some (currentJob q)).
Definition isPending (q : t) : bool := (0 <? length (queuedJobs q))%nat.

(** The listener of [forwardJobEvents] for the signal [s] of the job at
    [ref]. *)
Definition forward (ref : nat) (s : Job.Signal) (q : t) : t :=
  match store q !! ref with
  | None => q
  | Some e => with_emitted (emitted q ++ [(Job.name (job e), s)]) q
  end.

(** [exportJobIfNeeded(job)] *)
Definition exportJobIfNeeded (ref : nat) (q : t) : t :=
  match store q !! ref with
  | None => q
  | Some e =>
      if Queue.hasDir (accessors q)
      then with_written
             (written q
                ++ [Queue.persistedPath (accessors q) (Job.name (job e))]) q
      else q
  end.

(** [handleJobComplete()]; [next] is [startNextJob]. *)
Definition handleJobComplete (next : t → t) (q : t) : t :=
  next (with_current None
          (with_completed (completedJobs q ++ [currentJob q]) q)).

Fixpoint removeFirst (l : Listener) (ls : list Listener) : list Listener :=
  match ls with
  | [] => []
  | x :: ls => if decide (x = l) then ls else x :: removeFirst l ls
  end.

(** One listener for JOB_COMPLETED of the job at [ref] is called. The
    one of [queueJob] was added with [once]: it is removed, then it
    resolves the promise with the name of the job and exports the
    job. *)
Definition callListener (next : t → t) (ref : nat) (l : Listener) (q : t)
    : t :=
  match l with
  | OnCompleted => handleJobComplete next q
  | Forwarder => forward ref (Job.JobEmit JOB_COMPLETED) q
  | OnceQueued =>
      exportJobIfNeeded ref
        (update ref
           (λ e, with_promise
                   (Queue.resolve (Job.name (job e)) (promise e))
                   (with_listeners (forwarders e)
                      (removeFirst OnceQueued (completedListeners e)) e))
           q)
  end.

(** The job at [ref] has emitted the signal [s] on its own emitter: the
    listeners that are registered when it does are called in the order
    they were added. *)
Definition deliver (next : t → t) (ref : nat) (s : Job.Signal) (q : t)
    : t :=
  match store q !! ref with
  | None => q
  | Some e =>
      match s with
      | Job.JobEmit JOB_COMPLETED =>
          foldl (λ q l, callListener next ref l q) q (completedListeners e)
      | Job.JobEmit JOB_STARTED | Job.JobOpEmit _ _ =>
          Nat.iter (forwarders e) (forward ref s) q
      | Job.OpEmit _ _ | Job.SetTimeout _ => q
      end
  end.

(** A callback of the job at [ref] has led the job from [j] to [j']. *)
Definition deliverAll (next : t → t) (ref : nat) (j j' : Job.t) (q : t)
    : t :=
  foldl (λ q s, deliver next ref s q)
        (update ref (with_job j') q)
        (drop (length (Job.log j)) (Job.log j')).

(** [currentJob.start()] *)
Definition jobStart (next : t → t) (ref : nat) (q : t) : t :=
  match store q !! ref with
  | None => q
  | Some e => deliverAll next ref (job e) (Job.start (job e)) q
  end.

(** [startNextJob()]. It calls itself through [handleJobComplete] when
    the job it starts completes at once; each time the backlog is one
    job shorter, and [fuel] bounds the depth. *)
Fixpoint startNextJob_rec (fuel : nat) (q : t) : t :=
  match fuel with
  | O => q
  | S fuel =>
      if negb (isRunning q) && isPending q then
        match queuedJobs q with
        | [] => q
        | ref :: rest =>
            let q := with_current (Some ref) (with_queued rest q) in
            let q := update ref
                       (λ e, with_listeners (forwarders e)
                               (completedListeners e ++ [OnCompleted]) e)
                       q in
            let q := update ref
                       (λ e, with_listeners (S (forwarders e))
                               (completedListeners e ++ [Forwarder]) e)
                       q in
            jobStart (startNextJob_rec fuel) ref q
        end
      else q
  end.

Definition startNextJob (q : t) : t :=
  startNextJob_rec (S (length (queuedJobs q))) q.

(** [queueJob(job)] for [job = new Job(name, resolver, data, params)] *)
Definition queueJob (name : string) (data : list Value) (p : Job.Params)
    (q : t) : t :=
  let ref := length (store q) in
  let entry := {| job := Job.new name data p; forwarders := 0;
                  completedListeners := []; promise := Queue.Pending |} in
  let q := with_queued (queuedJobs q ++ [ref])
             (with_store (store q ++ [entry]) q) in
  let q := with_index (<[name := ref]> (jobIndex q)) q in
  let q := startNextJob q in
  update ref
    (λ e, with_listeners (forwarders e)
            (completedListeners e ++ [OnceQueued]) e)
    q.

(** What happens to a queue: a job is queued, or a timer of one of its
    jobs fires or an attempt of one of their operations settles. *)
Inductive Event :=
| QueueJob (name : string) (data : list Value) (p : Job.Params)
| JobEvent (ref : nat) (e : Job.Event).

Definition step (ev : Event) (q : t) : option t :=
  match ev with
  | QueueJob name data p => Some (queueJob name data p q)
  | JobEvent ref e =>
      match store q !! ref with
      | None => None
      | Some entry =>
          match Job.step e (job entry) with
          | None => None
          | Some j' => Some (deliverAll startNextJob ref (job entry) j' q)
          end
      end
  end.

Fixpoint run (evs : list Event) (q : t) : option t :=
  match evs with
  | [] => Some q
  | ev :: evs =>
      match step ev q with
      | None => None
      | Some q => run evs q
      end
  end.

End QueueJobs.

(** ** The queue runs its jobs in turn *)

(** The jobs in the order in which the queue deals with them: those it
    has seen complete, the one that runs, those that wait. *)
Definition turns (q : QueueJobs.t) : list (option nat) :=
  QueueJobs.completedJobs q
  ++ match QueueJobs.currentJob q with Some r => [Some r] | None => [] end
  ++ (Some <$> QueueJobs.queuedJobs q).

(** A job as its constructor leaves it. *)
Definition fresh (j : Job.t) : Prop :=
  ∃ name data p, 0 ≤ Job.p_maxConcurrentOperations p ∧ j = Job.new name data p.

(** A job that was started once, some time ago. *)
Definition begun (j : Job.t) : Prop :=
  ∃ name data p sched,
    0 ≤ Job.p_maxConcurrentOperations p ∧
    Job.run sched (Job.start (Job.new name data p)) = Some j.

(** Listeners of a job that call [handleJobComplete]. *)
Definition handlers (e : QueueJobs.Entry) : nat :=
  length (filter (λ l, l = QueueJobs.OnCompleted)
            (QueueJobs.completedListeners e)).

(** The books of the queue: every job is dealt with once, in the order
    of the store; the jobs that wait are fresh and none of their
    listeners calls [handleJobComplete]; the job that runs was started,
    has emitted JOB_COMPLETED [k] times, and one of its listeners calls
    [handleJobComplete]; the jobs that the queue has seen complete were
    started and have emitted JOB_COMPLETED once. *)
Record turning (k : nat) (q : QueueJobs.t) : Prop := {
  t_order : turns q = Some <$> seq 0 (length (QueueJobs.store q));
  t_queued : ∀ r e, r ∈ QueueJobs.queuedJobs q →
      QueueJobs.store q !! r = Some e →
      fresh (QueueJobs.job e) ∧ handlers e = 0%nat;
  t_current : ∀ r e, QueueJobs.currentJob q = Some r →
      QueueJobs.store q !! r = Some e →
      begun (QueueJobs.job e) ∧ completions (QueueJobs.job e) = k ∧
      handlers e = 1%nat;
  t_completed : ∀ r e, Some r ∈ QueueJobs.completedJobs q →
      QueueJobs.store q !! r = Some e →
      begun (QueueJobs.job e) ∧ completions (QueueJobs.job e) = 1%nat
}.

(** While jobs wait, one runs. *)
Definition busy (q : QueueJobs.t) : Prop :=
  QueueJobs.currentJob q = None → QueueJobs.queuedJobs q = [].

(** Two states of the queue with the same books and the same jobs. *)
Definition same_books (q q' : QueueJobs.t) : Prop :=
  QueueJobs.queuedJobs q' = QueueJobs.queuedJobs q ∧
  QueueJobs.completedJobs q' = QueueJobs.completedJobs q ∧
  QueueJobs.currentJob q' = QueueJobs.currentJob q ∧
  Forall2 (λ e e', QueueJobs.job e' = QueueJobs.job e ∧
                   handlers e' = handlers e)
          (QueueJobs.store q) (QueueJobs.store q').

(** Every job that is queued has a limit that is not negative. *)
Definition sound (evs : list QueueJobs.Event) : Prop :=
  Forall (λ ev, match ev with
                | QueueJobs.QueueJob _ _ p => 0 ≤ Job.p_maxConcurrentOperations p
                | QueueJobs.JobEvent _ _ => True
                end) evs.

(** What [startNextJob] does when it is called with the books in order
    and [n] jobs waiting at most. *)
Definition next_ok (n : nat) (next : QueueJobs.t → QueueJobs.t) : Prop :=
  ∀ q, turning 0 q → (length (QueueJobs.queuedJobs q) ≤ n)%nat →
       turning 0 (next q) ∧ busy (next q).

(** ** The promise of [queueJob] *)

(** The job has emitted JOB_COMPLETED. *)
Definition completed (j : Job.t) : Prop :=
  Job.JobEmit JOB_COMPLETED ∈ Job.log j.

(** [j'] is [j] some callbacks later. *)
Definition grows (j j' : Job.t) : Prop :=
  Job.name j' = Job.name j ∧ ∃ l, Job.log j' = Job.log j ++ l.

(** With a directory to persist to, the file of the job [name] was
    handed to [fs.writeFile]. *)
Definition exported (q : QueueJobs.t) (name : string) : Prop :=
  Queue.hasDir (QueueJobs.accessors q) = true →
  Queue.persistedPath (QueueJobs.accessors q) name ∈ QueueJobs.written q.

(** The entry [e'] of the queue [q'] is the entry [e] some time later:
    the promise is as it was, or it was pending and is resolved with
    the name of the job, which has emitted JOB_COMPLETED and was
    exported; and while it is pending the listener that resolves it
    stays. *)
Definition kept (q' : QueueJobs.t) (e e' : QueueJobs.Entry) : Prop :=
  grows (QueueJobs.job e) (QueueJobs.job e') ∧
  (QueueJobs.promise e' = QueueJobs.promise e ∨
   (QueueJobs.promise e = Queue.Pending ∧
    QueueJobs.promise e'
    = Queue.Resolved (Job.name (QueueJobs.job e')) ∧
    completed (QueueJobs.job e') ∧
    exported q' (Job.name (QueueJobs.job e')))) ∧
  (QueueJobs.promise e' = Queue.Pending →
   QueueJobs.OnceQueued ∈ QueueJobs.completedListeners e →
   QueueJobs.OnceQueued ∈ QueueJobs.completedListeners e').

(** The job at [r] was started between [q] and [q']: if this made it
    emit JOB_COMPLETED, the listener of [queueJob], where there was
    one, has settled the promise. *)
Definition settled (q q' : QueueJobs.t) (r : nat) : Prop :=
  ∀ e e', QueueJobs.store q !! r = Some e →
    QueueJobs.store q' !! r = Some e' →
    QueueJobs.job e' = Job.start (QueueJobs.job e) ∧
    (¬ completed (QueueJobs.job e) → completed (QueueJobs.job e') →
     QueueJobs.OnceQueued ∈ QueueJobs.completedListeners e →
     QueueJobs.promise e' ≠ Queue.Pending).

(** Listeners have led the queue from [q] to [q']. The jobs [taken]
    were shifted off [queuedJobs] and started; the objects of the other
    jobs were not touched; and but for the jobs [A] and those that were
    started, nothing was hung on a job or taken off it. *)
Record led (A taken : list nat) (q q' : QueueJobs.t) : Prop := {
  l_dir : QueueJobs.persistCompletedJobsToDir q'
          = QueueJobs.persistCompletedJobsToDir q;
  l_written : ∃ w, QueueJobs.written q' = QueueJobs.written q ++ w;
  l_queued : QueueJobs.queuedJobs q = taken ++ QueueJobs.queuedJobs q';
  l_length : length (QueueJobs.store q') = length (QueueJobs.store q);
  l_kept : ∀ r e, QueueJobs.store q !! r = Some e →
      ∃ e', QueueJobs.store q' !! r = Some e' ∧ kept q' e e';
  l_job : ∀ r e', r ∉ taken → QueueJobs.store q' !! r = Some e' →
      ∃ e, QueueJobs.store q !! r = Some e ∧
           QueueJobs.job e' = QueueJobs.job e;
  l_frame : ∀ r, r ∉ A → r ∉ taken →
      QueueJobs.store q' !! r = QueueJobs.store q !! r;
  l_settled : ∀ r, r ∈ taken → settled q q' r
}.

(** What [startNextJob] does, as a listener sees it. *)
Definition next_led (next : QueueJobs.t → QueueJobs.t) : Prop :=
  ∀ q, NoDup (QueueJobs.queuedJobs q) →
       ∃ taken, led [] taken q (next q).

(** The job at [ref] does not wait, and no job waits twice. *)
Definition not_waiting (ref : nat) (q : QueueJobs.t) : Prop :=
  NoDup (QueueJobs.queuedJobs q) ∧ ref ∉ QueueJobs.queuedJobs q.

(** The job at [ref] has emitted JOB_COMPLETED. *)
Definition completed_at (ref : nat) (q : QueueJobs.t) : Prop :=
  ∀ e, QueueJobs.store q !! ref = Some e → completed (QueueJobs.job e).

(** Between two events, a promise that is pending belongs to a job that
    has not emitted JOB_COMPLETED and has the listener that resolves
    it, or to a job without operations and without a cooldown. *)
Definition vowed (q : QueueJobs.t) : Prop :=
  ∀ r e, QueueJobs.store q !! r = Some e →
    QueueJobs.promise e = Queue.Pending →
    (QueueJobs.OnceQueued ∈ QueueJobs.completedListeners e ∧
     ¬ completed (QueueJobs.job e)) ∨
    (completed (QueueJobs.job e) ∧ Job.heap (QueueJobs.job e) = [] ∧
     Job.cooldown (QueueJobs.job e) = 0).

(** A promise is pending, or resolved with the name of its job, which
    has emitted JOB_COMPLETED and was exported. *)
Definition promised (q : QueueJobs.t) : Prop :=
  ∀ r e, QueueJobs.store q !! r = Some e →
    QueueJobs.promise e = Queue.Pending ∨
    (QueueJobs.promise e = Queue.Resolved (Job.name (QueueJobs.job e)) ∧
     completed (QueueJobs.job e) ∧
     exported q (Job.name (QueueJobs.job e))).

(** ** The queue forwards the events of its jobs *)

(** The signals on the emitter of a job, those [forwardJobEvents]
    listens to. *)
Definition public (s : Job.Signal) : bool :=
  match s with
  | Job.JobEmit _ | Job.JobOpEmit _ _ => true
  | Job.OpEmit _ _ | Job.SetTimeout _ => false
  end.

(** What a job has emitted on its emitter, in order. *)
Definition said (j : Job.t) : list Job.Signal :=
  filter (λ s, public s = true) (Job.log j).

(** What the queue has emitted with the job name [n], in order. *)
Definition relayed (n : string) (q : QueueJobs.t) : list Job.Signal :=
  (filter (λ x, x.1 = n) (QueueJobs.emitted q)).*2.

(** The names of the jobs the queue was given. *)
Definition job_names (q : QueueJobs.t) : list string :=
  (λ e, Job.name (QueueJobs.job e)) <$> QueueJobs.store q.

(** A job as its constructor leaves it. *)
Definition unstarted (j : Job.t) : Prop :=
  ∃ name data p, j = Job.new name data p.

(** The job at [ref] owes the signals [l], the others what they owed. *)
Definition owing (δ : nat → list Job.Signal) (ref : nat)
    (l : list Job.Signal) : nat → list Job.Signal :=
  λ r, if decide (r = ref) then l else δ r.

(** The listeners the queue hangs on a job when it starts it. *)
Definition wiring (e : QueueJobs.Entry) : list QueueJobs.Listener :=
  filter (λ l, l ≠ QueueJobs.OnceQueued) (QueueJobs.completedListeners e).

(** What the queue has emitted for each job is what the job has emitted
    but for the signals [δ] that are still to be delivered. A job that
    does not wait has one forwarder for each event and, for
    JOB_COMPLETED, the listener that calls [handleJobComplete] before
    the forwarder; a job that waits is as it was constructed, with no
    forwarder on it. *)
Record paid (δ : nat → list Job.Signal) (q : QueueJobs.t) : Prop := {
  pd_relayed : ∀ r e, QueueJobs.store q !! r = Some e →
      relayed (Job.name (QueueJobs.job e)) q ++ δ r
      = said (QueueJobs.job e);
  pd_started : ∀ r e, QueueJobs.store q !! r = Some e →
      r ∉ QueueJobs.queuedJobs q →
      QueueJobs.forwarders e = 1%nat ∧
      wiring e = [QueueJobs.OnCompleted; QueueJobs.Forwarder];
  pd_queued : ∀ r e, QueueJobs.store q !! r = Some e →
      r ∈ QueueJobs.queuedJobs q →
      QueueJobs.forwarders e = 0%nat ∧ wiring e = [] ∧
      unstarted (QueueJobs.job e) ∧ δ r = [];
  pd_names : ∀ x, x ∈ QueueJobs.emitted q → x.1 ∈ job_names q;
  pd_nodup : NoDup (QueueJobs.queuedJobs q);
  pd_bound : ∀ r, r ∈ QueueJobs.queuedJobs q →
      (r < length (QueueJobs.store q))%nat
}.

(** Listeners were called between [q] and [q']: the jobs keep their
    names, no job is put back to wait, and what the queue had emitted
    stays. *)
Definition after (q q' : QueueJobs.t) : Prop :=
  job_names q' = job_names q ∧
  (∀ r, r ∈ QueueJobs.queuedJobs q' → r ∈ QueueJobs.queuedJobs q) ∧
  ∃ w, QueueJobs.emitted q' = QueueJobs.emitted q ++ w.

(** What [startNextJob] does, as a listener sees it. *)
Definition next_pays (next : QueueJobs.t → QueueJobs.t) : Prop :=
  ∀ δ q, NoDup (job_names q) → paid δ q → paid δ (next q).

Definition next_after (next : QueueJobs.t → QueueJobs.t) : Prop :=
  ∀ q, after q (next q).

(** * Properties *)

Ltac unfold_job :=
  cbn [Job.name Job.maxConcurrentOperations Job.maxFailuresPerOperation
       Job.cooldown Job.throttle Job.status Job.heap Job.operationIndex
       Job.currentOperations Job.currentPrototype Job.numCurrentOperations
       Job.queuedOperations Job.completedOperations Job.timers Job.log
       Job.with_heap Job.with_status Job.with_current Job.with_prototype
       Job.setCurrent Job.with_queued
       Job.with_completed Job.with_timers Job.with_log
       Job.record Job.setTimeout Job.emit Job.emitOperation] in *.

(** The recursion of [startNextOperation], as the source has it. *)
Lemma startNextOperation_unfold (cooled : bool) (j : Job.t) :
  Job.startNextOperation cooled j =
    if bool_decide (Job.cooldown j ≠ 0) && negb cooled then
      Job.setTimeout (Job.TDispatch (Job.cooldown j)) j
    else if Job.isFull j then j
    else if Job.isComplete j then
      if decide (Job.status j = COMPLETED) then j
      else Job.emit JOB_COMPLETED (Job.with_status COMPLETED j)
    else
      match Job.queuedOperations j with
      | [] => j
      | ref :: rest =>
          match Job.heap j !! ref with
          | None => j
          | Some op =>
              Job.startNextOperation false
                (Job.dispatch ref op (Job.with_queued rest j))
          end
      end.
Proof.
  unfold Job.startNextOperation.
  destruct (Job.queuedOperations j) as [|ref rest] eqn:Hq; cbn [length].
  - destruct j; cbn in Hq; subst; reflexivity.
  - cbn [Job.startNextOperation_rec]. rewrite Hq.
    destruct (Job.heap j !! ref); reflexivity.
Qed.

Lemma with_heap_id (j : Job.t) : Job.with_heap (Job.heap j) j = j.
Proof. by destruct j. Qed.

(** What [this.currentOperations[k]] finds once an operation was taken
    on, and once [delete this.currentOperations[id]] has run. *)
Lemma current_dispatch (r : nat) (op : Operation.t) (j : Job.t) (k : string) :
  Job.current (Job.dispatch r op j) k
  = if decide (k = Operation.id op) then Some r else Job.current j k.
Proof.
  unfold Job.current, Job.dispatch. unfold_job. unfold Job.assign.
  destruct (decide (k = Operation.id op)) as [->|Hne].
  - case_decide; [done|]. apply lookup_insert_eq.
  - destruct (decide (k = "__proto__")) as [->|Hk].
    + by rewrite decide_False by congruence.
    + case_decide; [done|]. by rewrite lookup_insert_ne.
Qed.

Lemma current_delete (id k : string) (n : Z) (j : Job.t) :
  Job.current (Job.with_current (delete id (Job.currentOperations j)) n j) k
  = if decide (k = id ∧ k ≠ "__proto__") then None else Job.current j k.
Proof.
  unfold Job.current. unfold_job.
  destruct (decide (k = "__proto__")) as [->|Hk].
  - rewrite decide_False; [done|]. by intros [_ ?].
  - destruct (decide (k = id)) as [->|Hne].
    + rewrite decide_True by done. apply lookup_delete_eq.
    + rewrite decide_False by (by intros [? _]). by apply lookup_delete_ne.
Qed.

Lemma isFull_false (j : Job.t) :
  Job.numCurrentOperations j < Job.maxConcurrentOperations j →
  Job.isFull j = false.
Proof. intros H. unfold Job.isFull. rewrite Z.geb_leb. by apply Z.leb_gt. Qed.

Lemma isFull_true (j : Job.t) :
  Job.maxConcurrentOperations j ≤ Job.numCurrentOperations j →
  Job.isFull j = true.
Proof. intros H. unfold Job.isFull. rewrite Z.geb_leb. by apply Z.leb_le. Qed.

Lemma isComplete_true (j : Job.t) :
  Job.numCurrentOperations j = 0 → Job.queuedOperations j = [] →
  Job.isComplete j = true.
Proof.
  intros Hn Hq. unfold Job.isComplete, Job.hasPending.
  rewrite Hq, bool_decide_true by done. reflexivity.
Qed.

(** C5, as stated, fails on [Scenario.cooled1]: one operation and a
    cooldown of 10 ms. The dispatcher is deferred three times in that
    run: on the call from [start()], on the recursive call after the
    operation was taken on, and on the call made when it completed. *)
Lemma cooldown_applied_again :
  ¬ cooldown_applied_once Scenario.cooled1 Scenario.cooled1_sched.
Proof.
  intros H.
  specialize (H Scenario.done eq_refl).
  vm_compute in H. discriminate.
Qed.

(** C5, amended. With a nonzero cooldown every call of the dispatcher
    that is not the cooldown timer's own callback only schedules that
    callback, [cooldown] ms later, and does nothing else. This holds for
    the call that ends [handleOperationComplete], made after each
    completion and each failure, and for the recursive call made by the
    timer's callback after it took on an operation. *)
Theorem cooldown_defers_every_uncooled_dispatch
    (j : Job.t) (id : string) (final : bool) :
  Job.cooldown j ≠ 0 →
  Job.startNextOperation false j =
    Job.setTimeout (Job.TDispatch (Job.cooldown j)) j ∧
  Job.timers (Job.handleOperationComplete id final j) =
    Job.timers j ++ [Job.TDispatch (Job.cooldown j)] ∧
  Job.queuedOperations (Job.handleOperationComplete id final j) =
    Job.queuedOperations j ∧
  (∀ ref rest op,
     Job.isFull j = false → Job.isComplete j = false →
     Job.queuedOperations j = ref :: rest → Job.heap j !! ref = Some op →
     Job.startNextOperation true j =
       Job.setTimeout (Job.TDispatch (Job.cooldown j))
         (Job.dispatch ref op (Job.with_queued rest j))).
Proof.
  intros Hc.
  assert (Hdefer : ∀ j', Job.cooldown j' = Job.cooldown j →
            Job.startNextOperation false j' =
              Job.setTimeout (Job.TDispatch (Job.cooldown j)) j').
  { intros j' E. rewrite startNextOperation_unfold, E.
    by rewrite bool_decide_true. }
  split; [by apply Hdefer|]. split; [|split].
  - unfold Job.handleOperationComplete.
    rewrite Hdefer by (by destruct final). by destruct final.
  - unfold Job.handleOperationComplete.
    rewrite Hdefer by (by destruct final). by destruct final.
  - intros ref rest op Hfull Hcomplete Hq Href.
    rewrite startNextOperation_unfold. cbn [negb]. rewrite andb_false_r.
    rewrite Hfull, Hcomplete, Hq, Href. by apply Hdefer.
Qed.

Lemma cooldown_defers_every_uncooled_dispatch_witness :
  Job.timers (Job.handleOperationComplete "a" true Scenario.cooled1) =
    [Job.TDispatch 10].
Proof.
  destruct (cooldown_defers_every_uncooled_dispatch
              Scenario.cooled1 "a" true) as (_ & H & _).
  - vm_compute. discriminate.
  - exact H.
Defined.

(** C7, as stated, fails while a retry is in flight: the operation is
    STARTED and [result] still holds the reason of the failed attempt. *)
Lemma result_set_while_retrying :
  Operation.status Scenario.retrying = STARTED ∧
  Operation.result Scenario.retrying = Some "err"%string ∧
  ¬ Operation.result_iff_terminal Scenario.retrying.
Proof.
  split; [reflexivity|]. split; [reflexivity|].
  intros [H _]. specialize (H (ex_intro _ _ eq_refl)). discriminate.
Qed.

Lemma attempt_call (op : Operation.t) (a : Operation.Attempts)
    (c : Operation.Call) :
  let inv op a :=
    Operation.status op = Operation.statusOf a ∧
    Operation.result op = Operation.resultOf a ∧
    Operation.executions op = Operation.begun a ∧
    (length (Operation.ended a) + (if Operation.inFlight a then 1 else 0))%nat
    = Operation.begun a in
  inv op a → inv (Operation.call op c) (Operation.attempt a c).
Proof.
  cbn zeta. intros (Hs & Hr & He & Hn).
  unfold Operation.statusOf in Hs.
  destruct c as [|o]; unfold Operation.call, Operation.attempt,
    Operation.start, Operation.settle;
    destruct (Operation.inFlight a) eqn:Hf;
    (destruct (decide (Operation.status op = STARTED)) as [E|E];
     [|try (exfalso; apply E; exact Hs)]);
    try (exfalso; rewrite Hs in E; destruct (Operation.ended a) as [|[?|?] ?];
         discriminate E);
    unfold Operation.statusOf, Operation.resultOf;
    cbn [fst Operation.status Operation.result Operation.executions
         Operation.begun Operation.inFlight Operation.ended];
    rewrite ?Hf; try done.
  - repeat split; [done | lia | lia].
  - destruct o as [v|e];
      cbn [fst Operation.status Operation.result Operation.executions
           Operation.payload length];
      repeat split; try done; lia.
Qed.

Lemma attempts_lifetime (id : string) (data : Value)
    (calls : list Operation.Call) :
  let op := Operation.lifetime id data calls in
  let a := Operation.attempts calls in
  Operation.status op = Operation.statusOf a ∧
  Operation.result op = Operation.resultOf a ∧
  Operation.executions op = Operation.begun a ∧
  (length (Operation.ended a) + (if Operation.inFlight a then 1 else 0))%nat
  = Operation.begun a.
Proof.
  cbn zeta. unfold Operation.lifetime, Operation.attempts.
  induction calls as [|c calls IH] using rev_ind; [by cbn|].
  rewrite !foldl_app. cbn [foldl]. by apply attempt_call.
Qed.

(** C7, amended. At every point of an operation's lifetime [result]
    holds what the attempt that settled last handed over, the value it
    resolved with or the reason it was rejected with, and is undefined
    as long as no attempt has settled. So it is undefined while the
    status is PENDING and during the first attempt; [start()] leaves it
    as it is, so that during every later attempt, with the status
    STARTED, it still holds the outcome of the attempt before; and when
    the status is COMPLETED or FAILED it holds the outcome of the
    attempt that has just resolved or was rejected, which is undefined
    if the transform settled with [undefined]. *)
Theorem result_is_last_outcome
    (id : string) (data : Value) (calls : list Operation.Call) :
  let op := Operation.lifetime id data calls in
  let a := Operation.attempts calls in
  Operation.result op = Operation.resultOf a ∧
  Operation.status op = Operation.statusOf a ∧
  Operation.executions op = Operation.begun a ∧
  (Operation.status op = PENDING → Operation.result op = None) ∧
  (Operation.status op = STARTED → Operation.executions op = 1%nat →
   Operation.result op = None) ∧
  Operation.result (Operation.lifetime id data (calls ++ [Operation.Start]))
  = Operation.result op ∧
  (Operation.status op = STARTED → (1 < Operation.executions op)%nat →
   ∃ o rest, Operation.ended a = o :: rest ∧
             length rest = (Operation.executions op - 2)%nat ∧
             Operation.result op = Operation.payload o) ∧
  (Operation.terminal (Operation.status op) = true →
   ∃ o rest, Operation.ended a = o :: rest ∧
             length rest = (Operation.executions op - 1)%nat ∧
             Operation.result op = Operation.payload o ∧
             Operation.status op
             = match o with Resolve _ => COMPLETED | Reject _ => FAILED end).
Proof.
  cbn zeta.
  destruct (attempts_lifetime id data calls) as (Hs & Hr & He & Hn).
  destruct (attempts_lifetime id data (calls ++ [Operation.Start]))
    as (_ & Hr' & _).
  set (op := Operation.lifetime id data calls) in *.
  set (a := Operation.attempts calls) in *.
  split; [exact Hr|]. split; [exact Hs|]. split; [exact He|].
  unfold Operation.statusOf in Hs. unfold Operation.resultOf in Hr.
  split; [|split; [|split; [|split]]].
  - intros Hp. rewrite Hp in Hs.
    destruct (Operation.inFlight a); [discriminate|].
    by destruct (Operation.ended a) as [|[?|?] ?].
  - intros Hst H1. rewrite Hr.
    destruct (Operation.inFlight a);
      destruct (Operation.ended a) as [|o rest]; try done.
    + cbn [length] in Hn. lia.
    + rewrite Hst in Hs. by destruct o.
  - rewrite Hr', Hr.
    assert (Operation.attempts (calls ++ [Operation.Start])
            = Operation.attempt a Operation.Start) as ->
      by (unfold a, Operation.attempts; by rewrite foldl_app).
    unfold Operation.attempt, Operation.resultOf.
    by destruct (Operation.inFlight a).
  - intros Hst H1.
    destruct (Operation.inFlight a) eqn:Hf.
    + destruct (Operation.ended a) as [|o rest]; cbn [length] in Hn; [lia|].
      exists o, rest. split; [done|]. split; [lia|done].
    + rewrite Hst in Hs. by destruct (Operation.ended a) as [|[?|?] ?].
  - intros Ht.
    destruct (Operation.inFlight a) eqn:Hf;
      [rewrite Hs in Ht; discriminate|].
    destruct (Operation.ended a) as [|o rest];
      [rewrite Hs in Ht; discriminate|].
    exists o, rest. cbn [length] in Hn. split; [done|]. split; [lia|].
    split; [done|]. by destruct o.
Qed.

Lemma result_is_last_outcome_witness :
  ∃ o rest,
    Operation.ended
      (Operation.attempts
         [Operation.Start; Operation.Settled (Reject "err");
          Operation.Start]) = o :: rest ∧
    length rest = 0%nat ∧
    Operation.result Scenario.retrying = Operation.payload o.
Proof.
  destruct (result_is_last_outcome "a" "a"
              [Operation.Start; Operation.Settled (Reject "err");
               Operation.Start])
    as (_ & _ & _ & _ & _ & _ & H & _).
  apply H; [reflexivity | vm_compute; lia].
Defined.

(** ** Every run

    What the callbacks of a job keep, whatever the order of timers and
    settlements. *)

Lemma within_refl (j : Job.t) : within j j.
Proof. split; [by repeat split | done]. Qed.

(** Only fields the two predicates do not read were written. *)
Lemma within_same (j j' : Job.t) :
  Job.maxConcurrentOperations j' = Job.maxConcurrentOperations j →
  Job.operationIndex j' = Job.operationIndex j →
  Job.heap j' = Job.heap j →
  Job.numCurrentOperations j' = Job.numCurrentOperations j →
  Job.status j' = Job.status j →
  Job.log j' = Job.log j →
  Job.queuedOperations j' = Job.queuedOperations j →
  Job.timers j' = Job.timers j →
  within j j'.
Proof.
  intros H1 H2 H3 H4 H5 H6 H7 H8. split; [repeat split; congruence|].
  unfold safe, valid, completions, Job.count_signal.
  by rewrite H1, H3, H4, H5, H6, H7, H8.
Qed.

Lemma within_trans (j1 j2 j3 : Job.t) :
  within j1 j2 → within j2 j3 → within j1 j3.
Proof.
  intros ((A1 & A2 & A3) & A) ((B1 & B2 & B3) & B).
  split; [repeat split; congruence | auto].
Qed.

Lemma completions_record (s : Job.Signal) (j : Job.t) :
  completions (Job.record s j)
  = (completions j
     + if decide (s = Job.JobEmit JOB_COMPLETED) then 1 else 0)%nat.
Proof.
  unfold completions, Job.count_signal, Job.record. unfold_job.
  rewrite filter_app, length_app. f_equal.
  rewrite filter_cons, filter_nil. by case_decide.
Qed.

(** A record in the log that is not JOB_COMPLETED. *)
Lemma within_record (s : Job.Signal) (j : Job.t) :
  s ≠ Job.JobEmit JOB_COMPLETED → within j (Job.record s j).
Proof.
  intros Hs. split; [by repeat split|]. intros (A & B & C).
  split; [done|]. split; [|done].
  rewrite completions_record, decide_False by done.
  change (Job.status (Job.record s j)) with (Job.status j). lia.
Qed.

(** A callback is scheduled; if it is a [start()], of an operation of
    the store. *)
Lemma within_setTimeout (tm : Job.Timer) (j : Job.t) :
  (∀ r d, tm = Job.TStart r d → (r < length (Job.heap j))%nat) →
  within j (Job.setTimeout tm j).
Proof.
  intros Htm. unfold Job.setTimeout.
  eapply within_trans; [|by apply within_record].
  split; [by repeat split|]. intros (A & B & C1 & C2).
  split; [done|]. split; [done|]. split; [done|]. unfold_job.
  intros r d [Hin|Hin]%elem_of_app; [by eapply C2|].
  apply list_elem_of_singleton in Hin. by eapply Htm.
Qed.

(** An operation is written, its input kept. *)
Lemma within_update (r : nat) (op op' : Operation.t) (j : Job.t) :
  Job.heap j !! r = Some op → input op' = input op →
  within j (Job.with_heap (<[r := op']> (Job.heap j)) j).
Proof.
  intros Hr Hin. split.
  - repeat split. unfold_job.
    rewrite list_fmap_insert, Hin. apply list_insert_id.
    by rewrite list_lookup_fmap, Hr.
  - intros (A & B & C1 & C2). split; [done|]. split; [done|].
    split; unfold_job; rewrite length_insert; done.
Qed.

Lemma within_dispatch (r : nat) (op : Operation.t) (j : Job.t) :
  Job.heap j !! r = Some op → Job.isFull j = false →
  within j (Job.dispatch r op j).
Proof.
  intros Hr Hfull. unfold Job.dispatch.
  eapply within_trans; [|apply within_setTimeout].
  - set (j1 := Job.with_current _ _ _).
    eapply within_trans; [|by apply (within_update r op)].
    split; [by repeat split|]. intros (A & B & C). split; [|done].
    unfold j1. unfold_job. unfold Job.isFull in Hfull.
    rewrite Z.geb_leb in Hfull. apply Z.leb_gt in Hfull. lia.
  - intros r' d [= <- _]. unfold_job. rewrite length_insert.
    by eapply lookup_lt_Some.
Qed.

Lemma within_loop (fuel : nat) (cooled : bool) (j : Job.t) :
  within j (Job.startNextOperation_rec fuel cooled j).
Proof.
  revert cooled j. induction fuel as [|fuel IH]; intros cooled j;
    cbn [Job.startNextOperation_rec].
  all: destruct (bool_decide (Job.cooldown j ≠ 0) && negb cooled);
    [by apply within_setTimeout|].
  all: destruct (Job.isFull j) eqn:Hfull; [apply within_refl|].
  all: destruct (Job.isComplete j);
    [destruct (decide (Job.status j = COMPLETED)) as [|Hst];
       [apply within_refl|];
     split; [by repeat split|]; intros (A & B & C); split; [done|];
     split; [|done];
     unfold Job.emit; rewrite completions_record, decide_True by done;
     rewrite decide_False in B by done;
     change (completions (Job.with_status COMPLETED j)) with (completions j);
     rewrite B; reflexivity|].
  all: destruct (Job.queuedOperations j) as [|r rest] eqn:Hq;
    [apply within_refl|].
  all: destruct (Job.heap j !! r) as [op|] eqn:Hr; [|apply within_refl].
  all: assert (K : within j (Job.dispatch r op (Job.with_queued rest j))).
  1, 3: eapply within_trans; [|by apply within_dispatch];
    (split; [by repeat split|]); intros (A & B & C1 & C2);
    (split; [done|]); (split; [done|]); (split; [|done]);
    intros r' Hin; apply C1; rewrite Hq; by right.
  - exact K.
  - eapply within_trans; [exact K|apply IH].
Qed.

Lemma within_complete (id : string) (final : bool) (j : Job.t) :
  within j (Job.handleOperationComplete id final j).
Proof.
  unfold Job.handleOperationComplete.
  eapply within_trans; [|apply within_loop].
  split; [by destruct final|]. intros (A & B & C).
  split; [destruct final; unfold_job; lia | by destruct final].
Qed.

Lemma within_listener (ev : OperationEvent) (ref : nat) (id : string)
    (j : Job.t) :
  within j (Job.listener ev ref id j).
Proof.
  destruct ev; cbn [Job.listener].
  - by apply within_record.
  - eapply within_trans; [|apply within_complete]. by apply within_record.
  - eapply within_trans;
      [by apply (within_record (Job.JobOpEmit OPERATION_FAILED id))|].
    case_match eqn:Href; [|apply within_refl].
    case_bool_decide; [|apply within_complete].
    eapply within_trans; [|apply within_complete].
    split; [by repeat split|]. intros (A & B & C1 & C2).
    split; [done|]. split; [done|]. split; [|done]. unfold_job.
    intros r [Hin|Hin]%elem_of_app; [by apply C1|].
    apply list_elem_of_singleton in Hin as ->. by eapply lookup_lt_Some.
Qed.

Lemma within_callOnce (ev : OperationEvent) (ref : nat) (id : string)
    (j : Job.t) :
  within j (Job.callOnce ev ref id j).
Proof.
  unfold Job.callOnce. destruct (Job.heap j !! ref) as [op|] eqn:Hr;
    [|apply within_refl].
  eapply within_trans; [|apply within_listener].
  by apply (within_update ref op).
Qed.

Lemma within_callListeners (n : nat) (ev : OperationEvent) (ref : nat)
    (id : string) (j : Job.t) :
  within j (Job.callListeners n ev ref id j).
Proof.
  revert j. induction n as [|n IH]; intros j; [apply within_refl|].
  cbn [Job.callListeners].
  eapply within_trans; [apply within_callOnce|apply IH].
Qed.

Lemma within_operationEmit (ref : nat) (ev : OperationEvent) (j : Job.t) :
  within j (Job.operationEmit ref ev j).
Proof.
  unfold Job.operationEmit. destruct (Job.heap j !! ref); [|apply within_refl].
  eapply within_trans; [|apply within_callListeners]. by apply within_record.
Qed.

Lemma within_operationEmitAll (ref : nat) (evs : list OperationEvent)
    (j : Job.t) :
  within j (Job.operationEmitAll ref evs j).
Proof.
  revert j. induction evs as [|ev evs IH]; intros j; [apply within_refl|].
  unfold Job.operationEmitAll. cbn [foldl].
  eapply within_trans; [apply within_operationEmit|apply IH].
Qed.

Lemma within_operationStart (ref : nat) (j : Job.t) :
  within j (Job.operationStart ref j).
Proof.
  unfold Job.operationStart. destruct (Job.heap j !! ref) as [op|] eqn:Hr;
    [|apply within_refl].
  assert (Hin : input (Operation.start op).1 = input op)
    by (unfold Operation.start; by case_decide).
  destruct (Operation.start op) as [op' evs].
  eapply within_trans; [|apply within_operationEmitAll].
  by apply (within_update ref op).
Qed.

Lemma within_operationSettle (ref : nat) (o : Outcome) (j : Job.t) :
  within j (Job.operationSettle ref o j).
Proof.
  unfold Job.operationSettle. destruct (Job.heap j !! ref) as [op|] eqn:Hr;
    [|apply within_refl].
  assert (Hin : input (Operation.settle o op).1 = input op) by (by destruct o).
  destruct (Operation.settle o op) as [op' evs].
  eapply within_trans; [|apply within_operationEmitAll].
  by apply (within_update ref op).
Qed.

Lemma within_step (e : Job.Event) (j j' : Job.t) :
  Job.step e j = Some j' → within j j'.
Proof.
  destruct e as [k|ref o]; cbn [Job.step].
  - destruct (Job.timers j !! k) as [tm|]; [|done]. intros [= <-].
    eapply within_trans; [|destruct tm; cbn [Job.runTimer];
      [apply within_loop | apply within_operationStart]].
    split; [by repeat split|]. intros (A & B & C1 & C2).
    split; [done|]. split; [done|]. split; [done|]. unfold_job.
    intros r d Hin. apply (C2 r d). by eapply list_elem_of_delete_inv.
  - destruct (Job.heap j !! ref) as [op|]; [|done].
    case_decide; [|done]. intros [= <-]. apply within_operationSettle.
Qed.

Lemma within_run (sched : list Job.Event) (j j' : Job.t) :
  Job.run sched j = Some j' → within j j'.
Proof.
  revert j. induction sched as [|e sched IH]; intros j; cbn [Job.run].
  - intros [= <-]. apply within_refl.
  - destruct (Job.step e j) as [j1|] eqn:Hstep; [|done]. intros Hrun.
    eapply within_trans; [by eapply within_step | by apply IH].
Qed.

Lemma within_start (name : string) (data : list Value) (p : Job.Params) :
  0 ≤ Job.p_maxConcurrentOperations p →
  stable (Job.new name data p) (Job.start (Job.new name data p)) ∧
  safe (Job.start (Job.new name data p)).
Proof.
  intros Hmax. unfold Job.start. rewrite decide_False by done.
  set (j1 := Job.emit JOB_STARTED (Job.with_status STARTED _)).
  destruct (within_loop (length (Job.queuedOperations j1)) false j1) as [S W].
  split; [exact S|]. apply W. split; [exact Hmax|]. split; [reflexivity|].
  split.
  - intros r Hr. apply elem_of_seq in Hr.
    unfold j1, Job.new. unfold_job. rewrite length_imap. lia.
  - intros r d Hin. by apply not_elem_of_nil in Hin.
Qed.

(** The operation the dispatcher shifts off the backlog is in the store:
    the dispatcher never stops for want of it. *)
Lemma shifted_in_store (r : nat) (rest : list nat) (j : Job.t) :
  safe j → Job.queuedOperations j = r :: rest → is_Some (Job.heap j !! r).
Proof.
  intros (_ & _ & C & _) Hq. apply lookup_lt_is_Some, C. rewrite Hq. by left.
Qed.

(** X1. The counter never exceeds the limit, and JOB_COMPLETED is emitted at
    most once, in every run of a job that was started once. *)
Lemma counter_bounded_completed_once
    (name : string) (data : list Value) (p : Job.Params)
    (sched : list Job.Event) (s : Job.t) :
  0 ≤ Job.p_maxConcurrentOperations p →
  Job.run sched (Job.start (Job.new name data p)) = Some s →
  Job.numCurrentOperations s ≤ Job.p_maxConcurrentOperations p ∧
  (completions s ≤ 1)%nat.
Proof.
  intros Hmax Hrun.
  destruct (within_start name data p Hmax) as [(S1 & _) Hsafe].
  destruct (within_run sched _ s Hrun) as [(T1 & _) W].
  destruct (W Hsafe) as (A & B & _). rewrite T1, S1 in A.
  split; [exact A|]. rewrite B. case_decide; lia.
Qed.

Lemma counter_bounded_completed_once_witness :
  Job.numCurrentOperations Scenario.failed ≤ 1 ∧
  (completions Scenario.failed ≤ 1)%nat.
Proof.
  apply (counter_bounded_completed_once "failing" ["a"]
           (Scenario.params 1 1 0) Scenario.failing_sched Scenario.failed);
    [vm_compute; discriminate | reflexivity].
Defined.

(** C3 on [Scenario.failing]: one operation, no retry, the transform
    rejects. Once the rejection is handled the operation is in the
    completed list as FAILED, its [timesFailed] is 1, and it has emitted
    OPERATION_FAILED twice.

    And on [Scenario.failing2]: one operation, one retry, the transform
    rejects both times. The first of the two [emit] calls of the second
    rejection moves the operation to the completed list: right after it
    [timesFailed] is 2, the operation has emitted OPERATION_FAILED 3
    times and the job has forwarded it 3 times. The second [emit] call
    makes that 4 emitted. *)
Theorem failed_emitted_twice_per_failure :
  (∃ j op,
     Job.run Scenario.failing_sched (Job.start Scenario.failing) = Some j ∧
     Job.completedOperations j = [Some 0%nat] ∧
     Job.heap j !! 0%nat = Some op ∧
     Operation.status op = FAILED ∧
     Operation.timesFailed op = 1 ∧
     Job.count_signal (Job.OpEmit 0 OPERATION_FAILED) j = 2%nat) ∧
  (∃ j1 op1 op2,
     Job.run Scenario.failing2_sched (Job.start Scenario.failing2) = Some j1 ∧
     Job.completedOperations j1 = [] ∧
     Job.heap j1 !! 0%nat = Some op1 ∧
     Operation.settle (Reject "err") op1
       = (op2, [OPERATION_FAILED; OPERATION_FAILED]) ∧
     Operation.status op2 = FAILED ∧
     Operation.timesFailed op2 = 2 ∧
     let j2 := Job.operationEmit 0 OPERATION_FAILED
                 (Job.with_heap (<[0%nat := op2]> (Job.heap j1)) j1) in
     let j3 := Job.operationEmit 0 OPERATION_FAILED j2 in
     Job.completedOperations j2 = [Some 0%nat] ∧
     Job.count_signal (Job.OpEmit 0 OPERATION_FAILED) j2 = 3%nat ∧
     Job.count_signal (Job.JobOpEmit OPERATION_FAILED "a") j2 = 3%nat ∧
     Job.step (Job.Settle 0 (Reject "err")) j1 = Some j3 ∧
     Job.count_signal (Job.OpEmit 0 OPERATION_FAILED) j3 = 4%nat ∧
     Job.count_signal (Job.JobOpEmit OPERATION_FAILED "a") j3 = 3%nat).
Proof.
  split.
  - eexists _, _. split; [vm_compute; reflexivity|].
    repeat split; vm_compute; reflexivity.
  - eexists _, _, _. split; [vm_compute; reflexivity|].
    split; [reflexivity|]. split; [reflexivity|].
    split; [vm_compute; reflexivity|]. cbn zeta.
    repeat split; vm_compute; reflexivity.
Qed.

(** C1 on [Scenario.flaky3]: three operations, at most one at a time.
    After the run the in-flight map holds [b] and [c], both are STARTED,
    and the counter says 1. *)
Theorem two_in_flight_with_limit_one :
  ∃ j b c,
    Job.run Scenario.flaky3_sched (Job.start Scenario.flaky3) = Some j ∧
    Job.maxConcurrentOperations j = 1 ∧
    Job.numCurrentOperations j = 1 ∧
    size (Job.currentOperations j) = 2%nat ∧
    Job.currentOperations j !! "b" = Some 1%nat ∧
    Job.currentOperations j !! "c" = Some 2%nat ∧
    Job.heap j !! 1%nat = Some b ∧ Operation.status b = STARTED ∧
    Job.heap j !! 2%nat = Some c ∧ Operation.status c = STARTED.
Proof.
  eexists _, _, _. split; [vm_compute; reflexivity|].
  repeat split; vm_compute; reflexivity.
Qed.

(** C2 on [Scenario.cooled] and [Scenario.flaky2]. In the first run
    every attempt has settled and every timer has fired, and the job has
    not emitted JOB_COMPLETED: it is still STARTED, its counter is -1. In
    the second run JOB_COMPLETED is the last signal, emitted while [b] is
    in the in-flight map with its second attempt scheduled. *)
Theorem completion_missed_or_early :
  (∃ j,
     Job.run Scenario.cooled_sched (Job.start Scenario.cooled) = Some j ∧
     Job.quiescent j = true ∧
     Job.status j = STARTED ∧
     Job.numCurrentOperations j = -1 ∧
     Job.count_signal (Job.JobEmit JOB_COMPLETED) j = 0%nat) ∧
  (∃ j,
     Job.run Scenario.flaky2_sched (Job.start Scenario.flaky2) = Some j ∧
     last (Job.log j) = Some (Job.JobEmit JOB_COMPLETED) ∧
     Job.count_signal (Job.JobEmit JOB_COMPLETED) j = 1%nat ∧
     Job.currentOperations j !! "b" = Some 1%nat ∧
     Job.timers j = [Job.TStart 1 500]).
Proof.
  split.
  - eexists. split; [vm_compute; reflexivity|].
    repeat split; vm_compute; reflexivity.
  - eexists. split; [vm_compute; reflexivity|].
    repeat split; vm_compute; reflexivity.
Qed.

(** C9 on [Scenario.flaky2], after the pending timer has fired too: the
    job is COMPLETED and its export lists [b] as STARTED. *)
Theorem export_lists_started_after_completion :
  ∃ j,
    Job.run (Scenario.flaky2_sched ++ [Job.Fire 0])
            (Job.start Scenario.flaky2) = Some j ∧
    Job.status j = COMPLETED ∧
    {| Operation.export_id := "b"; Operation.export_data := "b";
       Operation.export_status := STARTED;
       Operation.export_result := Some "err"%string |}
      ∈ Job.operations (Job.export j).
Proof.
  eexists. split; [vm_compute; reflexivity|].
  split; [vm_compute; reflexivity|].
  vm_compute. apply list_elem_of_In. cbn. auto.
Qed.

(** C8: on a queue without a persistence directory, for a name that is
    not in the index, [getJobExport(name, true)] leaves its promise
    pending for good. The configuration error with which [hasJob]
    rejects is thrown inside the [async] executor, where nobody sees
    it. This is so whatever the file system holds. *)
Theorem getJobExport_never_settles
    (files : gmap string string) (JSON_parse : string → option Value)
    (q : Queue.t) (name : string) :
  Queue.hasDir q = false →
  Queue.jobIndex q !! name = None →
  Queue.hasJob files q name true
    = Queue.Rejected Queue.NoExportDirectory ∧
  Queue.getJobExport files JSON_parse q name true
    = {| Queue.constructed := Queue.Pending;
         Queue.thrown := Some Queue.NoExportDirectory |}.
Proof.
  intros Hdir Hidx.
  assert (H : Queue.hasJob files q name true
              = Queue.Rejected Queue.NoExportDirectory).
  { unfold Queue.hasJob. by rewrite Hidx, Hdir. }
  split; [exact H|]. unfold Queue.getJobExport. by rewrite H.
Qed.

Lemma getJobExport_never_settles_witness :
  Queue.getJobExport ∅ (λ _, None) Scenario.noDir "missing" true
    = {| Queue.constructed := Queue.Pending;
         Queue.thrown := Some Queue.NoExportDirectory |}.
Proof.
  apply (getJobExport_never_settles ∅ (λ _, None) Scenario.noDir "missing");
    reflexivity.
Defined.

(** ** The retry budget

    The invariant [budget_inv] of one operation, all of whose attempts
    fail, is kept by every callback of the job. *)

Lemma fixed_refl (j : Job.t) : fixed j j.
Proof. by repeat split. Qed.

Lemma fixed_trans (j1 j2 j3 : Job.t) :
  fixed j1 j2 → fixed j2 j3 → fixed j1 j3.
Proof.
  intros (A1 & A2 & A3 & A4) (B1 & B2 & B3 & B4).
  repeat split; congruence.
Qed.

Lemma fixed_lookup (j j' : Job.t) (r : nat) (op : Operation.t) :
  fixed j j' → Job.heap j !! r = Some op →
  ∃ op', Job.heap j' !! r = Some op' ∧ Operation.id op' = Operation.id op.
Proof.
  intros (_ & _ & _ & H) Hr.
  apply (f_equal (λ l, l !! r)) in H. rewrite !list_lookup_fmap, Hr in H.
  destruct (Job.heap j' !! r) as [op'|]; [|done].
  cbn in H. exists op'. split; [done | congruence].
Qed.

Lemma steady_refl (i : nat) (j : Job.t) : steady i j j.
Proof. split; [apply fixed_refl | done]. Qed.

Lemma steady_trans (i : nat) (j1 j2 j3 : Job.t) :
  steady i j1 j2 → steady i j2 j3 → steady i j1 j3.
Proof.
  intros (A1 & A2) (B1 & B2).
  split; [by eapply fixed_trans | congruence].
Qed.

Lemma steady_lookup (i : nat) (j j' : Job.t) (op : Operation.t) :
  steady i j j' → Job.heap j !! i = Some op →
  ∃ op', Job.heap j' !! i = Some op' ∧ core op' = core op.
Proof.
  intros (_ & H) Hr. rewrite Hr in H.
  destruct (Job.heap j' !! i) as [op'|]; [|done].
  cbn in H. exists op'. split; [done | congruence].
Qed.

Lemma keeps_trans (i : nat) (j1 j2 j3 : Job.t) :
  keeps i j1 j2 → keeps i j2 j3 → keeps i j1 j3.
Proof.
  intros (S1 & _ & _ & F1) (S2 & C & B & F2).
  split; [by eapply steady_trans|]. split; [done|]. split; [done|auto].
Qed.

Lemma same_failed_refl (op : Operation.t) : same_failed op op.
Proof. by split. Qed.

Lemma same_view_lookup (j j' : Job.t) (r : nat) :
  same_view j j' →
  match Job.heap j !! r, Job.heap j' !! r with
  | Some op, Some op' => same_failed op op'
  | None, None => True
  | _, _ => False
  end.
Proof.
  intros (H & _). revert r.
  induction H as [|op op' h h' Hop H IH]; intros [|r]; cbn; auto.
  apply IH.
Qed.

Lemma same_view_lookup_l (j j' : Job.t) (r : nat) (op' : Operation.t) :
  same_view j j' → Job.heap j' !! r = Some op' →
  ∃ op, Job.heap j !! r = Some op ∧ same_failed op op'.
Proof.
  intros H Hr. pose proof (same_view_lookup j j' r H) as L.
  rewrite Hr in L. destruct (Job.heap j !! r) as [op|]; [|done]. by exists op.
Qed.

Lemma same_view_lookup_r (j j' : Job.t) (r : nat) (op : Operation.t) :
  same_view j j' → Job.heap j !! r = Some op →
  ∃ op', Job.heap j' !! r = Some op' ∧ same_failed op op'.
Proof.
  intros H Hr. pose proof (same_view_lookup j j' r H) as L.
  rewrite Hr in L. destruct (Job.heap j' !! r) as [op'|]; [|done]. by exists op'.
Qed.

Lemma same_view_steady (i : nat) (j j' : Job.t) :
  same_view j j' → steady i j j'.
Proof.
  intros H. pose proof (same_view_lookup j j' i H) as L.
  destruct H as (H1 & _ & _ & _ & _ & H6 & H7 & H8 & _).
  split; [repeat split; try done|].
  - clear L. induction H1 as [|op op' h h' [Hop _] H IH]; [done|].
    cbn. f_equal; [|done]. unfold core in Hop. congruence.
  - destruct (Job.heap j !! i), (Job.heap j' !! i); try done.
    cbn. f_equal. apply L.
Qed.

Lemma core_id (op op' : Operation.t) :
  core op' = core op → Operation.id op' = Operation.id op.
Proof. unfold core. congruence. Qed.

Lemma same_view_consistent (j j' : Job.t) :
  same_view j j' → consistent j → consistent j'.
Proof.
  intros H [A B C D].
  pose proof H as (H1 & H2 & H3 & H4 & H5 & H6 & H7 & H8 & H9).
  split; rewrite ?H2, ?H3, ?H4, ?H6; auto.
  - intros k r Hk. destruct (B k r Hk) as (op & Hop & E).
    destruct (same_view_lookup_r j j' r op H Hop) as (op' & Hop' & Hs & _).
    exists op'. split; [done|]. apply core_id in Hs. congruence.
  - intros r r' op op' Hr Hr' E.
    destruct (same_view_lookup_l j j' r op H Hr) as (o & Ho & Hs & _).
    destruct (same_view_lookup_l j j' r' op' H Hr') as (o' & Ho' & Hs' & _).
    apply core_id in Hs, Hs'. eapply C; eauto. congruence.
  - intros r Hin. destruct (D r Hin) as [op Hop].
    destruct (same_view_lookup_r j j' r op H Hop) as (op' & Hop' & _).
    by exists op'.
Qed.

Lemma same_failed_attempting (op op' : Operation.t) :
  same_failed op op' → attempting op' = attempting op.
Proof. intros [H _]. unfold attempting, core in *. by injection H as _ _ -> _ _ _. Qed.

Lemma same_view_budget (i : nat) (j j' : Job.t) :
  same_view j j' → budget_inv i j → budget_inv i j'.
Proof.
  intros H.
  pose proof H as (H1 & H2 & H3 & H4 & H5 & H6 & H7 & H8 & H9).
  intros [(op & R1 & R2 & R3 & R4 & R5)
         |(op & (L1 & L2 & L3) & Hcase)].
  { left. destruct (same_view_lookup_r j j' i op H R1) as (op' & Hop' & Hs).
    destruct Hs as [Hcore HF]. unfold core in Hcore.
    injection Hcore as E1 E2 E3 E4 E5 E6.
    exists op'. unfold retired, finalized, occurrences in *.
    rewrite H2, H5, H7, H9, HF, E3, E6. done. }
  right. destruct (same_view_lookup_r j j' i op H L1) as (op' & Hop' & Hs).
  pose proof (same_failed_attempting _ _ Hs) as Ha.
  destruct Hs as [Hcore HF]. unfold core in Hcore.
  injection Hcore as E1 E2 E3 E4 E5 E6.
  exists op'. split.
  { split; [done|]. rewrite H7, E5, E6, Ha. done. }
  unfold waiting, dispatched, occurrences in *.
  rewrite H2, H3, H8, H9, HF, Ha, E1, E3, E5. done.
Qed.

Lemma same_view_keeps (i : nat) (j j' : Job.t) :
  same_view j j' → consistent j → budget_inv i j → keeps i j j'.
Proof.
  intros H C B. split; [by apply same_view_steady|].
  split; [by eapply same_view_consistent|].
  split; [by eapply same_view_budget|].
  destruct H as (_ & _ & _ & _ & H5 & _). unfold finalized. by rewrite H5.
Qed.

Lemma Forall2_same_failed_refl (h : list Operation.t) :
  Forall2 same_failed h h.
Proof. induction h; constructor; [by split | done]. Qed.

Lemma same_view_refl (j : Job.t) : same_view j j.
Proof. split; [apply Forall2_same_failed_refl | by repeat split]. Qed.

Lemma same_view_trans (j1 j2 j3 : Job.t) :
  same_view j1 j2 → same_view j2 j3 → same_view j1 j3.
Proof.
  intros (A1 & A2 & A3 & A4 & A5 & A6 & A7 & A8 & A9)
         (B1 & B2 & B3 & B4 & B5 & B6 & B7 & B8 & B9).
  split; [|repeat split; try congruence].
  eapply Forall2_trans; [|exact A1|exact B1].
  intros x y z [X1 X2] [Y1 Y2]. split; congruence.
Qed.

Lemma same_view_record (s : Job.Signal) (j : Job.t) :
  same_view j (Job.record s j).
Proof. split; [apply Forall2_same_failed_refl | by repeat split]. Qed.

Lemma same_view_status (s : Status) (j : Job.t) :
  same_view j (Job.with_status s j).
Proof. split; [apply Forall2_same_failed_refl | by repeat split]. Qed.

Lemma starts_app (i : nat) (j : Job.t) (ts : list Job.Timer) :
  starts i (Job.with_timers (Job.timers j ++ ts) j)
  = (starts i j + length (List.filter (isStart i) ts))%nat.
Proof. unfold starts. unfold_job. by rewrite List.filter_app, length_app. Qed.

Lemma same_view_defer (d : Z) (j : Job.t) :
  same_view j (Job.setTimeout (Job.TDispatch d) j).
Proof.
  split; [apply Forall2_same_failed_refl|].
  repeat split. intros i. unfold Job.setTimeout, starts. unfold_job.
  rewrite List.filter_app, length_app. cbn. lia.
Qed.

(** With an empty backlog the dispatcher changes nothing the invariants
    read. *)
Lemma loop_empty (fuel : nat) (cooled : bool) (j : Job.t) :
  Job.queuedOperations j = [] →
  same_view j (Job.startNextOperation_rec fuel cooled j).
Proof.
  intros Hq. destruct fuel; cbn [Job.startNextOperation_rec]; rewrite Hq;
    repeat case_match; try apply same_view_refl; try apply same_view_defer;
    (eapply same_view_trans; [apply same_view_status | apply same_view_record]).
Qed.

Lemma core_set_events (e : Operation.Emitter) (op : Operation.t) :
  core (Operation.set_events e op) = core op.
Proof. reflexivity. Qed.

(** Replacing an operation by one with the same id. *)
Lemma update_lookup (h : list Operation.t) (r r' : nat)
    (op op' x : Operation.t) :
  h !! r = Some op → Operation.id op' = Operation.id op →
  <[r := op']> h !! r' = Some x →
  ∃ y, h !! r' = Some y ∧ Operation.id x = Operation.id y ∧
       (r' ≠ r → x = y).
Proof.
  intros Hr Hid Hx. destruct (decide (r' = r)) as [->|Hne].
  - rewrite list_lookup_insert_eq in Hx by (by eapply lookup_lt_Some).
    injection Hx as <-. exists op. by repeat split.
  - rewrite list_lookup_insert_ne in Hx by done. exists x. by repeat split.
Qed.

Lemma update_steady (i : nat) (j : Job.t) (r : nat) (op op' : Operation.t) :
  Job.heap j !! r = Some op → Operation.id op' = Operation.id op →
  (r = i → core op' = core op) →
  steady i j (Job.with_heap (<[r := op']> (Job.heap j)) j).
Proof.
  intros Hr Hid Hc. split; [repeat split|]; unfold_job.
  - rewrite list_fmap_insert, Hid. apply list_insert_id.
    by rewrite list_lookup_fmap, Hr.
  - destruct (decide (r = i)) as [->|Hne].
    + rewrite list_lookup_insert_eq by (by eapply lookup_lt_Some).
      rewrite Hr. cbn. f_equal. auto.
    + by rewrite list_lookup_insert_ne.
Qed.

Lemma update_consistent (j : Job.t) (r : nat) (op op' : Operation.t) :
  Job.heap j !! r = Some op → Operation.id op' = Operation.id op →
  consistent j →
  consistent (Job.with_heap (<[r := op']> (Job.heap j)) j).
Proof.
  intros Hr Hid [A B C D]. split; unfold_job.
  - done.
  - intros k r' Hk. destruct (B k r' Hk) as (y & Hy & <-).
    destruct (decide (r' = r)) as [->|Hne].
    + exists op'. rewrite list_lookup_insert_eq by (by eapply lookup_lt_Some).
      split; [done|]. congruence.
    + exists y. by rewrite list_lookup_insert_ne.
  - intros r1 r2 o1 o2 H1 H2 E.
    destruct (update_lookup _ _ _ _ _ _ Hr Hid H1) as (y1 & Y1 & E1 & _).
    destruct (update_lookup _ _ _ _ _ _ Hr Hid H2) as (y2 & Y2 & E2 & _).
    eapply C; eauto. congruence.
  - intros r' Hin. destruct (D r' Hin) as [y Hy].
    destruct (decide (r' = r)) as [->|Hne].
    + exists op'. by rewrite list_lookup_insert_eq by (by eapply lookup_lt_Some).
    + exists y. by rewrite list_lookup_insert_ne.
Qed.

Lemma count_occ_snoc (l : list nat) (x i : nat) :
  count_occ Nat.eq_dec (l ++ [x]) i
  = (count_occ Nat.eq_dec l i + if decide (x = i) then 1 else 0)%nat.
Proof.
  rewrite count_occ_app. cbn. destruct (Nat.eq_dec x i), (decide (x = i)); done.
Qed.

(** Taking the operation at [r] on. *)
Lemma dispatch_keeps (i r : nat) (opr : Operation.t) (j : Job.t) :
  consistent j → Job.heap j !! r = Some opr →
  Job.numCurrentOperations j < Job.maxConcurrentOperations j →
  (r ≠ i → budget_inv i j) →
  (r = i → live i j opr ∧ ready i j opr) →
  keeps i j (Job.dispatch r opr j).
Proof.
  intros Hc Hr Hnum Hother Hself.
  set (ev := Operation.once OPERATION_FAILED
               (Operation.once OPERATION_COMPLETED
                  (Operation.once OPERATION_STARTED (Operation.events opr)))).
  set (opr' := Operation.set_events ev opr).
  assert (Hst : steady i j (Job.dispatch r opr j)).
  { exact (update_steady i j r opr opr' Hr eq_refl (λ _, eq_refl)). }
  split; [done|]. split; [|split].
  - destruct (update_consistent j r opr opr' Hr eq_refl Hc) as [A B C D].
    split; unfold Job.dispatch; fold ev; fold opr'; unfold_job.
    + lia.
    + intros k r' Hk.
      change (Job.current (Job.dispatch r opr j) k = Some r') in Hk.
      rewrite current_dispatch in Hk.
      destruct (decide (k = Operation.id opr)) as [->|Hne].
      * injection Hk as <-.
        exists opr'. split; [|done].
        apply list_lookup_insert_eq. by eapply lookup_lt_Some.
      * by apply B.
    + done.
    + done.
  - destruct (decide (r = i)) as [->|Hne].
    + destruct (Hself eq_refl) as ((Hl1 & Hl2 & Hl3) & (Hr1 & Hr2 & Hr3)).
      right. exists opr'.
      assert (Hi : Job.heap (Job.dispatch i opr j) !! i = Some opr').
      { unfold Job.dispatch. fold ev. fold opr'. unfold_job.
        apply list_lookup_insert_eq. by eapply lookup_lt_Some. }
      split; [split; [done|]; split; done|]. right.
      split; [exact Hr1|]. split; [cbn; by rewrite Hr2|].
      split; [rewrite current_dispatch; by rewrite decide_True|].
      unfold Job.dispatch, Job.setTimeout, starts in *. unfold_job.
      rewrite List.filter_app, length_app. cbn [List.filter isStart].
      rewrite Nat.eqb_refl. cbn [length].
      destruct Hr3 as [[Hs Ha]|Hz]; [left|by right].
      unfold attempting. cbn. rewrite decide_False by done. lia.
    + specialize (Hother Hne).
      assert (Hi : Job.heap (Job.dispatch r opr j) !! i = Job.heap j !! i).
      { unfold Job.dispatch. unfold_job. by rewrite list_lookup_insert_ne. }
      assert (Hs : starts i (Job.dispatch r opr j) = starts i j).
      { unfold Job.dispatch, Job.setTimeout, starts. unfold_job.
        rewrite List.filter_app, length_app. cbn [List.filter isStart].
        apply Nat.eqb_neq in Hne. rewrite Hne. cbn. lia. }
      destruct Hother as [(op & R1 & R2 & R3 & R4 & R5)
                         |(op & (Hl1 & Hl2 & Hl3) & Hcase)].
      { left. exists op. unfold retired. rewrite Hi, Hs. done. }
      right. exists op. pose proof Hl1 as Hl1'. rewrite <- Hi in Hl1.
      split; [done|].
      destruct Hcase as [(W1 & W2 & W3 & W4)|(D1 & D2 & D3 & D4)].
      * left. unfold waiting. rewrite Hs. done.
      * right. unfold dispatched. rewrite Hs. split; [done|]. split; [done|].
        split; [|done]. rewrite current_dispatch, decide_False; [done|].
        intros E. apply Hne. destruct Hc as [_ _ C _].
        symmetry in E. exact (C _ _ _ _ Hr Hl1' E).
  - done.
Qed.

Lemma queued_consistent (q : list nat) (j : Job.t) :
  consistent j → (∀ r, r ∈ q → is_Some (Job.heap j !! r)) →
  consistent (Job.with_queued q j).
Proof. intros [A B C D] Hq. by split. Qed.

Lemma isFull_num (j : Job.t) :
  Job.isFull j = false →
  Job.numCurrentOperations j < Job.maxConcurrentOperations j.
Proof. unfold Job.isFull. rewrite Z.geb_leb. apply Z.leb_gt. Qed.

(** The head of the backlog is shifted off and taken on. *)
Lemma shift_dispatch_keeps (i r : nat) (rest : list nat)
    (opr : Operation.t) (j : Job.t) :
  consistent j → budget_inv i j → Job.isFull j = false →
  Job.queuedOperations j = r :: rest → Job.heap j !! r = Some opr →
  keeps i j (Job.dispatch r opr (Job.with_queued rest j)).
Proof.
  intros Hc Hb Hfull Hq Hr.
  assert (Hc' : consistent (Job.with_queued rest j)).
  { apply queued_consistent; [done|]. intros r' Hin.
    destruct Hc as [_ _ _ D]. apply D. rewrite Hq. by right. }
  assert (K : keeps i (Job.with_queued rest j)
                (Job.dispatch r opr (Job.with_queued rest j))).
  { apply dispatch_keeps; [done|done|by apply isFull_num| |].
    - intros Hne.
      destruct Hb as [(op & R1 & R2 & R3 & R4 & R5)
                     |(op & Hl & Hcase)].
      { left. exists op. repeat split; try done.
        unfold occurrences in *. rewrite Hq in R3. unfold_job.
        cbn in R3. by destruct (Nat.eq_dec r i). }
      right. exists op. split; [done|].
      destruct Hcase as [(W1 & W2 & W3 & W4)|(D1 & D2 & D3 & D4)].
      + left. repeat split; try done.
        unfold occurrences in *. rewrite Hq in W1. unfold_job.
        cbn in W1. by destruct (Nat.eq_dec r i).
      + right. repeat split; try done.
        * unfold occurrences in *. rewrite Hq in D1. unfold_job.
          cbn in D1. by destruct (Nat.eq_dec r i).
        * destruct D4 as [D4|(_ & D4 & _)]; [by left|]. by rewrite Hq in D4.
    - intros ->.
      destruct Hb as [(op & R1 & R2 & R3 & R4 & R5)
                     |(op & Hl & Hcase)].
      { unfold occurrences in R3. rewrite Hq in R3. cbn in R3.
        by destruct (Nat.eq_dec i i). }
      destruct Hl as (Hl1 & Hl2 & Hl3).
      assert (op = opr) as -> by congruence.
      split; [done|].
      destruct Hcase as [(W1 & W2 & W3 & W4)|(D1 & D2 & D3 & D4)].
      + repeat split; try done; [|by left].
        unfold occurrences in *. rewrite Hq in W1. unfold_job.
        cbn in W1. destruct (Nat.eq_dec i i); [lia|done].
      + unfold occurrences in D1. rewrite Hq in D1. cbn in D1.
        by destruct (Nat.eq_dec i i). }
  destruct K as (K1 & K2 & K3 & K4).
  split; [exact K1|]. split; [exact K2|]. split; [exact K3|exact K4].
Qed.

(** The dispatcher. *)
Lemma loop_keeps (i fuel : nat) (cooled : bool) (j : Job.t) :
  consistent j → budget_inv i j →
  keeps i j (Job.startNextOperation_rec fuel cooled j) ∧
  ∃ shifted, Job.queuedOperations j
    = shifted ++ Job.queuedOperations (Job.startNextOperation_rec fuel cooled j).
Proof.
  revert cooled j. induction fuel as [|fuel IH]; intros cooled j Hc Hb;
    cbn [Job.startNextOperation_rec].
  all: destruct (bool_decide (Job.cooldown j ≠ 0) && negb cooled);
    [split; [apply same_view_keeps; [apply same_view_defer|done|done] | by exists []]|].
  all: destruct (Job.isFull j) eqn:Hfull;
    [split; [apply same_view_keeps; [apply same_view_refl|done|done] | by exists []]|].
  all: destruct (Job.isComplete j);
    [split; [|by case_match; exists []];
     apply same_view_keeps; [|done|done]; case_match;
     [apply same_view_refl|];
     (eapply same_view_trans; [apply same_view_status | apply same_view_record])|].
  all: destruct (Job.queuedOperations j) as [|r rest] eqn:Hq;
    [split; [apply same_view_keeps; [apply same_view_refl|done|done] | by exists []]|].
  all: destruct (Job.heap j !! r) as [opr|] eqn:Hr;
    [|split; [apply same_view_keeps; [apply same_view_refl|done|done] | by exists []]].
  all: pose proof (shift_dispatch_keeps i r rest opr j Hc Hb Hfull Hq Hr) as K.
  - split; [done|]. by exists [r].
  - destruct K as (K1 & K2 & K3 & K4).
    destruct (IH false _ K2 K3) as (K' & shifted & Hs).
    split; [eapply keeps_trans; [|exact K'];
            split; [exact K1|]; split; [exact K2|]; split; [exact K3|exact K4]|].
    exists (r :: shifted). cbn. f_equal. exact Hs.
Qed.

Lemma handleOperationComplete_books (id : string) (final : bool) (j : Job.t) :
  Job.handleOperationComplete id final j
  = Job.startNextOperation false (books id final j).
Proof. reflexivity. Qed.

Lemma startNextOperation_keeps (i : nat) (cooled : bool) (j : Job.t) :
  consistent j → budget_inv i j →
  keeps i j (Job.startNextOperation cooled j) ∧
  ∃ shifted, Job.queuedOperations j
    = shifted ++ Job.queuedOperations (Job.startNextOperation cooled j).
Proof. apply loop_keeps. Qed.

Lemma books_steady (i : nat) (id : string) (final : bool) (j : Job.t) :
  steady i j (books id final j).
Proof. destruct final; exact (steady_refl i j). Qed.

Lemma current_books (id k : string) (final : bool) (j : Job.t) :
  Job.current (books id final j) k
  = if decide (k = id ∧ k ≠ "__proto__") then None else Job.current j k.
Proof.
  unfold books. destruct final; [|apply current_delete].
  exact (current_delete id k _
           (Job.with_completed
              (Job.completedOperations j ++ [Job.current j id]) j)).
Qed.

Lemma books_consistent (id : string) (final : bool) (j : Job.t) :
  consistent j → consistent (books id final j).
Proof.
  intros [A B C D]. split.
  - destruct final; unfold books; unfold_job; lia.
  - intros k r Hk.
    assert (Hk' : Job.current j k = Some r).
    { rewrite current_books in Hk. by case_decide. }
    destruct (B k r Hk') as (op & Hop & E). exists op. by destruct final.
  - by destruct final.
  - by destruct final.
Qed.

(** The books of an operation other than the one at [i]. *)
Lemma books_other_keeps (i : nat) (id : string) (final : bool)
    (opi : Operation.t) (j : Job.t) :
  consistent j → budget_inv i j →
  Job.heap j !! i = Some opi → Operation.id opi ≠ id →
  keeps i j (books id final j).
Proof.
  intros Hc Hb Hi Hid. split; [apply books_steady|].
  split; [by apply books_consistent|]. split.
  - destruct Hb as [(op & R1 & R2 & R3 & R4 & R5)
                   |(op & Hl & Hcase)].
    + left. exists op. unfold retired.
      split; [by destruct final|]. split; [|by destruct final].
      unfold finalized in *. destruct final; unfold books; unfold_job;
        [apply elem_of_app; by left | done].
    + right. exists op. split; [by destruct final|].
      destruct Hcase as [W|(D1 & D2 & D3 & D4)]; [left; by destruct final|].
      right. assert (op = opi) as -> by (destruct Hl; congruence).
      split; [by destruct final|]. split; [done|].
      split; [|by destruct final].
      rewrite current_books, decide_False; [done|]. by intros [? _].
  - unfold finalized. destruct final; unfold books; unfold_job; [|done].
    intros [H|H]%elem_of_app; [done|].
    apply list_elem_of_singleton in H. symmetry in H.
    destruct Hc as [_ B C _]. destruct (B _ _ H) as (op & Hop & E).
    congruence.
Qed.

(** [handleOperationComplete] for an operation other than the one at [i]. *)
Lemma complete_other_keeps (i : nat) (id : string) (final : bool)
    (opi : Operation.t) (j : Job.t) :
  consistent j → budget_inv i j →
  Job.heap j !! i = Some opi → Operation.id opi ≠ id →
  keeps i j (Job.handleOperationComplete id final j).
Proof.
  intros Hc Hb Hi Hid. rewrite handleOperationComplete_books.
  pose proof (books_other_keeps i id final opi j Hc Hb Hi Hid) as K.
  eapply keeps_trans; [exact K|].
  destruct K as (_ & K2 & K3 & _). by apply startNextOperation_keeps.
Qed.

Lemma push_shift (x : nat) (id : string) (j : Job.t) :
  Job.queuedOperations j = [] →
  Job.with_queued [] (books id false (Job.with_queued [x] j))
  = books id false j.
Proof. intros Hq. destruct j. cbn in *. by subst. Qed.

Lemma startNextOperation_single (x : nat) (opx : Operation.t) (j : Job.t) :
  Job.cooldown j = 0 → Job.queuedOperations j = [x] →
  Job.numCurrentOperations j < Job.maxConcurrentOperations j →
  Job.heap j !! x = Some opx →
  Job.startNextOperation false j
  = Job.startNextOperation false
      (Job.dispatch x opx (Job.with_queued [] j)).
Proof.
  intros Hcd Hq Hnum Hx. rewrite startNextOperation_unfold.
  rewrite bool_decide_false by (by intros ?). cbn [andb].
  rewrite isFull_false by done.
  unfold Job.isComplete, Job.hasPending. rewrite Hq. cbn [length].
  rewrite andb_false_r, Hx. reflexivity.
Qed.

(** An operation other than the one at [i] is put back on the backlog. *)
Lemma requeue_other_keeps (i x : nat) (id : string)
    (opi opx : Operation.t) (j : Job.t) :
  consistent j → budget_inv i j →
  Job.heap j !! i = Some opi → Job.heap j !! x = Some opx →
  Operation.id opx = id → x ≠ i →
  keeps i j (Job.handleOperationComplete id false
               (Job.with_queued (Job.queuedOperations j ++ [x]) j)).
Proof.
  intros Hc Hb Hi Hx Hid Hne.
  assert (Hidi : Operation.id opi ≠ id).
  { intros E. apply Hne. destruct Hc as [_ _ C _]. eapply C; eauto. congruence. }
  destruct (decide (Job.cooldown j = 0 ∧ Job.queuedOperations j = []))
    as [[Hcd Hq]|Hno].
  - rewrite Hq. cbn [app]. rewrite handleOperationComplete_books.
    pose proof (books_other_keeps i id false opi j Hc Hb Hi Hidi) as K.
    rewrite (startNextOperation_single x opx);
      [|done|done|destruct Hc as [A _ _ _]; unfold books; unfold_job; lia|done].
    rewrite push_shift by done.
    eapply keeps_trans; [exact K|].
    destruct K as (_ & K2 & K3 & _).
    assert (K' : keeps i (books id false j)
                   (Job.dispatch x opx (books id false j))).
    { apply dispatch_keeps; [done|done| | done | done].
      destruct Hc as [A _ _ _]. unfold books; unfold_job; lia. }
    eapply keeps_trans; [exact K'|].
    destruct K' as (_ & K2' & K3' & _). by apply startNextOperation_keeps.
  - assert (K : keeps i j
                  (Job.with_queued (Job.queuedOperations j ++ [x]) j)).
    { split; [exact (steady_refl i j)|]. split; [|split; [|done]].
      - apply queued_consistent; [done|]. intros r [Hr|Hr]%elem_of_app.
        + destruct Hc as [_ _ _ D]. by apply D.
        + apply list_elem_of_singleton in Hr as ->. by eexists.
      - assert (Hocc : occurrences i
                  (Job.with_queued (Job.queuedOperations j ++ [x]) j)
                = occurrences i j).
        { unfold occurrences. unfold_job. rewrite count_occ_snoc.
          rewrite decide_False by done. lia. }
        destruct Hb as [(op & R1 & R2 & R3 & R4 & R5)
                       |(op & Hl & Hcase)].
        { left. exists op. unfold retired. by rewrite Hocc. }
        right. exists op. split; [done|].
        destruct Hcase as [(W1 & W2 & W3 & W4)|(D1 & D2 & D3 & D4)].
        + left. unfold waiting. by rewrite Hocc.
        + right. unfold dispatched. rewrite Hocc.
          split; [done|]. split; [done|]. split; [done|].
          destruct D4 as [D4|(D4 & D5 & _)]; [by left|]. by destruct Hno. }
    eapply keeps_trans; [exact K|].
    destruct K as (_ & K2 & K3 & _).
    by apply (complete_other_keeps i id false opi).
Qed.

(** An operation other than the one at [i] is written. *)
Lemma update_other_keeps (i x : nat) (opx opx' : Operation.t) (j : Job.t) :
  consistent j → budget_inv i j →
  Job.heap j !! x = Some opx → Operation.id opx' = Operation.id opx →
  x ≠ i →
  keeps i j (Job.with_heap (<[x := opx']> (Job.heap j)) j).
Proof.
  intros Hc Hb Hx Hid Hne.
  split; [by apply (update_steady i j x opx)|].
  split; [by apply (update_consistent j x opx)|].
  split; [|done].
  destruct Hb as [(op & R1 & R)|(op & (L1 & L2 & L3) & Hcase)].
  { left. exists op. split; [|done].
    unfold_job. by rewrite list_lookup_insert_ne. }
  right. exists op. split; [|done].
  split; [|done]. unfold_job. by rewrite list_lookup_insert_ne.
Qed.

Lemma listener_other_keeps (i x : nat) (ev : OperationEvent)
    (opi opx : Operation.t) (j : Job.t) :
  consistent j → budget_inv i j →
  Job.heap j !! i = Some opi → Job.heap j !! x = Some opx → x ≠ i →
  keeps i j (Job.listener ev x (Operation.id opx) j).
Proof.
  intros Hc Hb Hi Hx Hne.
  assert (Hidi : Operation.id opi ≠ Operation.id opx).
  { intros E. apply Hne. destruct Hc as [_ _ C _]. eapply C; eauto. }
  assert (K : ∀ s, keeps i j (Job.record s j)).
  { intros s. apply same_view_keeps; [apply same_view_record|done|done]. }
  destruct ev; cbn [Job.listener].
  - apply K.
  - eapply keeps_trans;
      [apply (K (Job.JobOpEmit OPERATION_COMPLETED (Operation.id opx)))|].
    destruct (K (Job.JobOpEmit OPERATION_COMPLETED (Operation.id opx)))
      as (_ & K2 & K3 & _).
    by apply (complete_other_keeps i _ true opi).
  - destruct (K (Job.JobOpEmit OPERATION_FAILED (Operation.id opx)))
      as (_ & K2 & K3 & _).
    change (Job.emitOperation OPERATION_FAILED (Operation.id opx) j)
      with (Job.record (Job.JobOpEmit OPERATION_FAILED (Operation.id opx)) j).
    set (j1 := Job.record _ j) in *.
    assert (Hx1 : Job.heap j1 !! x = Some opx) by done.
    rewrite Hx1.
    change (Job.maxFailuresPerOperation j1) with (Job.maxFailuresPerOperation j).
    case_bool_decide; (eapply keeps_trans; [apply K|]).
    + exact (requeue_other_keeps i x _ opi opx j1 K2 K3 Hi Hx1 eq_refl Hne).
    + exact (complete_other_keeps i _ true opi j1 K2 K3 Hi Hidi).
Qed.

Lemma callOnce_other_keeps (i x : nat) (ev : OperationEvent)
    (opi opx : Operation.t) (j : Job.t) :
  consistent j → budget_inv i j →
  Job.heap j !! i = Some opi → Job.heap j !! x = Some opx → x ≠ i →
  keeps i j (Job.callOnce ev x (Operation.id opx) j).
Proof.
  intros Hc Hb Hi Hx Hne. unfold Job.callOnce. rewrite Hx.
  set (opx' := Operation.set_events _ opx).
  pose proof (update_other_keeps i x opx opx' j Hc Hb Hx eq_refl Hne) as K.
  eapply keeps_trans; [exact K|].
  destruct K as (_ & K2 & K3 & _).
  apply (listener_other_keeps i x ev opi opx'); [done|done| | |done].
  - unfold_job. by rewrite list_lookup_insert_ne.
  - unfold_job. apply list_lookup_insert_eq. by eapply lookup_lt_Some.
Qed.

Lemma callListeners_other_keeps (i x n : nat) (ev : OperationEvent)
    (id : string) (opi opx : Operation.t) (j : Job.t) :
  consistent j → budget_inv i j →
  Job.heap j !! i = Some opi → Job.heap j !! x = Some opx →
  Operation.id opx = id → x ≠ i →
  keeps i j (Job.callListeners n ev x id j).
Proof.
  revert opi opx j. induction n as [|n IH]; intros opi opx j Hc Hb Hi Hx Hid Hne.
  { cbn. apply same_view_keeps; [apply same_view_refl|done|done]. }
  cbn [Job.callListeners]. subst id.
  pose proof (callOnce_other_keeps i x ev opi opx j Hc Hb Hi Hx Hne) as K.
  eapply keeps_trans; [exact K|].
  destruct K as (K1 & K2 & K3 & _).
  destruct (steady_lookup _ _ _ _ K1 Hi) as (opi' & Hi' & _).
  destruct (fixed_lookup _ _ _ _ (proj1 K1) Hx) as (opx' & Hx' & Hid').
  by apply (IH opi' opx').
Qed.

Lemma operationEmit_other_keeps (i x : nat) (ev : OperationEvent)
    (opi : Operation.t) (j : Job.t) :
  consistent j → budget_inv i j →
  Job.heap j !! i = Some opi → x ≠ i →
  keeps i j (Job.operationEmit x ev j).
Proof.
  intros Hc Hb Hi Hne. unfold Job.operationEmit.
  destruct (Job.heap j !! x) as [opx|] eqn:Hx;
    [|apply same_view_keeps; [apply same_view_refl|done|done]].
  pose proof (same_view_keeps i j _ (same_view_record (Job.OpEmit x ev) j) Hc Hb)
    as K.
  eapply keeps_trans; [exact K|].
  destruct K as (_ & K2 & K3 & _).
  by apply (callListeners_other_keeps i x _ ev _ opi opx).
Qed.

Lemma operationEmitAll_other_keeps (i x : nat) (evs : list OperationEvent)
    (opi : Operation.t) (j : Job.t) :
  consistent j → budget_inv i j →
  Job.heap j !! i = Some opi → x ≠ i →
  keeps i j (Job.operationEmitAll x evs j).
Proof.
  revert opi j. induction evs as [|ev evs IH]; intros opi j Hc Hb Hi Hne.
  { cbn. apply same_view_keeps; [apply same_view_refl|done|done]. }
  unfold Job.operationEmitAll. cbn [foldl].
  pose proof (operationEmit_other_keeps i x ev opi j Hc Hb Hi Hne) as K.
  eapply keeps_trans; [exact K|].
  destruct K as (K1 & K2 & K3 & _).
  destruct (steady_lookup _ _ _ _ K1 Hi) as (opi' & Hi' & _).
  by apply (IH opi').
Qed.

Lemma start_id (op : Operation.t) :
  Operation.id (Operation.start op).1 = Operation.id op.
Proof. unfold Operation.start. by case_decide. Qed.

Lemma settle_id (o : Outcome) (op : Operation.t) :
  Operation.id (Operation.settle o op).1 = Operation.id op.
Proof. by destruct o. Qed.

Lemma operationStart_other_keeps (i x : nat) (opi : Operation.t) (j : Job.t) :
  consistent j → budget_inv i j →
  Job.heap j !! i = Some opi → x ≠ i →
  keeps i j (Job.operationStart x j).
Proof.
  intros Hc Hb Hi Hne. unfold Job.operationStart.
  destruct (Job.heap j !! x) as [opx|] eqn:Hx;
    [|apply same_view_keeps; [apply same_view_refl|done|done]].
  pose proof (start_id opx) as Hid.
  destruct (Operation.start opx) as [opx' evs]. cbn in Hid.
  pose proof (update_other_keeps i x opx opx' j Hc Hb Hx Hid Hne) as K.
  eapply keeps_trans; [exact K|].
  destruct K as (K1 & K2 & K3 & _).
  destruct (steady_lookup _ _ _ _ K1 Hi) as (opi' & Hi' & _).
  by apply (operationEmitAll_other_keeps i x evs opi').
Qed.

Lemma operationSettle_other_keeps (i x : nat) (o : Outcome)
    (opi : Operation.t) (j : Job.t) :
  consistent j → budget_inv i j →
  Job.heap j !! i = Some opi → x ≠ i →
  keeps i j (Job.operationSettle x o j).
Proof.
  intros Hc Hb Hi Hne. unfold Job.operationSettle.
  destruct (Job.heap j !! x) as [opx|] eqn:Hx;
    [|apply same_view_keeps; [apply same_view_refl|done|done]].
  pose proof (settle_id o opx) as Hid.
  destruct (Operation.settle o opx) as [opx' evs]. cbn in Hid.
  pose proof (update_other_keeps i x opx opx' j Hc Hb Hx Hid Hne) as K.
  eapply keeps_trans; [exact K|].
  destruct K as (K1 & K2 & K3 & _).
  destruct (steady_lookup _ _ _ _ K1 Hi) as (opi' & Hi' & _).
  by apply (operationEmitAll_other_keeps i x evs opi').
Qed.

(** A timer is taken off the list because it fires. *)
Lemma starts_delete (i k : nat) (tm : Job.Timer) (j : Job.t) :
  Job.timers j !! k = Some tm →
  starts i j
  = (starts i (Job.with_timers (delete k (Job.timers j)) j)
     + if isStart i tm then 1 else 0)%nat.
Proof.
  unfold starts. unfold_job. generalize (Job.timers j). clear j.
  intros ts. revert k. induction ts as [|t ts IH]; intros [|k] Hk; try done.
  - injection Hk as ->. cbn [delete list_delete List.filter].
    destruct (isStart i tm); cbn [length]; lia.
  - cbn in Hk. specialize (IH k Hk).
    change (delete (S k) (t :: ts)) with (t :: delete k ts).
    change (List.filter (isStart i) (t :: ts))
      with (if isStart i t then t :: List.filter (isStart i) ts
            else List.filter (isStart i) ts).
    change (List.filter (isStart i) (t :: delete k ts))
      with (if isStart i t then t :: List.filter (isStart i) (delete k ts)
            else List.filter (isStart i) (delete k ts)).
    destruct (isStart i t); cbn [length]; rewrite IH; lia.
Qed.

Lemma same_view_update (r : nat) (op op' : Operation.t) (j : Job.t) :
  Job.heap j !! r = Some op → same_failed op op' →
  same_view j (Job.with_heap (<[r := op']> (Job.heap j)) j).
Proof.
  intros Hr Hs. split; [|by repeat split]. unfold_job.
  revert r Hr. induction (Job.heap j) as [|o h IH]; intros [|r] Hr; try done.
  - injection Hr as ->. constructor; [done|apply Forall2_same_failed_refl].
  - constructor; [apply same_failed_refl | by apply IH].
Qed.

(** The listeners for OPERATION_STARTED only forward the signal. *)
Lemma callListeners_started_view (n r : nat) (id : string) (j : Job.t) :
  same_view j (Job.callListeners n OPERATION_STARTED r id j).
Proof.
  revert j. induction n as [|n IH]; intros j; [apply same_view_refl|].
  cbn [Job.callListeners]. eapply same_view_trans; [|apply IH].
  unfold Job.callOnce. destruct (Job.heap j !! r) as [op|] eqn:Hr;
    [|apply same_view_refl].
  cbn [Job.listener].
  eapply same_view_trans; [|apply same_view_record].
  apply (same_view_update r op); [done|]. by split.
Qed.

Lemma operationEmit_started_view (r : nat) (j : Job.t) :
  same_view j (Job.operationEmit r OPERATION_STARTED j).
Proof.
  unfold Job.operationEmit. destruct (Job.heap j !! r) as [op|];
    [|apply same_view_refl].
  eapply same_view_trans; [apply same_view_record|].
  apply callListeners_started_view.
Qed.

(** An emit that finds no listener. *)
Lemma operationEmit_unheard (r : nat) (ev : OperationEvent)
    (op : Operation.t) (j : Job.t) :
  Job.heap j !! r = Some op →
  Operation.listenerCount ev (Operation.events op) = 0%nat →
  Job.operationEmit r ev j = Job.record (Job.OpEmit r ev) j.
Proof. intros Hr Hn. unfold Job.operationEmit. by rewrite Hr, Hn. Qed.

Lemma keeps_advances (i : nat) (j j' : Job.t) :
  keeps i j j' → advances i j j'.
Proof.
  intros ((K1 & _) & K2 & K3 & K4).
  split; [done|]. split; [done|]. split; [done|]. auto.
Qed.

(** The timer that calls [start()] of the operation at [i] fires. *)
Lemma own_start_advances (i k : nat) (d : Z) (j : Job.t) :
  consistent j → budget_inv i j →
  Job.timers j !! k = Some (Job.TStart i d) →
  advances i j
    (Job.operationStart i (Job.with_timers (delete k (Job.timers j)) j)).
Proof.
  intros Hc Hb Hk.
  pose proof (starts_delete i k _ j Hk) as Hs.
  cbn [isStart] in Hs. rewrite Nat.eqb_refl in Hs.
  set (j0 := Job.with_timers (delete k (Job.timers j)) j) in *.
  assert (Hc0 : consistent j0) by (by destruct Hc).
  assert (Hop : ∃ op, Job.heap j !! i = Some op).
  { destruct Hb as [(op & R1 & _)|(op & (L1 & _) & _)]; by exists op. }
  destruct Hop as [op Hop].
  assert (Hop0 : Job.heap j0 !! i = Some op) by exact Hop.
  unfold Job.operationStart. rewrite Hop0. unfold Operation.start.
  destruct (decide (Operation.status op = STARTED)) as [Hst|Hst].
  - cbn [Job.operationEmitAll foldl]. rewrite list_insert_id by done.
    rewrite with_heap_id.
    split; [by repeat split|]. split; [done|]. split; [|auto].
    destruct Hb as [(o & R1 & R2 & R3 & R4 & R5)|(o & (L1 & L2 & L3) & Hcase)].
    + left. exists o. split; [done|]. split; [done|]. split; [done|].
      split; [done|]. destruct R5 as [(R5 & _)|R5]; [lia|by right].
    + right. exists o. split; [done|].
      destruct Hcase as [(W1 & W2 & W3 & W4)|(D1 & D2 & D3 & D4)]; [lia|].
      right. split; [done|]. split; [done|]. split; [done|].
      destruct D4 as [D4|D4]; [|by right].
      assert (o = op) as -> by congruence.
      unfold attempting in D4. rewrite decide_True in D4 by done. lia.
  - set (op1 := {| Operation.status := STARTED |}).
    set (j1 := Job.with_heap (<[i := op1]> (Job.heap j0)) j0).
    cbn [Job.operationEmitAll foldl].
    assert (Hi1 : Job.heap j1 !! i = Some op1).
    { apply list_lookup_insert_eq. by eapply lookup_lt_Some. }
    assert (Hc1 : consistent j1) by (by apply (update_consistent j0 i op)).
    assert (Hb1 : budget_inv i j1).
    { destruct Hb as [(o & R1 & R2 & R3 & R4 & R5)|(o & (L1 & L2 & L3) & Hcase)];
        assert (o = op) as -> by congruence.
      - left. exists op1. split; [done|]. split; [done|]. split; [done|].
        split; [done|]. destruct R5 as [(R5 & _)|R5]; [lia|by right].
      - destruct Hcase as [(W1 & W2 & W3 & W4)|(D1 & D2 & D3 & D4)]; [lia|].
        right. exists op1.
        unfold attempting in L3, D4. rewrite decide_False in L3, D4 by done.
        split.
        { split; [done|]. split; [done|].
          unfold attempting. rewrite decide_True by done.
          cbn [Operation.executions Operation.timesFailed op1]. lia. }
        right. split; [done|]. split; [done|]. split; [done|].
        destruct D4 as [D4|D4]; [left|by right].
        change (starts i j1) with (starts i j0).
        unfold attempting. rewrite decide_True by done. lia. }
    pose proof (same_view_keeps i j1 _ (operationEmit_started_view i j1) Hc1 Hb1)
      as ((K1 & K1') & K2 & K3 & K4).
    split; [|split; [done|split; [done|]]].
    + eapply fixed_trans; [|exact K1]. repeat split.
      unfold j1. unfold_job. rewrite list_fmap_insert.
      apply list_insert_id. by rewrite list_lookup_fmap, Hop.
    + intros Hf. left. by apply K4.
Qed.

Lemma startNextOperation_deferred (j : Job.t) :
  Job.cooldown j ≠ 0 →
  Job.startNextOperation false j
  = Job.setTimeout (Job.TDispatch (Job.cooldown j)) j.
Proof.
  intros Hc. rewrite startNextOperation_unfold. by rewrite bool_decide_true.
Qed.

Lemma snoc_suffix_last (l s q : list nat) (x : nat) :
  l ++ [x] = s ++ q → q ≠ [] → x ∈ q.
Proof.
  intros E Hq. destruct q as [|y q _] using rev_ind; [done|].
  rewrite app_assoc in E. apply app_inj_tail in E as [_ ->].
  apply elem_of_app. right. by apply list_elem_of_singleton.
Qed.

Lemma occurrences_zero (i : nat) (j : Job.t) :
  occurrences i j = 0%nat → i ∉ Job.queuedOperations j.
Proof.
  unfold occurrences. intros H Hin. apply list_elem_of_In in Hin.
  apply (count_occ_In Nat.eq_dec) in Hin. lia.
Qed.

(** The operation at [i] failed within its budget and is put back on an
    empty backlog of a job without a cooldown: it is dispatched at once. *)
Lemma requeue_own_empty (i : nat) (op : Operation.t) (j : Job.t) :
  consistent j → Job.heap j !! i = Some op →
  Operation.onceFailed (Operation.events op) = 0%nat →
  Job.cooldown j = 0 → Job.queuedOperations j = [] →
  0 < Operation.timesFailed op < Job.maxFailuresPerOperation j →
  Z.of_nat (Operation.executions op)
    = Operation.timesFailed op + Z.of_nat (attempting op) →
  let j' := Job.handleOperationComplete (Operation.id op) false
              (Job.with_queued (Job.queuedOperations j ++ [i]) j) in
  steady i j j' ∧ consistent j' ∧ budget_inv i j' ∧
  (finalized i j' → finalized i j) ∧
  Job.cooldown j' = 0 ∧ Job.queuedOperations j' = [].
Proof.
  intros Hc Hi HF Hcd Hq Htf Hex. cbn zeta.
  rewrite Hq. cbn [app]. rewrite handleOperationComplete_books.
  assert (Hcb : consistent (books (Operation.id op) false j))
    by (by apply books_consistent).
  assert (Hnum : Job.numCurrentOperations (books (Operation.id op) false j)
                 < Job.maxConcurrentOperations j).
  { destruct Hc as [A _ _ _]. unfold books. unfold_job. lia. }
  rewrite (startNextOperation_single i op); [|done|done|exact Hnum|done].
  rewrite push_shift by done.
  set (jb := books (Operation.id op) false j) in *.
  assert (K : keeps i jb (Job.dispatch i op jb)).
  { apply dispatch_keeps; [done|done|exact Hnum|done|].
    intros _. split.
    - split; [done|].
      change (Job.maxFailuresPerOperation jb)
        with (Job.maxFailuresPerOperation j). split; [lia|done].
    - split; [unfold occurrences;
              change (Job.queuedOperations jb) with (Job.queuedOperations j);
              by rewrite Hq|]. split; [done|].
      right. split; [done|]. split; [done|]. lia. }
  destruct K as (K1 & K2 & K3 & K4).
  destruct (startNextOperation_keeps i false _ K2 K3)
    as ((M1 & M2 & M3 & M4) & shifted & Hs).
  split; [|split; [done|split; [done|split; [|split]]]].
  - eapply steady_trans; [|exact M1].
    eapply steady_trans; [|exact K1]. apply (books_steady i _ false j).
  - intros Hf. by apply K4, M4.
  - destruct M1 as ((_ & _ & -> & _) & _).
    by destruct K1 as ((_ & _ & -> & _) & _).
  - change (Job.queuedOperations (Job.dispatch i op jb))
      with (Job.queuedOperations j) in Hs.
    rewrite Hq in Hs. symmetry in Hs. by apply app_eq_nil in Hs as [_ ?].
Qed.

(** The operation at [i] failed within its budget and is put back on
    the backlog, no [start()] of it being scheduled. *)
Lemma requeue_own_waiting (i : nat) (op : Operation.t) (j : Job.t) :
  consistent j → Job.heap j !! i = Some op →
  Operation.onceFailed (Operation.events op) = 0%nat →
  occurrences i j = 0%nat → starts i j = 0%nat →
  Operation.status op ≠ STARTED →
  0 ≤ Operation.timesFailed op < Job.maxFailuresPerOperation j →
  Z.of_nat (Operation.executions op)
    = Operation.timesFailed op + Z.of_nat (attempting op) →
  let j' := Job.handleOperationComplete (Operation.id op) false
              (Job.with_queued (Job.queuedOperations j ++ [i]) j) in
  steady i j j' ∧ consistent j' ∧ budget_inv i j' ∧
  (finalized i j' → finalized i j) ∧
  (occurrences i j' = 0%nat →
   Job.cooldown j' = 0 ∧ Job.queuedOperations j' = []).
Proof.
  intros Hc Hi HF Hocc Hst Hstatus Htf Hex. cbn zeta.
  rewrite handleOperationComplete_books.
  set (jq := Job.with_queued (Job.queuedOperations j ++ [i]) j).
  set (jb := books (Operation.id op) false jq).
  assert (Hcq : consistent jq).
  { apply queued_consistent; [done|]. intros r [Hr|Hr]%elem_of_app.
    - destruct Hc as [_ _ _ D]. by apply D.
    - apply list_elem_of_singleton in Hr as ->. by eexists. }
  assert (Hcb : consistent jb) by (by apply books_consistent).
  assert (Hbb : budget_inv i jb).
  { right. exists op. split; [done|]. left.
    split; [|done]. unfold occurrences, jb, jq, books. unfold_job.
    rewrite count_occ_snoc, decide_True by done.
    unfold occurrences in Hocc. lia. }
  destruct (startNextOperation_keeps i false _ Hcb Hbb)
    as ((M1 & M2 & M3 & M4) & shifted & Hs).
  split; [|split; [done|split; [done|split; [done|]]]].
  - eapply steady_trans; [|exact M1]. exact (steady_refl i j).
  - intros Hz.
    assert (Hcd : Job.cooldown j = 0).
    { destruct (decide (Job.cooldown j = 0)) as [|Hne]; [done|].
      exfalso. rewrite startNextOperation_deferred in Hz by done.
      unfold occurrences, jb, jq, books in Hz. unfold_job.
      rewrite count_occ_snoc, decide_True in Hz by done. lia. }
    split; [destruct M1 as ((_ & _ & -> & _) & _); done|].
    destruct (decide (Job.queuedOperations
                (Job.startNextOperation false jb) = [])) as [|Hne]; [done|].
    exfalso. apply (occurrences_zero _ _ Hz).
    change (Job.queuedOperations jb) with (Job.queuedOperations j ++ [i]) in Hs.
    by eapply snoc_suffix_last.
Qed.

(** OPERATION_FAILED is emitted and finds one listener. *)
Lemma operationEmit_failed_heard (i : nat) (op : Operation.t) (j : Job.t) :
  Job.heap j !! i = Some op →
  Operation.onceFailed (Operation.events op) = 1%nat →
  Job.operationEmit i OPERATION_FAILED j =
    if bool_decide (Operation.timesFailed op < Job.maxFailuresPerOperation j)
    then Job.handleOperationComplete (Operation.id op) false
           (Job.with_queued (Job.queuedOperations j ++ [i]) (heard i op j))
    else Job.handleOperationComplete (Operation.id op) true (heard i op j).
Proof.
  intros Hi HF. unfold Job.operationEmit. rewrite Hi.
  cbn [Operation.listenerCount]. rewrite HF.
  cbn [Job.callListeners]. unfold Job.callOnce.
  change (Job.heap (Job.record (Job.OpEmit i OPERATION_FAILED) j))
    with (Job.heap j).
  rewrite Hi. cbn [Job.listener].
  fold (heard i op j).
  assert (Hh : Job.heap (heard i op j) !! i
               = Some (Operation.set_events
                         (Operation.removeOnce OPERATION_FAILED
                            (Operation.events op)) op)).
  { unfold heard. unfold_job.
    apply list_lookup_insert_eq. by eapply lookup_lt_Some. }
  rewrite Hh. reflexivity.
Qed.

Lemma heard_facts (i : nat) (op : Operation.t) (j : Job.t) :
  Job.heap j !! i = Some op → consistent j →
  let op' := Operation.set_events
               (Operation.removeOnce OPERATION_FAILED (Operation.events op))
               op in
  Job.heap (heard i op j) !! i = Some op' ∧
  consistent (heard i op j) ∧ steady i j (heard i op j).
Proof.
  intros Hi Hc op'. split; [|split].
  - unfold heard. unfold_job.
    apply list_lookup_insert_eq. by eapply lookup_lt_Some.
  - destruct (update_consistent j i op op' Hi eq_refl Hc) as [A B C D].
    by split.
  - exact (update_steady i j i op op' Hi eq_refl (λ _, eq_refl)).
Qed.

(** The second OPERATION_FAILED of a failure within the budget. *)
Lemma own_failed_again (i : nat) (op : Operation.t) (j : Job.t) :
  consistent j → budget_inv i j → Job.heap j !! i = Some op →
  0 < Operation.timesFailed op < Job.maxFailuresPerOperation j →
  (occurrences i j = 0%nat →
   Job.cooldown j = 0 ∧ Job.queuedOperations j = []) →
  keeps i j (Job.operationEmit i OPERATION_FAILED j).
Proof.
  intros Hc Hb Hi Htf Hempty.
  assert (Hquiet : Operation.onceFailed (Operation.events op) = 0%nat →
            keeps i j (Job.operationEmit i OPERATION_FAILED j)).
  { intros HF. rewrite (operationEmit_unheard i _ op) by done.
    apply same_view_keeps; [apply same_view_record|done|done]. }
  destruct Hb as [(o & R1 & R2 & R3 & R4 & R5)|(o & (L1 & L2 & L3) & Hcase)];
    assert (o = op) as -> by congruence.
  { by apply Hquiet. }
  destruct Hcase as [(W1 & W2 & W3 & W4)|(D1 & D2 & D3 & D4)].
  { by apply Hquiet. }
  destruct (Hempty D1) as [Hcd Hq].
  rewrite (operationEmit_failed_heard i op) by done.
  rewrite bool_decide_true by lia.
  destruct (heard_facts i op j Hi Hc) as (Hh & Hch & Hsh).
  set (op' := Operation.set_events _ op) in *.
  pose proof (requeue_own_empty i op' (heard i op j) Hch Hh) as K.
  cbn zeta in K.
  destruct K as (K1 & K2 & K3 & K4 & _);
    [subst op'; cbn; by rewrite D2|done|done|done|done|].
  split; [by eapply steady_trans|]. split; [done|]. split; [done|done].
Qed.

Lemma keeps_fixed (i : nat) (j j' : Job.t) : keeps i j j' → fixed j j'.
Proof. by intros ((? & _) & _). Qed.

(** The attempt of the operation at [i] fails. *)
Lemma own_reject_advances (i : nat) (e : option Value) (op : Operation.t)
    (j : Job.t) :
  consistent j → budget_inv i j →
  Job.heap j !! i = Some op → Operation.status op = STARTED →
  advances i j (Job.operationSettle i (Reject e) j).
Proof.
  intros Hc Hb Hi Hstatus.
  unfold Job.operationSettle. rewrite Hi. cbn [Operation.settle].
  set (op1 := {| Operation.status := FAILED |}).
  set (j1 := Job.with_heap (<[i := op1]> (Job.heap j)) j).
  unfold Job.operationEmitAll. cbn [foldl].
  assert (Hi1 : Job.heap j1 !! i = Some op1).
  { apply list_lookup_insert_eq. by eapply lookup_lt_Some. }
  assert (Hc1 : consistent j1) by (by apply (update_consistent j i op)).
  assert (Hf1 : fixed j j1).
  { repeat split. unfold j1. unfold_job. rewrite list_fmap_insert.
    apply list_insert_id. by rewrite list_lookup_fmap, Hi. }
  destruct Hb as [(o & R1 & R2 & R3 & R4 & R5)|(o & (L1 & L2 & L3) & Hcase)];
    assert (o = op) as -> by congruence.
  { (* finalized before, attempted again by a late timer *)
    destruct R5 as [(_ & R5 & _)|R5]; [congruence|].
    rewrite (operationEmit_unheard i OPERATION_FAILED op1 j1 Hi1 R4).
    rewrite (operationEmit_unheard i OPERATION_FAILED op1
               (Job.record (Job.OpEmit i OPERATION_FAILED) j1) Hi1 R4).
    assert (Hb1 : budget_inv i j1).
    { left. exists op1. split; [done|]. split; [done|]. split; [done|].
      split; [done|]. by right. }
    pose proof (same_view_keeps i j1 _
                  (same_view_record (Job.OpEmit i OPERATION_FAILED) j1)
                  Hc1 Hb1) as K.
    pose proof K as (_ & K2 & K3 & _).
    pose proof (same_view_keeps i _ _
                  (same_view_record (Job.OpEmit i OPERATION_FAILED) _)
                  K2 K3) as K'.
    pose proof (keeps_trans _ _ _ _ K K') as (M1 & M2 & M3 & M4).
    split; [eapply fixed_trans; [exact Hf1|apply M1]|].
    split; [done|]. split; [done|]. intros Hf. left. by apply M4. }
  destruct Hcase as [(W1 & W2 & W3 & W4)|(D1 & D2 & D3 & D4)]; [done|].
  unfold attempting in L3, D4. rewrite decide_True in L3, D4 by done.
  rewrite (operationEmit_failed_heard i op1 j1 Hi1 D2).
  destruct (heard_facts i op1 j1 Hi1 Hc1) as (Hh & Hch & Hsh).
  set (op2 := Operation.set_events _ op1) in *.
  set (j3 := heard i op1 j1) in *.
  change (Job.maxFailuresPerOperation j1) with (Job.maxFailuresPerOperation j).
  change (Operation.timesFailed op1) with (Operation.timesFailed op + 1).
  change (Operation.id op1) with (Operation.id op).
  change (Job.queuedOperations j1) with (Job.queuedOperations j3).
  assert (Hop2 : Operation.onceFailed (Operation.events op2) = 0%nat).
  { subst op2. cbn. by rewrite D2. }
  assert (Hex2 : Z.of_nat (Operation.executions op2)
                 = Operation.timesFailed op2 + Z.of_nat (attempting op2)).
  { unfold attempting. rewrite decide_False by done.
    change (Operation.executions op2) with (Operation.executions op).
    change (Operation.timesFailed op2) with (Operation.timesFailed op + 1).
    lia. }
  case_bool_decide as Hbudget.
  - (* within the budget: back on the backlog *)
    assert (K : let j4 := Job.handleOperationComplete (Operation.id op) false
                            (Job.with_queued (Job.queuedOperations j3 ++ [i]) j3)
                in steady i j3 j4 ∧ consistent j4 ∧ budget_inv i j4 ∧
                   (finalized i j4 → finalized i j3) ∧
                   (occurrences i j4 = 0%nat →
                    Job.cooldown j4 = 0 ∧ Job.queuedOperations j4 = [])).
    { destruct D4 as [D4|(D4 & D5 & D6)].
      - apply (requeue_own_waiting i op2 j3); try done.
        + change (starts i j3) with (starts i j). lia.
        + change (Operation.timesFailed op2) with (Operation.timesFailed op + 1).
          change (Job.maxFailuresPerOperation j3)
            with (Job.maxFailuresPerOperation j). lia.
      - destruct (requeue_own_empty i op2 j3) as (K1 & K2 & K3 & K4 & K5 & K6);
          try done.
        change (Operation.timesFailed op2) with (Operation.timesFailed op + 1).
        change (Job.maxFailuresPerOperation j3)
          with (Job.maxFailuresPerOperation j). lia. }
    cbn zeta in K. set (j4 := Job.handleOperationComplete _ _ _) in *.
    destruct K as (K1 & K2 & K3 & K4 & K5).
    destruct (steady_lookup i j3 j4 op2 K1 Hh) as (op4 & Hi4 & Hcore).
    unfold core in Hcore. injection Hcore as E1 E2 E3 E4 E5 E6.
    assert (K' : keeps i j4 (Job.operationEmit i OPERATION_FAILED j4)).
    { apply (own_failed_again i op4); try done.
      rewrite E5.
      change (Operation.timesFailed op2) with (Operation.timesFailed op + 1).
      destruct K1 as ((_ & -> & _) & _).
      change (Job.maxFailuresPerOperation j3)
        with (Job.maxFailuresPerOperation j). lia. }
    destruct K' as (M1 & M2 & M3 & M4).
    split; [|split; [done|split; [done|]]].
    + eapply fixed_trans; [exact Hf1|].
      eapply fixed_trans; [apply Hsh|].
      eapply fixed_trans; [apply K1|apply M1].
    + intros Hf. left. by apply K4, M4.
  - (* the budget is used up: finalized *)
    rewrite handleOperationComplete_books.
    set (jb := books (Operation.id op) true j3).
    assert (Hcb : consistent jb) by (by apply books_consistent).
    assert (Hfin : finalized i jb).
    { unfold finalized, jb, books. unfold_job.
      apply elem_of_app. right. apply list_elem_of_singleton.
      change (Job.current j3 (Operation.id op))
        with (Job.current j (Operation.id op)).
      by rewrite D3. }
    assert (Hend : Operation.timesFailed op + 1
                   = Job.maxFailuresPerOperation j) by lia.
    assert (Hbb : budget_inv i jb).
    { left. exists op2. split; [done|]. split; [done|]. split; [done|].
      split; [done|]. destruct D4 as [D4|(D4 & D5 & D6)].
      - left. split; [change (starts i jb) with (starts i j); lia|].
        split; [done|].
        change (Job.maxFailuresPerOperation jb)
          with (Job.maxFailuresPerOperation j).
        change (Operation.executions op2) with (Operation.executions op). lia.
      - right. change (Job.maxFailuresPerOperation jb)
          with (Job.maxFailuresPerOperation j). lia. }
    destruct (startNextOperation_keeps i false jb Hcb Hbb)
      as ((M1 & M2 & M3 & M4) & _).
    set (j4 := Job.startNextOperation false jb) in *.
    assert (Hhb : Job.heap jb !! i = Some op2) by exact Hh.
    destruct (steady_lookup i jb j4 op2 M1 Hhb) as (op4 & Hi4 & Hcore).
    unfold core in Hcore. injection Hcore as E1 E2 E3 E4 E5 E6.
    assert (HF4 : Operation.onceFailed (Operation.events op4) = 0%nat).
    { destruct M3 as [(o & R1 & R2 & R3 & R4 & R5)
                     |(o & (N1 & N2 & N3) & _)];
        assert (o = op4) as -> by congruence; [done|].
      exfalso. rewrite E5 in N2.
      change (Operation.timesFailed op2) with (Operation.timesFailed op + 1)
        in N2.
      destruct M1 as ((_ & HM & _) & _). rewrite HM in N2.
      change (Job.maxFailuresPerOperation jb)
        with (Job.maxFailuresPerOperation j) in N2. lia. }
    rewrite (operationEmit_unheard i OPERATION_FAILED op4 j4 Hi4 HF4).
    pose proof (same_view_keeps i j4 _
                  (same_view_record (Job.OpEmit i OPERATION_FAILED) j4)
                  M2 M3) as (P1 & P2 & P3 & P4).
    split; [|split; [done|split; [done|]]].
    + eapply fixed_trans; [exact Hf1|].
      eapply fixed_trans; [apply Hsh|].
      eapply fixed_trans; [|apply P1].
      eapply fixed_trans; [|apply M1].
      apply (books_steady i (Operation.id op) true j3).
    + intros _. right. exists op4. split; [exact Hi4|].
      split; [by rewrite E3|]. rewrite E6.
      change (Operation.executions op2) with (Operation.executions op). lia.
Qed.

Lemma budget_lookup (i : nat) (j : Job.t) :
  budget_inv i j → ∃ op, Job.heap j !! i = Some op.
Proof. intros [(op & R & _)|(op & (L & _) & _)]; by exists op. Qed.

Lemma same_view_fired (k : nat) (d : Z) (j : Job.t) :
  Job.timers j !! k = Some (Job.TDispatch d) →
  same_view j (Job.with_timers (delete k (Job.timers j)) j).
Proof.
  intros Hk. split; [apply Forall2_same_failed_refl|]. repeat split.
  intros i. rewrite (starts_delete i k _ j Hk). cbn. lia.
Qed.

Lemma same_view_fired_other (i k r : nat) (d : Z) (j : Job.t) :
  Job.timers j !! k = Some (Job.TStart r d) → r ≠ i →
  consistent j → budget_inv i j →
  keeps i j (Job.with_timers (delete k (Job.timers j)) j).
Proof.
  intros Hk Hne Hc Hb.
  pose proof (starts_delete i k _ j Hk) as Hs. cbn [isStart] in Hs.
  apply Nat.eqb_neq in Hne. rewrite Hne in Hs.
  set (j0 := Job.with_timers _ j) in *.
  assert (Hs' : starts i j0 = starts i j) by lia.
  split; [exact (steady_refl i j)|]. split; [by destruct Hc|]. split; [|done].
  destruct Hb as [(op & R1 & R2 & R3 & R4 & R5)|(op & L & Hcase)].
  - left. exists op. unfold retired. by rewrite Hs'.
  - right. exists op. split; [done|]. unfold waiting, dispatched.
    by rewrite Hs'.
Qed.

(** One step of the run. *)
Lemma step_advances (i : nat) (e : Job.Event) (j j' : Job.t) :
  rejects_only i [e] = true → Job.step e j = Some j' →
  consistent j → budget_inv i j → advances i j j'.
Proof.
  intros Hrej Hstep Hc Hb.
  destruct (budget_lookup i j Hb) as [opi Hi].
  destruct e as [k|r o]; cbn [Job.step] in Hstep.
  - destruct (Job.timers j !! k) as [[d|r d]|] eqn:Hk; [| |done];
      injection Hstep as <-; cbn [Job.runTimer].
    + pose proof (same_view_keeps i j _ (same_view_fired k d j Hk) Hc Hb) as K.
      apply keeps_advances. eapply keeps_trans; [exact K|].
      destruct K as (_ & K2 & K3 & _). by apply startNextOperation_keeps.
    + destruct (decide (r = i)) as [->|Hne]; [by apply (own_start_advances i k d)|].
      pose proof (same_view_fired_other i k r d j Hk Hne Hc Hb) as K.
      apply keeps_advances. eapply keeps_trans; [exact K|].
      destruct K as (_ & K2 & K3 & _).
      by apply (operationStart_other_keeps i r opi).
  - destruct (Job.heap j !! r) as [op|] eqn:Hr; [|done].
    destruct (decide (Operation.status op = STARTED)) as [Hst|]; [|done].
    injection Hstep as <-.
    destruct (decide (r = i)) as [->|Hne].
    + destruct o as [v|err].
      * cbn in Hrej. by rewrite Nat.eqb_refl in Hrej.
      * by apply (own_reject_advances i err op).
    + apply keeps_advances. by apply (operationSettle_other_keeps i r o opi).
Qed.

Lemma rejects_only_cons (i : nat) (e : Job.Event) (sched : list Job.Event) :
  rejects_only i (e :: sched) = true →
  rejects_only i [e] = true ∧ rejects_only i sched = true.
Proof.
  unfold rejects_only. cbn [forallb]. rewrite andb_true_r.
  apply andb_prop.
Qed.

(** The whole run. *)
Lemma run_advances (i : nat) (sched : list Job.Event) (j j' : Job.t) :
  rejects_only i sched = true → Job.run sched j = Some j' →
  consistent j → budget_inv i j →
  fixed j j' ∧ consistent j' ∧ budget_inv i j'.
Proof.
  revert j. induction sched as [|e sched IH]; intros j Hrej Hrun Hc Hb.
  { injection Hrun as <-. split; [apply fixed_refl|done]. }
  cbn [Job.run] in Hrun. destruct (Job.step e j) as [j1|] eqn:Hstep; [|done].
  apply rejects_only_cons in Hrej as [He Hrej].
  destruct (step_advances i e j j1 He Hstep Hc Hb) as (A1 & A2 & A3 & _).
  destruct (IH j1 Hrej Hrun A2 A3) as (B1 & B2 & B3).
  split; [by eapply fixed_trans|done].
Qed.

Lemma index_ids (p : Job.Params) (data : list Value) (r : nat)
    (op : Operation.t) :
  imap (λ index d, Operation.new (Job.dataToId p d index) d) data !! r
    = Some op →
  imap (λ index d, Job.dataToId p d index) data !! r
    = Some (Operation.id op) ∧ op = Operation.new (Operation.id op) (Operation.data op).
Proof.
  rewrite !list_lookup_imap. destruct (data !! r) as [d|]; [|done].
  cbn. intros [= <-]. done.
Qed.

(** The job as [start()] leaves it. *)
Lemma started_budget (name : string) (data : list Value) (p : Job.Params)
    (i : nat) :
  NoDup (imap (λ index d, Job.dataToId p d index) data) →
  (i < length data)%nat →
  0 ≤ Job.p_maxConcurrentOperations p →
  1 ≤ Job.p_maxFailuresPerOperation p →
  let j := Job.start (Job.new name data p) in
  consistent j ∧ budget_inv i j ∧
  Job.maxFailuresPerOperation j = Job.p_maxFailuresPerOperation p.
Proof.
  intros Hids Hi Hconc Hfail. cbn zeta.
  set (j0 := Job.new name data p).
  assert (Hc0 : consistent j0).
  { split; unfold j0, Job.new; unfold_job.
    - done.
    - intros k r Hk. unfold Job.current in Hk. unfold_job.
      case_decide; [done|]. by rewrite lookup_empty in Hk.
    - intros r r' op op' Hr Hr' E.
      apply index_ids in Hr as [Hr _]. apply index_ids in Hr' as [Hr' _].
      rewrite E in Hr. by eapply NoDup_lookup.
    - intros r Hr. apply elem_of_seq in Hr. apply lookup_lt_is_Some.
      rewrite length_imap. lia. }
  assert (Hb0 : budget_inv i j0).
  { destruct (lookup_lt_is_Some_2 data i Hi) as [d Hd].
    right. exists (Operation.new (Job.dataToId p d i) d). split; [split|].
    - unfold j0, Job.new. unfold_job. by rewrite list_lookup_imap, Hd.
    - cbn. split; [lia|done].
    - left. split; [|done]. unfold occurrences, j0, Job.new. unfold_job.
      apply NoDup_count_occ'; [apply List.seq_NoDup|].
      apply in_seq. lia. }
  unfold Job.start. rewrite decide_False by done.
  set (j1 := Job.emit JOB_STARTED (Job.with_status STARTED j0)).
  assert (V : same_view j0 j1).
  { eapply same_view_trans; [apply same_view_status|apply same_view_record]. }
  pose proof (same_view_keeps i j0 j1 V Hc0 Hb0) as (_ & K2 & K3 & _).
  destruct (startNextOperation_keeps i false j1 K2 K3)
    as ((((_ & HM & _) & _) & M2 & M3 & _) & _).
  split; [done|]. split; [done|]. by rewrite HM.
Qed.

(** X23. An operation whose every attempt fails is not moved to the
    completed list before its budget is used up, and is moved there when
    it is: as long as it is not in the completed list it has failed
    fewer times than [maxFailuresPerOperation] and was attempted at most
    that often, and at the step that moves it there it is FAILED and was
    attempted exactly that often. With a budget of 1 it is attempted
    once in all, and once attempted it never stands in the backlog
    again. Here the ids of the data are pairwise distinct, the operation
    is the one of the [i]-th element, the job was started once and [s]
    is any state of its run. What happens to the operation once it is in
    the completed list is not bounded by this, but for a budget of 1. *)
Theorem retry_budget (name : string) (data : list Value) (p : Job.Params)
    (sched : list Job.Event) (i : nat) (s : Job.t) :
  NoDup (imap (λ index d, Job.dataToId p d index) data) →
  (i < length data)%nat →
  0 ≤ Job.p_maxConcurrentOperations p →
  1 ≤ Job.p_maxFailuresPerOperation p →
  rejects_only i sched = true →
  Job.run sched (Job.start (Job.new name data p)) = Some s →
  ∃ op, Job.heap s !! i = Some op ∧
    (¬ finalized i s →
     Operation.timesFailed op < Job.p_maxFailuresPerOperation p ∧
     Z.of_nat (Operation.executions op) ≤ Job.p_maxFailuresPerOperation p) ∧
    (∀ e s', rejects_only i [e] = true → Job.step e s = Some s' →
       ¬ finalized i s → finalized i s' →
       ∃ op', Job.heap s' !! i = Some op' ∧
              Operation.status op' = FAILED ∧
              Z.of_nat (Operation.executions op')
              = Job.p_maxFailuresPerOperation p) ∧
    (Job.p_maxFailuresPerOperation p = 1 →
     (Operation.executions op ≤ 1)%nat ∧
     (i ∈ Job.queuedOperations s → Operation.executions op = 0%nat)).
Proof.
  intros Hids Hi Hconc Hfail Hrej Hrun.
  destruct (started_budget name data p i Hids Hi Hconc Hfail) as (C0 & B0 & M0).
  destruct (run_advances i sched _ s Hrej Hrun C0 B0) as ((_ & M & _) & C & B).
  rewrite M0 in M.
  destruct (budget_lookup i s B) as [op Hop]. exists op. split; [done|].
  split; [|split].
  - intros Hnf.
    destruct B as [(o & _ & R & _)|(o & (L1 & L2 & L3) & _)]; [done|].
    assert (o = op) as -> by congruence.
    unfold attempting in L3. rewrite M in L2. case_decide; lia.
  - intros e s' He Hstep Hnf Hf.
    destruct (step_advances i e s s' He Hstep C B) as (_ & _ & _ & A).
    destruct (A Hf) as [|(op' & H1 & H2 & H3)]; [done|].
    exists op'. rewrite M in H3. done.
  - intros Hone. rewrite Hone in M.
    destruct B as [(o & R1 & R2 & R3 & R4 & R5)|(o & (L1 & L2 & L3) & Hcase)];
      assert (o = op) as -> by congruence.
    + destruct R5 as [(_ & _ & R5)|R5]; [|lia]. split; [lia|].
      intros Hin. by apply occurrences_zero in R3.
    + unfold attempting in L3. split; [case_decide; lia|].
      intros Hin.
      destruct Hcase as [(W1 & W2 & W3 & W4)|(D1 & D2 & D3 & D4)].
      * rewrite decide_False in L3 by done. lia.
      * by apply occurrences_zero in D1.
Qed.

Lemma retry_budget_witness :
  ∃ op, Job.heap Scenario.failed !! 0%nat = Some op ∧
        (Operation.executions op ≤ 1)%nat.
Proof.
  destruct (retry_budget "failing" ["a"] (Scenario.params 1 1 0)
              Scenario.failing_sched 0 Scenario.failed)
    as (op & Hop & _ & _ & Hone).
  - apply (bool_decide_unpack _). vm_compute. reflexivity.
  - vm_compute. lia.
  - vm_compute. discriminate.
  - vm_compute. discriminate.
  - reflexivity.
  - vm_compute. reflexivity.
  - exists op. split; [exact Hop|]. apply Hone. reflexivity.
Defined.

(** ** The read accessors of the queue *)

(** X3. For a name that is not a property of [Object.prototype], on a
    queue that was given no job named [__proto__], [hasJob] always
    settles: it resolves with [true] for a name in the index, whatever
    the directory; for another name it resolves with [false] without
    [includePersisted], with whether the job's file can be accessed when
    there is a directory, and rejects with the configuration error when
    there is none. *)
Theorem hasJob_settles (files : gmap string string) (q : Queue.t)
    (name : string) (includePersisted : bool) :
  Queue.ownLookup q name →
  Queue.hasJob files q name includePersisted =
    if decide (is_Some (Queue.jobIndex q !! name)) then Queue.Resolved true
    else if includePersisted then
      if Queue.hasDir q
      then Queue.Resolved
             (bool_decide (is_Some (files !! Queue.persistedPath q name)))
      else Queue.Rejected Queue.NoExportDirectory
    else Queue.Resolved false.
Proof.
  intros _. unfold Queue.hasJob.
  destruct (Queue.jobIndex q !! name) as [job|] eqn:Hidx.
  - rewrite decide_True by eauto.
    destruct includePersisted; [|done]. by destruct (Queue.hasDir q).
  - rewrite decide_False by (by intros [? ?]).
    destruct includePersisted; [|done]. by destruct (Queue.hasDir q).
Qed.

Lemma ownLookup_decide (q : Queue.t) (name : string) :
  bool_decide (name ∉ Queue.inherited) = true →
  Queue.jobIndex q !! "__proto__" = None →
  Queue.ownLookup q name.
Proof. intros H ?. split; [by apply bool_decide_eq_true in H | done]. Qed.

Lemma hasJob_settles_witness :
  Queue.hasJob ∅
    {| Queue.jobIndex := {[ "done" := Scenario.done ]};
       Queue.persistCompletedJobsToDir := None |} "other" true
  = Queue.Rejected Queue.NoExportDirectory.
Proof.
  etrans.
  - apply (hasJob_settles ∅
             {| Queue.jobIndex := {[ "done" := Scenario.done ]};
                Queue.persistCompletedJobsToDir := None |} "other" true).
    apply ownLookup_decide; reflexivity.
  - vm_compute. reflexivity.
Defined.

(** X4. For a job that is in the index the promise of [getJobExport]
    never settles: the executor returns the export instead of resolving
    with it, and throws nothing. *)
Theorem getJobExport_in_index_pending
    (files : gmap string string) (JSON_parse : string → option Value)
    (q : Queue.t) (name : string) (job : Job.t) (includePersisted : bool) :
  Queue.jobIndex q !! name = Some job →
  Queue.getJobExport files JSON_parse q name includePersisted
    = {| Queue.constructed := Queue.Pending; Queue.thrown := None |}.
Proof.
  intros Hidx. unfold Queue.getJobExport, Queue.hasJob. rewrite Hidx.
  destruct includePersisted; [|done]. by destruct (Queue.hasDir q).
Qed.

Lemma getJobExport_in_index_pending_witness :
  Queue.getJobExport ∅ (λ _, None)
    {| Queue.jobIndex := {[ "done" := Scenario.done ]};
       Queue.persistCompletedJobsToDir := Some "out" |} "done" true
    = {| Queue.constructed := Queue.Pending; Queue.thrown := None |}.
Proof.
  apply (getJobExport_in_index_pending ∅ (λ _, None) _ "done" Scenario.done).
  reflexivity.
Defined.

(** X5. For a name that is not in the index and is not a property of
    [Object.prototype], on a queue that was given no job named
    [__proto__], [getJobExport] rejects with "Job not found." without
    [includePersisted]; with it and a directory, it resolves with the
    parsed contents of the job's file, rejects with "Job not found."
    when the file is not there, and with the parser's error when the
    contents do not parse. *)
Theorem getJobExport_not_in_index
    (files : gmap string string) (JSON_parse : string → option Value)
    (q : Queue.t) (name : string) :
  Queue.ownLookup q name →
  Queue.jobIndex q !! name = None →
  Queue.getJobExport files JSON_parse q name false
    = {| Queue.constructed := Queue.Rejected Queue.JobNotFound;
         Queue.thrown := None |} ∧
  (Queue.hasDir q = true →
   Queue.getJobExport files JSON_parse q name true
     = {| Queue.constructed :=
            match files !! Queue.persistedPath q name with
            | None => Queue.Rejected Queue.JobNotFound
            | Some contents =>
                match JSON_parse contents with
                | Some v => Queue.Resolved v
                | None => Queue.Rejected Queue.JsonSyntaxError
                end
            end;
          Queue.thrown := None |}).
Proof.
  intros _ Hidx. split.
  - unfold Queue.getJobExport, Queue.hasJob. by rewrite Hidx.
  - intros Hdir. unfold Queue.getJobExport, Queue.hasJob.
    rewrite Hidx, Hdir. cbn.
    unfold Queue.readFileCallback.
    destruct (files !! Queue.persistedPath q name) as [contents|] eqn:Hf.
    + rewrite bool_decide_true by eauto. cbn.
      by destruct (JSON_parse contents).
    + rewrite bool_decide_false by (by intros [? ?]). cbn.
      by destruct (JSON_parse "undefined").
Qed.

Lemma getJobExport_not_in_index_witness :
  Queue.getJobExport {[ "out/a.json" := "{}" ]} Some
    {| Queue.jobIndex := ∅; Queue.persistCompletedJobsToDir := Some "out" |}
    "a" true
  = {| Queue.constructed := Queue.Resolved "{}"; Queue.thrown := None |}.
Proof.
  destruct (getJobExport_not_in_index {[ "out/a.json" := "{}" ]} Some
              {| Queue.jobIndex := ∅;
                 Queue.persistCompletedJobsToDir := Some "out" |} "a")
    as [_ H]; [apply ownLookup_decide; reflexivity | reflexivity |].
  rewrite H by reflexivity. reflexivity.
Defined.





(** X7. What [exportJobIfNeeded] writes is what [getJobExport] reads: once
    a queue with a directory has written the export of a job, a queue
    on the same directory that does not hold a job of that name resolves
    [getJobExport(name, true)] with the export, parsed back. Here the
    name of the job is not a property of [Object.prototype], and the
    queue that reads was given no job named [__proto__]. *)
Theorem export_read_back
    (files : gmap string string) (JSON_parse : string → option Value)
    (JSON_stringify : Job.Export → string)
    (q q' : Queue.t) (job : Job.t) (v : Value) :
  Queue.hasDir q = true →
  Queue.persistCompletedJobsToDir q' = Queue.persistCompletedJobsToDir q →
  Queue.ownLookup q' (Job.name job) →
  Queue.jobIndex q' !! Job.name job = None →
  JSON_parse (JSON_stringify (Job.export job)) = Some v →
  Queue.hasJob (Queue.exportJobIfNeeded files JSON_stringify q job)
    q' (Job.name job) true = Queue.Resolved true ∧
  Queue.getJobExport (Queue.exportJobIfNeeded files JSON_stringify q job)
    JSON_parse q' (Job.name job) true
  = {| Queue.constructed := Queue.Resolved v; Queue.thrown := None |}.
Proof.
  intros Hdir Hsame _ Hidx Hparse.
  assert (Hdir' : Queue.hasDir q' = true)
    by (unfold Queue.hasDir in *; by rewrite Hsame).
  assert (Hpath : Queue.persistedPath q' (Job.name job)
                  = Queue.persistedPath q (Job.name job))
    by (unfold Queue.persistedPath; by rewrite Hsame).
  assert (Hfile : Queue.exportJobIfNeeded files JSON_stringify q job
                    !! Queue.persistedPath q' (Job.name job)
                  = Some (JSON_stringify (Job.export job))).
  { unfold Queue.exportJobIfNeeded. rewrite Hdir, Hpath.
    apply lookup_insert_eq. }
  split.
  - unfold Queue.hasJob. rewrite Hidx, Hdir', Hfile.
    by rewrite bool_decide_true by eauto.
  - unfold Queue.getJobExport, Queue.hasJob. rewrite Hidx, Hdir', Hfile.
    rewrite bool_decide_true by eauto. cbn.
    unfold Queue.readFileCallback. by rewrite Hfile, Hparse.
Qed.

Lemma export_read_back_witness :
  Queue.getJobExport
    (Queue.exportJobIfNeeded ∅ Job.export_name
       {| Queue.jobIndex := {[ "cooled1" := Scenario.done ]};
          Queue.persistCompletedJobsToDir := Some "out" |} Scenario.done)
    Some
    {| Queue.jobIndex := ∅; Queue.persistCompletedJobsToDir := Some "out" |}
    "cooled1" true
  = {| Queue.constructed := Queue.Resolved "cooled1"; Queue.thrown := None |}.
Proof.
  apply (export_read_back ∅ Some Job.export_name
           {| Queue.jobIndex := {[ "cooled1" := Scenario.done ]};
              Queue.persistCompletedJobsToDir := Some "out" |}
           {| Queue.jobIndex := ∅;
              Queue.persistCompletedJobsToDir := Some "out" |}
           Scenario.done "cooled1");
    try reflexivity.
  apply ownLookup_decide; reflexivity.
Defined.

(** ** The first dispatch *)

(** Without a cooldown, one call of the dispatcher on a backlog of
    operations that have not failed takes on as many of them as the
    limit leaves room for, in order, each with a [start()] due at
    once. *)
Lemma loop_batch (n i : nat) (j : Job.t) :
  Job.cooldown j = 0 →
  Job.queuedOperations j = seq i n →
  (∀ r, (i ≤ r < i + n)%nat →
        ∃ op, Job.heap j !! r = Some op ∧ Operation.timesFailed op = 0) →
  let k := Nat.min n (Z.to_nat (Job.maxConcurrentOperations j
                                - Job.numCurrentOperations j)) in
  let j' := Job.startNextOperation false j in
  Job.queuedOperations j' = seq (i + k) (n - k) ∧
  Job.timers j' = Job.timers j ++ ((λ r, Job.TStart r 0) <$> seq i k) ∧
  Job.numCurrentOperations j' = Job.numCurrentOperations j + Z.of_nat k ∧
  (0 ≤ Job.numCurrentOperations j →
   (0 < n)%nat ∨ Job.numCurrentOperations j ≠ 0 →
   Job.status j' = Job.status j).
Proof.
  revert i j. induction n as [|n IH]; intros i j Hcd Hq Hops; cbn zeta.
  - cbn [seq] in Hq. rewrite startNextOperation_unfold, Hq.
    rewrite bool_decide_false by (by intros ?). cbn [andb].
    rewrite Nat.min_0_l.
    rewrite Nat.add_0_r, app_nil_r, Z.add_0_r. cbn [seq Nat.sub fmap list_fmap].
    destruct (Job.isFull j); [by rewrite Hq|].
    destruct (Job.isComplete j) eqn:Hc; [|by rewrite Hq].
    case_decide; [by rewrite Hq|]. unfold_job. rewrite Hq.
    repeat split; try done. intros _ [?|Hne]; [lia|]. exfalso. apply Hne.
    unfold Job.isComplete in Hc. apply andb_true_iff in Hc as [Hc _].
    by apply bool_decide_eq_true in Hc.
  - cbn [seq] in Hq. rewrite startNextOperation_unfold, Hq.
    rewrite bool_decide_false by (by intros ?). cbn [andb].
    destruct (Job.isFull j) eqn:Hfull.
    { unfold Job.isFull in Hfull. rewrite Z.geb_leb in Hfull.
      apply Z.leb_le in Hfull.
      set (k := Nat.min _ _). assert (k = 0%nat) as -> by lia.
      rewrite Nat.add_0_r, app_nil_r, Z.add_0_r, Nat.sub_0_r.
      by rewrite Hq. }
    unfold Job.isFull in Hfull. rewrite Z.geb_leb in Hfull.
    apply Z.leb_gt in Hfull.
    assert (Hc : Job.isComplete j = false).
    { unfold Job.isComplete, Job.hasPending. rewrite Hq. cbn [length].
      apply andb_false_r. }
    rewrite Hc.
    destruct (Hops i) as (op & Hop & Hf); [lia|]. rewrite Hop.
    set (j1 := Job.dispatch i op (Job.with_queued (seq (S i) n) j)).
    assert (Hcd1 : Job.cooldown j1 = 0) by done.
    assert (Hq1 : Job.queuedOperations j1 = seq (S i) n) by done.
    assert (Hn1 : Job.numCurrentOperations j1
                  = Job.numCurrentOperations j + 1) by done.
    assert (Hm1 : Job.maxConcurrentOperations j1
                  = Job.maxConcurrentOperations j) by done.
    assert (Ht1 : Job.timers j1 = Job.timers j ++ [Job.TStart i 0]).
    { unfold j1, Job.dispatch. unfold_job. by rewrite Hf, Z.mul_0_l. }
    assert (Hs1 : Job.status j1 = Job.status j) by done.
    assert (Hops1 : ∀ r, (S i ≤ r < S i + n)%nat →
              ∃ op, Job.heap j1 !! r = Some op ∧ Operation.timesFailed op = 0).
    { intros r Hr. destruct (Hops r) as (op' & Hop' & Hf'); [lia|].
      exists op'. split; [|done]. unfold j1, Job.dispatch. unfold_job.
      rewrite list_lookup_insert_ne by lia. done. }
    destruct (IH (S i) j1 Hcd1 Hq1 Hops1) as (A & B & C & D).
    rewrite Hm1, Hn1 in A, B, C.
    set (k1 := Nat.min n (Z.to_nat (Job.maxConcurrentOperations j
                 - (Job.numCurrentOperations j + 1)))) in *.
    set (k := Nat.min (S n) _).
    assert (k = S k1) as -> by (unfold k, k1; lia).
    rewrite A, B, C, Ht1. split; [f_equal; lia|]. split.
    + rewrite <- app_assoc. done.
    + split; [lia|]. intros Hpos _. rewrite D, Hs1; [done|lia|].
      right. rewrite Hn1. lia.
Qed.

(** X8. Without a cooldown, [start()] takes the first operations of the
    data off the backlog, as many as [maxConcurrentOperations] allows,
    and schedules the [start()] of each at once, in the order of the
    data; the others stay in the backlog in their order. *)
Theorem start_takes_first_batch (name : string) (data : list Value)
    (p : Job.Params) :
  Job.p_cooldown p = 0 →
  let k := Nat.min (length data) (Z.to_nat (Job.p_maxConcurrentOperations p)) in
  let j := Job.start (Job.new name data p) in
  Job.queuedOperations j = seq k (length data - k) ∧
  Job.timers j = (λ r, Job.TStart r 0) <$> seq 0 k ∧
  Job.numCurrentOperations j = Z.of_nat k ∧
  (data ≠ [] → Job.status j = STARTED).
Proof.
  intros Hcd. cbn zeta. unfold Job.start. rewrite decide_False by done.
  set (j1 := Job.emit JOB_STARTED (Job.with_status STARTED _)).
  destruct (loop_batch (length data) 0 j1) as (A & B & C & D); [done..| |].
  { intros r Hr. unfold j1, Job.new. unfold_job.
    rewrite list_lookup_imap.
    destruct (lookup_lt_is_Some_2 data r) as [d Hd]; [lia|].
    rewrite Hd. cbn. eauto. }
  change (Job.maxConcurrentOperations j1) with (Job.p_maxConcurrentOperations p)
    in *.
  change (Job.numCurrentOperations j1) with 0 in *.
  change (Job.timers j1) with (@nil Job.Timer) in *.
  rewrite Z.sub_0_r in *. cbn [app] in B. rewrite Z.add_0_l in C.
  split; [exact A|]. split; [exact B|]. split; [exact C|].
  intros Hne. rewrite D; [done|done|]. left.
  destruct data; [done|cbn; lia].
Qed.

Lemma start_takes_first_batch_witness :
  Job.queuedOperations (Job.start Scenario.flaky3) = [1; 2]%nat ∧
  Job.timers (Job.start Scenario.flaky3) = [Job.TStart 0 0].
Proof.
  destruct (start_takes_first_batch "flaky3" ["a"; "b"; "c"]
              (Scenario.params 1 2 0) eq_refl) as (A & B & _).
  exact (conj A B).
Defined.

(** X9. A job without data completes without an operation: with a
    limit of at least 1 and no cooldown [start()] emits JOB_STARTED and
    JOB_COMPLETED and returns with the job COMPLETED; with a cooldown
    the job is COMPLETED when the cooldown timer fires. *)
Theorem empty_job_completes (name : string) (p : Job.Params) :
  1 ≤ Job.p_maxConcurrentOperations p →
  let j := Job.start (Job.new name [] p) in
  (Job.p_cooldown p = 0 →
   Job.status j = COMPLETED ∧ Job.timers j = [] ∧
   Job.log j = [Job.JobEmit JOB_STARTED; Job.JobEmit JOB_COMPLETED]) ∧
  (Job.p_cooldown p ≠ 0 →
   Job.status j = STARTED ∧
   Job.timers j = [Job.TDispatch (Job.p_cooldown p)] ∧
   ∃ j', Job.step (Job.Fire 0) j = Some j' ∧
         Job.status j' = COMPLETED ∧ Job.timers j' = [] ∧
         Job.log j' = [Job.JobEmit JOB_STARTED;
                       Job.SetTimeout (Job.TDispatch (Job.p_cooldown p));
                       Job.JobEmit JOB_COMPLETED]).
Proof.
  intros Hmax. cbn zeta. unfold Job.start. rewrite decide_False by done.
  set (j1 := Job.emit JOB_STARTED (Job.with_status STARTED _)).
  assert (Hfull : ∀ j, Job.maxConcurrentOperations j
                       = Job.p_maxConcurrentOperations p →
                   Job.numCurrentOperations j = 0 → Job.isFull j = false).
  { intros j E1 E2. apply isFull_false. lia. }
  split.
  - intros Hcd. rewrite startNextOperation_unfold.
    change (Job.cooldown j1) with (Job.p_cooldown p).
    rewrite bool_decide_false by (by intros ?). cbn [andb].
    rewrite Hfull, isComplete_true by done.
    rewrite decide_False by done. done.
  - intros Hcd. rewrite startNextOperation_unfold.
    change (Job.cooldown j1) with (Job.p_cooldown p).
    rewrite bool_decide_true by done. cbn [andb negb].
    split; [done|]. split; [done|].
    eexists. split; [reflexivity|]. cbn [Job.runTimer].
    rewrite startNextOperation_unfold. cbn [negb]. rewrite andb_false_r.
    rewrite Hfull, isComplete_true by done.
    rewrite decide_False by done. done.
Qed.

Lemma empty_job_completes_witness :
  Job.status (Job.start (Job.new "none" [] (Scenario.params 1 1 0)))
  = COMPLETED.
Proof.
  destruct (empty_job_completes "none" (Scenario.params 1 1 0)) as [H _].
  - vm_compute. discriminate.
  - apply H. reflexivity.
Defined.

(** ** A job without room *)

Lemma parked_loop (cooled : bool) (j0 j : Job.t) :
  parked j0 j → parked j0 (Job.startNextOperation cooled j).
Proof.
  intros (A1 & A2 & A3 & A4 & A5 & A6 & A7 & A8 & A9).
  rewrite startNextOperation_unfold.
  destruct (bool_decide (Job.cooldown j ≠ 0) && negb cooled).
  - repeat split; try done.
    + unfold Job.setTimeout. rewrite completions_record.
      rewrite decide_False by done. unfold_job.
      change (completions (Job.with_timers _ j)) with (completions j). lia.
    + unfold_job. apply Forall_app. split; [done|]. by constructor.
  - rewrite isFull_true by lia. by repeat split.
Qed.

(** X10. A job whose [maxConcurrentOperations] is 0 or less is full from
    the start: whatever happens after [start()], no operation is taken
    off the backlog, no [start()] of an operation is scheduled, and the
    job stays STARTED without emitting JOB_COMPLETED, also when it has no
    data. *)
Theorem no_room_never_dispatches (name : string) (data : list Value)
    (p : Job.Params) (sched : list Job.Event) (s : Job.t) :
  Job.p_maxConcurrentOperations p ≤ 0 →
  Job.run sched (Job.start (Job.new name data p)) = Some s →
  Job.status s = STARTED ∧
  Job.queuedOperations s = seq 0 (length data) ∧
  Job.heap s = Job.heap (Job.new name data p) ∧
  Job.numCurrentOperations s = 0 ∧
  Job.completedOperations s = [] ∧
  completions s = 0%nat ∧
  Forall (λ tm, ∃ d, tm = Job.TDispatch d) (Job.timers s).
Proof.
  intros Hmax Hrun.
  set (j0 := Job.new name data p) in *.
  assert (Hstart : parked j0 (Job.start j0)).
  { unfold Job.start. rewrite decide_False by done.
    apply parked_loop. by repeat split. }
  assert (Hkeep : parked j0 s).
  { revert Hrun Hstart. generalize (Job.start j0). clear Hmax.
    induction sched as [|e sched IH]; intros j Hrun Hj.
    - by injection Hrun as <-.
    - cbn [Job.run] in Hrun.
      destruct (Job.step e j) as [j1|] eqn:Hstep; [|done].
      apply (IH j1 Hrun). clear IH Hrun.
      destruct Hj as (A1 & A2 & A3 & A4 & A5 & A6 & A7 & A8 & A9).
      destruct e as [k|r o]; cbn [Job.step] in Hstep.
      + destruct (Job.timers j !! k) as [tm|] eqn:Hk; [|done].
        injection Hstep as <-.
        assert (Htm : isDispatch tm = true).
        { rewrite Forall_forall in A9. apply A9.
          by eapply list_elem_of_lookup_2. }
        destruct tm as [d|]; [|done]. cbn [Job.runTimer].
        apply parked_loop. repeat split; try done. unfold_job.
        rewrite Forall_forall in A9 |- *. intros tm' Hin.
        apply A9. by eapply list_elem_of_delete_inv.
      + destruct (Job.heap j !! r) as [op|] eqn:Hr; [|done].
        case_decide as Hst; [|done]. exfalso.
        rewrite A2 in Hr. unfold j0, Job.new in Hr. unfold_job.
        rewrite list_lookup_imap in Hr.
        destruct (data !! r); [|done]. injection Hr as <-. done. }
  destruct Hkeep as (A1 & A2 & A3 & A4 & A5 & A6 & A7 & A8 & A9).
  repeat split; try done.
  eapply Forall_impl; [exact A9|]. intros [d|] Htm; [eauto|done].
Qed.

Lemma no_room_never_dispatches_witness :
  Job.status (Job.start (Job.new "none" [] (Scenario.params 0 1 0)))
  = STARTED.
Proof.
  apply (no_room_never_dispatches "none" [] (Scenario.params 0 1 0) []);
    [vm_compute; discriminate | reflexivity].
Defined.

(** ** Jobs in which no operation is retried *)

Lemma ids_inj (h : list Operation.t) (r r' : nat) (op op' : Operation.t) :
  NoDup (Operation.id <$> h) →
  h !! r = Some op → h !! r' = Some op' →
  Operation.id op = Operation.id op' → r = r'.
Proof.
  intros Hnd Hr Hr' E.
  apply (NoDup_lookup _ r r' (Operation.id op) Hnd);
    rewrite list_lookup_fmap; [by rewrite Hr | by rewrite Hr', E].
Qed.

Lemma ids_insert (h : list Operation.t) (r : nat) (op op' : Operation.t) :
  h !! r = Some op → Operation.id op' = Operation.id op →
  Operation.id <$> <[r := op']> h = Operation.id <$> h.
Proof.
  intros Hr E. rewrite list_fmap_insert, E. apply list_insert_id.
  by rewrite list_lookup_fmap, Hr.
Qed.

Lemma stage_is (m : gmap string nat) (r : nat) (op : Operation.t)
    (j : Job.t) (st : Stage) :
  view m r op j = shape r st →
  Operation.status op = (shape r st).1.1.1.1.1.1 ∧
  Operation.events op = (shape r st).1.1.1.1.1.2 ∧
  Operation.timesFailed op = (shape r st).1.1.1.1.2 ∧
  bool_decide (r ∈ Job.queuedOperations j) = (shape r st).1.1.1.2 ∧
  m !! Operation.id op = (shape r st).1.1.2 ∧
  starts r j = (shape r st).1.2 ∧
  bool_decide (Some r ∈ Job.completedOperations j) = (shape r st).2.
Proof. intros <-. by repeat split. Qed.

(** The operation at [r] is replaced and enters the stage [st]; the
    views of the others are as before. *)
Lemma stage_update (m m' : gmap string nat) (r : nat)
    (op op' : Operation.t) (st : Stage) (j j' : Job.t) :
  Job.heap j !! r = Some op →
  Job.heap j' = <[r := op']> (Job.heap j) →
  view m' r op' j' = shape r st →
  (∀ r' o, r' ≠ r → Job.heap j !! r' = Some o →
           view m' r' o j' = view m r' o j) →
  (∀ r' o, Job.heap j !! r' = Some o → ∃ st, view m r' o j = shape r' st) →
  ∀ r' o, Job.heap j' !! r' = Some o → ∃ st, view m' r' o j' = shape r' st.
Proof.
  intros Hr Hh Hv Hothers Hall r' o Ho. rewrite Hh in Ho.
  destruct (decide (r' = r)) as [->|Hne].
  - rewrite list_lookup_insert_eq in Ho by (by eapply lookup_lt_Some).
    injection Ho as <-. eauto.
  - rewrite list_lookup_insert_ne in Ho by done.
    rewrite (Hothers r' o Hne Ho). eauto.
Qed.

(** Nothing but the log and the status differs. *)
Lemma orderly_same (m : gmap string nat) (j j' : Job.t) :
  Job.heap j' = Job.heap j →
  Job.queuedOperations j' = Job.queuedOperations j →
  Job.currentOperations j' = Job.currentOperations j →
  Job.currentPrototype j' = Job.currentPrototype j →
  Job.numCurrentOperations j' = Job.numCurrentOperations j →
  Job.completedOperations j' = Job.completedOperations j →
  Job.timers j' = Job.timers j →
  Job.maxConcurrentOperations j' = Job.maxConcurrentOperations j →
  (Job.status j' = COMPLETED →
   Job.queuedOperations j = [] ∧ Job.numCurrentOperations j = 0) →
  orderly m j → orderly m j'.
Proof.
  intros H1 H2 H3 H3' H4 H5 H6 H7 H8
    [o_ids o_num o_max o_current o_queued o_backlog o_completed o_final o_timers o_stage o_done o_own o_proto].
  split; unfold view, starts in *;
    rewrite ?H1, ?H2, ?H3, ?H3', ?H4, ?H5, ?H6, ?H7; done.
Qed.

Lemma orderly_record (m : gmap string nat) (s : Job.Signal) (j : Job.t) :
  orderly m j → orderly m (Job.record s j).
Proof. intros H. eapply orderly_same; [..|exact H]; try done. apply H. Qed.

Lemma queued_stage (m : gmap string nat) (r : nat) (op : Operation.t)
    (j : Job.t) (st : Stage) :
  view m r op j = shape r st → r ∈ Job.queuedOperations j → st = Queued.
Proof.
  intros Hv Hin. apply stage_is in Hv as (_ & _ & _ & Hq & _).
  rewrite bool_decide_true in Hq by done. by destruct st.
Qed.

(** The dispatcher takes on the operation at the head of the backlog. *)
Lemma orderly_dispatch (m : gmap string nat) (r : nat) (rest : list nat)
    (op : Operation.t) (j : Job.t) :
  orderly m j → Job.queuedOperations j = r :: rest →
  Job.heap j !! r = Some op → Job.isFull j = false →
  orderly (<[Operation.id op := r]> m)
    (Job.dispatch r op (Job.with_queued rest j)).
Proof.
  intros [o_ids o_num o_max o_current o_queued o_backlog o_completed o_final o_timers o_stage o_done o_own o_proto]
    Hq Hr Hfull.
  destruct (o_stage r op Hr) as [st Hst].
  assert (st = Queued) as ->
    by (eapply queued_stage; [done | rewrite Hq; by left]).
  apply stage_is in Hst as (S1 & S2 & S3 & S4 & S5 & S6 & S7).
  cbn [shape fst snd] in *.
  rewrite Hq in o_queued. apply NoDup_cons in o_queued as [Hnotin Hnd].
  set (op' := Operation.set_events
                (Operation.once OPERATION_FAILED
                   (Operation.once OPERATION_COMPLETED
                      (Operation.once OPERATION_STARTED (Operation.events op))))
                op).
  assert (Hid : Operation.id op' = Operation.id op) by done.
  set (j' := Job.dispatch r op (Job.with_queued rest j)).
  assert (Hh : Job.heap j' = <[r := op']> (Job.heap j)) by done.
  set (m' := <[Operation.id op := r]> m).
  assert (Ht : Job.timers j'
               = Job.timers j
                 ++ [Job.TStart r (Operation.timesFailed op * Job.throttle j)])
    by done.
  assert (Hlen : ∀ r', is_Some (Job.heap j !! r') → is_Some (Job.heap j' !! r')).
  { intros r' Hv. apply lookup_lt_is_Some. rewrite Hh, length_insert.
    by apply lookup_lt_is_Some. }
  split.
  - rewrite Hh. by rewrite (ids_insert _ r op).
  - unfold m'. rewrite map_size_insert_None by done.
    change (Job.numCurrentOperations j') with (Job.numCurrentOperations j + 1).
    lia.
  - unfold Job.isFull in Hfull. rewrite Z.geb_leb in Hfull.
    apply Z.leb_gt in Hfull.
    change (Job.numCurrentOperations j') with (Job.numCurrentOperations j + 1).
    change (Job.maxConcurrentOperations j')
      with (Job.maxConcurrentOperations j). lia.
  - intros id r' Hc'. unfold m' in Hc'. rewrite Hh.
    destruct (decide (id = Operation.id op)) as [->|Hne].
    + rewrite lookup_insert_eq in Hc'. injection Hc' as <-.
      exists op'. split; [|done].
      apply list_lookup_insert_eq. by eapply lookup_lt_Some.
    + rewrite lookup_insert_ne in Hc' by done.
      destruct (o_current id r' Hc') as (o & Ho & E).
      destruct (decide (r' = r)) as [->|Hr'].
      * exfalso. apply Hne. congruence.
      * exists o. by rewrite list_lookup_insert_ne.
  - done.
  - intros r' Hin. apply Hlen, o_backlog. rewrite Hq. by right.
  - done.
  - intros x Hx. destruct (o_final x Hx) as (r' & -> & Hv). eauto.
  - intros r' d Hin. rewrite Ht in Hin.
    apply elem_of_app in Hin as [Hin|Hin]; apply Hlen.
    + by eapply o_timers.
    + apply list_elem_of_singleton in Hin. injection Hin as -> _. eauto.
  - apply (stage_update m m' r op op' Scheduled j); [done|done| |  |done].
    + unfold view, starts, m'. rewrite Ht. cbn [shape].
      change (Job.queuedOperations j') with rest.
      change (Job.completedOperations j') with (Job.completedOperations j).
      rewrite lookup_insert_eq.
      rewrite bool_decide_false by done. rewrite S7.
      rewrite List.filter_app, length_app.
      fold (starts r j). rewrite S6. cbn [List.filter isStart].
      rewrite Nat.eqb_refl. cbn [length Nat.add].
      unfold op'. cbn [Operation.events Operation.set_events
                       Operation.status Operation.timesFailed Operation.id].
      rewrite S1, S2, S3. reflexivity.
    + intros r' o Hne Ho. unfold view, starts, m'. rewrite Ht.
      change (Job.queuedOperations j') with rest.
      change (Job.completedOperations j') with (Job.completedOperations j).
      assert (Operation.id op ≠ Operation.id o) as Hido.
      { intros E. apply Hne. symmetry. by eapply (ids_inj (Job.heap j)). }
      rewrite lookup_insert_ne by done.
      rewrite List.filter_app, length_app. cbn [List.filter isStart].
      rewrite (proj2 (Nat.eqb_neq r r')) by done. cbn [length].
      rewrite Nat.add_0_r. repeat f_equal.
      apply bool_decide_ext. rewrite Hq, elem_of_cons. tauto.
  - intros Hst. destruct (o_done Hst) as [E _]. by rewrite Hq in E.
  - assert (Hc : Job.currentOperations j'
                 = Job.assign (Operation.id op) r (Job.currentOperations j))
      by done.
    rewrite Hc, o_own. unfold Job.assign, m'.
    destruct (decide (Operation.id op = "__proto__")) as [Hp|Hp].
    + by rewrite Hp, delete_insert_eq.
    + by rewrite delete_insert_ne.
  - intros r' Hr'. unfold m' in Hr'.
    assert (Hp' : Job.currentPrototype j'
                  = if decide (Operation.id op = "__proto__") then Some r
                    else Job.currentPrototype j) by done.
    rewrite Hp'.
    destruct (decide (Operation.id op = "__proto__")) as [Hp|Hp].
    + rewrite Hp, lookup_insert_eq in Hr'. congruence.
    + rewrite lookup_insert_ne in Hr' by done. by apply o_proto.
Qed.

Lemma elem_of_snoc_timer (tm x : Job.Timer) (ts : list Job.Timer) :
  x ∈ ts ++ [tm] ↔ x ∈ ts ∨ x = tm.
Proof. by rewrite elem_of_app, list_elem_of_singleton. Qed.

Lemma orderly_defer (m : gmap string nat) (d : Z) (j : Job.t) :
  orderly m j → orderly m (Job.setTimeout (Job.TDispatch d) j).
Proof.
  intros [o_ids o_num o_max o_current o_queued o_backlog o_completed o_final o_timers o_stage o_done o_own o_proto].
  set (j' := Job.setTimeout (Job.TDispatch d) j).
  assert (Ht : Job.timers j' = Job.timers j ++ [Job.TDispatch d]) by done.
  split; try done.
  - intros r d' Hin. rewrite Ht in Hin.
    apply elem_of_snoc_timer in Hin as [Hin|Hin]; [by eapply o_timers|done].
  - intros r op Hop. destruct (o_stage r op Hop) as [st Hst]. exists st.
    rewrite <- Hst. unfold view, starts. rewrite Ht.
    rewrite List.filter_app, length_app. cbn. by rewrite Nat.add_0_r.
Qed.

(** The dispatcher keeps the books in order; with room for one
    operation at least it leaves the job with an operation in flight,
    with itself due, or COMPLETED. It touches no operation that is not
    in the backlog, and none of the parameters. *)
Lemma orderly_loop (m : gmap string nat) (fuel : nat) (cooled : bool)
    (j : Job.t) :
  orderly m j →
  let j' := Job.startNextOperation_rec fuel cooled j in
  (∃ m', orderly m' j') ∧
  (1 ≤ Job.maxConcurrentOperations j → lively j') ∧
  Job.maxConcurrentOperations j' = Job.maxConcurrentOperations j ∧
  Job.maxFailuresPerOperation j' = Job.maxFailuresPerOperation j ∧
  (∀ r, r ∉ Job.queuedOperations j → Job.heap j' !! r = Job.heap j !! r).
Proof.
  revert m cooled j. induction fuel as [|fuel IH]; intros m cooled j Ho;
    cbn zeta; cbn [Job.startNextOperation_rec].
  all: destruct (bool_decide (Job.cooldown j ≠ 0) && negb cooled);
    [split; [exists m; by apply orderly_defer|]; split; [|done];
     intros _ _; right; exists (Job.cooldown j);
     apply elem_of_snoc_timer; by right|].
  all: destruct (Job.isFull j) eqn:Hfull;
    [split; [by exists m|]; split; [|done]; intros Hmax _; left;
     unfold Job.isFull in Hfull; rewrite Z.geb_leb in Hfull;
     apply Z.leb_le in Hfull; lia|].
  all: destruct (Job.isComplete j) eqn:Hcomplete;
    [destruct (decide (Job.status j = COMPLETED)) as [Hst|Hst];
       [split; [by exists m|]; split; [|done]; by intros _ ?|];
     split; [|split; [|done]; by intros _ ?];
     exists m; eapply orderly_same; [..|exact Ho]; try done; intros _;
     unfold Job.isComplete, Job.hasPending in Hcomplete;
     apply andb_true_iff in Hcomplete as [Hn Hq];
     apply bool_decide_eq_true in Hn;
     destruct (Job.queuedOperations j); [done|done]|].
  all: assert (Hpos : Job.queuedOperations j = [] →
                      0 < Job.numCurrentOperations j)
    by (intros Hq; unfold Job.isComplete, Job.hasPending in Hcomplete;
        rewrite Hq in Hcomplete; cbn in Hcomplete;
        rewrite andb_true_r in Hcomplete;
        apply bool_decide_eq_false in Hcomplete;
        rewrite (o_num m j Ho) in *; lia).
  all: destruct (Job.queuedOperations j) as [|r rest] eqn:Hq;
    [split; [by exists m|]; split; [|done]; intros _ _; left; by apply Hpos|].
  all: destruct (Job.heap j !! r) as [op|] eqn:Hr;
    [|destruct (o_backlog m j Ho r) as [? ?];
      [rewrite Hq; by left | congruence]].
  all: pose proof (orderly_dispatch m r rest op j Ho Hq Hr Hfull) as Hd.
  - split; [by eexists|]. split; [|split; [done|split; [done|]]].
    + intros _ _. left. cbn. rewrite (o_num m j Ho). lia.
    + intros r' Hr'. cbn. rewrite list_lookup_insert_ne; [done|].
      intros ->. apply Hr'. by left.
  - destruct (IH _ false _ Hd) as (A & B & C & D & E).
    split; [done|]. split; [exact B|]. split; [done|]. split; [done|].
    intros r' Hr'. rewrite E by (intros ?; apply Hr'; by right).
    cbn. rewrite list_lookup_insert_ne; [done|].
    intros ->. apply Hr'. by left.
Qed.

Lemma starts_fired (i k : nat) (tm : Job.Timer) (j j' : Job.t) :
  Job.timers j !! k = Some tm →
  Job.timers j' = delete k (Job.timers j) →
  starts i j = (starts i j' + if isStart i tm then 1 else 0)%nat.
Proof.
  intros Hk Ht. rewrite (starts_delete i k tm j Hk). unfold starts.
  by rewrite Ht.
Qed.

(** A cooldown timer is taken off the list. *)
Lemma orderly_fired (m : gmap string nat) (k : nat) (d : Z) (j : Job.t) :
  Job.timers j !! k = Some (Job.TDispatch d) →
  orderly m j → orderly m (Job.with_timers (delete k (Job.timers j)) j).
Proof.
  intros Hk
    [o_ids o_num o_max o_current o_queued o_backlog o_completed o_final o_timers o_stage o_done o_own o_proto].
  set (j' := Job.with_timers _ j).
  split; try done.
  - intros r d' Hin. apply (o_timers r d').
    exact (list_elem_of_delete_inv _ k _ Hin).
  - intros r op Hop. destruct (o_stage r op Hop) as [st Hst]. exists st.
    rewrite <- Hst. unfold view.
    rewrite (starts_fired r k _ j j' Hk eq_refl). cbn [isStart].
    by rewrite Nat.add_0_r.
Qed.

(** The [start()] of the operation at [r] is due: the operation is
    Scheduled, and Running once it has started. *)
Lemma orderly_begin (m : gmap string nat) (k r : nat) (d : Z)
    (op op' : Operation.t) (j j' : Job.t) :
  orderly m j →
  Job.timers j !! k = Some (Job.TStart r d) →
  Job.heap j !! r = Some op →
  view m r op j = shape r Scheduled ∧
  (Job.heap j' = <[r := op']> (Job.heap j) →
   Job.timers j' = delete k (Job.timers j) →
   Job.queuedOperations j' = Job.queuedOperations j →
   Job.currentOperations j' = Job.currentOperations j →
   Job.currentPrototype j' = Job.currentPrototype j →
   Job.numCurrentOperations j' = Job.numCurrentOperations j →
   Job.completedOperations j' = Job.completedOperations j →
   Job.maxConcurrentOperations j' = Job.maxConcurrentOperations j →
   Job.status j' = Job.status j →
   Operation.id op' = Operation.id op →
   Operation.status op' = STARTED →
   Operation.events op' = listeners 0 1 1 →
   Operation.timesFailed op' = Operation.timesFailed op →
   orderly m j' ∧ 0 < Job.numCurrentOperations j').
Proof.
  intros [o_ids o_num o_max o_current o_queued o_backlog o_completed o_final o_timers o_stage o_done o_own o_proto]
    Hk Hr.
  destruct (o_stage r op Hr) as [st Hst].
  assert (st = Scheduled) as ->.
  { pose proof (stage_is _ _ _ _ _ Hst) as (_ & _ & _ & _ & _ & S6 & _).
    pose proof (starts_delete r k _ j Hk) as E. cbn [isStart] in E.
    rewrite Nat.eqb_refl in E. destruct st; cbn in S6; try lia. done. }
  split; [done|].
  intros Hh Ht Hq Hc Hcp Hn Hco Hm Hs Hid Hst' Hev Htf.
  pose proof (stage_is _ _ _ _ _ Hst) as (S1 & S2 & S3 & S4 & S5 & S6 & S7).
  cbn [shape fst snd] in *.
  assert (Hlen : ∀ r', is_Some (Job.heap j !! r') → is_Some (Job.heap j' !! r')).
  { intros r' Hv. apply lookup_lt_is_Some. rewrite Hh, length_insert.
    by apply lookup_lt_is_Some. }
  assert (Hpos : 0 < Job.numCurrentOperations j').
  { rewrite Hn, o_num.
    assert (size m ≠ 0%nat); [|lia].
    intros E. apply map_size_empty_inv in E. rewrite E in S5. done. }
  split; [|done]. split.
  - rewrite Hh. by rewrite (ids_insert _ r op).
  - by rewrite Hn.
  - by rewrite Hn, Hm.
  - intros id r' Hc'. rewrite Hh.
    destruct (o_current id r' Hc') as (o & Ho & E).
    destruct (decide (r' = r)) as [->|Hr'].
    + exists op'. split; [|congruence].
      apply list_lookup_insert_eq. by eapply lookup_lt_Some.
    + exists o. by rewrite list_lookup_insert_ne.
  - by rewrite Hq.
  - intros r' Hin. rewrite Hq in Hin. by apply Hlen, o_backlog.
  - by rewrite Hco.
  - intros x Hx. rewrite Hco in Hx.
    destruct (o_final x Hx) as (r' & -> & Hv). eauto.
  - intros r' d' Hin. rewrite Ht in Hin. apply Hlen, (o_timers r' d').
    by eapply list_elem_of_delete_inv.
  - apply (stage_update m m r op op' Running j); [done|done| |  |done].
    + unfold view. rewrite Hq, Hco, Hid, Hst', Hev, Htf, S3, S4, S5, S7.
      pose proof (starts_fired r k _ j j' Hk Ht) as E. cbn [isStart] in E.
      rewrite Nat.eqb_refl in E.
      assert (starts r j' = 0%nat) as -> by lia. reflexivity.
    + intros r' o Hne Ho. unfold view. rewrite Hq, Hco.
      pose proof (starts_fired r' k _ j j' Hk Ht) as E. cbn [isStart] in E.
      rewrite (proj2 (Nat.eqb_neq r r')) in E by done.
      rewrite E, Nat.add_0_r. reflexivity.
  - intros Hcomp. rewrite Hs in Hcomp. rewrite Hq, Hn. by apply o_done.
  - by rewrite Hc.
  - intros r' Hr'. rewrite Hcp. by apply o_proto.
Qed.

(** The attempt of the operation at [r] has settled, the listener was
    called and has made the entries of [handleOperationComplete]: the
    operation was Running and is Succeeded or Failed. *)
Lemma orderly_finish (m : gmap string nat) (r : nat) (st : Stage)
    (op op' : Operation.t) (j j' : Job.t) :
  orderly m j →
  Job.heap j !! r = Some op →
  Operation.status op = STARTED →
  view m r op j = shape r Running ∧
  (st = Succeeded ∨ st = Failed →
   Job.heap j' = <[r := op']> (Job.heap j) →
   Job.timers j' = Job.timers j →
   Job.queuedOperations j' = Job.queuedOperations j →
   Job.currentOperations j'
     = delete (Operation.id op) (Job.currentOperations j) →
   Job.currentPrototype j' = Job.currentPrototype j →
   Job.numCurrentOperations j' = Job.numCurrentOperations j - 1 →
   Job.completedOperations j' = Job.completedOperations j ++ [Some r] →
   Job.maxConcurrentOperations j' = Job.maxConcurrentOperations j →
   Job.status j' = Job.status j →
   Operation.id op' = Operation.id op →
   (Operation.status op', Operation.events op', Operation.timesFailed op')
     = (shape r st).1.1.1.1 →
   orderly (delete (Operation.id op) m) j').
Proof.
  intros [o_ids o_num o_max o_current o_queued o_backlog o_completed o_final o_timers o_stage o_done o_own o_proto]
    Hr Hstarted.
  destruct (o_stage r op Hr) as [st0 Hst].
  assert (st0 = Running) as ->.
  { pose proof (stage_is _ _ _ _ _ Hst) as (S1 & _).
    rewrite Hstarted in S1. by destruct st0. }
  split; [done|].
  intros Hfin Hh Ht Hq Hc Hcp Hn Hco Hm Hs Hid Hnew.
  pose proof (stage_is _ _ _ _ _ Hst) as (S1 & S2 & S3 & S4 & S5 & S6 & S7).
  cbn [shape fst snd] in S1, S2, S3, S4, S5, S6, S7.
  apply bool_decide_eq_false in S4, S7.
  assert (Hlen : ∀ r', is_Some (Job.heap j !! r') → is_Some (Job.heap j' !! r')).
  { intros r' Hv. apply lookup_lt_is_Some. rewrite Hh, length_insert.
    by apply lookup_lt_is_Some. }
  assert (Hsize : size m ≠ 0%nat).
  { intros E. apply map_size_empty_inv in E. rewrite E in S5. done. }
  split.
  - rewrite Hh. by rewrite (ids_insert _ r op).
  - rewrite Hn, o_num. rewrite map_size_delete_Some by eauto. lia.
  - rewrite Hn, Hm. lia.
  - intros id r' Hc'. rewrite Hh.
    apply lookup_delete_Some in Hc' as [Hne Hc'].
    destruct (o_current id r' Hc') as (o & Ho & E).
    destruct (decide (r' = r)) as [->|Hr'].
    + exfalso. apply Hne. congruence.
    + exists o. by rewrite list_lookup_insert_ne.
  - by rewrite Hq.
  - intros r' Hin. rewrite Hq in Hin. by apply Hlen, o_backlog.
  - rewrite Hco. apply NoDup_app. split; [done|]. split; [|apply NoDup_singleton].
    intros x Hx ->%list_elem_of_singleton. done.
  - intros x Hx. rewrite Hco in Hx.
    apply elem_of_app in Hx as [Hx|Hx].
    + destruct (o_final x Hx) as (r' & -> & Hv). eauto.
    + apply list_elem_of_singleton in Hx as ->.
      exists r. split; [done|]. apply Hlen. eauto.
  - intros r' d' Hin. rewrite Ht in Hin. by apply Hlen, (o_timers r' d').
  - apply (stage_update m (delete (Operation.id op) m) r op op' st j);
      [done|done| |  |done].
    + unfold view, starts. rewrite Hq, Hco, Ht, Hid.
      fold (starts r j). rewrite S6.
      rewrite lookup_delete_eq.
      rewrite bool_decide_false by done.
      rewrite bool_decide_true
        by (apply elem_of_app; right; by apply list_elem_of_singleton).
      destruct Hfin as [-> | ->]; cbn [shape fst snd] in Hnew |- *;
        injection Hnew as -> -> ->; reflexivity.
    + intros r' o Hne Ho. unfold view, starts. rewrite Hq, Hco, Ht.
      assert (Operation.id op ≠ Operation.id o) as Hido.
      { intros E. apply Hne. symmetry. by eapply (ids_inj (Job.heap j)). }
      rewrite lookup_delete_ne by done. repeat f_equal.
      apply bool_decide_ext. rewrite elem_of_app, list_elem_of_singleton.
      split; [intros [?|[= ?]]; done | by left].
  - intros Hcomp. rewrite Hs in Hcomp. destruct (o_done Hcomp) as [_ E].
    rewrite o_num in E. lia.
  - rewrite Hc, o_own. apply delete_delete.
  - intros r' Hr'. apply lookup_delete_Some in Hr' as [_ Hr'].
    rewrite Hcp. by apply o_proto.
Qed.

Lemma dispatches_record (s : Job.Signal) (j : Job.t) :
  dispatches (Job.record s j)
  = dispatches j ++ match s with
                    | Job.SetTimeout (Job.TStart r _) => [r]
                    | _ => []
                    end.
Proof.
  unfold dispatches, Job.record. unfold_job. rewrite omap_app. f_equal.
  by destruct s as [| | |[|]].
Qed.

(** The dispatcher takes operations off the head of the backlog and
    schedules their [start()], in that order. *)
Lemma loop_takes (fuel : nat) (cooled : bool) (j : Job.t) :
  let j' := Job.startNextOperation_rec fuel cooled j in
  ∃ taken, Job.queuedOperations j = taken ++ Job.queuedOperations j' ∧
           dispatches j' = dispatches j ++ taken.
Proof.
  revert cooled j. induction fuel as [|fuel IH]; intros cooled j;
    cbn zeta; cbn [Job.startNextOperation_rec].
  all: destruct (bool_decide (Job.cooldown j ≠ 0) && negb cooled);
    [exists []; split; [done|];
     unfold Job.setTimeout; by rewrite dispatches_record|].
  all: destruct (Job.isFull j); [exists []; by rewrite app_nil_r|].
  all: destruct (Job.isComplete j);
    [destruct (decide (Job.status j = COMPLETED));
       [exists []; by rewrite app_nil_r|];
     exists []; split; [done|]; unfold Job.emit;
     by rewrite dispatches_record|].
  all: destruct (Job.queuedOperations j) as [|r rest] eqn:Hq;
    [exists []; by rewrite app_nil_r, Hq|].
  all: destruct (Job.heap j !! r) as [op|];
    [|exists []; by rewrite app_nil_r, Hq].
  all: assert (Hd : dispatches (Job.dispatch r op (Job.with_queued rest j))
                    = dispatches j ++ [r])
    by (unfold Job.dispatch, Job.setTimeout; by rewrite dispatches_record).
  - exists [r]. by rewrite Hd.
  - destruct (IH false (Job.dispatch r op (Job.with_queued rest j)))
      as (taken & A & B).
    exists (r :: taken). rewrite B, Hd, <- app_assoc. split; [|done].
    cbn [app]. f_equal. exact A.
Qed.

Lemma lively_same (j j' : Job.t) :
  Job.status j' = Job.status j →
  Job.numCurrentOperations j' = Job.numCurrentOperations j →
  Job.timers j' = Job.timers j →
  lively j → lively j'.
Proof. unfold lively. intros -> -> ->. done. Qed.

(** [start()] of an operation that is Scheduled: it is STARTED, its
    signal is forwarded by the one listener there is. *)
Lemma operationStart_scheduled (r : nat) (op : Operation.t) (j : Job.t) :
  Job.heap j !! r = Some op →
  Operation.status op = PENDING →
  Operation.events op = listeners 1 1 1 →
  ∃ op',
    moved j (Job.operationStart r j) r op' (Job.timers j)
      (Job.currentOperations j) (Job.numCurrentOperations j)
      (Job.completedOperations j) ∧
    Operation.id op' = Operation.id op ∧
    Operation.status op' = STARTED ∧
    Operation.events op' = listeners 0 1 1 ∧
    Operation.timesFailed op' = Operation.timesFailed op.
Proof.
  intros Hr S1 S2.
  unfold Job.operationStart. rewrite Hr.
  unfold Operation.start. rewrite decide_False by (by rewrite S1).
  unfold Job.operationEmitAll. cbn [foldl]. unfold Job.operationEmit.
  unfold_job.
  rewrite list_lookup_insert_eq by (by eapply lookup_lt_Some).
  cbn [Operation.listenerCount Operation.events]. rewrite S2.
  cbn [listeners Operation.onceStarted Job.callListeners].
  unfold Job.callOnce. unfold_job.
  rewrite list_lookup_insert_eq by (by eapply lookup_lt_Some).
  cbn [Job.listener Operation.id]. unfold_job.
  rewrite list_insert_insert_eq.
  eexists. split;
    [repeat split; try done;
     unfold dispatches; unfold_job; by rewrite !omap_app, !app_nil_r|].
  done.
Qed.

(** The attempt of an operation that is Running succeeds: it is
    COMPLETED, the one listener there is forwards the signal and makes
    the entries of [handleOperationComplete]; then the dispatcher
    runs. *)
Lemma operationSettle_resolve (r : nat) (v : option Value) (op : Operation.t)
    (j : Job.t) :
  Job.heap j !! r = Some op →
  Operation.events op = listeners 0 1 1 →
  ∃ j5 op',
    Job.operationSettle r (Resolve v) j = Job.startNextOperation false j5 ∧
    moved j j5 r op' (Job.timers j)
      (delete (Operation.id op) (Job.currentOperations j))
      (Job.numCurrentOperations j - 1)
      (Job.completedOperations j
         ++ [Job.current j (Operation.id op)]) ∧
    Operation.id op' = Operation.id op ∧
    Operation.status op' = COMPLETED ∧
    Operation.events op' = listeners 0 0 1 ∧
    Operation.timesFailed op' = Operation.timesFailed op.
Proof.
  intros Hr S2.
  unfold Job.operationSettle. rewrite Hr. cbn [Operation.settle].
  unfold Job.operationEmitAll. cbn [foldl]. unfold Job.operationEmit.
  unfold_job.
  rewrite list_lookup_insert_eq by (by eapply lookup_lt_Some).
  cbn [Operation.listenerCount Operation.events]. rewrite S2.
  cbn [listeners Operation.onceCompleted Job.callListeners].
  unfold Job.callOnce. unfold_job.
  rewrite list_lookup_insert_eq by (by eapply lookup_lt_Some).
  cbn [Job.listener Operation.id]. unfold_job.
  rewrite list_insert_insert_eq.
  unfold Job.handleOperationComplete. unfold_job.
  eexists _, _. split; [reflexivity|].
  split;
    [repeat split; try done;
     unfold dispatches; unfold_job; by rewrite !omap_app, !app_nil_r|].
  done.
Qed.

(** The attempt of an operation that is Running and has not failed
    before fails, and the budget is 1 at most: it is FAILED, the one
    listener there is forwards the signal and makes the entries of
    [handleOperationComplete] for good; the dispatcher runs; then the
    operation emits the signal again. *)
Lemma operationSettle_reject (r : nat) (e : option Value) (op : Operation.t)
    (j : Job.t) :
  Job.heap j !! r = Some op →
  Operation.events op = listeners 0 1 1 →
  Operation.timesFailed op = 0 →
  Job.maxFailuresPerOperation j ≤ 1 →
  ∃ j5 op',
    Job.operationSettle r (Reject e) j
    = Job.operationEmit r OPERATION_FAILED
        (Job.startNextOperation false j5) ∧
    moved j j5 r op' (Job.timers j)
      (delete (Operation.id op) (Job.currentOperations j))
      (Job.numCurrentOperations j - 1)
      (Job.completedOperations j
         ++ [Job.current j (Operation.id op)]) ∧
    Operation.id op' = Operation.id op ∧
    Operation.status op' = FAILED ∧
    Operation.events op' = listeners 0 1 0 ∧
    Operation.timesFailed op' = 1.
Proof.
  intros Hr S2 S3 Hmax.
  unfold Job.operationSettle. rewrite Hr. cbn [Operation.settle].
  unfold Job.operationEmitAll. cbn [foldl].
  set (j2 := Job.with_heap _ j).
  assert (E : ∃ j5 op',
    Job.operationEmit r OPERATION_FAILED j2
    = Job.startNextOperation false j5 ∧
    moved j j5 r op' (Job.timers j)
      (delete (Operation.id op) (Job.currentOperations j))
      (Job.numCurrentOperations j - 1)
      (Job.completedOperations j
         ++ [Job.current j (Operation.id op)]) ∧
    Operation.id op' = Operation.id op ∧
    Operation.status op' = FAILED ∧
    Operation.events op' = listeners 0 1 0 ∧
    Operation.timesFailed op' = 1).
  { unfold j2, Job.operationEmit. unfold_job.
    rewrite list_lookup_insert_eq by (by eapply lookup_lt_Some).
    cbn [Operation.listenerCount Operation.events]. rewrite S2.
    cbn [listeners Operation.onceFailed Job.callListeners].
    unfold Job.callOnce. unfold_job.
    rewrite list_lookup_insert_eq by (by eapply lookup_lt_Some).
    cbn [Job.listener Operation.id]. unfold_job.
    rewrite list_insert_insert_eq.
    rewrite list_lookup_insert_eq by (by eapply lookup_lt_Some).
    cbn [Operation.timesFailed Operation.set_events]. rewrite S3.
    rewrite bool_decide_false by lia.
    unfold Job.handleOperationComplete. unfold_job.
    eexists _, _. split; [reflexivity|].
    split;
      [repeat split; try done;
       unfold dispatches; unfold_job; by rewrite !omap_app, !app_nil_r|].
    done. }
  destruct E as (j5 & op' & E & H). exists j5, op'. by rewrite E.
Qed.

(** What [this.currentOperations[id]] finds for an operation in
    flight. *)
Lemma orderly_current (m : gmap string nat) (j : Job.t) (id : string)
    (r : nat) :
  orderly m j → m !! id = Some r → Job.current j id = Some r.
Proof.
  intros Ho Hm. unfold Job.current.
  destruct (decide (id = "__proto__")) as [->|Hne].
  - by apply (o_proto m j Ho).
  - rewrite (o_own m j Ho). by rewrite lookup_delete_ne.
Qed.

Lemma step_orderly (m : gmap string nat) (e : Job.Event) (j j' : Job.t) :
  calm e j → 1 ≤ Job.maxConcurrentOperations j →
  orderly m j → Job.step e j = Some j' →
  (∃ m', orderly m' j') ∧ lively j' ∧
  Job.maxConcurrentOperations j' = Job.maxConcurrentOperations j ∧
  Job.maxFailuresPerOperation j' = Job.maxFailuresPerOperation j ∧
  dispatches j' ++ Job.queuedOperations j'
  = dispatches j ++ Job.queuedOperations j.
Proof.
  intros Hcalm Hmax Ho Hstep.
  assert (Hloop : ∀ cooled j5,
            dispatches (Job.startNextOperation cooled j5)
              ++ Job.queuedOperations (Job.startNextOperation cooled j5)
            = dispatches j5 ++ Job.queuedOperations j5).
  { intros cooled j5.
    destruct (loop_takes (length (Job.queuedOperations j5)) cooled j5)
      as (taken & A & B).
    fold (Job.startNextOperation cooled j5) in A, B.
    by rewrite B, A, app_assoc. }
  destruct e as [k|r o]; cbn [Job.step] in Hstep.
  - destruct (Job.timers j !! k) as [tm|] eqn:Hk; [|done].
    injection Hstep as <-. destruct tm as [d|r d]; cbn [Job.runTimer].
    + pose proof (orderly_fired m k d j Hk Ho) as Ho1.
      destruct (orderly_loop m
                  (length (Job.queuedOperations
                             (Job.with_timers (delete k (Job.timers j)) j)))
                  true _ Ho1) as (A & B & C & D & _).
      split; [exact A|]. split; [by apply B|]. split; [done|].
      split; [done|].
      exact (Hloop true (Job.with_timers (delete k (Job.timers j)) j)).
    + destruct (o_timers m j Ho r d) as [op Hr];
        [by eapply list_elem_of_lookup_2|].
      destruct (orderly_begin m k r d op op j j Ho Hk Hr) as [Hst _].
      apply stage_is in Hst as (S1 & S2 & S3 & _).
      cbn [shape fst snd] in S1, S2, S3.
      set (j1 := Job.with_timers (delete k (Job.timers j)) j).
      destruct (operationStart_scheduled r op j1 Hr S1 S2)
        as (op' & (M1 & M2 & M3 & M4 & M4' & M5 & M6 & M7 & M8 & M9 & M10)
            & O1 & O2 & O3 & O4).
      destruct (orderly_begin m k r d op op' j (Job.operationStart r j1)
                  Ho Hk Hr) as [_ Hnext].
      destruct Hnext as [A B]; try done.
      split; [by exists m|]. split; [intros _; by left|].
      split; [done|]. split; [done|]. by rewrite M3, M10.
  - destruct (Job.heap j !! r) as [op|] eqn:Hr; [|done].
    case_decide as Hstarted; [|done]. injection Hstep as <-.
    destruct (orderly_finish m r Succeeded op op j j Ho Hr Hstarted)
      as [Hst _].
    pose proof (stage_is _ _ _ _ _ Hst) as (S1 & S2 & S3 & S4 & S5 & _).
    cbn [shape fst snd] in S1, S2, S3, S4, S5.
    apply bool_decide_eq_false in S4.
    pose proof (orderly_current m j _ r Ho S5) as S5'.
    destruct o as [v|err].
    + destruct (operationSettle_resolve r v op j Hr S2)
        as (j5 & op' & -> & (M1 & M2 & M3 & M4 & M4' & M5 & M6 & M7 & M8 & M9 & M10)
            & O1 & O2 & O3 & O4).
      assert (Ho5 : orderly (delete (Operation.id op) m) j5).
      { eapply (proj2 (orderly_finish m r Succeeded op op' j j5 Ho Hr
                         Hstarted));
          try done; [by left|by rewrite M6, S5'|].
        cbn. by rewrite O2, O3, O4, S3. }
      destruct (orderly_loop _ (length (Job.queuedOperations j5)) false j5 Ho5)
        as (A & B & C & D & _).
      fold (Job.startNextOperation false j5) in A, B, C, D.
      split; [exact A|]. split; [apply B; lia|].
      split; [congruence|]. split; [congruence|].
      by rewrite Hloop, M3, M10.
    + cbn [calm] in Hcalm.
      destruct (operationSettle_reject r err op j Hr S2 S3 Hcalm)
        as (j5 & op' & -> & (M1 & M2 & M3 & M4 & M4' & M5 & M6 & M7 & M8 & M9 & M10)
            & O1 & O2 & O3 & O4).
      assert (Ho5 : orderly (delete (Operation.id op) m) j5).
      { eapply (proj2 (orderly_finish m r Failed op op' j j5 Ho Hr Hstarted));
          try done; [by right|by rewrite M6, S5'|].
        cbn. by rewrite O2, O3, O4. }
      destruct (orderly_loop _ (length (Job.queuedOperations j5)) false j5 Ho5)
        as (A & B & C & D & E).
      fold (Job.startNextOperation false j5) in A, B, C, D, E.
      rewrite (operationEmit_unheard r OPERATION_FAILED op').
      * split; [destruct A as [m' A]; exists m'; by apply orderly_record|].
        split; [eapply lively_same; [..|apply B; lia]; done|].
        change (Job.maxConcurrentOperations (Job.record ?s ?x))
          with (Job.maxConcurrentOperations x).
        change (Job.maxFailuresPerOperation (Job.record ?s ?x))
          with (Job.maxFailuresPerOperation x).
        split; [congruence|]. split; [congruence|].
        rewrite dispatches_record, app_nil_r.
        change (Job.queuedOperations (Job.record ?s ?x))
          with (Job.queuedOperations x).
        by rewrite Hloop, M3, M10.
      * rewrite E by (by rewrite M3). rewrite M1.
        apply list_lookup_insert_eq. by eapply lookup_lt_Some.
      * cbn. by rewrite O3.
Qed.

Lemma no_retry_cons (m : Z) (e : Job.Event) (sched : list Job.Event)
    (j : Job.t) :
  Job.maxFailuresPerOperation j = m →
  no_retry m (e :: sched) = true → calm e j ∧ no_retry m sched = true.
Proof.
  intros Hm H. unfold no_retry in *. apply orb_true_iff in H as [H|H].
  - apply bool_decide_eq_true in H. split.
    + destruct e as [|r [|]]; cbn; [done..|lia].
    + by rewrite bool_decide_true.
  - cbn [forallb] in H. apply andb_true_iff in H as [He H]. split.
    + by destruct e as [|r [|]].
    + rewrite H. apply orb_true_r.
Qed.

Lemma run_orderly (m : gmap string nat) (sched : list Job.Event)
    (j s : Job.t) :
  no_retry (Job.maxFailuresPerOperation j) sched = true →
  1 ≤ Job.maxConcurrentOperations j →
  orderly m j → lively j → Job.run sched j = Some s →
  (∃ m', orderly m' s) ∧ lively s ∧
  dispatches s ++ Job.queuedOperations s
  = dispatches j ++ Job.queuedOperations j.
Proof.
  revert m j. induction sched as [|e sched IH]; intros m j Hno Hmax Ho Hl Hrun.
  - injection Hrun as <-. split; [by exists m|done].
  - cbn [Job.run] in Hrun.
    destruct (Job.step e j) as [j1|] eqn:Hstep; [|done].
    destruct (no_retry_cons _ e sched j eq_refl Hno) as [Hcalm Hno'].
    destruct (step_orderly m e j j1 Hcalm Hmax Ho Hstep)
      as ([m1 A] & B & C & D & E).
    rewrite <- E. apply (IH m1 j1); [by rewrite D|by rewrite C|done..].
Qed.

Lemma orderly_new (name : string) (data : list Value) (p : Job.Params) :
  NoDup (imap (λ index d, Job.dataToId p d index) data) →
  0 ≤ Job.p_maxConcurrentOperations p →
  orderly ∅ (Job.new name data p).
Proof.
  intros Hids Hmax. split; unfold Job.new; unfold_job.
  - by rewrite fmap_imap.
  - by rewrite map_size_empty.
  - done.
  - intros id r Hc. by rewrite lookup_empty in Hc.
  - apply NoDup_seq.
  - intros r Hr%elem_of_seq. apply lookup_lt_is_Some.
    rewrite length_imap. lia.
  - constructor.
  - intros x Hx. by apply not_elem_of_nil in Hx.
  - intros r d Hin. by apply not_elem_of_nil in Hin.
  - intros r op Hop. exists Queued.
    rewrite list_lookup_imap in Hop.
    destruct (data !! r) as [d|] eqn:Hd; [|done]. injection Hop as <-.
    unfold view, starts. unfold_job. cbn [shape Operation.new Operation.status
      Operation.events Operation.timesFailed Operation.id List.filter length].
    rewrite lookup_empty.
    rewrite bool_decide_true
      by (apply elem_of_seq; apply lookup_lt_Some in Hd; lia).
    rewrite bool_decide_false by apply not_elem_of_nil. reflexivity.
  - done.
  - by rewrite delete_empty.
  - intros r Hr. by rewrite lookup_empty in Hr.
Qed.

(** The job as [start()] leaves it. *)
Lemma orderly_start (name : string) (data : list Value) (p : Job.Params) :
  NoDup (imap (λ index d, Job.dataToId p d index) data) →
  1 ≤ Job.p_maxConcurrentOperations p →
  let j := Job.start (Job.new name data p) in
  (∃ m, orderly m j) ∧ lively j ∧
  Job.maxConcurrentOperations j = Job.p_maxConcurrentOperations p ∧
  Job.maxFailuresPerOperation j = Job.p_maxFailuresPerOperation p ∧
  dispatches j ++ Job.queuedOperations j = seq 0 (length data).
Proof.
  intros Hids Hmax. cbn zeta. unfold Job.start. rewrite decide_False by done.
  set (j1 := Job.emit JOB_STARTED (Job.with_status STARTED _)).
  assert (Ho1 : orderly ∅ j1).
  { eapply orderly_same; [..|apply (orderly_new name data p Hids)];
      try done. lia. }
  destruct (orderly_loop ∅ (length (Job.queuedOperations j1)) false j1 Ho1)
    as (A & B & C & D & _).
  split; [exact A|]. split; [by apply B|]. split; [done|]. split; [done|].
  destruct (loop_takes (length (Job.queuedOperations j1)) false j1)
    as (taken & E & F).
  fold (Job.startNextOperation false j1) in E, F.
  by rewrite F, <- app_assoc, <- E.
Qed.

(** The invariant in every run without a retry. *)
Lemma no_retry_orderly (name : string) (data : list Value) (p : Job.Params)
    (sched : list Job.Event) (s : Job.t) :
  NoDup (imap (λ index d, Job.dataToId p d index) data) →
  1 ≤ Job.p_maxConcurrentOperations p →
  no_retry (Job.p_maxFailuresPerOperation p) sched = true →
  Job.run sched (Job.start (Job.new name data p)) = Some s →
  (∃ m, orderly m s) ∧ lively s ∧ safe s ∧
  Job.maxConcurrentOperations s = Job.p_maxConcurrentOperations p ∧
  length (Job.heap s) = length data ∧
  dispatches s ++ Job.queuedOperations s = seq 0 (length data).
Proof.
  intros Hids Hmax Hno Hrun.
  destruct (orderly_start name data p Hids Hmax) as ([m A] & B & C & D & E).
  destruct (run_orderly m sched (Job.start (Job.new name data p)) s)
    as (Ho & Hl & Hd); try done; [by rewrite D|by rewrite C|].
  destruct (within_start name data p) as [(S1 & _ & S3) Hsafe]; [lia|].
  destruct (within_run sched _ s Hrun) as [(T1 & _ & T3) W].
  split; [done|]. split; [done|]. split; [by apply W|].
  split; [by rewrite T1, S1|]. split; [|by rewrite Hd].
  apply (f_equal length) in S3, T3. rewrite !length_fmap in S3, T3.
  rewrite T3, S3. unfold Job.new. unfold_job. apply length_imap.
Qed.

Lemma stage_in_flight (m : gmap string nat) (r : nat) (op : Operation.t)
    (j : Job.t) (st : Stage) :
  view m r op j = shape r st →
  (m !! Operation.id op = Some r ↔ st = Scheduled ∨ st = Running) ∧
  (Operation.terminal (Operation.status op) = true ↔
   st = Succeeded ∨ st = Failed) ∧
  (Operation.status op = STARTED ↔ st = Running).
Proof.
  intros Hv. apply stage_is in Hv as (S1 & _ & _ & _ & S5 & _).
  rewrite S1, S5. destruct st; cbn; repeat split; intros H;
    try done; try (by left); try (by right); by destruct H.
Qed.

(** The ids of the operations are those of the data. *)
Lemma run_ids (name : string) (data : list Value) (p : Job.Params)
    (sched : list Job.Event) (s : Job.t) :
  Job.run sched (Job.start (Job.new name data p)) = Some s →
  Operation.id <$> Job.heap s
  = imap (λ index d, Job.dataToId p d index) data.
Proof.
  intros Hrun.
  destruct (within_run sched _ s Hrun) as [(_ & _ & A3) _].
  assert (W : stable (Job.new name data p)
                (Job.start (Job.new name data p))).
  { unfold Job.start. rewrite decide_False by done.
    set (j1 := Job.emit JOB_STARTED (Job.with_status STARTED _)).
    exact (proj1 (within_loop (length (Job.queuedOperations j1)) false j1)). }
  destruct W as (_ & _ & B3).
  assert (E : Operation.id <$> Job.heap s = (input <$> Job.heap s).*1)
    by (by rewrite <- list_fmap_compose).
  rewrite E, A3, B3. unfold Job.new. unfold_job.
  rewrite <- list_fmap_compose. by rewrite fmap_imap.
Qed.

(** X11. In a run without a retry (the budget is 1 at most, or no attempt
    fails) the in-flight map holds only operations that were taken on
    and have not settled, each under its id, and [currentOperations[id]]
    finds every operation that is STARTED; there are no more STARTED
    operations than the counter says, and the counter does not exceed
    [maxConcurrentOperations]. The counter is the number of properties
    of the in-flight map, or one more: an operation with the id
    [__proto__] is the prototype of the map while it is in flight, not a
    property. If no id is [__proto__] the counter is the number of
    properties, and every STARTED operation is a property under its
    id. *)
Theorem no_retry_in_flight (name : string) (data : list Value)
    (p : Job.Params) (sched : list Job.Event) (s : Job.t) :
  NoDup (imap (λ index d, Job.dataToId p d index) data) →
  1 ≤ Job.p_maxConcurrentOperations p →
  no_retry (Job.p_maxFailuresPerOperation p) sched = true →
  Job.run sched (Job.start (Job.new name data p)) = Some s →
  (∀ id r, Job.currentOperations s !! id = Some r →
     ∃ op, Job.heap s !! r = Some op ∧ Operation.id op = id ∧
           Operation.terminal (Operation.status op) = false) ∧
  (∀ r op, Job.heap s !! r = Some op → Operation.status op = STARTED →
     Job.current s (Operation.id op) = Some r) ∧
  Z.of_nat (length (filter (λ op, Operation.status op = STARTED) (Job.heap s)))
    ≤ Job.numCurrentOperations s ∧
  Job.numCurrentOperations s ≤ Job.p_maxConcurrentOperations p ∧
  Z.of_nat (size (Job.currentOperations s)) ≤ Job.numCurrentOperations s
    ≤ Z.of_nat (size (Job.currentOperations s)) + 1 ∧
  ("__proto__" ∉ imap (λ index d, Job.dataToId p d index) data →
   Job.numCurrentOperations s = Z.of_nat (size (Job.currentOperations s)) ∧
   ∀ r op, Job.heap s !! r = Some op → Operation.status op = STARTED →
     Job.currentOperations s !! Operation.id op = Some r).
Proof.
  intros Hids Hmax Hno Hrun.
  destruct (no_retry_orderly name data p sched s Hids Hmax Hno Hrun)
    as ([m Ho] & _ & _ & Hm & _ & _).
  assert (Hstarted : ∀ r op, Job.heap s !! r = Some op →
            Operation.status op = STARTED →
            m !! Operation.id op = Some r).
  { intros r op Hop Hst. destruct (o_stage m s Ho r op Hop) as [st Hv].
    destruct (stage_in_flight m r op s st Hv) as (A & _ & C).
    apply A. right. by apply C. }
  assert (Hsize : (size (Job.currentOperations s) ≤ size m
                   ≤ size (Job.currentOperations s) + 1)%nat).
  { rewrite (o_own m s Ho), map_size_delete.
    destruct (m !! "__proto__") eqn:E; cbn; [|lia].
    assert (size m ≠ 0%nat); [|lia].
    intros E0. apply map_size_empty_inv in E0. by rewrite E0 in E. }
  split; [|split; [|split; [|split; [|split]]]].
  - intros id r Hc. rewrite (o_own m s Ho) in Hc.
    apply lookup_delete_Some in Hc as [_ Hc].
    destruct (o_current m s Ho id r Hc) as (op & Hop & <-).
    exists op. split; [done|]. split; [done|].
    destruct (o_stage m s Ho r op Hop) as [st Hv].
    destruct (stage_in_flight m r op s st Hv) as (A & _ & _).
    apply stage_is in Hv as (S1 & _). rewrite S1.
    apply A in Hc. by destruct Hc as [->| ->].
  - intros r op Hop Hst. apply (orderly_current m); [done|].
    by apply Hstarted.
  - rewrite (o_num m s Ho). apply inj_le.
    set (l := filter _ (Job.heap s)).
    assert (Hsub : l `sublist_of` Job.heap s) by apply sublist_filter.
    assert (Hnd : NoDup (Operation.id <$> l)).
    { apply (sublist_NoDup _ (Operation.id <$> Job.heap s));
        [apply Ho | by apply fmap_sublist]. }
    rewrite <- (length_fmap Operation.id l).
    rewrite <- (size_list_to_set (C := gset string)) by done.
    rewrite <- (size_dom (D := gset string)).
    apply subseteq_size. intros id Hid.
    apply elem_of_list_to_set, list_elem_of_fmap in Hid as (op & -> & Hin).
    apply list_elem_of_filter in Hin as [Hst Hin].
    apply list_elem_of_lookup in Hin as [r Hop].
    apply elem_of_dom. exists r. by apply Hstarted.
  - rewrite <- Hm. apply Ho.
  - rewrite (o_num m s Ho). lia.
  - intros Hp.
    assert (Hnone : m !! "__proto__" = None).
    { destruct (m !! "__proto__") as [r|] eqn:E; [exfalso|done].
      destruct (o_current m s Ho _ r E) as (op & Hop & Hid).
      apply Hp. rewrite <- (run_ids name data p sched s Hrun), <- Hid.
      apply list_elem_of_fmap. exists op. split; [done|].
      by eapply list_elem_of_lookup_2. }
    assert (Hown : Job.currentOperations s = m).
    { rewrite (o_own m s Ho). by apply delete_id. }
    rewrite Hown. split; [apply Ho|exact Hstarted].
Qed.

Lemma no_retry_in_flight_witness :
  Job.numCurrentOperations Scenario.done
  = Z.of_nat (size (Job.currentOperations Scenario.done)).
Proof.
  destruct (no_retry_in_flight "cooled1" ["a"] (Scenario.params 1 1 10)
              Scenario.cooled1_sched Scenario.done)
    as (_ & _ & _ & _ & _ & H);
    [apply NoDup_singleton | vm_compute; discriminate | reflexivity
    | reflexivity |].
  apply H. apply (bool_decide_unpack _). vm_compute. exact I.
Defined.

Lemma completed_all_terminal (m : gmap string nat) (j : Job.t) :
  orderly m j → Job.status j = COMPLETED →
  Job.currentOperations j = ∅ ∧
  ∀ r op, Job.heap j !! r = Some op →
    Operation.terminal (Operation.status op) = true ∧
    Some r ∈ Job.completedOperations j.
Proof.
  intros Ho Hst. destruct (o_done m j Ho Hst) as [Hq Hn].
  assert (Hc : m = ∅).
  { apply map_size_empty_inv. rewrite (o_num m j Ho) in Hn. lia. }
  split; [rewrite (o_own m j Ho), Hc; apply delete_empty|].
  intros r op Hop.
  destruct (o_stage m j Ho r op Hop) as [st Hv].
  apply stage_is in Hv as (S1 & _ & _ & S4 & S5 & _ & S7).
  rewrite Hq in S4. rewrite Hc, lookup_empty in S5. rewrite S1.
  destruct st; cbn in *; try done;
    (split; [done|]); by apply bool_decide_eq_true in S7.
Qed.

(** X12. In a run without a retry the job is COMPLETED only when all is
    done: the backlog and the in-flight map are empty, every operation
    is COMPLETED or FAILED, the completed list holds every operation
    once, and [export()] lists none that is not COMPLETED or FAILED.
    JOB_COMPLETED was emitted once if the job is COMPLETED and not at
    all if it is not. *)
Theorem no_retry_completed_when_done (name : string) (data : list Value)
    (p : Job.Params) (sched : list Job.Event) (s : Job.t) :
  NoDup (imap (λ index d, Job.dataToId p d index) data) →
  1 ≤ Job.p_maxConcurrentOperations p →
  no_retry (Job.p_maxFailuresPerOperation p) sched = true →
  Job.run sched (Job.start (Job.new name data p)) = Some s →
  completions s
    = (if decide (Job.status s = COMPLETED) then 1%nat else 0%nat) ∧
  (Job.status s = COMPLETED →
   Job.queuedOperations s = [] ∧
   Job.numCurrentOperations s = 0 ∧
   Job.currentOperations s = ∅ ∧
   Forall (λ op, Operation.terminal (Operation.status op) = true)
     (Job.heap s) ∧
   Job.completedOperations s ≡ₚ Some <$> seq 0 (length data) ∧
   Forall (λ e, Operation.terminal (Operation.export_status e) = true)
     (Job.operations (Job.export s))).
Proof.
  intros Hids Hmax Hno Hrun.
  destruct (no_retry_orderly name data p sched s Hids Hmax Hno Hrun)
    as ([m Ho] & _ & (_ & Hsafe & _) & _ & Hlen & _).
  split; [exact Hsafe|]. intros Hst.
  destruct (o_done m s Ho Hst) as [Hq Hn].
  destruct (completed_all_terminal m s Ho Hst) as [Hc Hall].
  split; [done|]. split; [done|]. split; [done|]. split; [|split].
  - apply Forall_lookup. intros r op Hop. by apply (Hall r op).
  - apply NoDup_Permutation.
    + apply Ho.
    + apply (NoDup_fmap_2 _), NoDup_seq.
    + intros x. rewrite list_elem_of_fmap. split.
      * intros Hx. destruct (o_final m s Ho x Hx) as (r & -> & Hv).
        exists r. split; [done|]. apply elem_of_seq.
        apply lookup_lt_is_Some in Hv. lia.
      * intros (r & -> & Hr%elem_of_seq).
        destruct (lookup_lt_is_Some_2 (Job.heap s) r) as [op Hop]; [lia|].
        by apply (Hall r op).
  - apply Forall_forall. intros e He. unfold Job.export in He.
    cbn [Job.operations] in He.
    apply list_elem_of_omap in He as ((id & r) & _ & He). cbn in He.
    destruct (Job.heap s !! r) as [op|] eqn:Hop; [|done].
    injection He as <-. by apply (Hall r op).
Qed.

Lemma no_retry_completed_when_done_witness :
  completions Scenario.done = 1%nat.
Proof.
  apply (no_retry_completed_when_done "cooled1" ["a"] (Scenario.params 1 1 10)
           Scenario.cooled1_sched Scenario.done);
    [apply NoDup_singleton | vm_compute; discriminate | reflexivity
    | reflexivity].
Defined.

(** X13. In a run without a retry the job does not stall: when no timer
    is pending and no attempt is in flight, the job is COMPLETED and has
    emitted JOB_COMPLETED once. *)
Theorem no_retry_quiescent_completed (name : string) (data : list Value)
    (p : Job.Params) (sched : list Job.Event) (s : Job.t) :
  NoDup (imap (λ index d, Job.dataToId p d index) data) →
  1 ≤ Job.p_maxConcurrentOperations p →
  no_retry (Job.p_maxFailuresPerOperation p) sched = true →
  Job.run sched (Job.start (Job.new name data p)) = Some s →
  Job.quiescent s = true →
  Job.status s = COMPLETED ∧ completions s = 1%nat.
Proof.
  intros Hids Hmax Hno Hrun Hquiet.
  destruct (no_retry_orderly name data p sched s Hids Hmax Hno Hrun)
    as ([m Ho] & Hl & (_ & Hsafe & _) & _ & _ & _).
  assert (Hst : Job.status s = COMPLETED).
  { destruct (decide (Job.status s = COMPLETED)) as [|Hne]; [done|exfalso].
    unfold Job.quiescent in Hquiet.
    apply andb_true_iff in Hquiet as [Ht Hall].
    apply bool_decide_eq_true in Ht. rewrite forallb_forall in Hall.
    destruct (Hl Hne) as [Hpos|[d Hd]];
      [|rewrite Ht in Hd; by apply not_elem_of_nil in Hd].
    rewrite (o_num m s Ho) in Hpos.
    destruct (map_choose m) as (id & r & Hc).
    { intros E. rewrite E, map_size_empty in Hpos. lia. }
    destruct (o_current m s Ho id r Hc) as (op & Hop & <-).
    destruct (o_stage m s Ho r op Hop) as [st Hv].
    destruct (stage_in_flight m r op s st Hv) as (A & _ & C).
    apply A in Hc as [-> | ->].
    - apply stage_is in Hv as (_ & _ & _ & _ & _ & S6 & _).
      unfold starts in S6. rewrite Ht in S6. done.
    - assert (Hin : In op (Job.heap s))
        by (apply list_elem_of_In; by eapply list_elem_of_lookup_2).
      specialize (Hall op Hin).
      rewrite bool_decide_true in Hall by (by apply C). done. }
  split; [done|]. by rewrite Hsafe, decide_True.
Qed.

Lemma no_retry_quiescent_completed_witness :
  Job.status Scenario.done = COMPLETED ∧ completions Scenario.done = 1%nat.
Proof.
  apply (no_retry_quiescent_completed "cooled1" ["a"] (Scenario.params 1 1 10)
           Scenario.cooled1_sched Scenario.done);
    [apply NoDup_singleton | vm_compute; discriminate | reflexivity
    | reflexivity | reflexivity].
Defined.

(** X14. In a run without a retry the operations are taken on in the
    order of the data, each once: the operations whose [start()] the job
    has scheduled, in the order in which it did, followed by the
    backlog, are the operations in the order of the data. *)
Theorem no_retry_in_order (name : string) (data : list Value)
    (p : Job.Params) (sched : list Job.Event) (s : Job.t) :
  NoDup (imap (λ index d, Job.dataToId p d index) data) →
  1 ≤ Job.p_maxConcurrentOperations p →
  no_retry (Job.p_maxFailuresPerOperation p) sched = true →
  Job.run sched (Job.start (Job.new name data p)) = Some s →
  dispatches s ++ Job.queuedOperations s = seq 0 (length data).
Proof.
  intros Hids Hmax Hno Hrun.
  by destruct (no_retry_orderly name data p sched s Hids Hmax Hno Hrun)
    as (_ & _ & _ & _ & _ & H).
Qed.

Lemma no_retry_in_order_witness :
  dispatches Scenario.done ++ Job.queuedOperations Scenario.done = [0%nat].
Proof.
  apply (no_retry_in_order "cooled1" ["a"] (Scenario.params 1 1 10)
           Scenario.cooled1_sched Scenario.done);
    [apply NoDup_singleton | vm_compute; discriminate | reflexivity
    | reflexivity].
Defined.

(** ** The id index *)

(** The index holds, for every id but [__proto__], the position of the
    last operation with that id. *)
Lemma index_from_lookup (ops : list Operation.t) (k : nat)
    (m : gmap string nat) (id : string) (r : nat) :
  Job.index_from k ops m !! id = Some r ↔
    (id ≠ "__proto__" ∧
     ∃ n op, r = (k + n)%nat ∧ ops !! n = Some op ∧ Operation.id op = id ∧
             ∀ n' op', ops !! n' = Some op' → Operation.id op' = id →
                       (n' ≤ n)%nat) ∨
    (m !! id = Some r ∧
     (id = "__proto__" ∨ ∀ op, op ∈ ops → Operation.id op ≠ id)).
Proof.
  revert k m. induction ops as [|o ops IH]; intros k m; cbn [Job.index_from].
  - split.
    + intros H. right. split; [done|]. right. intros op Hin.
      by apply not_elem_of_nil in Hin.
    + intros [(_ & n & op & _ & Hn & _)|[H _]]; [done|done].
  - rewrite IH. unfold Job.assign. split.
    + intros [(Hp & n & op & -> & Hn & Hid & Hlast)|[Hm Hnone]].
      * left. split; [done|].
        exists (S n), op. split; [lia|]. split; [done|]. split; [done|].
        intros [|n'] op' Hn' Hid'; [lia|]. cbn in Hn'.
        specialize (Hlast n' op' Hn' Hid'). lia.
      * destruct (decide (id = "__proto__")) as [Hp|Hp].
        { right. split; [|by left]. case_decide; [done|].
          rewrite lookup_insert_ne in Hm; [done|congruence]. }
        destruct Hnone as [?|Hnone]; [done|].
        destruct (decide (Operation.id o = id)) as [E|Hne].
        -- rewrite decide_False in Hm by congruence.
           rewrite E, lookup_insert_eq in Hm. injection Hm as <-.
           left. split; [done|].
           exists 0%nat, o. split; [lia|]. split; [done|]. split; [done|].
           intros [|n'] op' Hn' Hid'; [lia|]. cbn in Hn'.
           exfalso. apply (Hnone op'); [|done].
           by eapply list_elem_of_lookup_2.
        -- right. split.
           ++ case_decide; [done|]. by rewrite lookup_insert_ne in Hm.
           ++ right. intros op [->|Hin]%elem_of_cons; [done|by apply Hnone].
    + intros [(Hp & n & op & -> & Hn & Hid & Hlast)|[Hm Hnone]].
      * destruct n as [|n].
        -- cbn in Hn. injection Hn as ->. right. split.
           ++ rewrite decide_False by congruence.
              rewrite Hid, lookup_insert_eq. f_equal. lia.
           ++ right. intros op' Hin Hid'.
              apply list_elem_of_lookup in Hin as [n' Hn'].
              specialize (Hlast (S n') op' Hn' Hid'). lia.
        -- left. split; [done|].
           exists n, op. split; [lia|]. split; [done|]. split; [done|].
           intros n' op' Hn' Hid'. specialize (Hlast (S n') op' Hn' Hid'). lia.
      * right. destruct Hnone as [Hp|Hnone].
        -- split; [|by left]. case_decide; [done|].
           rewrite lookup_insert_ne; [done|congruence].
        -- split.
           ++ case_decide; [done|].
              rewrite lookup_insert_ne; [done|]. apply Hnone. by left.
           ++ right. intros op Hin. apply Hnone. by right.
Qed.

(** The index of a job in a run: the properties are the ids other than
    [__proto__], each with the position of the last operation that has
    it. *)
Lemma index_run (name : string) (data : list Value) (p : Job.Params)
    (sched : list Job.Event) (s : Job.t) :
  Job.run sched (Job.start (Job.new name data p)) = Some s →
  input <$> Job.heap s
  = imap (λ index d, (Job.dataToId p d index, d)) data ∧
  ∀ id r, Job.operationIndex s !! id = Some r ↔
    ∃ op, Job.heap s !! r = Some op ∧ Operation.id op = id ∧
          id ≠ "__proto__" ∧
          ∀ r' op', Job.heap s !! r' = Some op' →
                    Operation.id op' = id → (r' ≤ r)%nat.
Proof.
  intros Hrun.
  assert (Hst : stable (Job.new name data p) s).
  { destruct (within_run sched _ s Hrun) as [(A1 & A2 & A3) _].
    assert (W : stable (Job.new name data p)
                  (Job.start (Job.new name data p))).
    { unfold Job.start. rewrite decide_False by done.
      set (j1 := Job.emit JOB_STARTED (Job.with_status STARTED _)).
      exact (proj1 (within_loop (length (Job.queuedOperations j1)) false j1)). }
    destruct W as (B1 & B2 & B3). repeat split; congruence. }
  destruct Hst as (_ & Hidx & Hin).
  set (ops := Job.heap (Job.new name data p)) in *.
  change (Job.operationIndex (Job.new name data p))
    with (Job.index_from 0 ops ∅) in Hidx.
  split.
  { rewrite Hin. unfold ops. cbn [Job.heap Job.new]. by rewrite fmap_imap. }
  assert (Hids : ∀ r, Operation.id <$> Job.heap s !! r
                      = Operation.id <$> ops !! r).
  { intros r. apply (f_equal (λ l, l.*1 !! r)) in Hin.
    by rewrite <- !list_fmap_compose, !list_lookup_fmap in Hin. }
  intros id r. rewrite Hidx, index_from_lookup. split.
  - intros [(Hp & n & op & -> & Hn & Hid & Hlast)|[Hm _]];
      [|by rewrite lookup_empty in Hm].
    pose proof (Hids n) as E. rewrite Hn in E.
    destruct (Job.heap s !! n) as [op1|] eqn:Hop1; [|done].
    cbn in E. injection E as E. exists op1. split; [done|].
    split; [congruence|]. split; [done|]. intros r' op' Hr' Hid'.
    pose proof (Hids r') as E'. rewrite Hr' in E'.
    destruct (ops !! r') as [op2|] eqn:Hop2; [|done].
    cbn in E'. injection E' as E'. apply (Hlast r' op2); congruence.
  - intros (op & Hop & Hid & Hp & Hlast). left. split; [done|].
    pose proof (Hids r) as E. rewrite Hop in E.
    destruct (ops !! r) as [op1|] eqn:Hop1; [|done].
    cbn in E. injection E as E. exists r, op1.
    split; [done|]. split; [done|]. split; [congruence|].
    intros r' op' Hr' Hid'.
    pose proof (Hids r') as E'. rewrite Hr' in E'.
    destruct (Job.heap s !! r') as [op2|] eqn:Hop2; [|done].
    cbn in E'. injection E' as E'. apply (Hlast r' op2); congruence.
Qed.

(** What [export()] lists in a run: for every id but [__proto__] the
    operation of the last element of the data with that id, once. *)
Lemma export_run (name : string) (data : list Value) (p : Job.Params)
    (sched : list Job.Event) (s : Job.t) :
  Job.run sched (Job.start (Job.new name data p)) = Some s →
  NoDup (Operation.export_id <$> Job.operations (Job.export s)) ∧
  ∀ e, e ∈ Job.operations (Job.export s) ↔
       ∃ r op, Job.heap s !! r = Some op ∧ e = Operation.export op ∧
               Operation.id op ≠ "__proto__" ∧
               ∀ r' op', Job.heap s !! r' = Some op' →
                         Operation.id op' = Operation.id op → (r' ≤ r)%nat.
Proof.
  intros Hrun. destruct (index_run name data p sched s Hrun) as [_ Hkey].
  unfold Job.export. cbn [Job.operations]. split.
  - assert (Hsub : Operation.export_id
               <$> omap (λ kv : string * nat,
                           Operation.export <$> Job.heap s !! kv.2)
                        (map_to_list (Job.operationIndex s))
             = (map_to_list (Job.operationIndex s)).*1).
    { assert (Hall : Forall (λ kv : string * nat,
                Job.operationIndex s !! kv.1 = Some kv.2)
                (map_to_list (Job.operationIndex s))).
      { apply Forall_forall. intros [id r] Hkv.
        by apply elem_of_map_to_list in Hkv. }
      induction Hall as [|[id r] l Hkv Hall IH]; [done|].
      cbn in Hkv. apply Hkey in Hkv as (op & Hop & Hid & _).
      cbn [omap list_omap snd]. rewrite Hop. cbn. by rewrite IH, Hid. }
    rewrite Hsub. apply NoDup_fst_map_to_list.
  - intros e. rewrite list_elem_of_omap. split.
    + intros ((id & r) & Hkv & He). cbn in He.
      apply elem_of_map_to_list, Hkey in Hkv as (op & Hop & Hid & Hp & Hlast).
      rewrite Hop in He. injection He as <-.
      exists r, op. split; [done|]. split; [done|].
      split; [congruence|].
      intros r' op' Hr' Hid'. apply (Hlast r' op'); congruence.
    + intros (r & op & Hop & -> & Hp & Hlast).
      exists (Operation.id op, r). split.
      * apply elem_of_map_to_list, Hkey. exists op. done.
      * cbn. by rewrite Hop.
Qed.

(** X2. In every run of a job whose data elements map to pairwise
    distinct ids, [export()] lists once, under its id and with its data,
    every element of the data whose id is not [__proto__], and nothing
    else. An element with the id [__proto__] is not listed: assigning it
    to the index gives the index a prototype and no property. *)
Theorem export_lists_every_input (name : string) (data : list Value)
    (p : Job.Params) (sched : list Job.Event) (s : Job.t) :
  NoDup (imap (λ index d, Job.dataToId p d index) data) →
  Job.run sched (Job.start (Job.new name data p)) = Some s →
  (λ e, (Operation.export_id e, Operation.export_data e))
    <$> Job.operations (Job.export s)
  ≡ₚ filter (λ x, x.1 ≠ "__proto__")
       (imap (λ index d, (Job.dataToId p d index, d)) data).
Proof.
  intros Hnd Hrun.
  destruct (index_run name data p sched s Hrun) as [Hin _].
  destruct (export_run name data p sched s Hrun) as [Hnd' Hel].
  assert (Hfst : (imap (λ index d, (Job.dataToId p d index, d)) data).*1
                 = imap (λ index d, Job.dataToId p d index) data)
    by (by rewrite fmap_imap).
  assert (Hids : NoDup (Operation.id <$> Job.heap s)).
  { assert (E : Operation.id <$> Job.heap s = (input <$> Job.heap s).*1)
      by (by rewrite <- list_fmap_compose).
    by rewrite E, Hin, Hfst. }
  apply NoDup_Permutation.
  - apply (NoDup_fmap_1 fst). rewrite <- list_fmap_compose. exact Hnd'.
  - apply NoDup_filter. apply (NoDup_fmap_1 fst). by rewrite Hfst.
  - intros [id d]. rewrite list_elem_of_fmap, list_elem_of_filter. cbn [fst].
    rewrite <- Hin, list_elem_of_fmap. split.
    + intros (e & He & Hine). apply Hel in Hine as (r & op & Hop & -> & Hp & _).
      cbn in He. injection He as -> ->. split; [done|].
      exists op. split; [done|]. by eapply list_elem_of_lookup_2.
    + intros (Hp & op & Hio & Hino). unfold input in Hio.
      injection Hio as -> ->.
      apply list_elem_of_lookup in Hino as [r Hop].
      exists (Operation.export op). split; [done|].
      apply Hel. exists r, op. split; [done|]. split; [done|].
      split; [done|]. intros r' op' Hop' Hid'.
      assert (r' = r) as ->; [|done].
      apply (NoDup_lookup _ r' r (Operation.id op) Hids);
        rewrite list_lookup_fmap; [rewrite Hop'; cbn; congruence | by rewrite Hop].
Qed.

Lemma export_lists_every_input_witness :
  (λ e, (Operation.export_id e, Operation.export_data e))
    <$> Job.operations
          (Job.export (Job.start (Job.new "ab" ["a"; "__proto__"; "b"]
                                    (Scenario.params 1 1 0))))
  ≡ₚ [("a", "a"); ("b", "b")].
Proof.
  apply (export_lists_every_input "ab" ["a"; "__proto__"; "b"]
           (Scenario.params 1 1 0) [] _);
    [apply (bool_decide_unpack _); vm_compute; exact I | reflexivity].
Defined.

(** X15. Whatever the ids, [export()] lists every id of the data but
    [__proto__] once: an id that several elements of the data share is
    listed with the operation of the last of them, and neither the
    operations of the others nor an operation with the id [__proto__]
    are listed. *)
Theorem export_lists_last_of_id (name : string) (data : list Value)
    (p : Job.Params) (sched : list Job.Event) (s : Job.t) :
  Job.run sched (Job.start (Job.new name data p)) = Some s →
  NoDup (Operation.export_id <$> Job.operations (Job.export s)) ∧
  ∀ e, e ∈ Job.operations (Job.export s) ↔
       ∃ r op, Job.heap s !! r = Some op ∧ e = Operation.export op ∧
               Operation.id op ≠ "__proto__" ∧
               ∀ r' op', Job.heap s !! r' = Some op' →
                         Operation.id op' = Operation.id op → (r' ≤ r)%nat.
Proof. apply export_run. Qed.

Lemma export_lists_last_of_id_witness :
  NoDup (Operation.export_id
           <$> Job.operations
                 (Job.export
                    (Job.start (Job.new "twice" ["a"; "a"]
                                  (Scenario.params 1 1 0))))).
Proof.
  apply (export_lists_last_of_id "twice" ["a"; "a"] (Scenario.params 1 1 0)
           [] _ eq_refl).
Defined.

(** ** The signals of a run *)

Lemma extends_refl (j : Job.t) : extends j j.
Proof.
  split; [done|]. split; [done|]. split; [by left|].
  exists []. by rewrite app_nil_r.
Qed.

Lemma extends_trans (j1 j2 j3 : Job.t) :
  extends j1 j2 → extends j2 j3 → extends j1 j3.
Proof.
  intros (A & An & As & l & Hl & Pl) (B & Bn & Bs & k & Hk & Pk).
  split; [congruence|]. split; [congruence|].
  split; [destruct As as [As|As], Bs as [Bs|Bs];
            [left|right|right|right]; congruence|].
  exists (l ++ k). rewrite Hk, Hl, app_assoc. split; [done|].
  apply Forall_app. split; [done|]. by rewrite <- A.
Qed.

Lemma extends_same (j j' : Job.t) :
  Job.cooldown j' = Job.cooldown j → Job.name j' = Job.name j →
  Job.status j' = Job.status j →
  Job.log j' = Job.log j → extends j j'.
Proof.
  intros A N B C. split; [done|]. split; [done|]. split; [by left|].
  exists []. by rewrite app_nil_r.
Qed.

Lemma extends_record (s : Job.Signal) (j : Job.t) :
  later_signal (Job.cooldown j) s → extends j (Job.record s j).
Proof.
  intros Hs. split; [done|]. split; [done|]. split; [by left|].
  exists [s]. split; [done|]. by constructor.
Qed.

Lemma extends_setTimeout (tm : Job.Timer) (j : Job.t) :
  (∀ d, tm = Job.TDispatch d → Job.cooldown j ≠ 0) →
  extends j (Job.setTimeout tm j).
Proof.
  intros Htm. unfold Job.setTimeout.
  eapply extends_trans; [|apply extends_record].
  - by apply extends_same.
  - split; [done|]. intros Hc. destruct tm as [d|r d]; [|done].
    by destruct (Htm d eq_refl).
Qed.

Lemma extends_loop (fuel : nat) (cooled : bool) (j : Job.t) :
  extends j (Job.startNextOperation_rec fuel cooled j).
Proof.
  revert cooled j. induction fuel as [|fuel IH]; intros cooled j;
    cbn [Job.startNextOperation_rec].
  all: destruct (bool_decide (Job.cooldown j ≠ 0) && negb cooled) eqn:Hcd;
    [apply extends_setTimeout; intros d _;
     apply andb_true_iff in Hcd as [Hcd _];
     by apply bool_decide_eq_true in Hcd|].
  all: destruct (Job.isFull j); [apply extends_refl|].
  all: destruct (Job.isComplete j);
    [destruct (decide (Job.status j = COMPLETED));
       [apply extends_refl|];
     eapply extends_trans; [|by apply extends_record];
     split; [done|]; split; [done|]; split; [by right|];
     exists []; by rewrite app_nil_r|].
  all: destruct (Job.queuedOperations j) as [|r rest]; [apply extends_refl|].
  all: destruct (Job.heap j !! r) as [op|]; [|apply extends_refl].
  all: assert (K : extends j (Job.dispatch r op (Job.with_queued rest j)))
    by (unfold Job.dispatch; eapply extends_trans;
        [|by apply extends_setTimeout]; by apply extends_same).
  - exact K.
  - eapply extends_trans; [exact K|apply IH].
Qed.

Lemma extends_complete (id : string) (final : bool) (j : Job.t) :
  extends j (Job.handleOperationComplete id final j).
Proof.
  unfold Job.handleOperationComplete.
  eapply extends_trans; [|apply extends_loop].
  apply extends_same; by destruct final.
Qed.

Lemma extends_listener (ev : OperationEvent) (ref : nat) (id : string)
    (j : Job.t) :
  extends j (Job.listener ev ref id j).
Proof.
  destruct ev; cbn [Job.listener].
  - by apply extends_record.
  - eapply extends_trans; [|apply extends_complete]. by apply extends_record.
  - eapply extends_trans;
      [by apply (extends_record (Job.JobOpEmit OPERATION_FAILED id))|].
    case_match; [|apply extends_refl].
    case_bool_decide; [|apply extends_complete].
    eapply extends_trans; [|apply extends_complete]. by apply extends_same.
Qed.

Lemma extends_callListeners (n : nat) (ev : OperationEvent) (ref : nat)
    (id : string) (j : Job.t) :
  extends j (Job.callListeners n ev ref id j).
Proof.
  revert j. induction n as [|n IH]; intros j; [apply extends_refl|].
  cbn [Job.callListeners]. eapply extends_trans; [|apply IH].
  unfold Job.callOnce. destruct (Job.heap j !! ref); [|apply extends_refl].
  eapply extends_trans; [|apply extends_listener]. by apply extends_same.
Qed.

Lemma extends_operationEmitAll (ref : nat) (evs : list OperationEvent)
    (j : Job.t) :
  extends j (Job.operationEmitAll ref evs j).
Proof.
  revert j. induction evs as [|ev evs IH]; intros j; [apply extends_refl|].
  unfold Job.operationEmitAll. cbn [foldl].
  eapply extends_trans; [|apply IH].
  unfold Job.operationEmit. destruct (Job.heap j !! ref); [|apply extends_refl].
  eapply extends_trans; [|apply extends_callListeners]. by apply extends_record.
Qed.

Lemma extends_step (e : Job.Event) (j j' : Job.t) :
  Job.step e j = Some j' → extends j j'.
Proof.
  destruct e as [k|ref o]; cbn [Job.step].
  - destruct (Job.timers j !! k) as [tm|]; [|done]. intros [= <-].
    apply (extends_trans _ (Job.with_timers (delete k (Job.timers j)) j));
      [by apply extends_same|].
    destruct tm as [d|r d]; cbn [Job.runTimer]; [apply extends_loop|].
    unfold Job.operationStart.
    match goal with |- extends ?x _ => destruct (Job.heap x !! r) end;
      [|apply extends_refl].
    destruct (Operation.start _) as [op' evs].
    eapply extends_trans; [|apply extends_operationEmitAll].
    by apply extends_same.
  - destruct (Job.heap j !! ref) as [op|] eqn:Hr; [|done].
    case_decide; [|done]. intros [= <-].
    unfold Job.operationSettle. rewrite Hr.
    destruct (Operation.settle o op) as [op' evs].
    eapply extends_trans; [|apply extends_operationEmitAll].
    by apply extends_same.
Qed.

Lemma extends_run (sched : list Job.Event) (j j' : Job.t) :
  Job.run sched j = Some j' → extends j j'.
Proof.
  revert j. induction sched as [|e sched IH]; intros j Hrun.
  - injection Hrun as <-. apply extends_refl.
  - cbn [Job.run] in Hrun.
    destruct (Job.step e j) as [j1|] eqn:Hstep; [|done].
    eapply extends_trans; [by eapply extends_step|by apply IH].
Qed.

(** X16. A job that is started once emits JOB_STARTED once, before any
    other signal and before it schedules anything; and without a
    cooldown it never defers its dispatcher. *)
Theorem started_once_and_first (name : string) (data : list Value)
    (p : Job.Params) (sched : list Job.Event) (s : Job.t) :
  Job.run sched (Job.start (Job.new name data p)) = Some s →
  ∃ l, Job.log s = Job.JobEmit JOB_STARTED :: l ∧
       (Job.JobEmit JOB_STARTED ∉ l) ∧
       (Job.p_cooldown p = 0 → cooldown_delays s = 0%nat).
Proof.
  intros Hrun.
  set (j0 := Job.new name data p) in *.
  set (j1 := Job.emit JOB_STARTED (Job.with_status STARTED j0)).
  assert (H1 : extends j1 (Job.start j0)).
  { unfold Job.start. rewrite decide_False by done. apply extends_loop. }
  pose proof (extends_trans _ _ _ H1 (extends_run sched _ s Hrun))
    as (_ & _ & _ & l & Hl & Pl).
  change (Job.log j1) with [Job.JobEmit JOB_STARTED] in Hl.
  change (Job.cooldown j1) with (Job.p_cooldown p) in Pl.
  exists l. split; [done|]. split.
  - intros Hin. rewrite Forall_forall in Pl.
    by destruct (Pl _ Hin) as [Hne _].
  - intros Hcd. unfold cooldown_delays. rewrite Hl.
    cbn [app List.filter isCooldown].
    clear Hl. induction Pl as [|x l [_ Hx] Pl IH]; [done|].
    cbn [List.filter]. by rewrite (Hx Hcd).
Qed.

Lemma started_once_and_first_witness :
  cooldown_delays Scenario.failed = 0%nat.
Proof.
  destruct (started_once_and_first "failing" ["a"] (Scenario.params 1 1 0)
              Scenario.failing_sched Scenario.failed eq_refl)
    as (l & _ & _ & H).
  apply H. reflexivity.
Defined.

(** A job that was started is STARTED or COMPLETED. *)
Lemma started_status (name : string) (data : list Value) (p : Job.Params)
    (sched : list Job.Event) (s : Job.t) :
  Job.run sched (Job.start (Job.new name data p)) = Some s →
  Job.status s = STARTED ∨ Job.status s = COMPLETED.
Proof.
  intros Hrun.
  set (j1 := Job.emit JOB_STARTED (Job.with_status STARTED (Job.new name data p))).
  assert (H1 : extends j1 (Job.start (Job.new name data p))).
  { unfold Job.start. rewrite decide_False by done. apply extends_loop. }
  pose proof (extends_trans _ _ _ H1 (extends_run sched _ s Hrun))
    as (_ & _ & Hs & _).
  destruct Hs as [Hs|Hs]; [left|right]; done.
Qed.

(** ** The lifetime of an operation *)

Lemma call_counts (op : Operation.t) (c : Operation.Call) :
  let inv op :=
    0 ≤ Operation.timesFailed op ∧
    Operation.timesFailed op + Z.of_nat (attempting op)
      ≤ Z.of_nat (Operation.executions op) ∧
    (Operation.status op = FAILED → 1 ≤ Operation.timesFailed op) in
  inv op →
  Operation.id (Operation.call op c) = Operation.id op ∧
  Operation.data (Operation.call op c) = Operation.data op ∧
  Operation.timesFailed op ≤ Operation.timesFailed (Operation.call op c) ∧
  inv (Operation.call op c).
Proof.
  unfold attempting. cbn zeta. intros (I1 & I2 & I3).
  destruct c as [|[v|e]];
    unfold Operation.call, Operation.start, Operation.settle;
    destruct (decide (Operation.status op = STARTED)) as [E|E];
    cbn [fst Operation.id Operation.data Operation.timesFailed
         Operation.executions Operation.status];
    rewrite ?decide_True in * by done;
    rewrite ?decide_False in * by done;
    repeat split; try done; try lia; auto.
Qed.

(** X17. Over the lifetime of an operation its id and its data stay
    those it was made with; [timesFailed] is never reset and counts
    attempts that have ended, so with the attempt in flight it does not
    exceed the number of times the transform was invoked; and an
    operation that is FAILED has failed at least once. *)
Theorem operation_counts_failed_attempts
    (id : string) (data : Value) (calls more : list Operation.Call) :
  let op := Operation.lifetime id data calls in
  Operation.id op = id ∧ Operation.data op = data ∧
  0 ≤ Operation.timesFailed op ∧
  Operation.timesFailed op + Z.of_nat (attempting op)
    ≤ Z.of_nat (Operation.executions op) ∧
  (Operation.status op = FAILED → 1 ≤ Operation.timesFailed op) ∧
  Operation.timesFailed op
    ≤ Operation.timesFailed (Operation.lifetime id data (calls ++ more)).
Proof.
  cbn zeta.
  assert (Hinv : ∀ calls,
    let op := Operation.lifetime id data calls in
    Operation.id op = id ∧ Operation.data op = data ∧
    0 ≤ Operation.timesFailed op ∧
    Operation.timesFailed op + Z.of_nat (attempting op)
      ≤ Z.of_nat (Operation.executions op) ∧
    (Operation.status op = FAILED → 1 ≤ Operation.timesFailed op)).
  { clear calls more. intros calls. cbn zeta. unfold Operation.lifetime.
    induction calls as [|c calls IH] using rev_ind; [by cbn|].
    rewrite foldl_app. cbn [foldl].
    destruct IH as (I1 & I2 & I3).
    destruct (call_counts _ c I3) as (C1 & C2 & _ & C4).
    split; [congruence|]. split; [congruence|]. exact C4. }
  destruct (Hinv calls) as (I1 & I2 & I3 & I4 & I5).
  repeat split; try done.
  induction more as [|c more IH] using rev_ind; [by rewrite app_nil_r|].
  rewrite app_assoc. unfold Operation.lifetime at 2.
  rewrite foldl_app. cbn [foldl].
  fold (Operation.lifetime id data (calls ++ more)).
  destruct (Hinv (calls ++ more)) as (_ & _ & J).
  destruct (call_counts _ c J) as (_ & _ & C3 & _). lia.
Qed.

(** ** The queue runs its jobs in turn *)

Ltac unfold_queue :=
  cbn [QueueJobs.store QueueJobs.queuedJobs QueueJobs.completedJobs
       QueueJobs.currentJob QueueJobs.jobIndex
       QueueJobs.persistCompletedJobsToDir QueueJobs.emitted
       QueueJobs.written
       QueueJobs.with_store QueueJobs.with_queued QueueJobs.with_completed
       QueueJobs.with_current QueueJobs.with_index QueueJobs.with_emitted
       QueueJobs.with_written QueueJobs.update
       QueueJobs.job QueueJobs.forwarders QueueJobs.completedListeners
       QueueJobs.promise QueueJobs.with_job QueueJobs.with_listeners
       QueueJobs.with_promise] in *.

Lemma same_entries_refl (s : list QueueJobs.Entry) :
  Forall2 (λ e e', QueueJobs.job e' = QueueJobs.job e ∧
                   handlers e' = handlers e) s s.
Proof. induction s; constructor; done. Qed.

Lemma same_books_refl (q : QueueJobs.t) : same_books q q.
Proof. repeat split. apply same_entries_refl. Qed.

Lemma same_books_fields (q q' : QueueJobs.t) :
  QueueJobs.queuedJobs q' = QueueJobs.queuedJobs q →
  QueueJobs.completedJobs q' = QueueJobs.completedJobs q →
  QueueJobs.currentJob q' = QueueJobs.currentJob q →
  QueueJobs.store q' = QueueJobs.store q →
  same_books q q'.
Proof. intros H1 H2 H3 H4. repeat split; try done. rewrite H4. apply same_entries_refl. Qed.

Lemma same_books_trans (q1 q2 q3 : QueueJobs.t) :
  same_books q1 q2 → same_books q2 q3 → same_books q1 q3.
Proof.
  intros (A1 & A2 & A3 & A4) (B1 & B2 & B3 & B4).
  split; [congruence|]. split; [congruence|]. split; [congruence|].
  eapply Forall2_trans; [|exact A4|exact B4].
  intros e1 e2 e3 [? ?] [? ?]. split; congruence.
Qed.

Lemma same_books_lookup (q q' : QueueJobs.t) (r : nat) (e' : QueueJobs.Entry) :
  same_books q q' → QueueJobs.store q' !! r = Some e' →
  ∃ e, QueueJobs.store q !! r = Some e ∧
       QueueJobs.job e' = QueueJobs.job e ∧ handlers e' = handlers e.
Proof.
  intros (_ & _ & _ & H) Hr.
  destruct (Forall2_lookup_r _ _ _ _ _ H Hr) as (e & He & E1 & E2). eauto.
Qed.

Lemma same_books_turning (k : nat) (q q' : QueueJobs.t) :
  same_books q q' → turning k q → turning k q'.
Proof.
  intros Hs [t_order t_queued t_current t_completed].
  pose proof Hs as (H1 & H2 & H3 & H4).
  split.
  - unfold turns. rewrite H1, H2, H3.
    rewrite <- (Forall2_length _ _ _ H4). exact t_order.
  - intros r e' Hin Hr. rewrite H1 in Hin.
    destruct (same_books_lookup q q' r e' Hs Hr) as (e & He & E1 & E2).
    rewrite E1, E2. by apply (t_queued r e).
  - intros r e' Hc Hr. rewrite H3 in Hc.
    destruct (same_books_lookup q q' r e' Hs Hr) as (e & He & E1 & E2).
    rewrite E1, E2. by apply (t_current r e).
  - intros r e' Hin Hr. rewrite H2 in Hin.
    destruct (same_books_lookup q q' r e' Hs Hr) as (e & He & E1 & E2).
    rewrite E1. by apply (t_completed r e).
Qed.

Lemma same_books_busy (q q' : QueueJobs.t) :
  same_books q q' → busy q → busy q'.
Proof. intros (H1 & _ & H3 & _). unfold busy. by rewrite H1, H3. Qed.

Lemma same_books_forward (ref : nat) (s : Job.Signal) (q : QueueJobs.t) :
  same_books q (QueueJobs.forward ref s q).
Proof.
  unfold QueueJobs.forward. destruct (QueueJobs.store q !! ref);
    by apply same_books_fields.
Qed.

Lemma same_books_export (ref : nat) (q : QueueJobs.t) :
  same_books q (QueueJobs.exportJobIfNeeded ref q).
Proof.
  unfold QueueJobs.exportJobIfNeeded.
  destruct (QueueJobs.store q !! ref); [|apply same_books_refl].
  destruct (Queue.hasDir _); by apply same_books_fields.
Qed.

(** An entry is changed, its job and its handlers are kept. *)
Lemma same_books_update (ref : nat) (f : QueueJobs.Entry → QueueJobs.Entry)
    (q : QueueJobs.t) :
  (∀ e, QueueJobs.job (f e) = QueueJobs.job e ∧ handlers (f e) = handlers e) →
  same_books q (QueueJobs.update ref f q).
Proof.
  intros Hf. repeat split. unfold_queue.
  generalize (QueueJobs.store q). intros s. revert ref.
  induction s as [|e s IH]; intros [|ref]; cbn; constructor;
    auto using same_entries_refl.
Qed.

Lemma handlers_removeFirst (e : QueueJobs.Entry) (n : nat) :
  handlers (QueueJobs.with_listeners n
              (QueueJobs.removeFirst QueueJobs.OnceQueued
                 (QueueJobs.completedListeners e)) e)
  = handlers e.
Proof.
  unfold handlers. unfold_queue.
  induction (QueueJobs.completedListeners e) as [|l ls IH]; [done|].
  cbn [QueueJobs.removeFirst]. case_decide as E.
  - subst l. by rewrite filter_cons_False.
  - rewrite !filter_cons. case_decide; cbn; by rewrite IH.
Qed.

Lemma same_books_listener (next : QueueJobs.t → QueueJobs.t) (ref : nat)
    (l : QueueJobs.Listener) (q : QueueJobs.t) :
  l ≠ QueueJobs.OnCompleted →
  same_books q (QueueJobs.callListener next ref l q).
Proof.
  intros Hl. destruct l; [done| |]; cbn [QueueJobs.callListener].
  - apply same_books_forward.
  - eapply same_books_trans; [|apply same_books_export].
    apply same_books_update. intros e. split; [done|].
    apply (handlers_removeFirst e).
Qed.

Lemma same_books_iter (n : nat) (ref : nat) (s : Job.Signal)
    (q : QueueJobs.t) :
  same_books q (Nat.iter n (QueueJobs.forward ref s) q).
Proof.
  induction n as [|n IH]; [apply same_books_refl|]. cbn [Nat.iter].
  eapply same_books_trans; [exact IH|apply same_books_forward].
Qed.

Lemma same_books_deliver (next : QueueJobs.t → QueueJobs.t) (ref : nat)
    (s : Job.Signal) (q : QueueJobs.t) :
  s ≠ Job.JobEmit JOB_COMPLETED →
  same_books q (QueueJobs.deliver next ref s q).
Proof.
  intros Hs. unfold QueueJobs.deliver.
  destruct (QueueJobs.store q !! ref) as [e|]; [|apply same_books_refl].
  destruct s as [| [|] | |]; try done;
    try apply same_books_refl; apply same_books_iter.
Qed.

Lemma same_books_deliver_all (next : QueueJobs.t → QueueJobs.t) (ref : nat)
    (l : list Job.Signal) (q : QueueJobs.t) :
  Job.JobEmit JOB_COMPLETED ∉ l →
  same_books q (foldl (λ q s, QueueJobs.deliver next ref s q) q l).
Proof.
  revert q. induction l as [|s l IH]; intros q Hl; [apply same_books_refl|].
  cbn [foldl]. eapply same_books_trans.
  - apply (same_books_deliver next ref s). intros ->. apply Hl. by left.
  - apply IH. intros Hin. apply Hl. by right.
Qed.

Lemma same_books_listeners (next : QueueJobs.t → QueueJobs.t) (ref : nat)
    (ls : list QueueJobs.Listener) (q : QueueJobs.t) :
  QueueJobs.OnCompleted ∉ ls →
  same_books q (foldl (λ q l, QueueJobs.callListener next ref l q) q ls).
Proof.
  revert q. induction ls as [|l ls IH]; intros q Hl; [apply same_books_refl|].
  cbn [foldl]. eapply same_books_trans.
  - apply (same_books_listener next ref l). intros ->. apply Hl. by left.
  - apply IH. intros Hin. apply Hl. by right.
Qed.

Lemma filter_eq_none {A} `{EqDecision A} (x : A) (l : list A) :
  length (filter (λ y, y = x) l) = 0%nat → x ∉ l.
Proof.
  intros H Hin. apply length_zero_iff_nil in H.
  assert (x ∈ filter (λ y, y = x) l) as Hx by (by apply list_elem_of_filter).
  rewrite H in Hx. by apply not_elem_of_nil in Hx.
Qed.

Lemma filter_eq_one {A} `{EqDecision A} (x : A) (l : list A) :
  length (filter (λ y, y = x) l) = 1%nat →
  ∃ l1 l2, l = l1 ++ x :: l2 ∧ (x ∉ l1) ∧ (x ∉ l2).
Proof.
  induction l as [|y l IH]; [done|]. rewrite filter_cons.
  case_decide as E.
  - subst y. cbn [length]. intros [= H]. exists [], l.
    split; [done|]. split; [apply not_elem_of_nil|by apply filter_eq_none].
  - intros H. destruct (IH H) as (l1 & l2 & -> & H1 & H2).
    exists (y :: l1), l2. split; [done|]. split; [|done].
    intros [?|?]%elem_of_cons; [by subst|done].
Qed.

(** *** What the queue needs of its jobs *)

Lemma begun_safe (j : Job.t) : begun j → safe j.
Proof.
  intros (name & data & p & sched & Hmax & Hrun).
  destruct (within_start name data p Hmax) as [_ Hsafe].
  destruct (within_run sched _ j Hrun) as [_ W]. by apply W.
Qed.

Lemma run_snoc (sched : list Job.Event) (e : Job.Event) (j j1 j2 : Job.t) :
  Job.run sched j = Some j1 → Job.step e j1 = Some j2 →
  Job.run (sched ++ [e]) j = Some j2.
Proof.
  revert j. induction sched as [|e' sched IH]; intros j Hrun Hstep.
  - injection Hrun as ->. cbn. by rewrite Hstep.
  - cbn [Job.run app] in *. destruct (Job.step e' j); [|done]. by apply IH.
Qed.

Lemma begun_step (e : Job.Event) (j j' : Job.t) :
  begun j → Job.step e j = Some j' → begun j'.
Proof.
  intros (name & data & p & sched & Hmax & Hrun) Hstep.
  exists name, data, p, (sched ++ [e]). split; [done|].
  by eapply run_snoc.
Qed.

Lemma fresh_begun (j : Job.t) : fresh j → begun (Job.start j).
Proof.
  intros (name & data & p & Hmax & ->). by exists name, data, p, [].
Qed.

Lemma fresh_no_step (e : Job.Event) (j : Job.t) :
  fresh j → Job.step e j = None.
Proof.
  intros (name & data & p & Hmax & ->). destruct e as [k|r o]; [done|].
  cbn [Job.step]. unfold Job.new. unfold_job.
  rewrite list_lookup_imap. destruct (data !! r); [|done]. done.
Qed.

Lemma completions_app (j j' : Job.t) (l : list Job.Signal) :
  Job.log j' = Job.log j ++ l →
  completions j'
  = (completions j
     + length (filter (λ s, s = Job.JobEmit JOB_COMPLETED) l))%nat.
Proof.
  intros Hl. unfold completions, Job.count_signal.
  by rewrite Hl, filter_app, length_app.
Qed.

Lemma begun_completions (j : Job.t) : begun j → (completions j ≤ 1)%nat.
Proof.
  intros (_ & H & _)%begun_safe. rewrite H. case_decide; lia.
Qed.

(** *** The listeners of JOB_COMPLETED and [startNextJob] *)

Lemma turns_lookup (k : nat) (q : QueueJobs.t) (r : nat) :
  turning k q → Some r ∈ turns q → is_Some (QueueJobs.store q !! r).
Proof.
  intros Ht Hin. rewrite (t_order k q Ht) in Hin.
  apply list_elem_of_fmap in Hin as (r' & [= <-] & Hr%elem_of_seq).
  apply lookup_lt_is_Some. lia.
Qed.

Lemma turns_NoDup (k : nat) (q : QueueJobs.t) : turning k q → NoDup (turns q).
Proof.
  intros Ht. rewrite (t_order k q Ht). apply (NoDup_fmap_2 _), NoDup_seq.
Qed.

(** The job that runs has emitted JOB_COMPLETED: its listeners are
    called. *)
Lemma completed_turn (n : nat) (next : QueueJobs.t → QueueJobs.t)
    (ref : nat) (e : QueueJobs.Entry) (q : QueueJobs.t) :
  next_ok n next →
  QueueJobs.currentJob q = Some ref →
  QueueJobs.store q !! ref = Some e →
  turning 1 q → (length (QueueJobs.queuedJobs q) ≤ n)%nat →
  let q' := foldl (λ q l, QueueJobs.callListener next ref l q) q
              (QueueJobs.completedListeners e) in
  turning 0 q' ∧ busy q'.
Proof.
  intros Hnext Hc He Ht Hn. cbn zeta.
  destruct (t_current 1 q Ht ref e Hc He) as (_ & _ & Hh).
  destruct (filter_eq_one _ _ Hh) as (l1 & l2 & -> & H1 & H2).
  rewrite foldl_app. cbn [foldl].
  set (qa := foldl _ q l1).
  assert (Sa : same_books q qa) by (by apply same_books_listeners).
  pose proof (same_books_turning 1 q qa Sa Ht) as Hta.
  destruct Sa as (A1 & A2 & A3 & A4).
  cbn [QueueJobs.callListener]. unfold QueueJobs.handleJobComplete.
  set (qb := QueueJobs.with_current None _).
  assert (Htb : turning 0 qb).
  { destruct Hta as [t_order t_queued t_current t_completed]. split.
    - change (QueueJobs.store qb) with (QueueJobs.store qa).
      rewrite <- t_order. unfold turns, qb. unfold_queue.
      rewrite A3, Hc. by rewrite <- !app_assoc.
    - exact t_queued.
    - intros r e' Hr. done.
    - intros r e' Hin Hr. unfold qb in Hin. unfold_queue.
      apply elem_of_app in Hin as [Hin|Hin]; [by apply (t_completed r e')|].
      apply list_elem_of_singleton in Hin. rewrite A3, Hc in Hin.
      injection Hin as ->.
      destruct (t_current ref e') as (B1 & B2 & _); [congruence|done|done]. }
  destruct (Hnext qb Htb) as [Htc Hbc];
    [unfold qb; unfold_queue; by rewrite A1|].
  set (qc := next qb) in *.
  assert (Sc : same_books qc
                 (foldl (λ q l, QueueJobs.callListener next ref l q) qc l2))
    by (by apply same_books_listeners).
  split; [by eapply same_books_turning|by eapply same_books_busy].
Qed.

(** A callback of the job that runs has returned: the listeners are
    called for the signals it has emitted. *)
Lemma deliver_turn (n k : nat) (next : QueueJobs.t → QueueJobs.t)
    (ref : nat) (l : list Job.Signal) (q : QueueJobs.t) :
  next_ok n next →
  QueueJobs.currentJob q = Some ref →
  turning k q →
  length (filter (λ s, s = Job.JobEmit JOB_COMPLETED) l) = k →
  (k ≤ 1)%nat →
  (length (QueueJobs.queuedJobs q) ≤ n)%nat →
  let q' := foldl (λ q s, QueueJobs.deliver next ref s q) q l in
  turning 0 q' ∧ busy q'.
Proof.
  intros Hnext Hc Ht Hl Hk Hn. cbn zeta.
  destruct k as [|[|k]]; [| |lia].
  - assert (S : same_books q
                  (foldl (λ q s, QueueJobs.deliver next ref s q) q l))
      by (by apply same_books_deliver_all, filter_eq_none).
    split; [by eapply same_books_turning|].
    eapply same_books_busy; [exact S|]. intros E. congruence.
  - destruct (filter_eq_one _ _ Hl) as (l1 & l2 & -> & H1 & H2).
    rewrite foldl_app. cbn [foldl].
    set (qa := foldl _ q l1).
    assert (Sa : same_books q qa) by (by apply same_books_deliver_all).
    pose proof (same_books_turning 1 q qa Sa Ht) as Hta.
    pose proof Sa as (A1 & A2 & A3 & A4).
    destruct (turns_lookup 1 qa ref Hta) as [e He].
    { unfold turns. rewrite A3, Hc. apply elem_of_app. right.
      apply elem_of_app. left. by left. }
    assert (E : QueueJobs.deliver next ref (Job.JobEmit JOB_COMPLETED) qa
                = foldl (λ q l, QueueJobs.callListener next ref l q) qa
                    (QueueJobs.completedListeners e))
      by (unfold QueueJobs.deliver; by rewrite He).
    rewrite E.
    destruct (completed_turn n next ref e qa) as [Htc Hbc];
      [done|congruence|done|done|by rewrite A1|].
    set (qc := foldl _ qa (QueueJobs.completedListeners e)) in *.
    assert (Sc : same_books qc
                   (foldl (λ q s, QueueJobs.deliver next ref s q) qc l2))
      by (by apply same_books_deliver_all).
    split; [by eapply same_books_turning|by eapply same_books_busy].
Qed.

(** The job at the head of the backlog becomes the one that runs, with
    one more listener that calls [handleJobComplete], and is started. *)
Lemma start_turn (ref : nat) (rest : list nat) (e e4 : QueueJobs.Entry)
    (q q4 : QueueJobs.t) :
  turning 0 q →
  QueueJobs.currentJob q = None →
  QueueJobs.queuedJobs q = ref :: rest →
  QueueJobs.store q !! ref = Some e →
  QueueJobs.queuedJobs q4 = rest →
  QueueJobs.completedJobs q4 = QueueJobs.completedJobs q →
  QueueJobs.currentJob q4 = Some ref →
  length (QueueJobs.store q4) = length (QueueJobs.store q) →
  QueueJobs.store q4 !! ref = Some e4 →
  (∀ r, r ≠ ref → QueueJobs.store q4 !! r = QueueJobs.store q !! r) →
  QueueJobs.job e4 = Job.start (QueueJobs.job e) →
  handlers e4 = S (handlers e) →
  turning (completions (QueueJobs.job e4)) q4.
Proof.
  intros Ht Hc Hq He Hq4 Hco4 Hc4 Hlen He4 Hother Hjob Hh.
  pose proof (turns_NoDup 0 q Ht) as Hnd.
  unfold turns in Hnd. rewrite Hc, Hq in Hnd. cbn [app fmap list_fmap] in Hnd.
  apply NoDup_app in Hnd as (Hnd1 & Hdis & Hnd2).
  apply NoDup_cons in Hnd2 as [Hnotin _].
  destruct Ht as [t_order t_queued t_current t_completed].
  destruct (t_queued ref e) as [Hfresh Hh0]; [rewrite Hq; by left|done|].
  split.
  - rewrite Hlen, <- t_order. unfold turns. by rewrite Hq4, Hco4, Hc4, Hc, Hq.
  - intros r e' Hin Hr. rewrite Hq4 in Hin.
    assert (r ≠ ref)
      by (intros ->; apply Hnotin; by apply list_elem_of_fmap_2).
    rewrite Hother in Hr by done. apply (t_queued r e'); [|done].
    rewrite Hq. by right.
  - intros r e' Hr He'. rewrite Hc4 in Hr. injection Hr as <-.
    rewrite He4 in He'. injection He' as <-.
    split; [rewrite Hjob; by apply fresh_begun|]. split; [done|].
    by rewrite Hh, Hh0.
  - intros r e' Hin Hr. rewrite Hco4 in Hin.
    assert (r ≠ ref) by (intros ->; apply (Hdis _ Hin); by left).
    rewrite Hother in Hr by done. by apply (t_completed r e').
Qed.

Lemma handlers_snoc (e : QueueJobs.Entry) (n : nat) (l : QueueJobs.Listener) :
  handlers (QueueJobs.with_listeners n (QueueJobs.completedListeners e ++ [l]) e)
  = (handlers e + if decide (l = QueueJobs.OnCompleted) then 1 else 0)%nat.
Proof.
  unfold handlers. unfold_queue. rewrite filter_app, length_app.
  rewrite filter_cons, filter_nil. by case_decide.
Qed.

(** [startNextJob] puts the books in order and leaves no job waiting
    while none runs. *)
Lemma startNextJob_rec_turn (fuel : nat) (q : QueueJobs.t) :
  turning 0 q → (length (QueueJobs.queuedJobs q) < fuel)%nat →
  turning 0 (QueueJobs.startNextJob_rec fuel q) ∧
  busy (QueueJobs.startNextJob_rec fuel q).
Proof.
  revert q. induction fuel as [|fuel IH]; intros q Ht Hfuel; [lia|].
  cbn [QueueJobs.startNextJob_rec].
  destruct (negb (QueueJobs.isRunning q) && QueueJobs.isPending q) eqn:Hgo.
  2: { split; [done|]. intros Hc.
       unfold QueueJobs.isRunning, QueueJobs.isPending in Hgo.
       rewrite Hc, bool_decide_false in Hgo by (by intros [? ?]).
       cbn in Hgo. destruct (QueueJobs.queuedJobs q); [done|done]. }
  apply andb_true_iff in Hgo as [Hrun _].
  assert (Hc : QueueJobs.currentJob q = None).
  { unfold QueueJobs.isRunning in Hrun.
    destruct (QueueJobs.currentJob q); [|done].
    by rewrite bool_decide_true in Hrun by eauto. }
  destruct (QueueJobs.queuedJobs q) as [|ref rest] eqn:Hq.
  { split; [done|]. by intros _. }
  destruct (turns_lookup 0 q ref Ht) as [e He].
  { unfold turns. rewrite Hc, Hq. apply elem_of_app. right. cbn. by left. }
  set (f1 := λ e0, QueueJobs.with_listeners (QueueJobs.forwarders e0)
                     (QueueJobs.completedListeners e0
                        ++ [QueueJobs.OnCompleted]) e0).
  set (f2 := λ e0, QueueJobs.with_listeners (S (QueueJobs.forwarders e0))
                     (QueueJobs.completedListeners e0
                        ++ [QueueJobs.Forwarder]) e0).
  set (q3 := QueueJobs.update ref f2 (QueueJobs.update ref f1 _)).
  assert (He3 : QueueJobs.store q3 !! ref = Some (f2 (f1 e))).
  { unfold q3. unfold_queue. by rewrite !list_lookup_alter_eq, He. }
  unfold QueueJobs.jobStart. rewrite He3.
  unfold QueueJobs.deliverAll.
  destruct (t_queued 0 q Ht ref e) as [Hfresh Hh0];
    [rewrite Hq; by left|done|].
  change (QueueJobs.job (f2 (f1 e))) with (QueueJobs.job e).
  assert (Hlog : Job.log (QueueJobs.job e) = []).
  { by destruct Hfresh as (name & data & p & _ & ->). }
  rewrite Hlog. cbn [length drop].
  set (j' := Job.start (QueueJobs.job e)).
  set (q4 := QueueJobs.update ref (QueueJobs.with_job j') q3).
  assert (Ht4 : turning (completions j') q4).
  { apply (start_turn ref rest e (QueueJobs.with_job j' (f2 (f1 e))) q q4);
      try done.
    - unfold q4, q3. unfold_queue. by rewrite !length_alter.
    - unfold q4. unfold_queue. by rewrite list_lookup_alter_eq, He3.
    - intros r Hr. unfold q4, q3. unfold_queue.
      by rewrite !list_lookup_alter_ne by done.
    - change (handlers (QueueJobs.with_job j' (f2 (f1 e))))
        with (handlers (f2 (f1 e))).
      unfold f2. rewrite handlers_snoc. unfold f1 at 1.
      rewrite handlers_snoc. rewrite decide_True, decide_False by done. lia. }
  apply (deliver_turn (length rest) (completions j')); try done.
  - intros q' Ht' Hn'. apply IH; [done|]. cbn [length] in Hfuel. lia.
  - apply begun_completions. by apply fresh_begun.
Qed.

Lemma startNextJob_turn (q : QueueJobs.t) :
  turning 0 q →
  turning 0 (QueueJobs.startNextJob q) ∧ busy (QueueJobs.startNextJob q).
Proof. intros Ht. apply startNextJob_rec_turn; [done|lia]. Qed.

(** A callback of a job that was started has led it to [j']. *)
Lemma job_turn (k k' : nat) (ref : nat) (entry : QueueJobs.Entry)
    (j' : Job.t) (q : QueueJobs.t) :
  turning k q →
  QueueJobs.store q !! ref = Some entry →
  begun j' →
  ref ∉ QueueJobs.queuedJobs q →
  (QueueJobs.currentJob q = Some ref → completions j' = k') →
  (QueueJobs.currentJob q ≠ Some ref → completions j' = 1%nat ∧ k' = k) →
  turning k' (QueueJobs.update ref (QueueJobs.with_job j') q).
Proof.
  intros [t_order t_queued t_current t_completed] He Hb Hnq Hcur Hdone.
  set (q' := QueueJobs.update ref (QueueJobs.with_job j') q).
  assert (Hlook : ∀ r e', QueueJobs.store q' !! r = Some e' →
            (r = ref ∧ e' = QueueJobs.with_job j' entry) ∨
            (r ≠ ref ∧ QueueJobs.store q !! r = Some e')).
  { intros r e' Hr. unfold q' in Hr. unfold_queue.
    destruct (decide (r = ref)) as [->|Hne].
    - rewrite list_lookup_alter_eq, He in Hr. injection Hr as <-. by left.
    - rewrite list_lookup_alter_ne in Hr by done. by right. }
  split.
  - unfold q'. unfold_queue. rewrite length_alter. exact t_order.
  - intros r e' Hin Hr. destruct (Hlook r e' Hr) as [[-> _]|[_ Hr']];
      [done|by apply (t_queued r e')].
  - intros r e' Hc Hr. destruct (Hlook r e' Hr) as [[-> ->]|[Hne Hr']].
    + destruct (t_current ref entry Hc He) as (_ & _ & Hh).
      split; [done|]. split; [by apply Hcur|done].
    + destruct (t_current r e' Hc Hr') as (B1 & B2 & B3).
      split; [done|]. split; [|done].
      change (QueueJobs.currentJob q') with (QueueJobs.currentJob q) in Hc.
      destruct Hdone as [_ ->]; [congruence|done].
  - intros r e' Hin Hr. destruct (Hlook r e' Hr) as [[-> ->]|[Hne Hr']];
      [|by apply (t_completed r e')].
    split; [done|]. apply Hdone. intros Hc.
    assert (Hnd : NoDup (turns q))
      by (rewrite t_order; apply (NoDup_fmap_2 _), NoDup_seq).
    unfold turns in Hnd. rewrite Hc in Hnd.
    apply NoDup_app in Hnd as (_ & Hdis & _).
    apply (Hdis _ Hin). apply elem_of_app. left. by left.
Qed.

Lemma seq_snoc (n : nat) :
  Some <$> seq 0 (S n) = (Some <$> seq 0 n) ++ [Some n].
Proof. by rewrite seq_S, fmap_app. Qed.

(** One thing happens to the queue. *)
Lemma step_turn (ev : QueueJobs.Event) (q q' : QueueJobs.t) :
  sound [ev] → turning 0 q → busy q → QueueJobs.step ev q = Some q' →
  turning 0 q' ∧ busy q'.
Proof.
  intros Hsound Ht Hbusy Hstep.
  destruct ev as [name data p|ref e]; cbn [QueueJobs.step] in Hstep.
  - injection Hstep as <-. unfold sound in Hsound.
    rewrite Forall_singleton in Hsound.
    unfold QueueJobs.queueJob.
    set (ref := length (QueueJobs.store q)).
    set (entry := {| QueueJobs.job := Job.new name data p |}).
    set (q1 := QueueJobs.with_index _ _).
    assert (Ht1 : turning 0 q1).
    { pose proof Ht as [t_order t_queued t_current t_completed].
      assert (Hold : ∀ r e', is_Some (QueueJobs.store q !! r) →
                QueueJobs.store q1 !! r = Some e' →
                QueueJobs.store q !! r = Some e').
      { intros r e' Hv Hr. unfold q1 in Hr. unfold_queue.
        rewrite lookup_app_l in Hr; [done|]. by apply lookup_lt_is_Some. }
      split.
      - unfold turns, q1. unfold_queue. rewrite length_app. cbn [length].
        rewrite Nat.add_1_r, seq_snoc, <- t_order. unfold turns.
        by rewrite fmap_app, !app_assoc.
      - intros r e' Hin Hr. unfold q1 in Hin. unfold_queue.
        apply elem_of_app in Hin as [Hin|Hin].
        + apply (t_queued r e' Hin). apply Hold; [|done].
          apply (turns_lookup 0 q r Ht). unfold turns.
          apply elem_of_app. right. apply elem_of_app. right.
          by apply list_elem_of_fmap_2.
        + apply list_elem_of_singleton in Hin as ->.
          unfold q1 in Hr. unfold_queue.
          rewrite lookup_app_r, Nat.sub_diag in Hr by done.
          injection Hr as <-.
          split; [exists name, data, p; split; [exact Hsound|reflexivity]
                 |reflexivity].
      - intros r e' Hc Hr. apply (t_current r e' Hc). apply Hold; [|done].
        apply (turns_lookup 0 q r Ht). unfold turns.
        change (QueueJobs.currentJob q1) with (QueueJobs.currentJob q) in Hc.
        rewrite Hc. apply elem_of_app. right. by left.
      - intros r e' Hin Hr. apply (t_completed r e' Hin). apply Hold; [|done].
        apply (turns_lookup 0 q r Ht). unfold turns.
        apply elem_of_app. by left. }
    destruct (startNextJob_turn q1 Ht1) as [Ht2 Hb2].
    set (q2 := QueueJobs.startNextJob q1) in *.
    assert (S : same_books q2
                  (QueueJobs.update ref
                     (λ e, QueueJobs.with_listeners (QueueJobs.forwarders e)
                             (QueueJobs.completedListeners e
                                ++ [QueueJobs.OnceQueued]) e) q2)).
    { apply same_books_update. intros e. split; [done|].
      rewrite handlers_snoc, decide_False by done. lia. }
    split; [by eapply same_books_turning|by eapply same_books_busy].
  - destruct (QueueJobs.store q !! ref) as [entry|] eqn:He; [|done].
    destruct (Job.step e (QueueJobs.job entry)) as [j'|] eqn:Hj; [|done].
    injection Hstep as <-.
    assert (Hnq : ref ∉ QueueJobs.queuedJobs q).
    { intros Hin. destruct (t_queued 0 q Ht ref entry Hin He) as [Hf _].
      by rewrite (fresh_no_step e _ Hf) in Hj. }
    assert (Hin : Some ref ∈ turns q).
    { rewrite (t_order 0 q Ht). apply list_elem_of_fmap_2, elem_of_seq.
      apply lookup_lt_Some in He. lia. }
    destruct (extends_step e _ j' Hj) as (_ & _ & _ & l & Hl & _).
    pose proof (completions_app _ _ l Hl) as Hcount.
    unfold QueueJobs.deliverAll. rewrite Hl, drop_app_length.
    destruct (decide (QueueJobs.currentJob q = Some ref)) as [Hc|Hc].
    + destruct (t_current 0 q Ht ref entry Hc He) as (Hb & Hk & _).
      pose proof (begun_step e _ j' Hb Hj) as Hb'.
      apply (deliver_turn (length (QueueJobs.queuedJobs q)) (completions j'));
        try done.
      * intros q0 Ht0 _. by apply startNextJob_turn.
      * apply (job_turn 0 _ ref entry); try done.
      * lia.
      * by apply begun_completions.
    + assert (Hdone : Some ref ∈ QueueJobs.completedJobs q).
      { unfold turns in Hin. apply elem_of_app in Hin as [?|Hin]; [done|].
        apply elem_of_app in Hin as [Hin|Hin].
        - destruct (QueueJobs.currentJob q) as [r|]; [|by apply not_elem_of_nil in Hin].
          apply list_elem_of_singleton in Hin. congruence.
        - apply list_elem_of_fmap in Hin as (r & [= <-] & Hin). done. }
      destruct (t_completed 0 q Ht ref entry Hdone He) as (Hb & Hk).
      pose proof (begun_step e _ j' Hb Hj) as Hb'.
      pose proof (begun_completions j' Hb') as Hle.
      set (q1 := QueueJobs.update ref (QueueJobs.with_job j') q).
      assert (Ht1 : turning 0 q1) by (apply (job_turn 0 _ ref entry); try done; lia).
      assert (S : same_books q1
                    (foldl (λ q s, QueueJobs.deliver QueueJobs.startNextJob ref s q)
                           q1 l)).
      { apply same_books_deliver_all, filter_eq_none. lia. }
      split; [by eapply same_books_turning|].
      eapply same_books_busy; [exact S|]. exact Hbusy.
Qed.

Lemma run_turn (evs : list QueueJobs.Event) (q q' : QueueJobs.t) :
  sound evs → turning 0 q → busy q → QueueJobs.run evs q = Some q' →
  turning 0 q' ∧ busy q'.
Proof.
  revert q. induction evs as [|ev evs IH]; intros q Hs Ht Hb Hrun.
  - by injection Hrun as <-.
  - cbn [QueueJobs.run] in Hrun.
    destruct (QueueJobs.step ev q) as [q1|] eqn:Hstep; [|done].
    apply Forall_cons in Hs as [Hev Hs].
    destruct (step_turn ev q q1) as [Ht1 Hb1]; try done.
    { unfold sound. by rewrite Forall_singleton. }
    by apply (IH q1).
Qed.

Lemma turning_new (dir : option string) :
  turning 0 (QueueJobs.new dir) ∧ busy (QueueJobs.new dir).
Proof.
  split; [|done]. split; try done;
    intros r e Hin; by apply not_elem_of_nil in Hin.
Qed.

Lemma begun_status (j : Job.t) :
  begun j →
  Job.status j = (if decide (completions j = 0%nat) then STARTED else COMPLETED).
Proof.
  intros Hb. pose proof (begun_safe j Hb) as (_ & Hc & _).
  destruct Hb as (name & data & p & sched & _ & Hrun).
  destruct (started_status name data p sched j Hrun) as [Hs|Hs];
    rewrite Hs in Hc |- *; rewrite Hc; repeat case_decide; done.
Qed.

(** X18. A queue runs its jobs one at a time, in the order in which they
    were queued: the jobs it has seen complete, the job that runs and
    the jobs that wait are, in this order, the jobs in the order of
    [queueJob]. The jobs that wait were not started; the job that runs
    is STARTED and has not emitted JOB_COMPLETED; the others are
    COMPLETED. And no job waits while none runs. This holds whatever
    happens in the jobs, for jobs whose limit is not negative. *)
Theorem queue_runs_jobs_in_turn (dir : option string)
    (evs : list QueueJobs.Event) (q : QueueJobs.t) :
  sound evs →
  QueueJobs.run evs (QueueJobs.new dir) = Some q →
  turns q = Some <$> seq 0 (length (QueueJobs.store q)) ∧
  (QueueJobs.currentJob q = None → QueueJobs.queuedJobs q = []) ∧
  (∀ r e, r ∈ QueueJobs.queuedJobs q → QueueJobs.store q !! r = Some e →
     Job.status (QueueJobs.job e) = PENDING ∧
     Job.log (QueueJobs.job e) = []) ∧
  (∀ r e, QueueJobs.currentJob q = Some r →
     QueueJobs.store q !! r = Some e →
     Job.status (QueueJobs.job e) = STARTED ∧
     completions (QueueJobs.job e) = 0%nat) ∧
  (∀ r e, Some r ∈ QueueJobs.completedJobs q →
     QueueJobs.store q !! r = Some e →
     Job.status (QueueJobs.job e) = COMPLETED ∧
     completions (QueueJobs.job e) = 1%nat).
Proof.
  intros Hsound Hrun.
  destruct (turning_new dir) as [Ht0 Hb0].
  destruct (run_turn evs _ q Hsound Ht0 Hb0 Hrun) as [Ht Hb].
  split; [apply Ht|]. split; [exact Hb|]. split; [|split].
  - intros r e Hin He.
    destruct (t_queued 0 q Ht r e Hin He) as [(name & data & p & _ & ->) _].
    done.
  - intros r e Hc He. destruct (t_current 0 q Ht r e Hc He) as (B & K & _).
    split; [|done]. by rewrite (begun_status _ B), K.
  - intros r e Hin He. destruct (t_completed 0 q Ht r e Hin He) as (B & K).
    split; [|done]. by rewrite (begun_status _ B), K.
Qed.

Lemma queue_runs_jobs_in_turn_witness :
  turns (QueueJobs.queueJob "B" [] (Scenario.params 1 1 0)
           (QueueJobs.queueJob "A" ["a"] (Scenario.params 1 1 0)
              (QueueJobs.new None)))
  = [Some 0%nat; Some 1%nat].
Proof.
  apply (queue_runs_jobs_in_turn None
           [QueueJobs.QueueJob "A" ["a"] (Scenario.params 1 1 0);
            QueueJobs.QueueJob "B" [] (Scenario.params 1 1 0)]).
  - repeat constructor; vm_compute; discriminate.
  - reflexivity.
Defined.

(** ** The promise of [queueJob] *)

Lemma grows_refl (j : Job.t) : grows j j.
Proof. split; [done|]. exists []. by rewrite app_nil_r. Qed.

Lemma grows_trans (j1 j2 j3 : Job.t) :
  grows j1 j2 → grows j2 j3 → grows j1 j3.
Proof.
  intros [A [l Hl]] [B [k Hk]]. split; [congruence|].
  exists (l ++ k). by rewrite Hk, Hl, app_assoc.
Qed.

Lemma grows_completed (j j' : Job.t) :
  grows j j' → completed j → completed j'.
Proof.
  intros [_ [l Hl]] H. unfold completed. rewrite Hl.
  apply elem_of_app. by left.
Qed.

Lemma extends_grows (j j' : Job.t) : extends j j' → grows j j'.
Proof. intros (_ & N & _ & l & Hl & _). split; [done|by exists l]. Qed.

Lemma grows_start (j : Job.t) : grows j (Job.start j).
Proof.
  unfold Job.start. case_decide; [apply grows_refl|].
  eapply grows_trans; [|apply extends_grows, extends_loop].
  split; [done|]. by exists [Job.JobEmit JOB_STARTED].
Qed.

(** The signals a callback has added to the log. *)
Lemma grows_signals (j j' : Job.t) :
  grows j j' →
  Job.log j' = Job.log j ++ drop (length (Job.log j)) (Job.log j').
Proof.
  intros [_ [l Hl]]. rewrite Hl at 2. by rewrite drop_app_length.
Qed.

Lemma exported_mono (q q' : QueueJobs.t) (name : string) :
  QueueJobs.persistCompletedJobsToDir q'
  = QueueJobs.persistCompletedJobsToDir q →
  (∃ w, QueueJobs.written q' = QueueJobs.written q ++ w) →
  exported q name → exported q' name.
Proof.
  intros Hd [w Hw] H.
  unfold exported, Queue.hasDir, Queue.persistedPath, QueueJobs.accessors
    in *.
  cbn [Queue.persistCompletedJobsToDir] in *. rewrite Hd, Hw.
  intros Hh. apply elem_of_app. left. by apply H.
Qed.

Lemma kept_refl (q : QueueJobs.t) (e : QueueJobs.Entry) : kept q e e.
Proof. split; [apply grows_refl|]. split; [by left|done]. Qed.

Lemma kept_pending (q : QueueJobs.t) (e e' : QueueJobs.Entry) :
  kept q e e' → QueueJobs.promise e' = Queue.Pending →
  QueueJobs.promise e = Queue.Pending.
Proof. intros (_ & [H|(H & _)] & _) Hp; congruence. Qed.

Lemma kept_trans (q' q'' : QueueJobs.t) (e e' e'' : QueueJobs.Entry) :
  QueueJobs.persistCompletedJobsToDir q''
  = QueueJobs.persistCompletedJobsToDir q' →
  (∃ w, QueueJobs.written q'' = QueueJobs.written q' ++ w) →
  kept q' e e' → kept q'' e' e'' → kept q'' e e''.
Proof.
  intros Hd Hw (G1 & P1 & O1) (G2 & P2 & O2).
  split; [by eapply grows_trans|]. split.
  - destruct P1 as [P1|(P1 & R1 & C1 & X1)], P2 as [P2|(P2 & R2 & C2 & X2)].
    + left. congruence.
    + right. split; [congruence|done].
    + right. destruct G2 as [N2 L2]. split; [done|].
      split; [congruence|]. split; [by eapply grows_completed|].
      rewrite N2. by eapply exported_mono.
    + congruence.
  - intros Hp Hin. apply O2; [done|]. apply O1; [|done].
    by eapply kept_pending.
Qed.

(** *** What the listeners do to the entries *)

Lemma led_fields (A : list nat) (q q' : QueueJobs.t) :
  QueueJobs.store q' = QueueJobs.store q →
  QueueJobs.queuedJobs q' = QueueJobs.queuedJobs q →
  QueueJobs.persistCompletedJobsToDir q'
  = QueueJobs.persistCompletedJobsToDir q →
  (∃ w, QueueJobs.written q' = QueueJobs.written q ++ w) →
  led A [] q q'.
Proof.
  intros Hs Hq Hd Hw. split; [exact Hd|exact Hw|by rewrite Hq|by rewrite Hs|..].
  - intros r e Hr. exists e. rewrite Hs. split; [done|apply kept_refl].
  - intros r e' _ Hr. exists e'. by rewrite <- Hs.
  - intros r _ _. by rewrite Hs.
  - intros r Hr. by apply not_elem_of_nil in Hr.
Qed.

Lemma led_refl (A : list nat) (q : QueueJobs.t) : led A [] q q.
Proof. apply led_fields; try done. exists []. by rewrite app_nil_r. Qed.

Lemma led_weaken (A taken : list nat) (q q' : QueueJobs.t) :
  led [] taken q q' → led A taken q q'.
Proof.
  intros [l_dir l_written l_queued l_length l_kept l_job l_frame l_settled].
  split; try done. intros r _ Hr. apply l_frame; [|done].
  apply not_elem_of_nil.
Qed.

Lemma led_trans (A t1 t2 : list nat) (q q' q'' : QueueJobs.t) :
  NoDup (QueueJobs.queuedJobs q) →
  (∀ r, r ∈ A → r ∉ QueueJobs.queuedJobs q) →
  led A t1 q q' → led A t2 q' q'' → led A (t1 ++ t2) q q''.
Proof.
  intros Hnd HA [d1 w1 q1 n1 k1 j1 f1 s1] [d2 w2 q2 n2 k2 j2 f2 s2].
  rewrite q1, q2 in Hnd.
  apply NoDup_app in Hnd as (Hn1 & Hn12 & Hn2).
  assert (Hapart : ∀ r, r ∈ t1 → r ∈ t2 → False).
  { intros r H1 H2. apply (Hn12 r H1). apply elem_of_app. by left. }
  assert (HA' : ∀ r, r ∈ t1 ++ t2 → r ∉ A).
  { intros r Hr Hin. apply (HA r Hin). rewrite q1, q2.
    apply elem_of_app in Hr as [Hr|Hr]; apply elem_of_app; [by left|].
    right. apply elem_of_app. by left. }
  split.
  - congruence.
  - destruct w1 as [x1 w1], w2 as [x2 w2]. exists (x1 ++ x2).
    by rewrite w2, w1, app_assoc.
  - by rewrite q1, q2, app_assoc.
  - congruence.
  - intros r e Hr. destruct (k1 r e Hr) as (e' & Hr' & K1).
    destruct (k2 r e' Hr') as (e'' & Hr'' & K2).
    exists e''. split; [done|]. by eapply kept_trans.
  - intros r e'' Hr Hr''.
    destruct (j2 r e'') as (e' & Hr' & E2);
      [intros ?; apply Hr, elem_of_app; by right|done|].
    destruct (j1 r e') as (e & Hr0 & E1);
      [intros ?; apply Hr, elem_of_app; by left|done|].
    exists e. split; [done|congruence].
  - intros r HrA Hr. rewrite f2, f1; try done;
      intros ?; apply Hr, elem_of_app; auto.
  - intros r Hr e e'' He He''.
    pose proof (HA' r Hr) as HrA.
    apply elem_of_app in Hr as [Hr|Hr].
    + rewrite f2 in He''; [|done|]; [by apply (s1 r Hr)|].
      intros ?. by eapply Hapart.
    + rewrite <- f1 in He; [|done|]; [by apply (s2 r Hr)|].
      intros ?. by eapply Hapart.
Qed.

Lemma not_waiting_led (ref : nat) (A taken : list nat) (q q' : QueueJobs.t) :
  led A taken q q' → not_waiting ref q → not_waiting ref q' ∧ ref ∉ taken.
Proof.
  intros L [Hnd Hr]. rewrite (l_queued _ _ _ _ L) in Hnd, Hr.
  apply NoDup_app in Hnd as (_ & _ & Hnd).
  split; [split; [done|]|]; intros Hin; apply Hr, elem_of_app; auto.
Qed.

Lemma completed_at_led (ref : nat) (A taken : list nat)
    (q q' : QueueJobs.t) :
  led A taken q q' → ref ∉ taken → completed_at ref q →
  completed_at ref q'.
Proof.
  intros L Hr Hc e' He'.
  destruct (l_job _ _ _ _ L ref e' Hr He') as (e & He & ->). by apply Hc.
Qed.

Lemma iter_forward_fields (n ref : nat) (s : Job.Signal) (q : QueueJobs.t) :
  let q' := Nat.iter n (QueueJobs.forward ref s) q in
  QueueJobs.store q' = QueueJobs.store q ∧
  QueueJobs.queuedJobs q' = QueueJobs.queuedJobs q ∧
  QueueJobs.persistCompletedJobsToDir q'
  = QueueJobs.persistCompletedJobsToDir q ∧
  QueueJobs.written q' = QueueJobs.written q ∧
  QueueJobs.currentJob q' = QueueJobs.currentJob q ∧
  QueueJobs.completedJobs q' = QueueJobs.completedJobs q.
Proof.
  cbn zeta. induction n as [|n IH]; [done|].
  change (Nat.iter (S n) (QueueJobs.forward ref s) q)
    with (QueueJobs.forward ref s (Nat.iter n (QueueJobs.forward ref s) q)).
  set (q1 := Nat.iter n _ q) in *.
  assert (H : QueueJobs.forward ref s q1 = q1 ∨
              ∃ l, QueueJobs.forward ref s q1 = QueueJobs.with_emitted l q1).
  { unfold QueueJobs.forward. destruct (QueueJobs.store q1 !! ref); eauto. }
  destruct H as [->|[l ->]]; exact IH.
Qed.

Lemma led_iter (A : list nat) (n ref : nat) (s : Job.Signal)
    (q : QueueJobs.t) :
  led A [] q (Nat.iter n (QueueJobs.forward ref s) q).
Proof.
  destruct (iter_forward_fields n ref s q) as (H1 & H2 & H3 & H4 & _).
  apply led_fields; try done. exists []. by rewrite app_nil_r.
Qed.

Lemma led_forward (A : list nat) (ref : nat) (s : Job.Signal)
    (q : QueueJobs.t) :
  led A [] q (QueueJobs.forward ref s q).
Proof. apply (led_iter A 1 ref s q). Qed.

Lemma export_store (ref : nat) (q : QueueJobs.t) :
  let q' := QueueJobs.exportJobIfNeeded ref q in
  QueueJobs.store q' = QueueJobs.store q ∧
  QueueJobs.queuedJobs q' = QueueJobs.queuedJobs q ∧
  QueueJobs.persistCompletedJobsToDir q'
  = QueueJobs.persistCompletedJobsToDir q ∧
  (∃ w, QueueJobs.written q' = QueueJobs.written q ++ w) ∧
  (∀ e, QueueJobs.store q !! ref = Some e →
        exported q' (Job.name (QueueJobs.job e))).
Proof.
  cbn zeta. unfold QueueJobs.exportJobIfNeeded.
  destruct (QueueJobs.store q !! ref) as [e|] eqn:He.
  - destruct (Queue.hasDir (QueueJobs.accessors q)) eqn:Hd.
    + repeat split; [by eexists|]. intros e' [= <-] _.
      unfold_queue. apply elem_of_app. right. by apply list_elem_of_singleton.
    + repeat split; [exists []; by rewrite app_nil_r|].
      intros e' _. intros Hd'. congruence.
  - repeat split; [exists []; by rewrite app_nil_r|done].
Qed.

Lemma resolve_settles (name : string) (p : Queue.Promise string) :
  Queue.resolve name p ≠ Queue.Pending.
Proof. by destruct p. Qed.

(** The listener of [queueJob] is called. *)
Lemma led_once (next : QueueJobs.t → QueueJobs.t) (ref : nat)
    (q : QueueJobs.t) :
  completed_at ref q →
  led [ref] [] q (QueueJobs.callListener next ref QueueJobs.OnceQueued q).
Proof.
  intros Hc. cbn [QueueJobs.callListener].
  set (g := λ e : QueueJobs.Entry, QueueJobs.with_promise _ _).
  set (q1 := QueueJobs.update ref g q).
  destruct (export_store ref q1) as (E1 & E2 & E3 & E4 & E5).
  split.
  - by rewrite E3.
  - exact E4.
  - by rewrite E2.
  - rewrite E1. unfold q1. unfold_queue. by rewrite length_alter.
  - intros r e Hr. rewrite E1. unfold q1. unfold_queue.
    destruct (decide (r = ref)) as [->|Hne].
    + rewrite list_lookup_alter_eq, Hr. exists (g e). split; [done|].
      split; [apply grows_refl|].
      assert (Hg : QueueJobs.store q1 !! ref = Some (g e)).
      { unfold q1. unfold_queue. by rewrite list_lookup_alter_eq, Hr. }
      destruct (QueueJobs.promise e) eqn:Hp.
      * split; [|unfold g; unfold_queue; by rewrite Hp].
        right. split; [done|]. unfold g at 1. unfold_queue. rewrite Hp.
        split; [done|]. split; [by apply (Hc e)|]. by apply (E5 (g e)).
      * split; [left|]; unfold g; unfold_queue; by rewrite Hp.
      * split; [left|]; unfold g; unfold_queue; by rewrite Hp.
    + rewrite list_lookup_alter_ne by done. exists e.
      split; [done|apply kept_refl].
  - intros r e' _. rewrite E1. unfold q1. unfold_queue.
    destruct (decide (r = ref)) as [->|Hne].
    + rewrite list_lookup_alter_eq.
      destruct (QueueJobs.store q !! ref) as [e|]; [|done].
      intros [= <-]. by exists e.
    + rewrite list_lookup_alter_ne by done. intros Hr. by exists e'.
  - intros r Hr _. rewrite E1. unfold q1. unfold_queue.
    rewrite list_lookup_alter_ne; [done|]. intros ->. apply Hr. by left.
  - intros r Hr. by apply not_elem_of_nil in Hr.
Qed.

Lemma led_handle (next : QueueJobs.t → QueueJobs.t) (q : QueueJobs.t) :
  next_led next → NoDup (QueueJobs.queuedJobs q) →
  ∃ taken, led [] taken q (QueueJobs.handleJobComplete next q).
Proof.
  intros Hnext Hnd. unfold QueueJobs.handleJobComplete.
  set (q1 := QueueJobs.with_current _ _).
  destruct (Hnext q1 Hnd) as [taken [a b c d e f g h]].
  exists taken. split; [exact a|exact b|exact c|exact d|exact e|exact f
                        |exact g|exact h].
Qed.

Lemma led_listener (next : QueueJobs.t → QueueJobs.t) (ref : nat)
    (l : QueueJobs.Listener) (q : QueueJobs.t) :
  next_led next → not_waiting ref q → completed_at ref q →
  ∃ taken, led [ref] taken q (QueueJobs.callListener next ref l q).
Proof.
  intros Hnext [Hnd Hr] Hc. destruct l.
  - destruct (led_handle next q Hnext Hnd) as [taken L].
    exists taken. by apply led_weaken.
  - exists []. apply led_forward.
  - exists []. by apply led_once.
Qed.

Lemma led_listeners (next : QueueJobs.t → QueueJobs.t) (ref : nat)
    (ls : list QueueJobs.Listener) (q : QueueJobs.t) :
  next_led next → not_waiting ref q → completed_at ref q →
  ∃ taken,
    led [ref] taken q (foldl (λ q l, QueueJobs.callListener next ref l q) q ls).
Proof.
  intros Hnext. revert q. induction ls as [|l ls IH]; intros q Hw Hc.
  - exists []. apply led_refl.
  - cbn [foldl].
    destruct (led_listener next ref l q Hnext Hw Hc) as [t1 L1].
    destruct (not_waiting_led ref _ _ _ _ L1 Hw) as [Hw1 Ht1].
    destruct (IH _ Hw1 (completed_at_led ref _ _ _ _ L1 Ht1 Hc)) as [t2 L2].
    exists (t1 ++ t2). eapply led_trans; [by destruct Hw| |exact L1|exact L2].
    intros r ->%list_elem_of_singleton. by destruct Hw.
Qed.

Lemma led_deliver (next : QueueJobs.t → QueueJobs.t) (ref : nat)
    (s : Job.Signal) (q : QueueJobs.t) :
  next_led next → not_waiting ref q →
  (s = Job.JobEmit JOB_COMPLETED → completed_at ref q) →
  ∃ taken, led [ref] taken q (QueueJobs.deliver next ref s q).
Proof.
  intros Hnext Hw Hc. unfold QueueJobs.deliver.
  destruct (QueueJobs.store q !! ref) as [e|]; [|exists []; apply led_refl].
  destruct s as [| [] | |]; try (exists []; apply led_refl);
    try (exists []; apply led_iter).
  apply led_listeners; auto.
Qed.

Lemma led_signals (next : QueueJobs.t → QueueJobs.t) (ref : nat)
    (l : list Job.Signal) (q : QueueJobs.t) :
  next_led next → not_waiting ref q →
  (Job.JobEmit JOB_COMPLETED ∈ l → completed_at ref q) →
  ∃ taken,
    led [ref] taken q (foldl (λ q s, QueueJobs.deliver next ref s q) q l).
Proof.
  intros Hnext. revert q. induction l as [|s l IH]; intros q Hw Hc.
  - exists []. apply led_refl.
  - cbn [foldl].
    destruct (led_deliver next ref s q Hnext Hw) as [t1 L1].
    { intros ->. apply Hc. by left. }
    destruct (not_waiting_led ref _ _ _ _ L1 Hw) as [Hw1 Ht1].
    destruct (IH _ Hw1) as [t2 L2].
    { intros Hin. eapply completed_at_led; [exact L1|done|].
      apply Hc. by right. }
    exists (t1 ++ t2). eapply led_trans; [by destruct Hw| |exact L1|exact L2].
    intros r ->%list_elem_of_singleton. by destruct Hw.
Qed.

(** *** The listener of [queueJob] settles the promise *)

Lemma once_promise (next : QueueJobs.t → QueueJobs.t) (ref : nat)
    (q : QueueJobs.t) (e1 : QueueJobs.Entry) :
  QueueJobs.store (QueueJobs.callListener next ref QueueJobs.OnceQueued q)
    !! ref = Some e1 →
  QueueJobs.promise e1 ≠ Queue.Pending.
Proof.
  cbn [QueueJobs.callListener].
  set (g := λ e : QueueJobs.Entry, QueueJobs.with_promise _ _).
  destruct (export_store ref (QueueJobs.update ref g q)) as (-> & _).
  unfold_queue. rewrite list_lookup_alter_eq.
  destruct (QueueJobs.store q !! ref) as [e|]; [|done].
  intros [= <-]. unfold g. unfold_queue. apply resolve_settles.
Qed.

Lemma kept_settled (q : QueueJobs.t) (e e' : QueueJobs.Entry) :
  kept q e e' → QueueJobs.promise e ≠ Queue.Pending →
  QueueJobs.promise e' ≠ Queue.Pending.
Proof. intros K H Hp. apply H. by eapply kept_pending. Qed.

(** The listeners of JOB_COMPLETED are called. *)
Lemma resolved_listeners (next : QueueJobs.t → QueueJobs.t) (ref : nat)
    (ls : list QueueJobs.Listener) (q : QueueJobs.t)
    (e e' : QueueJobs.Entry) :
  next_led next → not_waiting ref q → completed_at ref q →
  QueueJobs.store q !! ref = Some e →
  QueueJobs.promise e ≠ Queue.Pending ∨ QueueJobs.OnceQueued ∈ ls →
  QueueJobs.store
    (foldl (λ q l, QueueJobs.callListener next ref l q) q ls) !! ref
  = Some e' →
  QueueJobs.promise e' ≠ Queue.Pending.
Proof.
  intros Hnext. revert q e.
  induction ls as [|l ls IH]; intros q e Hw Hc He Hor He'.
  - cbn [foldl] in He'. destruct Hor as [H|H]; [congruence|].
    by apply not_elem_of_nil in H.
  - cbn [foldl] in He'.
    destruct (led_listener next ref l q Hnext Hw Hc) as [t1 L1].
    destruct (not_waiting_led ref _ _ _ _ L1 Hw) as [Hw1 Ht1].
    destruct (l_kept _ _ _ _ L1 ref e He) as (e1 & He1 & K1).
    apply (IH _ e1 Hw1 (completed_at_led ref _ _ _ _ L1 Ht1 Hc) He1);
      [|done].
    destruct Hor as [H|[<-|H]%elem_of_cons].
    + left. by eapply kept_settled.
    + left. by eapply once_promise.
    + by right.
Qed.

(** The signals of a callback are delivered, JOB_COMPLETED among
    them. *)
Lemma resolved_signals (next : QueueJobs.t → QueueJobs.t) (ref : nat)
    (l : list Job.Signal) (q : QueueJobs.t) (e e' : QueueJobs.Entry) :
  next_led next → not_waiting ref q → completed_at ref q →
  QueueJobs.store q !! ref = Some e →
  QueueJobs.promise e ≠ Queue.Pending ∨
    (Job.JobEmit JOB_COMPLETED ∈ l ∧
     QueueJobs.OnceQueued ∈ QueueJobs.completedListeners e) →
  QueueJobs.store
    (foldl (λ q s, QueueJobs.deliver next ref s q) q l) !! ref
  = Some e' →
  QueueJobs.promise e' ≠ Queue.Pending.
Proof.
  intros Hnext. revert q e.
  induction l as [|s l IH]; intros q e Hw Hc He Hor He'.
  - cbn [foldl] in He'. destruct Hor as [H|[H _]]; [congruence|].
    by apply not_elem_of_nil in H.
  - cbn [foldl] in He'.
    destruct (led_deliver next ref s q Hnext Hw (λ _, Hc)) as [t1 L1].
    destruct (not_waiting_led ref _ _ _ _ L1 Hw) as [Hw1 Ht1].
    destruct (l_kept _ _ _ _ L1 ref e He) as (e1 & He1 & K1).
    apply (IH _ e1 Hw1 (completed_at_led ref _ _ _ _ L1 Ht1 Hc) He1);
      [|done].
    destruct Hor as [H|[[<-|H]%elem_of_cons Ho]].
    + left. by eapply kept_settled.
    + left. unfold QueueJobs.deliver in He1. rewrite He in He1.
      eapply (resolved_listeners next ref _ q e e1); try done. by right.
    + destruct (QueueJobs.promise e1) eqn:Hp; [|by left..].
      right. split; [done|]. destruct K1 as (_ & _ & K1). by apply K1.
Qed.

(** *** [startNextJob] *)

Lemma led_rec (fuel : nat) : next_led (QueueJobs.startNextJob_rec fuel).
Proof.
  induction fuel as [|fuel IH]; intros q Hnd;
    cbn [QueueJobs.startNextJob_rec]; [exists []; apply led_refl|].
  destruct (negb (QueueJobs.isRunning q) && QueueJobs.isPending q);
    [|exists []; apply led_refl].
  destruct (QueueJobs.queuedJobs q) as [|b rest] eqn:Hq;
    [exists []; apply led_refl|].
  apply NoDup_cons in Hnd as [Hb Hrest].
  set (f1 := λ e : QueueJobs.Entry,
         QueueJobs.with_listeners (QueueJobs.forwarders e)
           (QueueJobs.completedListeners e ++ [QueueJobs.OnCompleted]) e).
  set (f2 := λ e : QueueJobs.Entry,
         QueueJobs.with_listeners (S (QueueJobs.forwarders e))
           (QueueJobs.completedListeners e ++ [QueueJobs.Forwarder]) e).
  set (q3 := QueueJobs.update b f2 _).
  assert (H3b : QueueJobs.store q3 !! b
                = f2 <$> (f1 <$> QueueJobs.store q !! b)).
  { unfold q3. unfold_queue. by rewrite !list_lookup_alter_eq. }
  assert (H3r : ∀ r, r ≠ b →
                  QueueJobs.store q3 !! r = QueueJobs.store q !! r).
  { intros r Hr. unfold q3. unfold_queue.
    by rewrite !list_lookup_alter_ne by done. }
  assert (H3n : length (QueueJobs.store q3) = length (QueueJobs.store q)).
  { unfold q3. unfold_queue. by rewrite !length_alter. }
  unfold QueueJobs.jobStart.
  destruct (QueueJobs.store q !! b) as [e|] eqn:He; rewrite H3b;
    cbn [fmap option_fmap option_map]; cycle 1.
  { exists [b]. split; try done.
    - exists []. by rewrite app_nil_r.
    - intros r e Hr. exists e. split; [|apply kept_refl].
      rewrite H3r; [done|]. intros ->. congruence.
    - intros r e' Hr Hr'. exists e'. split; [|done].
      rewrite <- H3r; [done|]. intros ->. apply Hr. by left.
    - intros r _ Hr. apply H3r. intros ->. apply Hr. by left.
    - intros r ->%list_elem_of_singleton e e' He'. congruence. }
  unfold QueueJobs.deliverAll.
  change (QueueJobs.job (f2 (f1 e))) with (QueueJobs.job e).
  set (j := QueueJobs.job e). set (j' := Job.start j).
  set (q4 := QueueJobs.update b (QueueJobs.with_job j') q3).
  set (e4 := QueueJobs.with_job j' (f2 (f1 e))).
  assert (H4b : QueueJobs.store q4 !! b = Some e4).
  { unfold q4. unfold_queue. rewrite list_lookup_alter_eq.
    by rewrite H3b. }
  assert (H4r : ∀ r, r ≠ b →
                  QueueJobs.store q4 !! r = QueueJobs.store q !! r).
  { intros r Hr. rewrite <- H3r by done. unfold q4. unfold_queue.
    by rewrite list_lookup_alter_ne by done. }
  assert (H4n : length (QueueJobs.store q4) = length (QueueJobs.store q)).
  { rewrite <- H3n. unfold q4. unfold_queue. by rewrite length_alter. }
  pose proof (grows_start j) as Hg. fold j' in Hg.
  pose proof (grows_signals j j' Hg) as Hsig.
  set (l := drop (length (Job.log j)) (Job.log j')) in *.
  assert (Hw4 : not_waiting b q4) by done.
  assert (Hc4 : Job.JobEmit JOB_COMPLETED ∈ l → completed_at b q4).
  { intros Hin e' He'. rewrite H4b in He'. injection He' as <-.
    unfold completed. cbn [QueueJobs.job e4 QueueJobs.with_job].
    rewrite Hsig. apply elem_of_app. by right. }
  destruct (led_signals (QueueJobs.startNextJob_rec fuel) b l q4 IH Hw4 Hc4)
    as [t L].
  destruct (not_waiting_led b _ _ _ _ L Hw4) as [Hw' Hbt].
  assert (Ht : ∀ r, r ∈ t → r ≠ b).
  { intros r Hr ->. done. }
  exists (b :: t). split.
  - exact (l_dir _ _ _ _ L).
  - exact (l_written _ _ _ _ L).
  - rewrite Hq. cbn [app]. f_equal. exact (l_queued _ _ _ _ L).
  - rewrite (l_length _ _ _ _ L). exact H4n.
  - intros r e0 Hr. destruct (decide (r = b)) as [->|Hne].
    + assert (e0 = e) as -> by congruence.
      destruct (l_kept _ _ _ _ L b e4 H4b) as (e' & He' & K).
      exists e'. split; [done|].
      eapply kept_trans; [done|exists []; by rewrite app_nil_r| |exact K].
      split; [exact Hg|]. split; [by left|]. intros _ Hin.
      unfold e4, f2, f1. unfold_queue.
      apply elem_of_app. left. apply elem_of_app. by left.
    + apply (l_kept _ _ _ _ L). by rewrite H4r.
  - intros r e' Hr Hr'.
    assert (r ≠ b) as Hne by (intros ->; apply Hr; by left).
    destruct (l_job _ _ _ _ L r e') as (e0 & He0 & E); [|done|].
    { intros ?. apply Hr. by right. }
    exists e0. by rewrite <- H4r.
  - intros r _ Hr.
    assert (r ≠ b) as Hne by (intros ->; apply Hr; by left).
    rewrite (l_frame _ _ _ _ L), H4r; try done.
    + intros ->%list_elem_of_singleton. done.
    + intros ?. apply Hr. by right.
  - intros r [->|Hr]%elem_of_cons.
    + intros e0 e' He0 He'. assert (e0 = e) as -> by congruence.
      destruct (l_job _ _ _ _ L b e' Hbt He') as (e4' & He4 & E).
      rewrite H4b in He4. injection He4 as <-. split; [exact E|].
      intros Hn Hc Ho.
      assert (Hin : Job.JobEmit JOB_COMPLETED ∈ l).
      { rewrite E in Hc. unfold completed in Hc.
        cbn [QueueJobs.job e4 QueueJobs.with_job] in Hc.
        rewrite Hsig in Hc. apply elem_of_app in Hc as [Hc|Hc]; done. }
      eapply (resolved_signals _ b l q4 e4 e' IH Hw4 (Hc4 Hin) H4b);
        [|done].
      right. split; [done|]. unfold e4, f2, f1. unfold_queue.
      apply elem_of_app. left. apply elem_of_app. by left.
    + intros e0 e' He0 He'. apply (l_settled _ _ _ _ L r Hr); [|done].
      rewrite H4r; [done|by apply Ht].
Qed.

Lemma led_startNextJob : next_led QueueJobs.startNextJob.
Proof. intros q. apply led_rec. Qed.

(** *** Jobs that complete inside [start()] *)

Lemma completed_count (j : Job.t) : completed j ↔ (0 < completions j)%nat.
Proof.
  unfold completed, completions, Job.count_signal. split.
  - intros Hin.
    assert (H : Job.JobEmit JOB_COMPLETED
                  ∈ filter (λ x, x = Job.JobEmit JOB_COMPLETED) (Job.log j))
      by (by apply list_elem_of_filter).
    destruct (filter _ _); [by apply not_elem_of_nil in H|cbn; lia].
  - intros Hlen.
    destruct (filter _ _) as [|x l] eqn:E; [cbn in Hlen; lia|].
    assert (H : x ∈ filter (λ x, x = Job.JobEmit JOB_COMPLETED) (Job.log j))
      by (rewrite E; by left).
    apply list_elem_of_filter in H as [-> H]. done.
Qed.

Lemma fresh_not_completed (j : Job.t) : fresh j → ¬ completed j.
Proof.
  intros (name & data & p & _ & ->). unfold completed, Job.new. unfold_job.
  apply not_elem_of_nil.
Qed.

(** A job that has emitted JOB_COMPLETED when [start()] returns has no
    operations and no cooldown. *)
Lemma sync_instant (j : Job.t) :
  fresh j → completed (Job.start j) →
  Job.heap (Job.start j) = [] ∧ Job.cooldown (Job.start j) = 0.
Proof.
  intros (name & data & p & Hmax & ->) Hc.
  destruct (within_start name data p Hmax) as [(_ & _ & Hin) (_ & Hn & _)].
  apply completed_count in Hc.
  assert (Hst : Job.status (Job.start (Job.new name data p)) = COMPLETED).
  { destruct (decide (Job.status (Job.start (Job.new name data p))
                      = COMPLETED)); [done|lia]. }
  clear Hn Hc.
  assert (Hcd : Job.cooldown (Job.start (Job.new name data p))
                = Job.p_cooldown p).
  { assert (H1 : extends (Job.emit JOB_STARTED
                              (Job.with_status STARTED (Job.new name data p)))
                           (Job.start (Job.new name data p))).
    { unfold Job.start. rewrite decide_False by done. apply extends_loop. }
    by destruct H1 as (-> & _). }
  set (j1 := Job.emit JOB_STARTED
               (Job.with_status STARTED (Job.new name data p))).
  assert (Hstart : Job.start (Job.new name data p)
                   = Job.startNextOperation false j1).
  { unfold Job.start. by rewrite decide_False. }
  destruct (decide (Job.p_cooldown p = 0)) as [Hz|Hz]; cycle 1.
  { exfalso. rewrite Hstart, startNextOperation_unfold in Hst.
    change (Job.cooldown j1) with (Job.p_cooldown p) in Hst.
    rewrite bool_decide_true in Hst by done. cbn [andb negb] in Hst.
    done. }
  destruct data as [|d data].
  - split; [|congruence].
    change (Job.heap (Job.new name [] p)) with (@nil Operation.t) in Hin.
    by apply fmap_nil_inv in Hin.
  - exfalso.
    destruct (loop_batch (length (d :: data)) 0 j1) as (_ & _ & _ & D);
      [done|done| |].
    { intros r Hr. unfold j1, Job.new. unfold_job.
      rewrite list_lookup_imap.
      destruct (lookup_lt_is_Some_2 (d :: data) r) as [x Hx]; [lia|].
      rewrite Hx. cbn. eauto. }
    rewrite Hstart, D in Hst; [done|done|]. left. cbn. lia.
Qed.

Lemma step_instant (e : Job.Event) (j j' : Job.t) :
  Job.step e j = Some j' → Job.heap j = [] → Job.cooldown j = 0 →
  Job.heap j' = [] ∧ Job.cooldown j' = 0.
Proof.
  intros Hstep Hh Hc.
  destruct (within_step e j j' Hstep) as [(_ & _ & Hin) _].
  destruct (extends_step e j j' Hstep) as (Hcd & _).
  split; [|congruence]. rewrite Hh in Hin. by apply fmap_nil_inv in Hin.
Qed.

(** *** Between two events *)

Lemma turning_NoDup (k : nat) (q : QueueJobs.t) :
  turning k q → NoDup (QueueJobs.queuedJobs q).
Proof.
  intros Ht. pose proof (turns_NoDup k q Ht) as H. unfold turns in H.
  apply NoDup_app in H as (_ & _ & H).
  apply NoDup_app in H as (_ & _ & H).
  by apply NoDup_fmap_1 in H.
Qed.

Lemma turning_queued_lt (k : nat) (q : QueueJobs.t) (r : nat) :
  turning k q → r ∈ QueueJobs.queuedJobs q →
  (r < length (QueueJobs.store q))%nat.
Proof.
  intros Ht Hr. apply lookup_lt_is_Some, (turns_lookup k q r Ht).
  unfold turns. apply elem_of_app. right. apply elem_of_app. right.
  by apply list_elem_of_fmap_2.
Qed.

Lemma promised_kept (q q' : QueueJobs.t) (e e' : QueueJobs.Entry) :
  QueueJobs.persistCompletedJobsToDir q'
  = QueueJobs.persistCompletedJobsToDir q →
  (∃ w, QueueJobs.written q' = QueueJobs.written q ++ w) →
  kept q' e e' →
  QueueJobs.promise e = Queue.Pending ∨
    (QueueJobs.promise e = Queue.Resolved (Job.name (QueueJobs.job e)) ∧
     completed (QueueJobs.job e) ∧
     exported q (Job.name (QueueJobs.job e))) →
  QueueJobs.promise e' = Queue.Pending ∨
    (QueueJobs.promise e' = Queue.Resolved (Job.name (QueueJobs.job e')) ∧
     completed (QueueJobs.job e') ∧
     exported q' (Job.name (QueueJobs.job e'))).
Proof.
  intros Hd Hw (G & [P|(P & R & C & X)] & _) H.
  - destruct H as [H|(H & C & X)]; [left; congruence|]. right.
    pose proof G as [N _]. rewrite N. split; [congruence|].
    split; [by eapply grows_completed|]. by eapply exported_mono.
  - by right.
Qed.

(** A job that waited with the listener of [queueJob] was started. *)
Lemma taken_vowed (q q' : QueueJobs.t) (r : nat) (e e' : QueueJobs.Entry) :
  settled q q' r → kept q' e e' →
  QueueJobs.store q !! r = Some e → QueueJobs.store q' !! r = Some e' →
  ¬ completed (QueueJobs.job e) →
  QueueJobs.OnceQueued ∈ QueueJobs.completedListeners e →
  QueueJobs.promise e' = Queue.Pending →
  QueueJobs.OnceQueued ∈ QueueJobs.completedListeners e' ∧
  ¬ completed (QueueJobs.job e').
Proof.
  intros Hs (_ & _ & K) He He' Hn Ho Hp.
  destruct (Hs e e' He He') as (_ & S).
  split; [by apply K|]. intros Hc. by apply (S Hn Hc Ho).
Qed.

Lemma step_vowed (ev : QueueJobs.Event) (q q' : QueueJobs.t) :
  sound [ev] → turning 0 q → vowed q → promised q →
  QueueJobs.step ev q = Some q' →
  vowed q' ∧ promised q'.
Proof.
  intros Hsound Ht Hv Hp Hstep.
  pose proof (turning_NoDup 0 q Ht) as Hnd.
  destruct ev as [name data p|ref ev]; cbn [QueueJobs.step] in Hstep.
  - injection Hstep as <-. unfold sound in Hsound.
    rewrite Forall_singleton in Hsound.
    unfold QueueJobs.queueJob.
    set (u := length (QueueJobs.store q)).
    set (entry := {| QueueJobs.job := Job.new name data p |}).
    set (q1 := QueueJobs.with_index _ _).
    set (g := λ e : QueueJobs.Entry, QueueJobs.with_listeners _ _ e).
    assert (Hfresh : fresh (QueueJobs.job entry)) by (by exists name, data, p).
    assert (Hnd1 : NoDup (QueueJobs.queuedJobs q1)).
    { unfold q1. unfold_queue. apply NoDup_app. split; [done|].
      split; [|apply NoDup_singleton].
      intros r Hr ->%list_elem_of_singleton.
      pose proof (turning_queued_lt 0 q _ Ht Hr). unfold u in *. lia. }
    destruct (led_startNextJob q1 Hnd1) as [t L].
    set (q2 := QueueJobs.startNextJob q1) in *.
    assert (H1u : QueueJobs.store q1 !! u = Some entry).
    { unfold q1. unfold_queue. by apply list_lookup_middle. }
    assert (H1r : ∀ r e, QueueJobs.store q !! r = Some e →
                    QueueJobs.store q1 !! r = Some e).
    { intros r e Hr. unfold q1. unfold_queue. by apply lookup_app_l_Some. }
    assert (Hlt : ∀ r e, QueueJobs.store q !! r = Some e → r ≠ u).
    { intros r e Hr%lookup_lt_Some. unfold u. lia. }
    assert (Hold : ∀ r e', r ≠ u →
              QueueJobs.store (QueueJobs.update u g q2) !! r = Some e' →
              ∃ e, QueueJobs.store q !! r = Some e ∧
                   QueueJobs.store q1 !! r = Some e ∧
                   QueueJobs.store q2 !! r = Some e' ∧ kept q2 e e').
    { intros r e' Hne Hr'. unfold_queue.
      rewrite list_lookup_alter_ne in Hr' by done.
      pose proof (lookup_lt_Some _ _ _ Hr') as Hlen.
      rewrite (l_length _ _ _ _ L) in Hlen. unfold q1 in Hlen.
      unfold_queue. rewrite length_app in Hlen. cbn [length] in Hlen.
      destruct (lookup_lt_is_Some_2 (QueueJobs.store q) r) as [e He];
        [unfold u in Hne; lia|].
      exists e. split; [done|]. split; [by apply H1r|]. split; [done|].
      destruct (l_kept _ _ _ _ L r e (H1r r e He)) as (e2 & He2 & K).
      congruence. }
    assert (Hnew : ∀ e', QueueJobs.store (QueueJobs.update u g q2) !! u
                         = Some e' →
              ∃ e2, QueueJobs.store q2 !! u = Some e2 ∧ e' = g e2 ∧
                    kept q2 entry e2).
    { intros e' Hr'. unfold_queue. rewrite list_lookup_alter_eq in Hr'.
      destruct (l_kept _ _ _ _ L u entry H1u) as (e2 & He2 & K).
      rewrite He2 in Hr'. injection Hr' as <-. by exists e2. }
    split.
    + intros r e' Hr' Hpe'. destruct (decide (r = u)) as [->|Hne].
      * destruct (Hnew e' Hr') as (e2 & He2 & -> & K).
        assert (Ho : QueueJobs.OnceQueued
                       ∈ QueueJobs.completedListeners (g e2)).
        { unfold g. unfold_queue. apply elem_of_app. right. by left. }
        change (QueueJobs.job (g e2)) with (QueueJobs.job e2).
        destruct (decide (completed (QueueJobs.job e2))) as [Hc|Hc];
          [|by left].
        right. split; [done|].
        destruct (decide (u ∈ t)) as [Hin|Hin].
        -- destruct (l_settled _ _ _ _ L u Hin entry e2 H1u He2) as [E _].
           rewrite E in Hc |- *. by apply sync_instant.
        -- rewrite (l_frame _ _ _ _ L u) in He2;
             [|apply not_elem_of_nil|done].
           rewrite H1u in He2. injection He2 as <-.
           by apply fresh_not_completed in Hc.
      * destruct (Hold r e' Hne Hr') as (e & He & He1 & He2 & K).
        pose proof (kept_pending _ _ _ K Hpe') as Hpe.
        destruct (decide (r ∈ t)) as [Hin|Hin].
        -- assert (Hrq : r ∈ QueueJobs.queuedJobs q).
           { assert (H : r ∈ QueueJobs.queuedJobs q1).
             { rewrite (l_queued _ _ _ _ L). apply elem_of_app. by left. }
             unfold q1 in H. unfold_queue.
             apply elem_of_app in H as [H|H%list_elem_of_singleton]; done. }
           destruct (t_queued 0 q Ht r e Hrq He) as [Hf _].
           pose proof (fresh_not_completed _ Hf) as Hnc.
           destruct (Hv r e He Hpe) as [[Ho _]|[Hc _]]; [|done].
           left. by eapply (taken_vowed q1 q2 r e e');
                   [apply (l_settled _ _ _ _ L)|..].
        -- rewrite (l_frame _ _ _ _ L r) in He2;
             [|apply not_elem_of_nil|done].
           assert (e' = e) as -> by congruence. by apply (Hv r e).
    + intros r e' Hr'. destruct (decide (r = u)) as [->|Hne].
      * destruct (Hnew e' Hr') as (e2 & He2 & -> & K).
        apply (promised_kept q1 _ entry (g e2)).
        -- exact (l_dir _ _ _ _ L).
        -- exact (l_written _ _ _ _ L).
        -- eapply kept_trans; [done|exists []; by rewrite app_nil_r| |].
           ++ destruct K as (K1 & K2 & K3). split; [exact K1|].
              split; [|exact K3].
              destruct K2 as [K2|(K21 & K22 & K23 & K24)]; [by left|].
              right. repeat split; try done.
           ++ split; [apply grows_refl|]. split; [by left|].
              intros _ Hin. unfold g. unfold_queue.
              apply elem_of_app. by left.
        -- by left.
      * destruct (Hold r e' Hne Hr') as (e & He & He1 & He2 & K).
        apply (promised_kept q _ e e').
        -- exact (l_dir _ _ _ _ L).
        -- exact (l_written _ _ _ _ L).
        -- destruct K as (K1 & K2 & K3). split; [exact K1|].
           split; [|exact K3].
           destruct K2 as [K2|(K21 & K22 & K23 & K24)]; [by left|].
           right. repeat split; try done.
        -- apply (Hp r e He).
  - destruct (QueueJobs.store q !! ref) as [entry|] eqn:Href; [|done].
    destruct (Job.step ev (QueueJobs.job entry)) as [j'|] eqn:Hj; [|done].
    injection Hstep as <-. unfold QueueJobs.deliverAll.
    set (j := QueueJobs.job entry) in *.
    pose proof (extends_grows j j' (extends_step ev j j' Hj)) as Hg.
    pose proof (grows_signals j j' Hg) as Hsig.
    set (l := drop (length (Job.log j)) (Job.log j')) in *.
    set (q4 := QueueJobs.update ref (QueueJobs.with_job j') q).
    set (e4 := QueueJobs.with_job j' entry).
    assert (H4b : QueueJobs.store q4 !! ref = Some e4).
    { unfold q4. unfold_queue. by rewrite list_lookup_alter_eq, Href. }
    assert (H4r : ∀ r, r ≠ ref →
                    QueueJobs.store q4 !! r = QueueJobs.store q !! r).
    { intros r Hr. unfold q4. unfold_queue.
      by rewrite list_lookup_alter_ne by done. }
    assert (H4n : length (QueueJobs.store q4) = length (QueueJobs.store q)).
    { unfold q4. unfold_queue. by rewrite length_alter. }
    assert (Hw4 : not_waiting ref q4).
    { split; [done|]. intros Hin.
      destruct (t_queued 0 q Ht ref entry Hin Href) as [Hf _].
      pose proof (fresh_no_step ev _ Hf) as Hno. unfold j in Hj.
      congruence. }
    assert (Hc4 : Job.JobEmit JOB_COMPLETED ∈ l → completed_at ref q4).
    { intros Hin e' He'. rewrite H4b in He'. injection He' as <-.
      unfold completed. cbn [QueueJobs.job e4 QueueJobs.with_job].
      rewrite Hsig. apply elem_of_app. by right. }
    destruct (led_signals QueueJobs.startNextJob ref l q4
                led_startNextJob Hw4 Hc4) as [t L].
    set (q' := foldl _ q4 l) in *.
    destruct (not_waiting_led ref _ _ _ _ L Hw4) as [_ Hreft].
    assert (K4 : kept q' entry e4).
    { split; [exact Hg|]. split; [by left|done]. }
    assert (Hold : ∀ r e', QueueJobs.store q' !! r = Some e' →
              ∃ e, QueueJobs.store q !! r = Some e ∧ kept q' e e').
    { intros r e' Hr'.
      pose proof (lookup_lt_Some _ _ _ Hr') as Hlen.
      rewrite (l_length _ _ _ _ L), H4n in Hlen.
      destruct (lookup_lt_is_Some_2 (QueueJobs.store q) r) as [e He];
        [done|].
      exists e. split; [done|].
      destruct (decide (r = ref)) as [->|Hne].
      - assert (e = entry) as -> by congruence.
        destruct (l_kept _ _ _ _ L ref e4 H4b) as (e2 & He2 & K).
        assert (e2 = e') as -> by congruence.
        eapply kept_trans; [done|exists []; by rewrite app_nil_r| |exact K].
        exact K4.
      - rewrite <- H4r in He by done.
        destruct (l_kept _ _ _ _ L r e He) as (e2 & He2 & K). congruence. }
    split.
    + intros r e' Hr' Hpe'. destruct (Hold r e' Hr') as (e & He & K).
      pose proof (kept_pending _ _ _ K Hpe') as Hpe.
      destruct (decide (r = ref)) as [->|Hne].
      * assert (e = entry) as -> by congruence.
        destruct (l_job _ _ _ _ L ref e' Hreft Hr') as (e4' & He4 & E).
        rewrite H4b in He4. injection He4 as <-.
        cbn [QueueJobs.job e4 QueueJobs.with_job] in E.
        destruct (Hv ref entry Href Hpe) as [[Ho Hnc]|(Hc & Hh & Hcd)].
        -- destruct (decide (completed j')) as [Hc|Hc].
           ++ exfalso.
              assert (Hin : Job.JobEmit JOB_COMPLETED ∈ l).
              { unfold completed in Hc. rewrite Hsig in Hc.
                apply elem_of_app in Hc as [Hc|Hc]; done. }
              eapply (resolved_signals _ ref l q4 e4 e' led_startNextJob
                        Hw4 (Hc4 Hin) H4b); [|done|done].
              right. by split.
           ++ left. rewrite E. split; [|done].
              destruct K as (_ & _ & K). by apply K.
        -- right. rewrite E. split; [by eapply grows_completed|].
           by eapply step_instant.
      * destruct (decide (r ∈ t)) as [Hin|Hin].
        -- assert (Hrq : r ∈ QueueJobs.queuedJobs q).
           { change (QueueJobs.queuedJobs q) with (QueueJobs.queuedJobs q4).
             rewrite (l_queued _ _ _ _ L). apply elem_of_app. by left. }
           destruct (t_queued 0 q Ht r e Hrq He) as [Hf _].
           pose proof (fresh_not_completed _ Hf) as Hnc.
           destruct (Hv r e He Hpe) as [[Ho _]|[Hc _]]; [|done].
           left. eapply (taken_vowed q4 q' r e e');
                   [by apply (l_settled _ _ _ _ L)|done| |done..].
           by rewrite H4r.
        -- rewrite (l_frame _ _ _ _ L r), H4r in Hr'; try done;
             [|by intros ->%list_elem_of_singleton].
           assert (e' = e) as -> by congruence. by apply (Hv r e).
    + intros r e' Hr'. destruct (Hold r e' Hr') as (e & He & K).
      apply (promised_kept q _ e e'); try done.
      * exact (l_dir _ _ _ _ L).
      * exact (l_written _ _ _ _ L).
      * apply (Hp r e He).
Qed.

Lemma run_vowed (evs : list QueueJobs.Event) (q q' : QueueJobs.t) :
  sound evs → turning 0 q → busy q → vowed q → promised q →
  QueueJobs.run evs q = Some q' →
  vowed q' ∧ promised q'.
Proof.
  revert q. induction evs as [|ev evs IH]; intros q Hs Ht Hb Hv Hp Hrun.
  - by injection Hrun as <-.
  - cbn [QueueJobs.run] in Hrun.
    destruct (QueueJobs.step ev q) as [q1|] eqn:Hstep; [|done].
    apply Forall_cons in Hs as [Hev Hs].
    assert (Hs1 : sound [ev]) by (unfold sound; by rewrite Forall_singleton).
    destruct (step_turn ev q q1) as [Ht1 Hb1]; try done.
    destruct (step_vowed ev q q1) as [Hv1 Hp1]; try done.
    by apply (IH q1).
Qed.

Lemma vowed_new (dir : option string) :
  vowed (QueueJobs.new dir) ∧ promised (QueueJobs.new dir).
Proof. split; intros r e Hr; done. Qed.

(** X19. The promise [queueJob] returns is never rejected. The listener
    hung on the job resolves it, with the name of the job, not before
    the job has emitted JOB_COMPLETED, once, and then the export of the
    job was handed to [fs.writeFile] where the queue persists to a
    directory. A job that has emitted JOB_COMPLETED while its promise is
    still pending has no operations and no cooldown. *)
Theorem queue_promise_follows_completion (dir : option string)
    (evs : list QueueJobs.Event) (q : QueueJobs.t) (r : nat)
    (e : QueueJobs.Entry) :
  sound evs →
  QueueJobs.run evs (QueueJobs.new dir) = Some q →
  QueueJobs.store q !! r = Some e →
  (QueueJobs.promise e = Queue.Pending ∨
   QueueJobs.promise e = Queue.Resolved (Job.name (QueueJobs.job e))) ∧
  (QueueJobs.promise e ≠ Queue.Pending →
   completions (QueueJobs.job e) = 1%nat ∧
   Job.status (QueueJobs.job e) = COMPLETED ∧
   (Queue.hasDir (QueueJobs.accessors q) = true →
    Queue.persistedPath (QueueJobs.accessors q)
      (Job.name (QueueJobs.job e)) ∈ QueueJobs.written q)) ∧
  (completions (QueueJobs.job e) = 1%nat →
   QueueJobs.promise e = Queue.Pending →
   Job.heap (QueueJobs.job e) = [] ∧ Job.cooldown (QueueJobs.job e) = 0).
Proof.
  intros Hsound Hrun He.
  destruct (turning_new dir) as [Ht0 Hb0].
  destruct (vowed_new dir) as [Hv0 Hp0].
  destruct (run_turn evs _ q Hsound Ht0 Hb0 Hrun) as [Ht Hb].
  destruct (run_vowed evs _ q Hsound Ht0 Hb0 Hv0 Hp0 Hrun) as [Hv Hp].
  split; [|split].
  - destruct (Hp r e He) as [H|(H & _)]; auto.
  - intros Hne. destruct (Hp r e He) as [H|(H & Hc & Hx)]; [done|].
    assert (Hin : Some r ∈ turns q).
    { rewrite (t_order 0 q Ht). apply list_elem_of_fmap_2, elem_of_seq.
      apply lookup_lt_Some in He. lia. }
    unfold turns in Hin.
    apply elem_of_app in Hin as [Hin|Hin%elem_of_app].
    + destruct (t_completed 0 q Ht r e Hin He) as (B & K).
      split; [done|]. split; [|exact Hx]. by rewrite (begun_status _ B), K.
    + exfalso. destruct Hin as [Hin|Hin].
      * destruct (QueueJobs.currentJob q) as [c|] eqn:Hcur;
          [|by apply not_elem_of_nil in Hin].
        apply list_elem_of_singleton in Hin. injection Hin as ->.
        destruct (t_current 0 q Ht c e Hcur He) as (_ & K & _).
        apply completed_count in Hc. lia.
      * apply list_elem_of_fmap in Hin as (r' & [= <-] & Hin).
        destruct (t_queued 0 q Ht r e Hin He) as [Hf _].
        by apply fresh_not_completed in Hf.
  - intros Hk Hpe. destruct (Hv r e He Hpe) as [[_ Hn]|(_ & H)]; [|done].
    exfalso. apply Hn, completed_count. lia.
Qed.

Lemma queue_promise_follows_completion_witness :
  ∃ q e,
    QueueJobs.run
      [QueueJobs.QueueJob "A" ["a"] (Scenario.params 1 1 0);
       QueueJobs.QueueJob "B" [] (Scenario.params 1 1 0);
       QueueJobs.JobEvent 0 (Job.Fire 0);
       QueueJobs.JobEvent 0 (Job.Settle 0 (Resolve "ok"))]
      (QueueJobs.new (Some "out")) = Some q ∧
    QueueJobs.store q !! 1%nat = Some e ∧
    (QueueJobs.promise e = Queue.Pending ∨
     QueueJobs.promise e = Queue.Resolved (Job.name (QueueJobs.job e))).
Proof.
  set (evs := [QueueJobs.QueueJob "A" ["a"] (Scenario.params 1 1 0);
               QueueJobs.QueueJob "B" [] (Scenario.params 1 1 0);
               QueueJobs.JobEvent 0 (Job.Fire 0);
               QueueJobs.JobEvent 0 (Job.Settle 0 (Resolve "ok"))]).
  destruct (QueueJobs.run evs (QueueJobs.new (Some "out"))) as [q|] eqn:Hrun;
    [|vm_compute in Hrun; discriminate].
  destruct (QueueJobs.store q !! 1%nat) as [e|] eqn:He.
  - exists q, e. split; [done|]. split; [done|].
    refine (proj1 (queue_promise_follows_completion (Some "out") evs q 1 e
                     _ Hrun He)).
    repeat constructor; vm_compute; discriminate.
  - exfalso. vm_compute in Hrun. injection Hrun as <-.
    vm_compute in He. discriminate.
Defined.

(** *** A job that completes inside [queueJob] *)

Lemma instant_start (name : string) (p : Job.Params) :
  1 ≤ Job.p_maxConcurrentOperations p → Job.p_cooldown p = 0 →
  let j := Job.start (Job.new name [] p) in
  Job.status j = COMPLETED ∧ Job.timers j = [] ∧ Job.heap j = [] ∧
  Job.name j = name ∧
  Job.log j = [Job.JobEmit JOB_STARTED; Job.JobEmit JOB_COMPLETED].
Proof.
  intros Hmax Hcd. cbn zeta. unfold Job.start. rewrite decide_False by done.
  set (j1 := Job.emit JOB_STARTED (Job.with_status STARTED _)).
  rewrite startNextOperation_unfold.
  change (Job.cooldown j1) with (Job.p_cooldown p).
  rewrite bool_decide_false by (by intros ?). cbn [andb].
  rewrite isFull_false, isComplete_true by (done || (cbn; lia)).
  rewrite decide_False by done. done.
Qed.

Lemma startNextJob_rec_idle (fuel : nat) (q : QueueJobs.t) :
  QueueJobs.queuedJobs q = [] → QueueJobs.startNextJob_rec fuel q = q.
Proof.
  intros Hq. destruct fuel as [|fuel]; [done|].
  cbn [QueueJobs.startNextJob_rec]. rewrite Hq.
  by destruct (negb (QueueJobs.isRunning q) && QueueJobs.isPending q).
Qed.

Lemma startNextJob_rec_start (fuel : nat) (q : QueueJobs.t) (ref : nat)
    (rest : list nat) :
  QueueJobs.currentJob q = None → QueueJobs.queuedJobs q = ref :: rest →
  QueueJobs.startNextJob_rec (S fuel) q
  = QueueJobs.jobStart (QueueJobs.startNextJob_rec fuel) ref
      (QueueJobs.update ref
         (λ e, QueueJobs.with_listeners (S (QueueJobs.forwarders e))
                 (QueueJobs.completedListeners e ++ [QueueJobs.Forwarder]) e)
         (QueueJobs.update ref
            (λ e, QueueJobs.with_listeners (QueueJobs.forwarders e)
                    (QueueJobs.completedListeners e
                       ++ [QueueJobs.OnCompleted]) e)
            (QueueJobs.with_current (Some ref)
               (QueueJobs.with_queued rest q)))).
Proof.
  intros Hcur Hq.
  change (QueueJobs.startNextJob_rec (S fuel) q)
    with (if negb (QueueJobs.isRunning q) && QueueJobs.isPending q then
            match QueueJobs.queuedJobs q with
            | [] => q
            | ref :: rest =>
                QueueJobs.jobStart (QueueJobs.startNextJob_rec fuel) ref
                  (QueueJobs.update ref
                     (λ e, QueueJobs.with_listeners
                             (S (QueueJobs.forwarders e))
                             (QueueJobs.completedListeners e
                                ++ [QueueJobs.Forwarder]) e)
                     (QueueJobs.update ref
                        (λ e, QueueJobs.with_listeners
                                (QueueJobs.forwarders e)
                                (QueueJobs.completedListeners e
                                   ++ [QueueJobs.OnCompleted]) e)
                        (QueueJobs.with_current (Some ref)
                           (QueueJobs.with_queued rest q))))
            end
          else q).
  unfold QueueJobs.isRunning, QueueJobs.isPending. rewrite Hcur, Hq.
  by rewrite bool_decide_false by (by intros [? ?]).
Qed.

Lemma queueJob_instant (name : string) (p : Job.Params) (q : QueueJobs.t) :
  QueueJobs.currentJob q = None → QueueJobs.queuedJobs q = [] →
  1 ≤ Job.p_maxConcurrentOperations p → Job.p_cooldown p = 0 →
  let q1 := QueueJobs.queueJob name [] p q in
  QueueJobs.store q1 !! length (QueueJobs.store q)
  = Some {| QueueJobs.job := Job.start (Job.new name [] p);
            QueueJobs.forwarders := 1;
            QueueJobs.completedListeners :=
              [QueueJobs.OnCompleted; QueueJobs.Forwarder;
               QueueJobs.OnceQueued];
            QueueJobs.promise := Queue.Pending |} ∧
  QueueJobs.queuedJobs q1 = [] ∧
  QueueJobs.currentJob q1 = None ∧
  QueueJobs.completedJobs q1
  = QueueJobs.completedJobs q ++ [Some (length (QueueJobs.store q))] ∧
  QueueJobs.written q1 = QueueJobs.written q ∧
  QueueJobs.emitted q1
  = QueueJobs.emitted q ++ [(name, Job.JobEmit JOB_STARTED);
                            (name, Job.JobEmit JOB_COMPLETED)].
Proof.
  intros Hcur Hq Hmax Hcd. cbn zeta.
  destruct (instant_start name p Hmax Hcd) as (Hst & Htm & Hh & Hname & Hlog).
  unfold QueueJobs.queueJob, QueueJobs.startNextJob.
  set (u := length (QueueJobs.store q)).
  set (entry := {| QueueJobs.job := Job.new name [] p |}).
  set (j' := Job.start (Job.new name [] p)) in *.
  set (q1 := QueueJobs.with_index _ _).
  set (g := λ e : QueueJobs.Entry, QueueJobs.with_listeners _ _ e).
  set (next := QueueJobs.startNextJob_rec 1).
  set (f1 := λ e : QueueJobs.Entry,
         QueueJobs.with_listeners (QueueJobs.forwarders e)
           (QueueJobs.completedListeners e ++ [QueueJobs.OnCompleted]) e).
  set (f2 := λ e : QueueJobs.Entry,
         QueueJobs.with_listeners (S (QueueJobs.forwarders e))
           (QueueJobs.completedListeners e ++ [QueueJobs.Forwarder]) e).
  set (q3 := QueueJobs.update u f2
               (QueueJobs.update u f1
                  (QueueJobs.with_current (Some u)
                     (QueueJobs.with_queued [] q1)))).
  set (e4 := QueueJobs.with_job j' (f2 (f1 entry))).
  set (q4 := QueueJobs.update u (QueueJobs.with_job j') q3).
  set (q5 := QueueJobs.with_emitted
               (QueueJobs.emitted q4 ++ [(name, Job.JobEmit JOB_STARTED)]) q4).
  set (q6 := QueueJobs.with_current None
               (QueueJobs.with_completed
                  (QueueJobs.completedJobs q5 ++ [QueueJobs.currentJob q5])
                  q5)).
  set (q7 := QueueJobs.with_emitted
               (QueueJobs.emitted q6 ++ [(name, Job.JobEmit JOB_COMPLETED)])
               q6).
  assert (H3 : QueueJobs.store q3 !! u = Some (f2 (f1 entry))).
  { unfold q3, q1. unfold_queue.
    by rewrite !list_lookup_alter_eq, list_lookup_middle. }
  assert (H4 : QueueJobs.store q4 !! u = Some e4).
  { unfold q4. unfold_queue. rewrite list_lookup_alter_eq.
    fold (QueueJobs.store q3). by rewrite H3. }
  assert (Hrec : QueueJobs.startNextJob_rec 2 q1
                 = QueueJobs.jobStart next u q3).
  { apply startNextJob_rec_start; unfold q1; unfold_queue; [done|].
    by rewrite Hq. }
  assert (HA : QueueJobs.deliver next u (Job.JobEmit JOB_STARTED) q4 = q5).
  { unfold QueueJobs.deliver. rewrite H4.
    change (QueueJobs.forwarders e4) with 1%nat. cbn [Nat.iter nat_rect].
    unfold QueueJobs.forward. rewrite H4.
    change (Job.name (QueueJobs.job e4)) with (Job.name j').
    by rewrite Hname. }
  assert (HB : QueueJobs.deliver next u (Job.JobEmit JOB_COMPLETED) q5 = q7).
  { unfold QueueJobs.deliver.
    change (QueueJobs.store q5) with (QueueJobs.store q4). rewrite H4.
    change (QueueJobs.completedListeners e4)
      with [QueueJobs.OnCompleted; QueueJobs.Forwarder].
    cbn [foldl QueueJobs.callListener]. unfold QueueJobs.handleJobComplete.
    fold q6. unfold next. rewrite startNextJob_rec_idle by done.
    unfold QueueJobs.forward.
    change (QueueJobs.store q6) with (QueueJobs.store q4). rewrite H4.
    change (Job.name (QueueJobs.job e4)) with (Job.name j').
    by rewrite Hname. }
  assert (HS : QueueJobs.jobStart next u q3 = q7).
  { unfold QueueJobs.jobStart. rewrite H3. unfold QueueJobs.deliverAll.
    change (QueueJobs.job (f2 (f1 entry))) with (Job.new name [] p).
    fold j'. fold q4. rewrite Hlog.
    change (drop _ _) with [Job.JobEmit JOB_STARTED;
                            Job.JobEmit JOB_COMPLETED].
    cbn [foldl]. by rewrite HA, HB. }
  assert (Hq1 : QueueJobs.queuedJobs q1 = [u]).
  { unfold q1. unfold_queue. by rewrite Hq. }
  rewrite Hq1. cbn [length]. rewrite Hrec, HS.
  split; [|split; [|split; [|split; [|split]]]].
  - unfold_queue. rewrite list_lookup_alter_eq.
    change (QueueJobs.store q7) with (QueueJobs.store q4). by rewrite H4.
  - done.
  - done.
  - unfold q7, q6, q5, q4, q3, q1. unfold_queue. done.
  - done.
  - unfold q7, q6, q5, q4, q3, q1. unfold_queue. by rewrite <- app_assoc.
Qed.

Lemma queueJob_NoDup (q : QueueJobs.t) :
  turning 0 q →
  NoDup (QueueJobs.queuedJobs q ++ [length (QueueJobs.store q)]).
Proof.
  intros Ht. apply NoDup_app. split; [by eapply turning_NoDup|].
  split; [|apply NoDup_singleton].
  intros r Hr ->%list_elem_of_singleton.
  pose proof (turning_queued_lt 0 q _ Ht Hr). lia.
Qed.

(** A job that does not wait and that nothing moves any more is left as
    it is, with what hangs on it. *)
Lemma step_frame (ev : QueueJobs.Event) (q q' : QueueJobs.t) (u : nat)
    (e : QueueJobs.Entry) :
  turning 0 q → QueueJobs.step ev q = Some q' →
  QueueJobs.store q !! u = Some e → u ∉ QueueJobs.queuedJobs q →
  (∀ ev, Job.step ev (QueueJobs.job e) = None) →
  QueueJobs.store q' !! u = Some e ∧ u ∉ QueueJobs.queuedJobs q'.
Proof.
  intros Ht Hstep He Hu Hdead.
  destruct ev as [name data p|ref ev]; cbn [QueueJobs.step] in Hstep.
  - injection Hstep as <-. unfold QueueJobs.queueJob.
    set (n := length (QueueJobs.store q)).
    set (q1 := QueueJobs.with_index _ _).
    assert (Hne : u ≠ n).
    { apply lookup_lt_Some in He. unfold n. lia. }
    destruct (led_startNextJob q1) as [t L].
    { unfold q1. unfold_queue. by apply queueJob_NoDup. }
    assert (Hu1 : u ∉ QueueJobs.queuedJobs q1).
    { unfold q1. unfold_queue.
      intros [H|H%list_elem_of_singleton]%elem_of_app; done. }
    rewrite (l_queued _ _ _ _ L) in Hu1.
    unfold_queue. rewrite list_lookup_alter_ne by done.
    rewrite (l_frame _ _ _ _ L u).
    + split; [|intros ?; apply Hu1, elem_of_app; by right].
      unfold q1. unfold_queue. by apply lookup_app_l_Some.
    + apply not_elem_of_nil.
    + intros ?. apply Hu1, elem_of_app. by left.
  - destruct (QueueJobs.store q !! ref) as [entry|] eqn:Href; [|done].
    destruct (Job.step ev (QueueJobs.job entry)) as [j'|] eqn:Hj; [|done].
    injection Hstep as <-. unfold QueueJobs.deliverAll.
    assert (Hne : u ≠ ref).
    { intros ->. assert (entry = e) as -> by congruence.
      by rewrite Hdead in Hj. }
    pose proof (extends_grows _ j' (extends_step ev _ j' Hj)) as Hg.
    pose proof (grows_signals _ j' Hg) as Hsig.
    set (l := drop _ (Job.log j')) in *.
    set (q4 := QueueJobs.update ref (QueueJobs.with_job j') q).
    assert (Hw4 : not_waiting ref q4).
    { split; [exact (turning_NoDup 0 q Ht)|]. intros Hin.
      destruct (t_queued 0 q Ht ref entry Hin Href) as [Hf _].
      pose proof (fresh_no_step ev _ Hf) as Hno. congruence. }
    assert (Hc4 : Job.JobEmit JOB_COMPLETED ∈ l → completed_at ref q4).
    { intros Hin e' He'. unfold q4 in He'. unfold_queue.
      rewrite list_lookup_alter_eq, Href in He'. injection He' as <-.
      unfold completed. cbn [QueueJobs.job QueueJobs.with_job].
      rewrite Hsig. apply elem_of_app. by right. }
    destruct (led_signals QueueJobs.startNextJob ref l q4
                led_startNextJob Hw4 Hc4) as [t L].
    assert (Hu4 : u ∉ QueueJobs.queuedJobs q4) by done.
    rewrite (l_queued _ _ _ _ L) in Hu4.
    rewrite (l_frame _ _ _ _ L u).
    + split; [|intros ?; apply Hu4, elem_of_app; by right].
      unfold q4. unfold_queue. by rewrite list_lookup_alter_ne.
    + by intros ->%list_elem_of_singleton.
    + intros ?. apply Hu4, elem_of_app. by left.
Qed.

Lemma run_frame (evs : list QueueJobs.Event) (q q' : QueueJobs.t) (u : nat)
    (e : QueueJobs.Entry) :
  sound evs → turning 0 q → busy q → QueueJobs.run evs q = Some q' →
  QueueJobs.store q !! u = Some e → u ∉ QueueJobs.queuedJobs q →
  (∀ ev, Job.step ev (QueueJobs.job e) = None) →
  QueueJobs.store q' !! u = Some e.
Proof.
  revert q. induction evs as [|ev evs IH]; intros q Hs Ht Hb Hrun He Hu Hd.
  - by injection Hrun as <-.
  - cbn [QueueJobs.run] in Hrun.
    destruct (QueueJobs.step ev q) as [q1|] eqn:Hstep; [|done].
    apply Forall_cons in Hs as [Hev Hs].
    destruct (step_turn ev q q1) as [Ht1 Hb1]; try done.
    { unfold sound. by rewrite Forall_singleton. }
    destruct (step_frame ev q q1 u e) as [He1 Hu1]; try done.
    by apply (IH q1).
Qed.

(** X20. A job without data and without a cooldown that is handed to a
    queue that is idle completes inside [queueJob], before the listener
    that resolves the promise is hung on it: [queueJob] returns with the
    job COMPLETED, its JOB_STARTED and JOB_COMPLETED emitted by the
    queue and nothing handed to [fs.writeFile], and whatever happens to
    the queue afterwards the promise stays pending and the listener is
    never called. *)
Theorem instant_job_promise_stays_pending (dir : option string)
    (before after : list QueueJobs.Event) (q q' : QueueJobs.t)
    (name : string) (p : Job.Params) :
  sound before → QueueJobs.run before (QueueJobs.new dir) = Some q →
  QueueJobs.currentJob q = None →
  1 ≤ Job.p_maxConcurrentOperations p → Job.p_cooldown p = 0 →
  sound after →
  QueueJobs.run after (QueueJobs.queueJob name [] p q) = Some q' →
  QueueJobs.written (QueueJobs.queueJob name [] p q) = QueueJobs.written q ∧
  QueueJobs.emitted (QueueJobs.queueJob name [] p q)
  = QueueJobs.emitted q ++ [(name, Job.JobEmit JOB_STARTED);
                            (name, Job.JobEmit JOB_COMPLETED)] ∧
  ∃ e, QueueJobs.store q' !! length (QueueJobs.store q) = Some e ∧
       Job.status (QueueJobs.job e) = COMPLETED ∧
       Job.log (QueueJobs.job e)
       = [Job.JobEmit JOB_STARTED; Job.JobEmit JOB_COMPLETED] ∧
       QueueJobs.promise e = Queue.Pending ∧
       QueueJobs.completedListeners e
       = [QueueJobs.OnCompleted; QueueJobs.Forwarder; QueueJobs.OnceQueued].
Proof.
  intros Hs0 Hrun0 Hcur Hmax Hcd Hs Hrun.
  destruct (turning_new dir) as [Ht0 Hb0].
  destruct (run_turn before _ q Hs0 Ht0 Hb0 Hrun0) as [Ht Hb].
  destruct (queueJob_instant name p q Hcur (Hb Hcur) Hmax Hcd)
    as (He & Hq & _ & _ & Hw & Hem).
  destruct (instant_start name p Hmax Hcd) as (Hst & Htm & Hh & _ & Hlog).
  split; [exact Hw|]. split; [exact Hem|].
  exists {| QueueJobs.job := Job.start (Job.new name [] p);
            QueueJobs.forwarders := 1;
            QueueJobs.completedListeners :=
              [QueueJobs.OnCompleted; QueueJobs.Forwarder;
               QueueJobs.OnceQueued];
            QueueJobs.promise := Queue.Pending |}.
  split; [|by repeat split].
  destruct (step_turn (QueueJobs.QueueJob name [] p) q
              (QueueJobs.queueJob name [] p q)) as [Ht1 Hb1]; try done.
  { unfold sound. rewrite Forall_singleton. lia. }
  eapply (run_frame after _ q'); try done.
  - rewrite Hq. apply not_elem_of_nil.
  - intros [k|r o]; cbn [Job.step QueueJobs.job].
    + by rewrite Htm.
    + by rewrite Hh.
Qed.

Lemma instant_job_promise_stays_pending_witness :
  QueueJobs.written
    (QueueJobs.queueJob "none" [] (Scenario.params 1 1 0)
       (QueueJobs.new (Some "out")))
  = [] ∧
  QueueJobs.emitted
    (QueueJobs.queueJob "none" [] (Scenario.params 1 1 0)
       (QueueJobs.new (Some "out")))
  = [("none", Job.JobEmit JOB_STARTED); ("none", Job.JobEmit JOB_COMPLETED)] ∧
  ∃ e, QueueJobs.store
         (QueueJobs.queueJob "A" ["a"] (Scenario.params 1 1 0)
            (QueueJobs.queueJob "none" [] (Scenario.params 1 1 0)
               (QueueJobs.new (Some "out")))) !! 0%nat = Some e ∧
       Job.status (QueueJobs.job e) = COMPLETED ∧
       Job.log (QueueJobs.job e)
       = [Job.JobEmit JOB_STARTED; Job.JobEmit JOB_COMPLETED] ∧
       QueueJobs.promise e = Queue.Pending ∧
       QueueJobs.completedListeners e
       = [QueueJobs.OnCompleted; QueueJobs.Forwarder; QueueJobs.OnceQueued].
Proof.
  apply (instant_job_promise_stays_pending (Some "out") []
           [QueueJobs.QueueJob "A" ["a"] (Scenario.params 1 1 0)]
           (QueueJobs.new (Some "out")) _ "none" (Scenario.params 1 1 0)).
  - constructor.
  - reflexivity.
  - reflexivity.
  - vm_compute. discriminate.
  - reflexivity.
  - repeat constructor. vm_compute. discriminate.
  - reflexivity.
Defined.

(** ** The queue forwards the events of its jobs *)

(** *** Names and the backlog *)

Lemma after_refl (q : QueueJobs.t) : after q q.
Proof. split; [done|]. split; [done|]. exists []. by rewrite app_nil_r. Qed.

Lemma after_trans (q1 q2 q3 : QueueJobs.t) :
  after q1 q2 → after q2 q3 → after q1 q3.
Proof.
  intros (A1 & A2 & w1 & A3) (B1 & B2 & w2 & B3).
  split; [congruence|]. split; [auto|].
  exists (w1 ++ w2). by rewrite B3, A3, app_assoc.
Qed.

Lemma after_fields (q q' : QueueJobs.t) :
  QueueJobs.store q' = QueueJobs.store q →
  QueueJobs.queuedJobs q' = QueueJobs.queuedJobs q →
  (∃ w, QueueJobs.emitted q' = QueueJobs.emitted q ++ w) →
  after q q'.
Proof. intros Hs Hq Hw. unfold after, job_names. by rewrite Hs, Hq. Qed.

Lemma emitted_same (q q' : QueueJobs.t) :
  QueueJobs.emitted q' = QueueJobs.emitted q →
  ∃ w, QueueJobs.emitted q' = QueueJobs.emitted q ++ w.
Proof. intros ->. exists []. by rewrite app_nil_r. Qed.

Lemma job_names_update (ref : nat) (f : QueueJobs.Entry → QueueJobs.Entry)
    (q : QueueJobs.t) :
  (∀ e, QueueJobs.store q !! ref = Some e →
        Job.name (QueueJobs.job (f e)) = Job.name (QueueJobs.job e)) →
  job_names (QueueJobs.update ref f q) = job_names q.
Proof.
  intros Hf. unfold job_names. unfold_queue. apply list_eq. intros i.
  rewrite !list_lookup_fmap. destruct (decide (i = ref)) as [->|Hne].
  - rewrite list_lookup_alter_eq.
    destruct (QueueJobs.store q !! ref) as [e|]; cbn; [|done].
    by rewrite Hf.
  - by rewrite list_lookup_alter_ne.
Qed.

Lemma after_update (ref : nat) (f : QueueJobs.Entry → QueueJobs.Entry)
    (q : QueueJobs.t) :
  (∀ e, QueueJobs.store q !! ref = Some e →
        Job.name (QueueJobs.job (f e)) = Job.name (QueueJobs.job e)) →
  after q (QueueJobs.update ref f q).
Proof.
  intros Hf. split; [by apply job_names_update|]. split; [done|].
  by apply emitted_same.
Qed.

Lemma after_forward (ref : nat) (s : Job.Signal) (q : QueueJobs.t) :
  after q (QueueJobs.forward ref s q).
Proof.
  unfold QueueJobs.forward.
  destruct (QueueJobs.store q !! ref); [|apply after_refl].
  apply after_fields; try done. by eexists.
Qed.

Lemma after_iter (n ref : nat) (s : Job.Signal) (q : QueueJobs.t) :
  after q (Nat.iter n (QueueJobs.forward ref s) q).
Proof.
  induction n as [|n IH]; [apply after_refl|].
  change (Nat.iter (S n) (QueueJobs.forward ref s) q)
    with (QueueJobs.forward ref s (Nat.iter n (QueueJobs.forward ref s) q)).
  eapply after_trans; [exact IH|apply after_forward].
Qed.

Lemma after_listener (next : QueueJobs.t → QueueJobs.t) (ref : nat)
    (l : QueueJobs.Listener) (q : QueueJobs.t) :
  next_after next → after q (QueueJobs.callListener next ref l q).
Proof.
  intros Hnext. destruct l; cbn [QueueJobs.callListener].
  - unfold QueueJobs.handleJobComplete.
    eapply after_trans; [|apply Hnext].
    apply after_fields; try done. by apply emitted_same.
  - apply after_forward.
  - set (g := λ e : QueueJobs.Entry, QueueJobs.with_promise _ _).
    destruct (export_store ref (QueueJobs.update ref g q))
      as (E1 & E2 & _).
    apply (after_trans _ (QueueJobs.update ref g q));
      [by apply after_update|].
    apply after_fields; [exact E1|exact E2|]. apply emitted_same.
    unfold QueueJobs.exportJobIfNeeded.
    destruct (QueueJobs.store _ !! ref); [|done].
    by destruct (Queue.hasDir _).
Qed.

Lemma after_listeners (next : QueueJobs.t → QueueJobs.t) (ref : nat)
    (ls : list QueueJobs.Listener) (q : QueueJobs.t) :
  next_after next →
  after q (foldl (λ q l, QueueJobs.callListener next ref l q) q ls).
Proof.
  intros Hnext. revert q. induction ls as [|l ls IH]; intros q;
    [apply after_refl|].
  cbn [foldl]. eapply after_trans; [by apply after_listener|apply IH].
Qed.

Lemma after_deliver (next : QueueJobs.t → QueueJobs.t) (ref : nat)
    (s : Job.Signal) (q : QueueJobs.t) :
  next_after next → after q (QueueJobs.deliver next ref s q).
Proof.
  intros Hnext. unfold QueueJobs.deliver.
  destruct (QueueJobs.store q !! ref) as [e|]; [|apply after_refl].
  destruct s as [| [] | |]; try apply after_refl; try apply after_iter.
  by apply after_listeners.
Qed.

Lemma after_signals (next : QueueJobs.t → QueueJobs.t) (ref : nat)
    (l : list Job.Signal) (q : QueueJobs.t) :
  next_after next →
  after q (foldl (λ q s, QueueJobs.deliver next ref s q) q l).
Proof.
  intros Hnext. revert q. induction l as [|s l IH]; intros q;
    [apply after_refl|].
  cbn [foldl]. eapply after_trans; [by apply after_deliver|apply IH].
Qed.

Lemma after_rec (fuel : nat) : next_after (QueueJobs.startNextJob_rec fuel).
Proof.
  induction fuel as [|fuel IH]; intros q; cbn [QueueJobs.startNextJob_rec];
    [apply after_refl|].
  destruct (negb (QueueJobs.isRunning q) && QueueJobs.isPending q);
    [|apply after_refl].
  destruct (QueueJobs.queuedJobs q) as [|b rest] eqn:Hq; [apply after_refl|].
  set (q3 := QueueJobs.update b _ _).
  assert (A3 : after q q3).
  { split; [|split].
    - unfold q3. by rewrite !job_names_update.
    - intros r Hr. rewrite Hq. by right.
    - by apply emitted_same. }
  unfold QueueJobs.jobStart.
  destruct (QueueJobs.store q3 !! b) as [e3|] eqn:He3; [|done].
  unfold QueueJobs.deliverAll.
  eapply after_trans; [exact A3|].
  eapply after_trans; [|by apply after_signals].
  apply after_update. intros e He. assert (e = e3) as -> by congruence.
  apply grows_start.
Qed.

Lemma after_startNextJob : next_after QueueJobs.startNextJob.
Proof. intros q. apply after_rec. Qed.

Lemma after_is_Some (q q' : QueueJobs.t) (r : nat) :
  after q q' → is_Some (QueueJobs.store q !! r) →
  is_Some (QueueJobs.store q' !! r).
Proof.
  intros [A _] H. apply lookup_lt_is_Some in H. apply lookup_lt_is_Some.
  apply (f_equal length) in A. unfold job_names in A.
  rewrite !length_fmap in A. lia.
Qed.

Lemma after_NoDup (q q' : QueueJobs.t) :
  after q q' → NoDup (job_names q) → NoDup (job_names q').
Proof. intros [A _]. by rewrite A. Qed.

(** *** What was emitted and what is owed *)

Lemma relayed_snoc (n m : string) (s : Job.Signal) (q : QueueJobs.t) :
  relayed n (QueueJobs.with_emitted (QueueJobs.emitted q ++ [(m, s)]) q)
  = relayed n q ++ (if decide (m = n) then [s] else []).
Proof.
  unfold relayed. unfold_queue. rewrite filter_app, fmap_app. f_equal.
  rewrite filter_cons, filter_nil. cbn [fst]. by case_decide.
Qed.

Lemma job_names_inj (q : QueueJobs.t) (r r' : nat)
    (e e' : QueueJobs.Entry) :
  NoDup (job_names q) →
  QueueJobs.store q !! r = Some e → QueueJobs.store q !! r' = Some e' →
  Job.name (QueueJobs.job e) = Job.name (QueueJobs.job e') → r = r'.
Proof.
  intros Hnd Hr Hr' Hn.
  apply (NoDup_lookup _ r r' (Job.name (QueueJobs.job e)) Hnd);
    unfold job_names; rewrite list_lookup_fmap.
  - by rewrite Hr.
  - rewrite Hr'. cbn. by rewrite Hn.
Qed.

Lemma paid_ext (δ δ' : nat → list Job.Signal) (q : QueueJobs.t) :
  (∀ r, δ' r = δ r) → paid δ q → paid δ' q.
Proof.
  intros Hd [A B C D E F]. split; try done.
  - intros r e Hr. rewrite Hd. by apply A.
  - intros r e Hr Hin. rewrite Hd. by apply C.
Qed.

Lemma paid_fields (δ : nat → list Job.Signal) (q q' : QueueJobs.t) :
  QueueJobs.store q' = QueueJobs.store q →
  QueueJobs.queuedJobs q' = QueueJobs.queuedJobs q →
  QueueJobs.emitted q' = QueueJobs.emitted q →
  paid δ q → paid δ q'.
Proof.
  intros Hs Hq He [A B C D E F].
  split; unfold relayed, job_names in *; rewrite ?Hs, ?Hq, ?He; done.
Qed.

Lemma wiring_removeFirst (ls : list QueueJobs.Listener) :
  filter (λ l, l ≠ QueueJobs.OnceQueued)
    (QueueJobs.removeFirst QueueJobs.OnceQueued ls)
  = filter (λ l, l ≠ QueueJobs.OnceQueued) ls.
Proof.
  induction ls as [|l ls IH]; [done|]. cbn [QueueJobs.removeFirst].
  case_decide as E.
  - subst l. by rewrite filter_cons_False by (by intros ?).
  - rewrite !filter_cons. case_decide; by rewrite IH.
Qed.

(** Something is hung on a job or taken off it that does not call
    [handleJobComplete] and does not forward. *)
Lemma paid_update (δ : nat → list Job.Signal) (ref : nat)
    (f : QueueJobs.Entry → QueueJobs.Entry) (q : QueueJobs.t) :
  (∀ e, QueueJobs.job (f e) = QueueJobs.job e ∧
        QueueJobs.forwarders (f e) = QueueJobs.forwarders e ∧
        wiring (f e) = wiring e) →
  paid δ q → paid δ (QueueJobs.update ref f q).
Proof.
  intros Hf [A B C D E F].
  assert (Hlook : ∀ r e', QueueJobs.store (QueueJobs.update ref f q) !! r
                          = Some e' →
            ∃ e, QueueJobs.store q !! r = Some e ∧
                 QueueJobs.job e' = QueueJobs.job e ∧
                 QueueJobs.forwarders e' = QueueJobs.forwarders e ∧
                 wiring e' = wiring e).
  { intros r e'. unfold_queue. destruct (decide (r = ref)) as [->|Hne].
    - rewrite list_lookup_alter_eq.
      destruct (QueueJobs.store q !! ref) as [e|]; [|done].
      intros [= <-]. exists e. split; [done|apply Hf].
    - rewrite list_lookup_alter_ne by done. intros Hr. by exists e'. }
  split.
  - intros r e' Hr. destruct (Hlook r e' Hr) as (e & He & -> & _).
    by apply (A r e).
  - intros r e' Hr Hin. destruct (Hlook r e' Hr) as (e & He & _ & -> & ->).
    by apply (B r e).
  - intros r e' Hr Hin. destruct (Hlook r e' Hr) as (e & He & -> & -> & ->).
    by apply (C r e).
  - intros x Hx.
    rewrite job_names_update by (intros e _; by destruct (Hf e) as [-> _]).
    by apply D.
  - exact E.
  - intros r Hr. unfold_queue. rewrite length_alter. by apply F.
Qed.

(** A forwarder is called for a signal that is owed. *)
Lemma paid_forward (δ : nat → list Job.Signal) (ref : nat)
    (s : Job.Signal) (l : list Job.Signal) (q : QueueJobs.t) :
  NoDup (job_names q) → paid δ q →
  is_Some (QueueJobs.store q !! ref) → ref ∉ QueueJobs.queuedJobs q →
  δ ref = s :: l →
  paid (owing δ ref l) (QueueJobs.forward ref s q).
Proof.
  intros Hnd [A B C D E F] [e He] Hq Hd. unfold QueueJobs.forward.
  rewrite He. split.
  - intros r e' Hr. change (QueueJobs.store (QueueJobs.with_emitted _ q))
      with (QueueJobs.store q) in Hr.
    rewrite relayed_snoc. unfold owing.
    destruct (decide (r = ref)) as [->|Hne].
    + assert (e' = e) as -> by congruence.
      rewrite decide_True by done. rewrite <- app_assoc. cbn [app].
      rewrite <- Hd. by apply (A ref e).
    + rewrite decide_False; [rewrite app_nil_r; by apply (A r e')|].
      intros Hn. apply Hne. symmetry. by eapply job_names_inj.
  - exact B.
  - intros r e' Hr Hin. destruct (C r e' Hr Hin) as (C1 & C2 & C3 & C4).
    repeat split; try done. unfold owing. rewrite decide_False; [done|].
    by intros ->.
  - intros x [Hx|Hx%list_elem_of_singleton]%elem_of_app; [by apply D|].
    subst x. cbn [fst]. unfold job_names.
    apply list_elem_of_fmap.
    exists e. split; [done|]. by eapply list_elem_of_lookup_2.
  - exact E.
  - exact F.
Qed.

Lemma paid_once (δ : nat → list Job.Signal)
    (next : QueueJobs.t → QueueJobs.t) (ref : nat) (q : QueueJobs.t) :
  paid δ q →
  paid δ (QueueJobs.callListener next ref QueueJobs.OnceQueued q).
Proof.
  intros Hp. cbn [QueueJobs.callListener].
  set (g := λ e : QueueJobs.Entry, QueueJobs.with_promise _ _).
  assert (H1 : paid δ (QueueJobs.update ref g q)).
  { apply paid_update; [|done]. intros e. split; [done|]. split; [done|].
    unfold wiring, g. unfold_queue. apply wiring_removeFirst. }
  destruct (export_store ref (QueueJobs.update ref g q)) as (E1 & E2 & _).
  eapply paid_fields; [exact E1|exact E2| |exact H1].
  unfold QueueJobs.exportJobIfNeeded.
  destruct (QueueJobs.store _ !! ref); [|done].
  by destruct (Queue.hasDir _).
Qed.

Lemma paid_handle (δ : nat → list Job.Signal)
    (next : QueueJobs.t → QueueJobs.t) (q : QueueJobs.t) :
  next_pays next → NoDup (job_names q) → paid δ q →
  paid δ (QueueJobs.handleJobComplete next q).
Proof.
  intros Hnext Hnd Hp. unfold QueueJobs.handleJobComplete.
  apply Hnext; [done|]. by eapply paid_fields; [..|exact Hp].
Qed.

(** The listeners of JOB_COMPLETED that are left are those of
    [queueJob]. *)
Lemma paid_listeners_rest (δ : nat → list Job.Signal)
    (next : QueueJobs.t → QueueJobs.t) (ref : nat)
    (ls : list QueueJobs.Listener) (q : QueueJobs.t) :
  filter (λ l, l ≠ QueueJobs.OnceQueued) ls = [] →
  paid δ q →
  paid δ (foldl (λ q l, QueueJobs.callListener next ref l q) q ls).
Proof.
  revert q. induction ls as [|l ls IH]; intros q Hf Hp; [done|].
  cbn [foldl]. rewrite filter_cons in Hf.
  destruct (decide (l ≠ QueueJobs.OnceQueued)) as [Hl|Hl]; [done|].
  apply dec_stable in Hl as ->.
  apply IH; [done|]. by apply paid_once.
Qed.

(** The forwarder of JOB_COMPLETED is still to be called. *)
Lemma paid_listeners_forward (δ : nat → list Job.Signal)
    (next : QueueJobs.t → QueueJobs.t) (ref : nat)
    (l' : list Job.Signal) (ls : list QueueJobs.Listener) (q : QueueJobs.t) :
  next_after next →
  filter (λ l, l ≠ QueueJobs.OnceQueued) ls = [QueueJobs.Forwarder] →
  NoDup (job_names q) → paid δ q →
  is_Some (QueueJobs.store q !! ref) → ref ∉ QueueJobs.queuedJobs q →
  δ ref = Job.JobEmit JOB_COMPLETED :: l' →
  paid (owing δ ref l')
    (foldl (λ q l, QueueJobs.callListener next ref l q) q ls).
Proof.
  intros Hna. revert q.
  induction ls as [|l ls IH]; intros q Hf Hnd Hp Hs Hq Hd; [done|].
  cbn [foldl]. rewrite filter_cons in Hf.
  pose proof (after_listener next ref l q Hna) as Ha.
  destruct (decide (l ≠ QueueJobs.OnceQueued)) as [Hl|Hl].
  - injection Hf as -> Hf. apply paid_listeners_rest; [done|].
    by apply paid_forward.
  - apply dec_stable in Hl as ->.
    apply IH; try done.
    + by eapply after_NoDup.
    + by apply paid_once.
    + by eapply after_is_Some.
    + intros Hin. by apply Hq, (proj1 (proj2 Ha)).
Qed.

(** The job at [ref] has emitted JOB_COMPLETED: its listeners are
    called. *)
Lemma paid_listeners (δ : nat → list Job.Signal)
    (next : QueueJobs.t → QueueJobs.t) (ref : nat)
    (l' : list Job.Signal) (ls : list QueueJobs.Listener) (q : QueueJobs.t) :
  next_after next → next_pays next →
  filter (λ l, l ≠ QueueJobs.OnceQueued) ls
  = [QueueJobs.OnCompleted; QueueJobs.Forwarder] →
  NoDup (job_names q) → paid δ q →
  is_Some (QueueJobs.store q !! ref) → ref ∉ QueueJobs.queuedJobs q →
  δ ref = Job.JobEmit JOB_COMPLETED :: l' →
  paid (owing δ ref l')
    (foldl (λ q l, QueueJobs.callListener next ref l q) q ls).
Proof.
  intros Hna Hnp. revert q.
  induction ls as [|l ls IH]; intros q Hf Hnd Hp Hs Hq Hd; [done|].
  cbn [foldl]. rewrite filter_cons in Hf.
  pose proof (after_listener next ref l q Hna) as Ha.
  destruct (decide (l ≠ QueueJobs.OnceQueued)) as [Hl|Hl].
  - injection Hf as -> Hf.
    apply paid_listeners_forward; try done.
    + by eapply after_NoDup.
    + by apply paid_handle.
    + by eapply after_is_Some.
    + intros Hin. by apply Hq, (proj1 (proj2 Ha)).
  - apply dec_stable in Hl as ->.
    apply IH; try done.
    + by eapply after_NoDup.
    + by apply paid_once.
    + by eapply after_is_Some.
    + intros Hin. by apply Hq, (proj1 (proj2 Ha)).
Qed.

Lemma owing_same (δ : nat → list Job.Signal) (ref : nat) (r : nat) :
  owing δ ref (δ ref) r = δ r.
Proof. unfold owing. case_decide; by subst. Qed.

Lemma owing_twice (δ : nat → list Job.Signal) (ref : nat)
    (l l' : list Job.Signal) (r : nat) :
  owing (owing δ ref l) ref l' r = owing δ ref l' r.
Proof. unfold owing. by case_decide. Qed.

(** A signal of the job at [ref] is delivered. *)
Lemma paid_deliver (δ : nat → list Job.Signal)
    (next : QueueJobs.t → QueueJobs.t) (ref : nat) (s : Job.Signal)
    (l' : list Job.Signal) (q : QueueJobs.t) :
  next_after next → next_pays next →
  NoDup (job_names q) → paid δ q →
  is_Some (QueueJobs.store q !! ref) → ref ∉ QueueJobs.queuedJobs q →
  δ ref = (if public s then [s] else []) ++ l' →
  paid (owing δ ref l') (QueueJobs.deliver next ref s q).
Proof.
  intros Hna Hnp Hnd Hp Hs Hq Hd. unfold QueueJobs.deliver.
  destruct Hs as [e He]. rewrite He.
  destruct (pd_started _ _ Hp ref e He Hq) as [Hfw Hw].
  destruct s as [r ev| [] |ev id|tm]; cbn [public app] in Hd.
  - eapply paid_ext; [|exact Hp]. intros r'. rewrite <- Hd.
    apply owing_same.
  - rewrite Hfw. apply paid_forward; eauto.
  - apply paid_listeners; eauto.
  - rewrite Hfw. apply paid_forward; eauto.
  - eapply paid_ext; [|exact Hp]. intros r'. rewrite <- Hd.
    apply owing_same.
Qed.

(** The signals of a callback of the job at [ref] are delivered. *)
Lemma paid_signals (δ : nat → list Job.Signal)
    (next : QueueJobs.t → QueueJobs.t) (ref : nat)
    (l l' : list Job.Signal) (q : QueueJobs.t) :
  next_after next → next_pays next →
  NoDup (job_names q) → paid δ q →
  is_Some (QueueJobs.store q !! ref) → ref ∉ QueueJobs.queuedJobs q →
  δ ref = filter (λ s, public s = true) l ++ l' →
  paid (owing δ ref l')
    (foldl (λ q s, QueueJobs.deliver next ref s q) q l).
Proof.
  intros Hna Hnp. revert δ q.
  induction l as [|s l IH]; intros δ q Hnd Hp Hs Hq Hd.
  - cbn [foldl]. eapply paid_ext; [|exact Hp]. intros r.
    cbn in Hd. rewrite <- Hd. apply owing_same.
  - cbn [foldl].
    pose proof (after_deliver next ref s q Hna) as Ha.
    eapply paid_ext; [intros r; symmetry; apply (owing_twice δ ref
      (filter (λ s, public s = true) l ++ l') l' r)|].
    apply IH.
    + by eapply after_NoDup.
    + apply paid_deliver; try done. rewrite Hd, filter_cons.
      destruct (public s); [by rewrite decide_True|].
      by rewrite decide_False.
    + by eapply after_is_Some.
    + intros Hin. by apply Hq, (proj1 (proj2 Ha)).
    + unfold owing. by rewrite decide_True.
Qed.

(** *** [startNextJob] *)

Lemma wiring_snoc (e : QueueJobs.Entry) (n : nat) (l : QueueJobs.Listener) :
  wiring (QueueJobs.with_listeners n (QueueJobs.completedListeners e ++ [l]) e)
  = wiring e ++ (if decide (l ≠ QueueJobs.OnceQueued) then [l] else []).
Proof.
  unfold wiring. unfold_queue. rewrite filter_app, filter_cons, filter_nil.
  by case_decide.
Qed.

Lemma relayed_emitted (n : string) (q q' : QueueJobs.t) :
  QueueJobs.emitted q' = QueueJobs.emitted q → relayed n q' = relayed n q.
Proof. unfold relayed. by intros ->. Qed.

(** Nothing was emitted with a name that no job has. *)
Lemma relayed_none (δ : nat → list Job.Signal) (n : string)
    (q : QueueJobs.t) :
  paid δ q → n ∉ job_names q → relayed n q = [].
Proof.
  intros Hp Hn. unfold relayed.
  assert (H : Forall (λ x, x.1 ≠ n) (QueueJobs.emitted q)).
  { apply Forall_forall. intros x Hx E. apply Hn. rewrite <- E.
    by apply (pd_names _ _ Hp). }
  induction H as [|x l Hx _ IH]; [done|].
  by rewrite filter_cons_False.
Qed.

Lemma paid_rec (fuel : nat) : next_pays (QueueJobs.startNextJob_rec fuel).
Proof.
  induction fuel as [|fuel IH]; intros δ q Hnd Hp;
    cbn [QueueJobs.startNextJob_rec]; [done|].
  destruct (negb (QueueJobs.isRunning q) && QueueJobs.isPending q); [|done].
  destruct (QueueJobs.queuedJobs q) as [|b rest] eqn:Hq; [done|].
  pose proof (pd_nodup _ _ Hp) as Hndq. rewrite Hq in Hndq.
  apply NoDup_cons in Hndq as [Hb Hrest].
  destruct (lookup_lt_is_Some_2 (QueueJobs.store q) b) as [e He].
  { apply (pd_bound _ _ Hp). rewrite Hq. by left. }
  destruct (pd_queued _ _ Hp b e He) as (Hfw & Hw & Hun & Hdb).
  { rewrite Hq. by left. }
  set (f1 := λ e : QueueJobs.Entry,
         QueueJobs.with_listeners (QueueJobs.forwarders e)
           (QueueJobs.completedListeners e ++ [QueueJobs.OnCompleted]) e).
  set (f2 := λ e : QueueJobs.Entry,
         QueueJobs.with_listeners (S (QueueJobs.forwarders e))
           (QueueJobs.completedListeners e ++ [QueueJobs.Forwarder]) e).
  set (q3 := QueueJobs.update b f2 _).
  assert (H3b : QueueJobs.store q3 !! b = Some (f2 (f1 e))).
  { unfold q3. unfold_queue. by rewrite !list_lookup_alter_eq, He. }
  unfold QueueJobs.jobStart. rewrite H3b. unfold QueueJobs.deliverAll.
  change (QueueJobs.job (f2 (f1 e))) with (QueueJobs.job e).
  set (j := QueueJobs.job e) in *. set (j' := Job.start j).
  assert (Hlog : Job.log j = []) by (by destruct Hun as (? & ? & ? & ->)).
  rewrite Hlog. cbn [length drop].
  set (q4 := QueueJobs.update b (QueueJobs.with_job j') q3).
  set (e4 := QueueJobs.with_job j' (f2 (f1 e))).
  assert (H4b : QueueJobs.store q4 !! b = Some e4).
  { unfold q4. unfold_queue. rewrite list_lookup_alter_eq.
    by rewrite H3b. }
  assert (H4r : ∀ r, r ≠ b →
                  QueueJobs.store q4 !! r = QueueJobs.store q !! r).
  { intros r Hr. unfold q4, q3. unfold_queue.
    by rewrite !list_lookup_alter_ne by done. }
  assert (H4n : length (QueueJobs.store q4) = length (QueueJobs.store q)).
  { unfold q4, q3. unfold_queue. by rewrite !length_alter. }
  destruct (grows_start j) as [Hname _]. fold j' in Hname.
  assert (A4 : job_names q4 = job_names q).
  { assert (A3 : job_names q3 = job_names q)
      by (unfold q3; by rewrite !job_names_update).
    unfold q4. rewrite job_names_update; [exact A3|].
    intros e' He'. rewrite H3b in He'. by injection He' as <-. }
  assert (Hp4 : paid (owing δ b (said j')) q4).
  { split.
    - intros r e' Hr. rewrite (relayed_emitted _ q q4) by done.
      unfold owing. destruct (decide (r = b)) as [->|Hne].
      + rewrite H4b in Hr. injection Hr as <-.
        cbn [QueueJobs.job e4 QueueJobs.with_job]. rewrite Hname.
        pose proof (pd_relayed _ _ Hp b e He) as H.
        rewrite Hdb, app_nil_r in H. fold j in H. rewrite H.
        unfold said at 1. by rewrite Hlog.
      + rewrite H4r in Hr by done. by apply (pd_relayed _ _ Hp).
    - intros r e' Hr Hin. destruct (decide (r = b)) as [->|Hne].
      + rewrite H4b in Hr. injection Hr as <-. split.
        * unfold e4, f2, f1. unfold_queue. by rewrite Hfw.
        * change (wiring e4) with (wiring (f2 (f1 e))).
          unfold f2. rewrite wiring_snoc. unfold f1 at 1.
          rewrite wiring_snoc, Hw. by rewrite !decide_True.
      + rewrite H4r in Hr by done. apply (pd_started _ _ Hp r e' Hr).
        rewrite Hq. intros [->|H]%elem_of_cons; done.
    - intros r e' Hr Hin.
      assert (r ≠ b) as Hne by (by intros ->).
      rewrite H4r in Hr by done. unfold owing. rewrite decide_False by done.
      apply (pd_queued _ _ Hp r e' Hr). rewrite Hq. by right.
    - intros x Hx. rewrite A4. by apply (pd_names _ _ Hp).
    - exact Hrest.
    - intros r Hr. rewrite H4n. apply (pd_bound _ _ Hp). rewrite Hq.
      by right. }
  eapply paid_ext;
    [|apply (paid_signals (owing δ b (said j'))
               (QueueJobs.startNextJob_rec fuel) b (Job.log j') [] q4)].
  - intros r. rewrite owing_twice. unfold owing. case_decide; by subst.
  - apply after_rec.
  - exact IH.
  - by rewrite A4.
  - exact Hp4.
  - by rewrite H4b.
  - exact Hb.
  - unfold owing. rewrite decide_True by done. by rewrite app_nil_r.
Qed.

Lemma paid_startNextJob : next_pays QueueJobs.startNextJob.
Proof. intros δ q. apply paid_rec. Qed.

(** *** Between two events *)

Lemma unstarted_no_step (e : Job.Event) (j : Job.t) :
  unstarted j → Job.step e j = None.
Proof.
  intros (name & data & p & ->). destruct e as [k|r o]; [done|].
  cbn [Job.step]. unfold Job.new. unfold_job.
  rewrite list_lookup_imap. destruct (data !! r); [|done]. done.
Qed.

Lemma said_app (j j' : Job.t) (l : list Job.Signal) :
  Job.log j' = Job.log j ++ l →
  said j' = said j ++ filter (λ s, public s = true) l.
Proof. intros Hl. unfold said. by rewrite Hl, filter_app. Qed.

Lemma step_names (ev : QueueJobs.Event) (q q' : QueueJobs.t) :
  QueueJobs.step ev q = Some q' →
  ∃ more, job_names q' = job_names q ++ more.
Proof.
  destruct ev as [name data p|ref ev]; cbn [QueueJobs.step].
  - intros [= <-]. exists [name]. unfold QueueJobs.queueJob.
    rewrite job_names_update by done.
    destruct (after_startNextJob
                (QueueJobs.with_index
                   (<[name:=length (QueueJobs.store q)]>
                      (QueueJobs.jobIndex
                         (QueueJobs.with_queued
                            (QueueJobs.queuedJobs q
                               ++ [length (QueueJobs.store q)])
                            (QueueJobs.with_store
                               (QueueJobs.store q
                                  ++ [{| QueueJobs.job := Job.new name data p;
                                         QueueJobs.forwarders := 0;
                                         QueueJobs.completedListeners := [];
                                         QueueJobs.promise := Queue.Pending |}])
                               q))))
                   (QueueJobs.with_queued
                      (QueueJobs.queuedJobs q ++ [length (QueueJobs.store q)])
                      (QueueJobs.with_store
                         (QueueJobs.store q
                            ++ [{| QueueJobs.job := Job.new name data p;
                                   QueueJobs.forwarders := 0;
                                   QueueJobs.completedListeners := [];
                                   QueueJobs.promise := Queue.Pending |}])
                         q)))) as [-> _].
    unfold job_names. unfold_queue. by rewrite fmap_app.
  - destruct (QueueJobs.store q !! ref) as [entry|] eqn:Href; [|done].
    destruct (Job.step ev (QueueJobs.job entry)) as [j'|] eqn:Hj; [|done].
    intros [= <-]. exists []. rewrite app_nil_r.
    unfold QueueJobs.deliverAll.
    destruct (after_signals QueueJobs.startNextJob ref
                (drop (length (Job.log (QueueJobs.job entry))) (Job.log j'))
                (QueueJobs.update ref (QueueJobs.with_job j') q)
                after_startNextJob) as [-> _].
    apply job_names_update. intros e He.
    assert (e = entry) as -> by congruence.
    destruct (extends_step ev _ j' Hj) as (_ & N & _). exact N.
Qed.

Lemma run_names (evs : list QueueJobs.Event) (q q' : QueueJobs.t) :
  QueueJobs.run evs q = Some q' →
  ∃ more, job_names q' = job_names q ++ more.
Proof.
  revert q. induction evs as [|ev evs IH]; intros q Hrun.
  - injection Hrun as <-. exists []. by rewrite app_nil_r.
  - cbn [QueueJobs.run] in Hrun.
    destruct (QueueJobs.step ev q) as [q1|] eqn:Hstep; [|done].
    destruct (step_names ev q q1 Hstep) as [m1 H1].
    destruct (IH q1 Hrun) as [m2 H2].
    exists (m1 ++ m2). by rewrite H2, H1, app_assoc.
Qed.

Lemma step_paid (ev : QueueJobs.Event) (q q' : QueueJobs.t) :
  QueueJobs.step ev q = Some q' → NoDup (job_names q') →
  paid (λ _, []) q → paid (λ _, []) q'.
Proof.
  intros Hstep Hnd' Hp.
  destruct (step_names ev q q' Hstep) as [more Hmore].
  assert (Hnd : NoDup (job_names q)).
  { rewrite Hmore in Hnd'. by apply NoDup_app in Hnd' as (? & _). }
  destruct ev as [name data p|ref ev]; cbn [QueueJobs.step] in Hstep.
  - injection Hstep as <-. unfold QueueJobs.queueJob in *.
    set (u := length (QueueJobs.store q)) in *.
    set (entry := {| QueueJobs.job := Job.new name data p |}) in *.
    set (q1 := QueueJobs.with_index _ _) in *.
    assert (Hn1 : job_names q1 = job_names q ++ [name]).
    { unfold job_names, q1. unfold_queue. by rewrite fmap_app. }
    assert (Hnd1 : NoDup (job_names q1)).
    { rewrite job_names_update in Hnd' by done.
      destruct (after_startNextJob q1) as [E _]. by rewrite E in Hnd'. }
    assert (Hp1 : paid (λ _, []) q1).
    { split.
      - intros r e Hr. rewrite app_nil_r.
        rewrite (relayed_emitted _ q q1) by done.
        unfold q1 in Hr. unfold_queue.
        apply lookup_app_Some in Hr as [Hr|[Hlen Hr]].
        + pose proof (pd_relayed _ _ Hp r e Hr) as H.
          by rewrite app_nil_r in H.
        + apply list_lookup_singleton_Some in Hr as [_ <-].
          cbn [QueueJobs.job entry].
          change (Job.name (Job.new name data p)) with name.
          rewrite Hn1 in Hnd1. apply NoDup_app in Hnd1 as (_ & Hno & _).
          apply (relayed_none _ name q Hp). intros Hin.
          apply (Hno name Hin). by left.
      - intros r e Hr Hin. unfold q1 in Hr, Hin. unfold_queue.
        apply lookup_app_Some in Hr as [Hr|[Hlen Hr]].
        + apply (pd_started _ _ Hp r e Hr). intros ?. apply Hin.
          apply elem_of_app. by left.
        + apply list_lookup_singleton_Some in Hr as [Hr _].
          exfalso. apply Hin. apply elem_of_app. right.
          apply list_elem_of_singleton. unfold u. lia.
      - intros r e Hr Hin. unfold q1 in Hr, Hin. unfold_queue.
        apply lookup_app_Some in Hr as [Hr|[Hlen Hr]].
        + apply (pd_queued _ _ Hp r e Hr).
          apply elem_of_app in Hin as [Hin|Hin%list_elem_of_singleton];
            [done|].
          apply lookup_lt_Some in Hr. unfold u in Hin. lia.
        + apply list_lookup_singleton_Some in Hr as [_ <-].
          repeat split; try done. by exists name, data, p.
      - intros x Hx. rewrite Hn1. apply elem_of_app. left.
        by apply (pd_names _ _ Hp).
      - unfold q1. unfold_queue. apply NoDup_app.
        split; [apply (pd_nodup _ _ Hp)|]. split; [|apply NoDup_singleton].
        intros r Hr ->%list_elem_of_singleton.
        pose proof (pd_bound _ _ Hp _ Hr). unfold u in *. lia.
      - intros r Hr. unfold q1 in *. unfold_queue. rewrite length_app.
        cbn [length].
        apply elem_of_app in Hr as [Hr|Hr%list_elem_of_singleton].
        + pose proof (pd_bound _ _ Hp _ Hr). lia.
        + unfold u in Hr. lia. }
    apply paid_update.
    + intros e. split; [done|]. split; [done|].
      rewrite wiring_snoc. rewrite decide_False by (by intros ?).
      by rewrite app_nil_r.
    + by apply paid_startNextJob.
  - destruct (QueueJobs.store q !! ref) as [entry|] eqn:Href; [|done].
    destruct (Job.step ev (QueueJobs.job entry)) as [j'|] eqn:Hj; [|done].
    injection Hstep as <-. unfold QueueJobs.deliverAll.
    destruct (extends_step ev _ j' Hj) as (_ & Hname & _ & l & Hl & _).
    rewrite Hl, drop_app_length.
    set (q4 := QueueJobs.update ref (QueueJobs.with_job j') q).
    set (δ4 := owing (λ _, []) ref (filter (λ s, public s = true) l)).
    assert (Href' : ref ∉ QueueJobs.queuedJobs q).
    { intros Hin. destruct (pd_queued _ _ Hp ref entry Href Hin)
        as (_ & _ & Hun & _).
      by rewrite (unstarted_no_step ev _ Hun) in Hj. }
    assert (A4 : job_names q4 = job_names q).
    { apply job_names_update. intros e He. by assert (e = entry) as ->
        by congruence. }
    assert (Hlook : ∀ r e', QueueJobs.store q4 !! r = Some e' →
              ∃ e, QueueJobs.store q !! r = Some e ∧
                   QueueJobs.forwarders e' = QueueJobs.forwarders e ∧
                   wiring e' = wiring e ∧
                   (r ≠ ref → e' = e) ∧
                   (r = ref → e = entry ∧ QueueJobs.job e' = j')).
    { intros r e'. unfold q4. unfold_queue.
      destruct (decide (r = ref)) as [->|Hne].
      - rewrite list_lookup_alter_eq, Href. intros [= <-].
        exists entry. by repeat split.
      - rewrite list_lookup_alter_ne by done. intros Hr. exists e'.
        by repeat split. }
    assert (Hp4 : paid δ4 q4).
    { split.
      - intros r e' Hr. rewrite (relayed_emitted _ q q4) by done.
        destruct (Hlook r e' Hr) as (e & He & _ & _ & Hne & Heq).
        unfold δ4, owing. destruct (decide (r = ref)) as [->|Hr'].
        + destruct (Heq eq_refl) as [-> ->]. rewrite Hname.
          rewrite (said_app _ j' l Hl). f_equal.
          pose proof (pd_relayed _ _ Hp ref entry Href) as H.
          by rewrite app_nil_r in H.
        + rewrite (Hne Hr'). exact (pd_relayed _ _ Hp r e He).
      - intros r e' Hr Hin.
        destruct (Hlook r e' Hr) as (e & He & -> & -> & _).
        by apply (pd_started _ _ Hp r e).
      - intros r e' Hr Hin.
        destruct (Hlook r e' Hr) as (e & He & -> & -> & Hne & _).
        assert (r ≠ ref) as Hr' by (by intros ->).
        rewrite (Hne Hr'). unfold δ4, owing. rewrite decide_False by done.
        by apply (pd_queued _ _ Hp r e).
      - intros x Hx. rewrite A4. by apply (pd_names _ _ Hp).
      - apply (pd_nodup _ _ Hp).
      - intros r Hr. unfold q4. unfold_queue. rewrite length_alter.
        by apply (pd_bound _ _ Hp). }
    eapply paid_ext;
      [|apply (paid_signals δ4 QueueJobs.startNextJob ref l [] q4)].
    + intros r. unfold δ4. rewrite owing_twice. unfold owing.
      by case_decide.
    + apply after_startNextJob.
    + apply paid_startNextJob.
    + by rewrite A4.
    + exact Hp4.
    + unfold q4. unfold_queue. rewrite list_lookup_alter_eq, Href. by eexists.
    + exact Href'.
    + unfold δ4, owing. rewrite decide_True by done. by rewrite app_nil_r.
Qed.

Lemma run_paid (evs : list QueueJobs.Event) (q q' : QueueJobs.t) :
  QueueJobs.run evs q = Some q' → NoDup (job_names q') →
  paid (λ _, []) q → paid (λ _, []) q'.
Proof.
  revert q. induction evs as [|ev evs IH]; intros q Hrun Hnd Hp.
  - by injection Hrun as <-.
  - cbn [QueueJobs.run] in Hrun.
    destruct (QueueJobs.step ev q) as [q1|] eqn:Hstep; [|done].
    apply (IH q1); try done. apply (step_paid ev q q1); try done.
    destruct (run_names evs q1 q' Hrun) as [more Hm].
    rewrite Hm in Hnd. by apply NoDup_app in Hnd as (? & _).
Qed.

Lemma paid_new (dir : option string) : paid (λ _, []) (QueueJobs.new dir).
Proof.
  split; try done.
  - intros x Hx. by apply not_elem_of_nil in Hx.
  - apply NoDup_nil_2.
  - intros r Hr. by apply not_elem_of_nil in Hr.
Qed.

(** X21. A queue re-emits on its own emitter what its jobs emit on
    theirs: for jobs with pairwise distinct names, in every run, what
    the queue has emitted with the name of a job is what that job has
    emitted, the events of the job and those of its operations, each
    once and in the order of the job; and nothing for a job that still
    waits. *)
Theorem queue_forwards_each_signal_once (dir : option string)
    (evs : list QueueJobs.Event) (q : QueueJobs.t) (r : nat)
    (e : QueueJobs.Entry) :
  QueueJobs.run evs (QueueJobs.new dir) = Some q →
  NoDup (job_names q) →
  QueueJobs.store q !! r = Some e →
  relayed (Job.name (QueueJobs.job e)) q = said (QueueJobs.job e) ∧
  (r ∈ QueueJobs.queuedJobs q →
   relayed (Job.name (QueueJobs.job e)) q = []).
Proof.
  intros Hrun Hnd He.
  pose proof (run_paid evs _ q Hrun Hnd (paid_new dir)) as Hp.
  pose proof (pd_relayed _ _ Hp r e He) as H. rewrite app_nil_r in H.
  split; [exact H|]. intros Hin. rewrite H.
  destruct (pd_queued _ _ Hp r e He Hin) as (_ & _ & (n & d & p & ->) & _).
  done.
Qed.

Lemma queue_forwards_each_signal_once_witness :
  ∃ q e,
    QueueJobs.run
      [QueueJobs.QueueJob "A" ["a"] (Scenario.params 1 1 0);
       QueueJobs.QueueJob "B" [] (Scenario.params 1 1 0);
       QueueJobs.JobEvent 0 (Job.Fire 0);
       QueueJobs.JobEvent 0 (Job.Settle 0 (Resolve "ok"))]
      (QueueJobs.new None) = Some q ∧
    QueueJobs.store q !! 0%nat = Some e ∧
    relayed (Job.name (QueueJobs.job e)) q = said (QueueJobs.job e).
Proof.
  set (evs := [QueueJobs.QueueJob "A" ["a"] (Scenario.params 1 1 0);
               QueueJobs.QueueJob "B" [] (Scenario.params 1 1 0);
               QueueJobs.JobEvent 0 (Job.Fire 0);
               QueueJobs.JobEvent 0 (Job.Settle 0 (Resolve "ok"))]).
  destruct (QueueJobs.run evs (QueueJobs.new None)) as [q|] eqn:Hrun;
    [|vm_compute in Hrun; discriminate].
  destruct (QueueJobs.store q !! 0%nat) as [e|] eqn:He.
  - exists q, e. split; [done|]. split; [done|].
    refine (proj1 (queue_forwards_each_signal_once None evs q 0 e
                     Hrun _ He)).
    vm_compute in Hrun. injection Hrun as <-.
    unfold job_names. cbn [QueueJobs.store fmap list_fmap QueueJobs.job
                             Job.name].
    apply NoDup_cons. split; [|apply NoDup_singleton].
    intros H%list_elem_of_singleton. discriminate.
  - exfalso. vm_compute in Hrun. injection Hrun as <-.
    vm_compute in He. discriminate.
Defined.

(** *** The order of what the queue emits when a job hands over *)

Lemma quiet_iter (n ref : nat) (s : Job.Signal) (q : QueueJobs.t) :
  ∃ w, QueueJobs.emitted (Nat.iter n (QueueJobs.forward ref s) q)
       = QueueJobs.emitted q ++ w ∧
       Forall (λ x, x.2 = s) w.
Proof.
  induction n as [|n (w & Hw & Fw)]; [exists []; by rewrite app_nil_r|].
  change (Nat.iter (S n) (QueueJobs.forward ref s) q)
    with (QueueJobs.forward ref s (Nat.iter n (QueueJobs.forward ref s) q)).
  unfold QueueJobs.forward at 1.
  destruct (QueueJobs.store _ !! ref) as [e|]; [|by exists w].
  exists (w ++ [(Job.name (QueueJobs.job e), s)]). unfold_queue.
  rewrite Hw, app_assoc. split; [done|].
  apply Forall_app. split; [done|]. by constructor.
Qed.

(** Signals other than JOB_COMPLETED are delivered. *)
Lemma quiet_signals (next : QueueJobs.t → QueueJobs.t) (ref : nat)
    (l : list Job.Signal) (q : QueueJobs.t) :
  Job.JobEmit JOB_COMPLETED ∉ l →
  let q' := foldl (λ q s, QueueJobs.deliver next ref s q) q l in
  QueueJobs.store q' = QueueJobs.store q ∧
  QueueJobs.queuedJobs q' = QueueJobs.queuedJobs q ∧
  ∃ pre, QueueJobs.emitted q' = QueueJobs.emitted q ++ pre ∧
         Forall (λ x, x.2 ≠ Job.JobEmit JOB_COMPLETED) pre.
Proof.
  cbn zeta. revert q. induction l as [|s l IH]; intros q Hl.
  - repeat split. exists []. by rewrite app_nil_r.
  - cbn [foldl]. apply not_elem_of_cons in Hl as [Hs Hl].
    set (q1 := QueueJobs.deliver next ref s q).
    assert (H1 : QueueJobs.store q1 = QueueJobs.store q ∧
                 QueueJobs.queuedJobs q1 = QueueJobs.queuedJobs q ∧
                 ∃ w, QueueJobs.emitted q1 = QueueJobs.emitted q ++ w ∧
                      Forall (λ x, x.2 = s) w).
    { unfold q1, QueueJobs.deliver.
      destruct (QueueJobs.store q !! ref) as [e|];
        [|repeat split; exists []; by rewrite app_nil_r].
      destruct s as [| [] | |]; try done;
        try (repeat split; exists []; by rewrite app_nil_r).
      - destruct (iter_forward_fields (QueueJobs.forwarders e) ref
                    (Job.JobEmit JOB_STARTED) q) as (A & B & _).
        split; [exact A|]. split; [exact B|]. apply quiet_iter.
      - destruct (iter_forward_fields (QueueJobs.forwarders e) ref
                    (Job.JobOpEmit ev id) q) as (A & B & _).
        split; [exact A|]. split; [exact B|]. apply quiet_iter. }
    destruct H1 as (A1 & B1 & w1 & C1 & D1).
    destruct (IH q1 Hl) as (A2 & B2 & w2 & C2 & D2).
    split; [congruence|]. split; [congruence|].
    exists (w1 ++ w2). rewrite C2, C1, app_assoc. split; [done|].
    apply Forall_app. split; [|done].
    eapply Forall_impl; [exact D1|]. intros x ->. done.
Qed.

(** Listeners of [queueJob] are called. *)
Lemma quiet_listeners (next : QueueJobs.t → QueueJobs.t) (ref : nat)
    (ls : list QueueJobs.Listener) (q : QueueJobs.t) :
  filter (λ l, l ≠ QueueJobs.OnceQueued) ls = [] →
  let q' := foldl (λ q l, QueueJobs.callListener next ref l q) q ls in
  QueueJobs.queuedJobs q' = QueueJobs.queuedJobs q ∧
  QueueJobs.emitted q' = QueueJobs.emitted q ∧
  ∀ r, r ≠ ref → QueueJobs.store q' !! r = QueueJobs.store q !! r.
Proof.
  cbn zeta. revert q. induction ls as [|l ls IH]; intros q Hf; [done|].
  cbn [foldl]. rewrite filter_cons in Hf.
  destruct (decide (l ≠ QueueJobs.OnceQueued)) as [Hl|Hl]; [done|].
  apply dec_stable in Hl as ->.
  destruct (IH (QueueJobs.callListener next ref QueueJobs.OnceQueued q) Hf)
    as (A & B & C).
  cbn [QueueJobs.callListener] in *.
  set (g := λ e : QueueJobs.Entry, QueueJobs.with_promise _ _) in *.
  destruct (export_store ref (QueueJobs.update ref g q)) as (E1 & E2 & _).
  rewrite A, B, E2. split; [done|]. split.
  - unfold QueueJobs.exportJobIfNeeded.
    destruct (QueueJobs.store _ !! ref); [|done].
    by destruct (Queue.hasDir _).
  - intros r Hr. rewrite C, E1 by done. unfold_queue.
    by rewrite list_lookup_alter_ne.
Qed.

Lemma split_wiring (ls : list QueueJobs.Listener) :
  filter (λ l, l ≠ QueueJobs.OnceQueued) ls
  = [QueueJobs.OnCompleted; QueueJobs.Forwarder] →
  ∃ l1 l2 l3,
    ls = l1 ++ QueueJobs.OnCompleted :: l2 ++ QueueJobs.Forwarder :: l3 ∧
    filter (λ l, l ≠ QueueJobs.OnceQueued) l1 = [] ∧
    filter (λ l, l ≠ QueueJobs.OnceQueued) l2 = [] ∧
    filter (λ l, l ≠ QueueJobs.OnceQueued) l3 = [].
Proof.
  assert (Hone : ∀ (x : QueueJobs.Listener) ls w,
            filter (λ l, l ≠ QueueJobs.OnceQueued) ls = x :: w →
            ∃ l1 l2, ls = l1 ++ x :: l2 ∧
              filter (λ l, l ≠ QueueJobs.OnceQueued) l1 = [] ∧
              filter (λ l, l ≠ QueueJobs.OnceQueued) l2 = w).
  { clear ls. intros x ls w. induction ls as [|l ls IH]; [done|].
    rewrite filter_cons. case_decide as Hl.
    - intros [= -> Hw]. by exists [], ls.
    - intros Hf. destruct (IH Hf) as (l1 & l2 & -> & H1 & H2).
      exists (l :: l1), l2. split; [done|]. split; [|done].
      rewrite filter_cons_False; [exact H1|by intros ?]. }
  intros Hf. destruct (Hone _ _ _ Hf) as (l1 & r1 & -> & H1 & H2).
  destruct (Hone _ _ _ H2) as (l2 & l3 & -> & H3 & H4).
  by exists l1, l2, l3.
Qed.

Lemma start_log_head (j : Job.t) :
  unstarted j →
  Job.name (Job.start j) = Job.name j ∧
  ∃ l, Job.log (Job.start j) = Job.JobEmit JOB_STARTED :: l.
Proof.
  intros (name & data & p & ->). split; [apply grows_start|].
  unfold Job.start. rewrite decide_False by done.
  set (j1 := Job.emit JOB_STARTED (Job.with_status STARTED _)).
  assert (H : extends j1 (Job.startNextOperation false j1))
    by apply extends_loop.
  destruct H as (_ & _ & _ & l & Hl & _).
  exists l. exact Hl.
Qed.

(** [startNextJob] with no job running and the job at [b] first in the
    backlog: the first the queue emits is the JOB_STARTED of that job. *)
Lemma first_forward (q : QueueJobs.t) (b : nat) (rest : list nat)
    (eb : QueueJobs.Entry) :
  QueueJobs.currentJob q = None → QueueJobs.queuedJobs q = b :: rest →
  QueueJobs.store q !! b = Some eb → QueueJobs.forwarders eb = 0%nat →
  unstarted (QueueJobs.job eb) →
  ∃ mid, QueueJobs.emitted (QueueJobs.startNextJob q)
         = QueueJobs.emitted q
           ++ (Job.name (QueueJobs.job eb), Job.JobEmit JOB_STARTED) :: mid.
Proof.
  intros Hcur Hq Hb Hfw Hun. unfold QueueJobs.startNextJob.
  rewrite (startNextJob_rec_start _ q b rest Hcur Hq).
  set (f1 := λ e : QueueJobs.Entry,
         QueueJobs.with_listeners (QueueJobs.forwarders e)
           (QueueJobs.completedListeners e ++ [QueueJobs.OnCompleted]) e).
  set (f2 := λ e : QueueJobs.Entry,
         QueueJobs.with_listeners (S (QueueJobs.forwarders e))
           (QueueJobs.completedListeners e ++ [QueueJobs.Forwarder]) e).
  set (q3 := QueueJobs.update b f2 _).
  set (next := QueueJobs.startNextJob_rec _).
  assert (H3 : QueueJobs.store q3 !! b = Some (f2 (f1 eb))).
  { unfold q3. unfold_queue. by rewrite !list_lookup_alter_eq, Hb. }
  unfold QueueJobs.jobStart. rewrite H3. unfold QueueJobs.deliverAll.
  change (QueueJobs.job (f2 (f1 eb))) with (QueueJobs.job eb).
  destruct (start_log_head _ Hun) as (Hname & l & Hlog).
  assert (Hl0 : Job.log (QueueJobs.job eb) = [])
    by (by destruct Hun as (? & ? & ? & ->)).
  rewrite Hl0, Hlog. cbn [length drop foldl].
  set (j' := Job.start (QueueJobs.job eb)) in *.
  set (q4 := QueueJobs.update b (QueueJobs.with_job j') q3).
  assert (H4 : QueueJobs.store q4 !! b
               = Some (QueueJobs.with_job j' (f2 (f1 eb)))).
  { unfold q4. unfold_queue. rewrite list_lookup_alter_eq. by rewrite H3. }
  set (q5 := QueueJobs.deliver next b (Job.JobEmit JOB_STARTED) q4).
  assert (H5 : QueueJobs.emitted q5
               = QueueJobs.emitted q
                 ++ [(Job.name (QueueJobs.job eb), Job.JobEmit JOB_STARTED)]).
  { unfold q5, QueueJobs.deliver. rewrite H4.
    change (QueueJobs.forwarders (QueueJobs.with_job j' (f2 (f1 eb))))
      with (S (QueueJobs.forwarders eb)). rewrite Hfw.
    cbn [Nat.iter nat_rect]. unfold QueueJobs.forward. rewrite H4.
    unfold_queue. by rewrite Hname. }
  destruct (after_signals next b l q5 (after_rec _)) as (_ & _ & w & Hw).
  exists w. rewrite Hw, H5, <- app_assoc. done.
Qed.

Lemma job_names_entry (q q' : QueueJobs.t) (r : nat) (e : QueueJobs.Entry) :
  job_names q' = job_names q → QueueJobs.store q !! r = Some e →
  ∃ e', QueueJobs.store q' !! r = Some e' ∧
        Job.name (QueueJobs.job e') = Job.name (QueueJobs.job e).
Proof.
  intros Hn He.
  assert (H : job_names q' !! r = Some (Job.name (QueueJobs.job e))).
  { rewrite Hn. unfold job_names. by rewrite list_lookup_fmap, He. }
  unfold job_names in H. rewrite list_lookup_fmap in H.
  destruct (QueueJobs.store q' !! r) as [e'|]; [|done].
  injection H as H. by exists e'.
Qed.

(** X22. When a callback of a job makes it emit JOB_COMPLETED while
    another job waits, the queue starts the job that waits first before
    it forwards the JOB_COMPLETED: on the emitter of the queue the
    JOB_STARTED of the next job comes before the JOB_COMPLETED of the
    job that has just completed. *)
Theorem next_started_before_completed_forwarded (dir : option string)
    (evs : list QueueJobs.Event) (q q' : QueueJobs.t) (a b : nat)
    (rest : list nat) (ea eb : QueueJobs.Entry) (ev : Job.Event)
    (j' : Job.t) :
  QueueJobs.run evs (QueueJobs.new dir) = Some q →
  NoDup (job_names q) →
  QueueJobs.queuedJobs q = b :: rest →
  QueueJobs.store q !! b = Some eb →
  QueueJobs.store q !! a = Some ea →
  Job.step ev (QueueJobs.job ea) = Some j' →
  ¬ completed (QueueJobs.job ea) → completed j' →
  QueueJobs.step (QueueJobs.JobEvent a ev) q = Some q' →
  ∃ pre mid post,
    QueueJobs.emitted q'
    = QueueJobs.emitted q ++ pre
      ++ (Job.name (QueueJobs.job eb), Job.JobEmit JOB_STARTED) :: mid
      ++ (Job.name (QueueJobs.job ea), Job.JobEmit JOB_COMPLETED) :: post ∧
    Forall (λ x, x.2 ≠ Job.JobEmit JOB_COMPLETED) pre.
Proof.
  intros Hrun Hnd Hq Hb Ha Hj Hnc Hc Hstep.
  pose proof (run_paid evs _ q Hrun Hnd (paid_new dir)) as Hp.
  cbn [QueueJobs.step] in Hstep. rewrite Ha, Hj in Hstep.
  injection Hstep as <-.
  assert (Haq : a ∉ QueueJobs.queuedJobs q).
  { intros Hin. destruct (pd_queued _ _ Hp a ea Ha Hin) as (_ & _ & Hun & _).
    by rewrite (unstarted_no_step ev _ Hun) in Hj. }
  destruct (pd_started _ _ Hp a ea Ha Haq) as [Hfa Hwa].
  destruct (pd_queued _ _ Hp b eb Hb) as (Hfb & Hwb & Hub & _).
  { rewrite Hq. by left. }
  assert (Hab : b ≠ a).
  { intros ->. apply Haq. rewrite Hq. by left. }
  destruct (extends_step ev _ j' Hj) as (_ & Hname & _ & l & Hl & _).
  unfold QueueJobs.deliverAll. rewrite Hl, drop_app_length.
  assert (Hin : Job.JobEmit JOB_COMPLETED ∈ l).
  { unfold completed in Hc, Hnc. rewrite Hl in Hc.
    apply elem_of_app in Hc as [Hc|Hc]; done. }
  apply list_elem_of_split_l in Hin as (l1 & l2 & -> & Hl1).
  rewrite foldl_app. cbn [foldl].
  set (next := QueueJobs.startNextJob).
  set (q4 := QueueJobs.update a (QueueJobs.with_job j') q).
  assert (H4a : QueueJobs.store q4 !! a = Some (QueueJobs.with_job j' ea)).
  { unfold q4. unfold_queue. by rewrite list_lookup_alter_eq, Ha. }
  assert (H4b : QueueJobs.store q4 !! b = Some eb).
  { unfold q4. unfold_queue. by rewrite list_lookup_alter_ne. }
  assert (N4 : job_names q4 = job_names q).
  { apply job_names_update. intros e He.
    by assert (e = ea) as -> by congruence. }
  destruct (quiet_signals next a l1 q4 Hl1) as (S1 & Q1 & pre & E1 & Fpre).
  pose proof (after_signals next a l1 q4 after_startNextJob) as A1.
  set (qa := foldl _ q4 l1) in *.
  assert (Hd : QueueJobs.deliver next a (Job.JobEmit JOB_COMPLETED) qa
               = foldl (λ q l, QueueJobs.callListener next a l q) qa
                   (QueueJobs.completedListeners ea)).
  { unfold QueueJobs.deliver. by rewrite S1, H4a. }
  rewrite Hd. unfold wiring in Hwa.
  destruct (split_wiring _ Hwa) as (o1 & o2 & o3 & -> & F1 & F2 & F3).
  rewrite foldl_app. cbn [foldl]. rewrite foldl_app. cbn [foldl].
  destruct (quiet_listeners next a o1 qa F1) as (Q2 & E2 & R2).
  pose proof (after_listeners next a o1 qa after_startNextJob) as A2.
  set (q1 := foldl _ qa o1) in *.
  cbn [QueueJobs.callListener]. unfold QueueJobs.handleJobComplete.
  set (qh := QueueJobs.with_current None _).
  destruct (first_forward qh b rest eb) as [mid Hmid]; try done.
  { unfold qh. unfold_queue. by rewrite Q2, Q1. }
  { unfold qh. unfold_queue. by rewrite R2, S1. }
  pose proof (after_startNextJob qh) as A4. fold next in A4, Hmid.
  set (q2 := next qh) in *.
  destruct (quiet_listeners next a o2 q2 F2) as (Q3 & E3 & R3).
  pose proof (after_listeners next a o2 q2 after_startNextJob) as A5.
  set (q3 := foldl _ q2 o2) in *.
  assert (N3 : job_names q3 = job_names q).
  { destruct A1 as [B1 _], A2 as [B2 _], A4 as [B4 _], A5 as [B5 _].
    rewrite B5, B4. change (job_names qh) with (job_names q1).
    by rewrite B2, B1. }
  destruct (job_names_entry q q3 a ea N3 Ha) as (e3 & He3 & Hn3).
  unfold QueueJobs.forward at 1. rewrite He3, Hn3.
  set (q5 := QueueJobs.with_emitted _ q3).
  pose proof (after_listeners next a o3 q5 after_startNextJob) as A6.
  set (q6 := foldl _ q5 o3) in *.
  pose proof (after_signals next a l2 q6 after_startNextJob) as A7.
  destruct (after_trans _ _ _ A6 A7) as (_ & _ & post & Hpost).
  exists pre, mid, post. split; [|exact Fpre].
  rewrite Hpost. unfold q5. unfold_queue. rewrite E3, Hmid.
  change (QueueJobs.emitted qh) with (QueueJobs.emitted q1).
  rewrite E2, E1. change (QueueJobs.emitted q4) with (QueueJobs.emitted q).
  rewrite <- !app_assoc. cbn [app]. by rewrite <- ?app_assoc.
Qed.

Lemma next_started_before_completed_forwarded_witness :
  ∃ q' pre mid post,
    QueueJobs.run
      [QueueJobs.QueueJob "A" ["a"] (Scenario.params 1 1 0);
       QueueJobs.QueueJob "B" ["b"] (Scenario.params 1 1 0);
       QueueJobs.JobEvent 0 (Job.Fire 0);
       QueueJobs.JobEvent 0 (Job.Settle 0 (Resolve "ok"))]
      (QueueJobs.new None) = Some q' ∧
    QueueJobs.emitted q'
    = ([("A", Job.JobEmit JOB_STARTED)]
       ++ [("A", Job.JobOpEmit OPERATION_STARTED "a")])
      ++ pre
      ++ ("B", Job.JobEmit JOB_STARTED) :: mid
      ++ ("A", Job.JobEmit JOB_COMPLETED) :: post.
Proof.
  set (before := [QueueJobs.QueueJob "A" ["a"] (Scenario.params 1 1 0);
                  QueueJobs.QueueJob "B" ["b"] (Scenario.params 1 1 0);
                  QueueJobs.JobEvent 0 (Job.Fire 0)]).
  destruct (QueueJobs.run before (QueueJobs.new None)) as [q|] eqn:Hrun;
    [|vm_compute in Hrun; discriminate].
  destruct (QueueJobs.step
              (QueueJobs.JobEvent 0 (Job.Settle 0 (Resolve "ok"))) q)
    as [q'|] eqn:Hstep;
    [|vm_compute in Hrun; injection Hrun as <-; vm_compute in Hstep;
      discriminate].
  destruct (QueueJobs.store q !! 0%nat) as [ea|] eqn:Ha;
    [|vm_compute in Hrun; injection Hrun as <-; vm_compute in Ha;
      discriminate].
  destruct (QueueJobs.store q !! 1%nat) as [eb|] eqn:Hb;
    [|vm_compute in Hrun; injection Hrun as <-; vm_compute in Hb;
      discriminate].
  destruct (Job.step (Job.Settle 0 (Resolve "ok")) (QueueJobs.job ea))
    as [j'|] eqn:Hj;
    [|vm_compute in Hrun; injection Hrun as <-; vm_compute in Ha;
      injection Ha as <-; vm_compute in Hj; discriminate].
  destruct (next_started_before_completed_forwarded None before q q' 0 1 []
              ea eb (Job.Settle 0 (Resolve "ok")) j' Hrun)
    as (pre & mid & post & H & _); try done.
  - vm_compute in Hrun. injection Hrun as <-.
    unfold job_names. cbn [QueueJobs.store fmap list_fmap QueueJobs.job
                           Job.name].
    apply NoDup_cons. split; [|apply NoDup_singleton].
    intros H%list_elem_of_singleton. discriminate.
  - vm_compute in Hrun. by injection Hrun as <-.
  - vm_compute in Hrun. injection Hrun as <-. vm_compute in Ha.
    injection Ha as <-. unfold completed.
    apply (bool_decide_unpack _). vm_compute. exact I.
  - vm_compute in Hrun. injection Hrun as <-. vm_compute in Ha.
    injection Ha as <-. vm_compute in Hj. injection Hj as <-.
    unfold completed. apply (bool_decide_unpack _). vm_compute. exact I.
  - exists q', pre, mid, post. split.
    + change (QueueJobs.run (before ++ [QueueJobs.JobEvent 0
                (Job.Settle 0 (Resolve "ok"))]) (QueueJobs.new None)
              = Some q').
      vm_compute in Hrun. injection Hrun as <-. exact Hstep.
    + rewrite H. vm_compute in Hrun. injection Hrun as <-.
      vm_compute in Ha. injection Ha as <-. vm_compute in Hb.
      injection Hb as <-. reflexivity.
Defined.

(** ** Calling [start()] twice *)

(** The listeners of OPERATION_STARTED only tell the job's listeners:
    of the operation they touch nothing but its emitter. *)
Lemma callListeners_started (n : nat) (ref : nat) (id : string)
    (op : Operation.t) (j : Job.t) :
  Job.heap j !! ref = Some op →
  ∃ e, Job.heap (Job.callListeners n OPERATION_STARTED ref id j) !! ref
       = Some (Operation.set_events e op).
Proof.
  revert op j. induction n as [|n IH]; intros op j Hop;
    cbn [Job.callListeners].
  - exists (Operation.events op). rewrite Hop. by destruct op.
  - unfold Job.callOnce. rewrite Hop. cbn [Job.listener].
    set (e := Operation.removeOnce OPERATION_STARTED (Operation.events op)).
    destruct (IH (Operation.set_events e op)
                (Job.emitOperation OPERATION_STARTED id
                   (Job.with_heap
                      (<[ref := Operation.set_events e op]> (Job.heap j)) j)))
      as [e' He'].
    + cbn. apply list_lookup_insert_eq. by eapply lookup_lt_Some.
    + exists e'. exact He'.
Qed.

(** [operation.start()] on an operation that is not STARTED leaves it
    STARTED, with one more attempt. *)
Lemma operationStart_started (ref : nat) (op : Operation.t) (j : Job.t) :
  Job.heap j !! ref = Some op → Operation.status op ≠ STARTED →
  ∃ op', Job.heap (Job.operationStart ref j) !! ref = Some op' ∧
         Operation.status op' = STARTED ∧
         Operation.executions op' = S (Operation.executions op).
Proof.
  intros Hop Hst. unfold Job.operationStart, Operation.start.
  rewrite Hop, decide_False by done.
  unfold Job.operationEmitAll. cbn [foldl]. unfold Job.operationEmit.
  set (op1 := {| Operation.id := Operation.id op;
                 Operation.data := Operation.data op;
                 Operation.status := STARTED;
                 Operation.events := Operation.events op;
                 Operation.result := Operation.result op;
                 Operation.timesFailed := Operation.timesFailed op;
                 Operation.executions := S (Operation.executions op) |}).
  set (j1 := Job.with_heap (<[ref := op1]> (Job.heap j)) j).
  assert (H1 : Job.heap j1 !! ref = Some op1).
  { cbn. apply list_lookup_insert_eq. by eapply lookup_lt_Some. }
  rewrite H1.
  destruct (callListeners_started
              (Operation.listenerCount OPERATION_STARTED (Operation.events op1))
              ref (Operation.id op1) op1
              (Job.record (Job.OpEmit ref OPERATION_STARTED) j1) H1)
    as [e He].
  exists (Operation.set_events e op1). split; [exact He|]. by split.
Qed.

(** [operation.start()] on an operation that is STARTED changes
    nothing. *)
Lemma operationStart_again (ref : nat) (op : Operation.t) (j : Job.t) :
  Job.heap j !! ref = Some op → Operation.status op = STARTED →
  Job.operationStart ref j = j.
Proof.
  intros Hop Hst. unfold Job.operationStart, Operation.start.
  rewrite Hop, decide_True by done. cbn.
  rewrite list_insert_id by done. apply with_heap_id.
Qed.

Lemma filter_later_signal (c : Z) (l : list Job.Signal) :
  Forall (later_signal c) l →
  filter (λ x, x = Job.JobEmit JOB_STARTED) l = [].
Proof.
  induction 1 as [|x l [Hx _] _ IH]; [done|].
  by rewrite filter_cons_False.
Qed.

(** C6. A second [start()] while the first is in effect is a no-op.
    For an Operation that is not STARTED, the first call invokes the
    transform once, emits OPERATION_STARTED once and leaves the
    operation STARTED, and the second call returns that operation and
    emits nothing; the same holds of [start()] called twice on an
    operation of a job, as two timers do. For a Job that is not STARTED
    the first call emits JOB_STARTED once; if it leaves the job STARTED,
    the second call returns the job of the first, with its log, its
    timers and its operations; and at every later point of the run the
    job has emitted JOB_STARTED once more than before the first call,
    and a further [start()] while it is STARTED changes nothing. *)
Theorem second_start_is_noop (op : Operation.t) (j : Job.t) :
  (Operation.status op ≠ STARTED →
   ∃ op1, Operation.start op = (op1, [OPERATION_STARTED]) ∧
          Operation.status op1 = STARTED ∧
          Operation.executions op1 = S (Operation.executions op) ∧
          Operation.start op1 = (op1, [])) ∧
  (∀ ref, Job.heap j !! ref = Some op → Operation.status op ≠ STARTED →
     Job.operationStart ref (Job.operationStart ref j)
     = Job.operationStart ref j ∧
     ∃ op1, Job.heap (Job.operationStart ref j) !! ref = Some op1 ∧
            Operation.status op1 = STARTED ∧
            Operation.executions op1 = S (Operation.executions op)) ∧
  (Job.status j ≠ STARTED →
   (∃ l, Job.log (Job.start j) = Job.log j ++ Job.JobEmit JOB_STARTED :: l ∧
         Job.JobEmit JOB_STARTED ∉ l) ∧
   (Job.status (Job.start j) = STARTED →
    Job.start (Job.start j) = Job.start j) ∧
   ∀ sched s, Job.run sched (Job.start j) = Some s →
     Job.count_signal (Job.JobEmit JOB_STARTED) s
     = S (Job.count_signal (Job.JobEmit JOB_STARTED) j) ∧
     (Job.status s = STARTED → Job.start s = s)).
Proof.
  split; [|split].
  - intros Hst. unfold Operation.start at 1. rewrite decide_False by done.
    eexists. split; [reflexivity|]. split; [done|]. split; [done|].
    unfold Operation.start. by rewrite decide_True.
  - intros ref Hop Hst.
    destruct (operationStart_started ref op j Hop Hst) as (op1 & H1 & S1 & E1).
    split; [by apply (operationStart_again ref op1)|]. by exists op1.
  - intros Hst.
    set (j1 := Job.emit JOB_STARTED (Job.with_status STARTED j)).
    assert (Hstart : Job.start j = Job.startNextOperation false j1).
    { unfold Job.start. by rewrite decide_False. }
    assert (H1 : extends j1 (Job.start j))
      by (rewrite Hstart; apply extends_loop).
    assert (Hlog : Job.log j1 = Job.log j ++ [Job.JobEmit JOB_STARTED])
      by done.
    split; [|split].
    + destruct H1 as (_ & _ & _ & l & Hl & Pl). exists l.
      rewrite Hl, Hlog, <- app_assoc. split; [done|].
      intros Hin. rewrite Forall_forall in Pl.
      by destruct (Pl _ Hin) as [Hne _].
    + intros Hs. unfold Job.start at 1. by rewrite decide_True.
    + intros sched s Hrun. split.
      * pose proof (extends_trans _ _ _ H1 (extends_run sched _ s Hrun))
          as (_ & _ & _ & l & Hl & Pl).
        unfold Job.count_signal. rewrite Hl, Hlog, !filter_app.
        rewrite (filter_later_signal _ l Pl), app_nil_r.
        rewrite filter_cons_True by done. rewrite filter_nil.
        rewrite length_app. cbn [length]. lia.
      * intros Hs. unfold Job.start. by rewrite decide_True.
Qed.

Lemma second_start_is_noop_witness :
  Job.start (Job.start Scenario.failing) = Job.start Scenario.failing ∧
  Job.operationStart 0 (Job.operationStart 0 (Job.start Scenario.failing))
  = Job.operationStart 0 (Job.start Scenario.failing).
Proof.
  split.
  - destruct (second_start_is_noop (Operation.new "a" "a") Scenario.failing)
      as (_ & _ & H).
    destruct H as (_ & H & _); [discriminate|].
    apply H. reflexivity.
  - destruct (second_start_is_noop
                {| Operation.id := "a"; Operation.data := "a";
                   Operation.status := PENDING;
                   Operation.events :=
                     {| Operation.onceStarted := 1;
                        Operation.onceCompleted := 1;
                        Operation.onceFailed := 1 |};
                   Operation.result := None; Operation.timesFailed := 0;
                   Operation.executions := 0 |}
                (Job.start Scenario.failing))
      as (_ & H & _).
    destruct (H 0%nat) as [H' _]; [reflexivity | discriminate | exact H'].
Defined.

(** ** Calling [start()] on a job that is COMPLETED *)




(** ** The retry budget, once it is used up *)

(** C4 on [Scenario.failing2]: one operation, a budget of two failures,
    every attempt fails. The doubled OPERATION_FAILED of the first
    failure makes the job take the operation on twice, so two [start()]
    timers are pending. The first starts the second attempt; when that
    has failed the budget is used up: the operation is FAILED, stands in
    the completed list and the job is COMPLETED, with the other timer
    still pending. When it fires the transform is invoked a third time,
    and once that attempt has failed [timesFailed] is 3. *)
Theorem attempted_again_after_budget :
  Job.maxFailuresPerOperation Scenario.failing2 = 2 ∧
  rejects_only 0 Scenario.failing2_late_sched = true ∧
  ∃ j2 j3 j4 op2 op3 op4,
    Job.run (take 4 Scenario.failing2_late_sched)
      (Job.start Scenario.failing2) = Some j2 ∧
    Job.heap j2 = [op2] ∧
    Operation.status op2 = FAILED ∧ Operation.timesFailed op2 = 2 ∧
    Operation.executions op2 = 2%nat ∧
    finalized 0 j2 ∧ Job.status j2 = COMPLETED ∧
    Job.timers j2 = [Job.TStart 0 500] ∧
    Job.step (Job.Fire 0) j2 = Some j3 ∧
    Job.heap j3 = [op3] ∧
    Operation.status op3 = STARTED ∧ Operation.executions op3 = 3%nat ∧
    Job.step (Job.Settle 0 (Reject "err")) j3 = Some j4 ∧
    Job.run Scenario.failing2_late_sched (Job.start Scenario.failing2)
    = Some j4 ∧
    Job.heap j4 = [op4] ∧
    Operation.status op4 = FAILED ∧ Operation.timesFailed op4 = 3 ∧
    Operation.executions op4 = 3%nat ∧
    Job.quiescent j4 = true.
Proof.
  split; [reflexivity|]. split; [reflexivity|].
  do 6 eexists.
  split; [vm_compute; reflexivity|].
  split; [reflexivity|].
  split; [reflexivity|]. split; [reflexivity|]. split; [reflexivity|].
  split; [unfold finalized; cbn; apply list_elem_of_here|].
  split; [reflexivity|]. split; [reflexivity|].
  split; [vm_compute; reflexivity|].
  split; [reflexivity|].
  split; [reflexivity|]. split; [reflexivity|].
  split; [vm_compute; reflexivity|].
  split; [vm_compute; reflexivity|].
  split; [reflexivity|].
  repeat split; reflexivity.
Qed.
